(** * Elemental: pivoted LDL factorisation, distribution proxies and the
      getDiagonal dispatch table

    A shallow embedding of
    - [include/elemental/lapack-like/LDL/Pivoted.hpp] (pivot selection, the
      unblocked, panel and blocked pivoted LDL drivers),
    - the [DistMatrix*Proxy] classes of the proxy header, and
    - the distribution dispatch of [ElDistMatrixCreateSpecific_*] and
      [ElDistMatrixGetDiagonal_*] of [src/core/DistMatrix-C.cpp].

    The element type [F] of the templates is instantiated with the real
    field: scalars are Stdlib's [R], so that every statement below is an
    exact equation or inequality (no rounding).  Indices and sizes ([Int] in
    the source, never negative on the paths modelled) are [nat]. *)

From stdpp Require Import base option gmap.
From Stdlib Require Import Reals Lra Lia List Arith Bool String
  FunctionalExtensionality.
Import ListNotations.

Local Open Scope R_scope.

(** ** Scalars: boolean views of the comparisons of the source *)

Definition Rgeb (x y : R) : bool := if Rge_dec x y then true else false.
Definition Rgtb (x y : R) : bool := if Rgt_dec x y then true else false.
Definition Reqb (x y : R) : bool := if Req_dec_T x y then true else false.

(** [Abs] and [Max] of the source on real scalars. *)
Definition Abs (x : R) : R := Rabs x.
Definition Max (x y : R) : R := Rmax x y.

(** Finite sum [f 0 + ... + f (k-1)], the inner product loop of the BLAS
    calls. *)
Fixpoint Rsum (f : nat -> R) (k : nat) : R :=
  match k with
  | O => 0
  | S k' => Rsum f k' + f k'
  end.

(** ** Matrix<F> and its views *)

Record Matrix : Type := mkMatrix
  { Height : nat;
    Width  : nat;
    Get    : nat -> nat -> R }.

(** [LockedViewRange(A,iBeg,jBeg,iEnd,jEnd)] and [ViewRange]: the block of
    rows [iBeg..iEnd-1] and columns [jBeg..jEnd-1]. *)
Definition LockedViewRange (A : Matrix) (iBeg jBeg iEnd jEnd : nat) : Matrix :=
  mkMatrix (iEnd - iBeg) (jEnd - jBeg)
           (fun i j => Get A (iBeg + i) (jBeg + j)).

Definition ViewRange := LockedViewRange.

(** A vector is a matrix with one column or one row; [vecLen] and [vecGet]
    read it the way the level-1 and level-2 routines do. *)
Definition vecLen (x : Matrix) : nat :=
  if Nat.eqb (Width x) 1 then Height x else Width x.

Definition vecGet (x : Matrix) (i : nat) : R :=
  if Nat.eqb (Width x) 1 then Get x i 0%nat else Get x 0%nat i.

(** [ValueInt<Real>]: a magnitude together with the position attaining it. *)
Record ValueInt : Type := mkValueInt
  { value : R;
    index : nat }.

(** Modelled from the spec: [VectorMax] of blas-like/level1/Max.hpp, which is
    not among the sources.  It scans the vector once, starting from the pair
    (value 0, index 0), and moves to an entry whose magnitude is strictly
    larger; the result is the maximum magnitude and the first position
    attaining it. *)
Fixpoint VectorMax_scan (x : nat -> R) (m : nat) : ValueInt :=
  match m with
  | O => mkValueInt 0 0
  | S m' =>
      let pivot := VectorMax_scan x m' in
      if Rgtb (Abs (x m')) (value pivot)
      then mkValueInt (Abs (x m')) m'
      else pivot
  end.

Definition VectorMax (x : Matrix) : ValueInt :=
  VectorMax_scan (vecGet x) (vecLen x).

(** Modelled from the spec: [Gemv(NORMAL,alpha,A,x,beta,y)] of the level-2
    BLAS layer, which is not among the sources: [y := alpha A x + beta y],
    with [x] and [y] given as row or column vectors; [y] keeps its shape. *)
Definition Gemv (alpha : R) (A x : Matrix) (beta : R) (y : Matrix) : Matrix :=
  let entry := fun i =>
    alpha * Rsum (fun l => Get A i l * vecGet x l) (Width A) + beta * vecGet y i in
  mkMatrix (Height y) (Width y)
           (fun i j => if Nat.eqb (Width y) 1 then entry i else entry j).

(** ** Results of fallible routines *)

Inductive Error : Type :=
| SingularMatrixException
| LogicError (what : string).

(** A call returns, throws, or (for the [while] loops, which are run with a
    bound on the number of iterations) is still running when the bound is
    reached. *)
Inductive Result (T : Type) : Type :=
| Return (v : T)
| Throw (e : Error)
| OutOfFuel.
Arguments Return {T} v.
Arguments Throw {T} e.
Arguments OutOfFuel {T}.

Definition bind {T U : Type} (c : Result T) (k : T -> Result U) : Result U :=
  match c with
  | Return v => k v
  | Throw e => Throw e
  | OutOfFuel => OutOfFuel
  end.

Notation "x <- c ;; k" := (bind c (fun x => k))
  (at level 90, c at next level, right associativity).

(** [LDLPivot]: the block size [nb] is the tag; [from[1]] exists only for a
    2x2 block. *)
Inductive LDLPivot : Type :=
| Pivot1x1 (from0 : nat)
| Pivot2x2 (from0 from1 : nat).

Definition nb (p : LDLPivot) : nat :=
  match p with Pivot1x1 _ => 1 | Pivot2x2 _ _ => 2 end.

Definition from0 (p : LDLPivot) : nat :=
  match p with Pivot1x1 f => f | Pivot2x2 f _ => f end.

(** [pivot.from[pivot.nb-1]] *)
Definition fromLast (p : LDLPivot) : nat :=
  match p with Pivot1x1 f => f | Pivot2x2 _ f => f end.

(** ** Element-wise mutation and the BLAS-like updates of the drivers *)

(** [A.Set(i,j,v)] *)
Definition MSet (A : Matrix) (i j : nat) (v : R) : Matrix :=
  mkMatrix (Height A) (Width A)
    (fun i' j' => if Nat.eqb i' i && Nat.eqb j' j then v else Get A i' j').

(** Writing through a view: the entries of [A] in the block that starts at
    [(iBeg,jBeg)] and has the shape of [B] become those of [B]. *)
Definition Paste (A : Matrix) (iBeg jBeg : nat) (B : Matrix) : Matrix :=
  mkMatrix (Height A) (Width A)
    (fun i j =>
       if Nat.leb iBeg i && Nat.ltb i (iBeg + Height B)
          && Nat.leb jBeg j && Nat.ltb j (jBeg + Width B)
       then Get B (i - iBeg) (j - jBeg)
       else Get A i j).

(** [Zeros( A, m, n )] and [A.ResizeTo( m, n )] (entries inside the new
    shape are kept; the drivers only shrink the width). *)
Definition Zeros (m n : nat) : Matrix := mkMatrix m n (fun _ _ => 0).
Definition ResizeTo (A : Matrix) (m n : nat) : Matrix := mkMatrix m n (Get A).

(** The transposition of two indices. *)
Definition transp (a b i : nat) : nat :=
  if Nat.eqb i a then b else if Nat.eqb i b then a else i.

(** The symmetric matrix stored in the lower triangle of [A]. *)
Definition symGet (A : Matrix) (i j : nat) : R :=
  if Nat.leb j i then Get A i j else Get A j i.

(** Modelled from the spec: [SymmetricSwap( LOWER, A, to, from )] of
    blas-like/level1/Swap.hpp, which is not among the sources: the symmetric
    permutation exchanging row/column [to] with row/column [from] of the
    symmetric matrix stored in the lower triangle; entries above the
    diagonal are not touched. *)
Definition SymmetricSwap (A : Matrix) (to from : nat) : Matrix :=
  mkMatrix (Height A) (Width A)
    (fun i j =>
       if Nat.leb j i
       then symGet A (transp to from i) (transp to from j)
       else Get A i j).

(** Modelled from the spec: [RowSwap( X, to, from )] of the same header. *)
Definition RowSwap (X : Matrix) (to from : nat) : Matrix :=
  mkMatrix (Height X) (Width X) (fun i j => Get X (transp to from i) j).

(** Modelled from the spec: [Scale( alpha, x )]. *)
Definition Scale (alpha : R) (x : Matrix) : Matrix :=
  mkMatrix (Height x) (Width x) (fun i j => alpha * Get x i j).

(** Modelled from the spec: [Syr( LOWER, alpha, x, A )] of
    blas-like/level2/Syr.hpp: [A := A + alpha x x^T] on the lower
    triangle. *)
Definition Syr (alpha : R) (x A : Matrix) : Matrix :=
  mkMatrix (Height A) (Width A)
    (fun i j =>
       if Nat.leb j i then Get A i j + alpha * (vecGet x i * vecGet x j)
       else Get A i j).

(** Modelled from the spec: [Trr2( LOWER, alpha, X, Y, A )] of
    blas-like/level2/Trr2.hpp: [A := A + alpha X Y^T] on the lower triangle,
    [X] and [Y] having two columns. *)
Definition Trr2 (alpha : R) (X Y A : Matrix) : Matrix :=
  mkMatrix (Height A) (Width A)
    (fun i j =>
       if Nat.leb j i
       then Get A i j + alpha * (Get X i 0 * Get Y j 0 + Get X i 1 * Get Y j 1)
       else Get A i j).

(** Modelled from the spec: [Trrk( LOWER, NORMAL, TRANSPOSE, alpha, A, B,
    beta, C )]: [C := alpha A B^T + beta C] on the lower triangle. *)
Definition Trrk (alpha : R) (A B : Matrix) (beta : R) (C : Matrix) : Matrix :=
  mkMatrix (Height C) (Width C)
    (fun i j =>
       if Nat.leb j i
       then alpha * Rsum (fun l => Get A i l * Get B j l) (Width A)
            + beta * Get C i j
       else Get C i j).

(** Modelled from the spec: [Gemm( NORMAL, TRANSPOSE, alpha, A, B, beta, C )]:
    [C := alpha A B^T + beta C]. *)
Definition Gemm (alpha : R) (A B : Matrix) (beta : R) (C : Matrix) : Matrix :=
  mkMatrix (Height C) (Width C)
    (fun i j =>
       alpha * Rsum (fun l => Get A i l * Get B j l) (Width A)
       + beta * Get C i j).

(** Modelled from the spec: [Symmetric2x2Solve( RIGHT, LOWER, D, A )] of
    blas-like/level1/Symmetric2x2Solve.hpp: [A := A inv(D)] for the
    symmetric 2x2 matrix stored in the lower triangle of [D]. *)
Definition Symmetric2x2Solve (D A : Matrix) : Matrix :=
  let delta11 := Get D 0 0 in
  let delta21 := Get D 1 0 in
  let delta22 := Get D 1 1 in
  let det := delta11 * delta22 - delta21 * delta21 in
  mkMatrix (Height A) (Width A)
    (fun i j =>
       match j with
       | O => (Get A i 0 * delta22 - Get A i 1 * delta21) / det
       | S O => (Get A i 1 * delta11 - Get A i 0 * delta21) / det
       | _ => Get A i j
       end).

(** Modelled from the spec: [DiagonalMax] of blas-like/level1/Max.hpp: the
    maximum magnitude on the diagonal and the first position attaining it. *)
Definition DiagonalMax (A : Matrix) : ValueInt :=
  VectorMax_scan (fun j => Get A j j) (Nat.min (Height A) (Width A)).

(** [ValueIntPair<Real>] *)
Record ValueIntPair : Type := mkValueIntPair
  { pvalue : R;
    indices : nat * nat }.

(** Modelled from the spec: [SymmetricMax( LOWER, A )] of the same header:
    the maximum magnitude in the strict lower triangle and the (row, column)
    position attaining it, columns scanned left to right and each column
    top to bottom. *)
Fixpoint SymmetricMax_col (A : Matrix) (j : nat) (m : nat)
  (pivot : ValueIntPair) : ValueIntPair :=
  match m with
  | O => pivot
  | S m' =>
      let pivot := SymmetricMax_col A j m' pivot in
      let i := (j + 1 + m')%nat in
      if Rgtb (Abs (Get A i j)) (pvalue pivot)
      then mkValueIntPair (Abs (Get A i j)) (i, j)
      else pivot
  end.

Fixpoint SymmetricMax_cols (A : Matrix) (c : nat) : ValueIntPair :=
  match c with
  | O => mkValueIntPair 0 (0%nat, 0%nat)
  | S c' =>
      SymmetricMax_col A c' (Height A - (c' + 1)) (SymmetricMax_cols A c')
  end.

Definition SymmetricMax (A : Matrix) : ValueIntPair :=
  SymmetricMax_cols A (Height A).

Module ldl.
Module pivot.

(** [(1+Sqrt(Real(17)))/8] and [Real(525)/1000] *)
Definition gammaA : R := (1 + sqrt 17) / 8.
Definition gammaD : R := 525 / 1000.

(** [if( gamma == Real(0) ) gamma = dflt;] *)
Definition defaultGamma (dflt gamma : R) : R :=
  if Reqb gamma 0 then dflt else gamma.

(** [a21Max]: the search below the diagonal of column 0. *)
Definition a21Max (A : Matrix) : ValueInt :=
  VectorMax (LockedViewRange A 1 0 (Height A) 1).

(** [rowMaxVal] of [BunchKaufmanA]: row [r] left of the diagonal and
    column [r] strictly below it. *)
Definition rowMaxValA (A : Matrix) (r : nat) : R :=
  let n := Height A in
  let leftMax := VectorMax (LockedViewRange A r 0 (r+1) r) in
  let bottomMax := VectorMax (LockedViewRange A (r+1) r n (r+1)) in
  Max (value leftMax) (value bottomMax).

(** [rowMaxVal] of [BunchKaufmanD]: the bottom view starts at row [r]. *)
Definition rowMaxValD (A : Matrix) (r : nat) : R :=
  let n := Height A in
  let leftMax := VectorMax (LockedViewRange A r 0 (r+1) r) in
  let bottomMax := VectorMax (LockedViewRange A r r n (r+1)) in
  Max (value leftMax) (value bottomMax).

(** [BunchKaufmanA( const Matrix<F>& A, Base<F> gamma )] *)
Definition BunchKaufmanA (A : Matrix) (gamma : R) : Result LDLPivot :=
  let gamma := defaultGamma gammaA gamma in
  let alpha11Abs := Abs (Get A 0 0) in
  let a21Max := a21Max A in
  if Reqb (value a21Max) 0 && Reqb alpha11Abs 0 then
    Throw SingularMatrixException
  else if Rgeb alpha11Abs (gamma * value a21Max) then
    Return (Pivot1x1 0)
  else
    let r := (index a21Max + 1)%nat in
    let rowMaxVal := rowMaxValA A r in
    if Rgeb alpha11Abs (gamma * value a21Max * (value a21Max / rowMaxVal)) then
      Return (Pivot1x1 0)
    else if Rgeb (Abs (Get A r r)) (gamma * rowMaxVal) then
      Return (Pivot1x1 r)
    else
      Return (Pivot2x2 0 r).

(** [BunchKaufmanD( const Matrix<F>& A, Base<F> gamma )] *)
Definition BunchKaufmanD (A : Matrix) (gamma : R) : Result LDLPivot :=
  let gamma := defaultGamma gammaD gamma in
  let alpha11Abs := Abs (Get A 0 0) in
  let a21Max := a21Max A in
  if Reqb (value a21Max) 0 && Reqb alpha11Abs 0 then
    Throw SingularMatrixException
  else if Rgeb alpha11Abs (gamma * value a21Max) then
    Return (Pivot1x1 0)
  else
    let r := (index a21Max + 1)%nat in
    let rowMaxVal := rowMaxValD A r in
    if Rgeb alpha11Abs (gamma * value a21Max * (value a21Max / rowMaxVal)) then
      Return (Pivot1x1 0)
    else
      Return (Pivot2x2 0 r).

(** The three lazily corrected vectors of the panel variants.  [zB1] is
    column [k] from the diagonal down, [zLeft] is row [r] between columns
    [k] and [r-1], [zBottom] is column [r] from the diagonal down; each is a
    copy of the view of [A] corrected by [-X Y^T] restricted to the first
    [k] columns of the update factors. *)
Definition zB1 (A X Y : Matrix) (k : nat) : Matrix :=
  let n := Height A in
  let aB1 := LockedViewRange A k k n (k+1) in
  let XBL := LockedViewRange X k 0 n k in
  let yRow := LockedViewRange Y k 0 (k+1) k in
  Gemv (-1) XBL yRow 1 aB1.

Definition zLeft (A X Y : Matrix) (k r : nat) : Matrix :=
  let aLeft := LockedViewRange A r k (r+1) r in
  let xMid := LockedViewRange X r 0 (r+1) k in
  let YBL := LockedViewRange Y k 0 r k in
  Gemv (-1) YBL xMid 1 aLeft.

Definition zBottom (A X Y : Matrix) (k r : nat) : Matrix :=
  let n := Height A in
  let aBottom := LockedViewRange A r r n (r+1) in
  let XBL := LockedViewRange X r 0 n k in
  let yRow := LockedViewRange Y r 0 (r+1) k in
  Gemv (-1) XBL yRow 1 aBottom.

(** [alpha11Abs] and [a21Max] of the panel variants. *)
Definition panelAlpha11Abs (A X Y : Matrix) (k : nat) : R :=
  Abs (Get (zB1 A X Y k) 0 0).

Definition panelA21Max (A X Y : Matrix) (k : nat) : ValueInt :=
  VectorMax (LockedViewRange (zB1 A X Y k) 1 0 (Height A - k) 1).

(** [rowMaxVal] of [PanelBunchKaufmanA].  [zStrictBottom] is a view into
    the buffer of [zBottom], so it reads the corrected entries. *)
Definition panelRowMaxValA (A X Y : Matrix) (k r : nat) : R :=
  let n := Height A in
  let zStrictBottom := ViewRange (zBottom A X Y k r) 1 0 (n-r) 1 in
  let leftMax := VectorMax (zLeft A X Y k r) in
  let bottomMax := VectorMax zStrictBottom in
  Max (value leftMax) (value bottomMax).

(** [rowMaxVal] of [PanelBunchKaufmanD]. *)
Definition panelRowMaxValD (A X Y : Matrix) (k r : nat) : R :=
  let leftMax := VectorMax (zLeft A X Y k r) in
  let bottomMax := VectorMax (zBottom A X Y k r) in
  Max (value leftMax) (value bottomMax).

(** [PanelBunchKaufmanA( A, X, Y, k, gamma )] *)
Definition PanelBunchKaufmanA (A X Y : Matrix) (k : nat) (gamma : R)
  : Result LDLPivot :=
  let gamma := defaultGamma gammaA gamma in
  let alpha11Abs := panelAlpha11Abs A X Y k in
  let a21Max := panelA21Max A X Y k in
  if Reqb (value a21Max) 0 && Reqb alpha11Abs 0 then
    Throw SingularMatrixException
  else if Rgeb alpha11Abs (gamma * value a21Max) then
    Return (Pivot1x1 k)
  else
    let r := (index a21Max + (k+1))%nat in
    let rowMaxVal := panelRowMaxValA A X Y k r in
    if Rgeb alpha11Abs (gamma * value a21Max * (value a21Max / rowMaxVal)) then
      Return (Pivot1x1 k)
    else if Rgeb (Abs (Get (zBottom A X Y k r) 0 0)) (gamma * rowMaxVal) then
      Return (Pivot1x1 r)
    else
      Return (Pivot2x2 k r).

(** [PanelBunchKaufmanD( A, X, Y, k, gamma )] *)
Definition PanelBunchKaufmanD (A X Y : Matrix) (k : nat) (gamma : R)
  : Result LDLPivot :=
  let gamma := defaultGamma gammaD gamma in
  let alpha11Abs := panelAlpha11Abs A X Y k in
  let a21Max := panelA21Max A X Y k in
  if Reqb (value a21Max) 0 && Reqb alpha11Abs 0 then
    Throw SingularMatrixException
  else if Rgeb alpha11Abs (gamma * value a21Max) then
    Return (Pivot1x1 k)
  else
    let r := (index a21Max + (k+1))%nat in
    let rowMaxVal := panelRowMaxValD A X Y k r in
    if Rgeb alpha11Abs (gamma * value a21Max * (value a21Max / rowMaxVal)) then
      Return (Pivot1x1 k)
    else
      Return (Pivot2x2 k r).

(** [BunchParlett( const Matrix<F>& A, Base<F> gamma )]: it has no [throw]
    statement; the result is a plain pivot record. *)
Definition BunchParlett (A : Matrix) (gamma : R) : LDLPivot :=
  let gamma := defaultGamma gammaA gamma in
  let diagMax := DiagonalMax A in
  let offDiagMax := SymmetricMax A in
  if Rgeb (value diagMax) (gamma * pvalue offDiagMax) then
    Pivot1x1 (index diagMax)
  else
    Pivot2x2 (fst (indices offDiagMax)) (snd (indices offDiagMax)).

End pivot.

(** [LDLPivotType].  The declaration is not among the sources; the four
    enumerators named in Pivoted.hpp are listed, together with the one that
    reaches the [default:] branches of [ChoosePivot]. *)
Inductive LDLPivotType : Type :=
| BUNCH_KAUFMAN_A
| BUNCH_KAUFMAN_C
| BUNCH_KAUFMAN_D
| BUNCH_KAUFMAN_BOUNDED
| BUNCH_PARLETT.

Definition is_BUNCH_KAUFMAN_C (t : LDLPivotType) : bool :=
  match t with BUNCH_KAUFMAN_C => true | _ => false end.

(** [ChoosePivot( A, pivotType, gamma )] *)
Definition ChoosePivot (A : Matrix) (pivotType : LDLPivotType) (gamma : R)
  : Result LDLPivot :=
  match pivotType with
  | BUNCH_KAUFMAN_A | BUNCH_KAUFMAN_C => pivot.BunchKaufmanA A gamma
  | BUNCH_KAUFMAN_D => pivot.BunchKaufmanD A gamma
  | BUNCH_PARLETT => Return (pivot.BunchParlett A gamma)
  | _ => Throw (LogicError "This pivot type not yet supported")
  end.

(** [ChoosePanelPivot( A, X, Y, k, pivotType, gamma )] *)
Definition ChoosePanelPivot (A X Y : Matrix) (k : nat)
  (pivotType : LDLPivotType) (gamma : R) : Result LDLPivot :=
  match pivotType with
  | BUNCH_KAUFMAN_A | BUNCH_KAUFMAN_C => pivot.PanelBunchKaufmanA A X Y k gamma
  | BUNCH_KAUFMAN_D => pivot.PanelBunchKaufmanD A X Y k gamma
  | _ => Throw (LogicError "This pivot type not yet supported")
  end.

(** For real scalars [Conjugate] and [MakeReal] leave the entries as they
    are; the [conjugate] flag of the drivers is kept, and both branches of
    each [if( conjugate )] are written out. *)
Definition Conjugate (A : Matrix) : Matrix := A.
Definition MakeReal (A : Matrix) (i j : nat) : Matrix := A.

(** The outputs of the unblocked and blocked drivers: the overwritten [A],
    the sub-diagonal [dSub] of the block-diagonal factor and the pivot
    vector [p]. *)
Record LDLState : Type := mkLDLState
  { stA : Matrix;
    stdSub : Matrix;
    stp : list nat }.

(** The data [PanelPivoted] works on: the above and the update factors. *)
Record PanelState : Type := mkPanelState
  { pnA : Matrix;
    pndSub : Matrix;
    pnp : list nat;
    pnX : Matrix;
    pnY : Matrix }.

(** *** UnblockedPivoted *)

(** The entry [ABR.Get(0,0)] whose inverse the 1x1 branch takes, read after
    the symmetric swap. *)
Definition delta11 (A : Matrix) (k from : nat) : R :=
  let n := Height A in
  Get (ViewRange (SymmetricSwap A k from) k k n n) 0 0.

(** The body of the branch [pivot.nb == 1]. *)
Definition Unblocked1x1 (A : Matrix) (k from : nat) : Matrix :=
  let n := Height A in
  let delta11Inv := 1 / delta11 A k from in
  let A := SymmetricSwap A k from in
  let ABR := ViewRange A k k n n in
  let a21 := ViewRange ABR 1 0 (n-k) 1 in
  let A22 := ViewRange ABR 1 1 (n-k) (n-k) in
  let A := Paste A (k+1) (k+1) (Syr (- delta11Inv) a21 A22) in
  let a21 := ViewRange (ViewRange A k k n n) 1 0 (n-k) 1 in
  Paste A (k+1) k (Scale delta11Inv a21).

(** The body of the branch [pivot.nb == 2]: the new [A] and the entry
    stored in [dSub]. *)
Definition Unblocked2x2 (A : Matrix) (k from0 from1 : nat) : Matrix * R :=
  let n := Height A in
  let A := SymmetricSwap A k from0 in
  let A := SymmetricSwap A (k+1) from1 in
  let ABR := ViewRange A k k n n in
  let D11 := ViewRange ABR 0 0 2 2 in
  let A21 := ViewRange ABR 2 0 (n-k) 2 in
  let A22 := ViewRange ABR 2 2 (n-k) (n-k) in
  let Y21 := A21 in
  let A21 := Symmetric2x2Solve D11 A21 in
  let A := Paste A (k+2) k A21 in
  let A := Paste A (k+2) (k+2) (Trr2 (-1) A21 Y21 A22) in
  (MSet A (k+1) k 0, Get D11 1 0).

Fixpoint UnblockedPivoted_loop (fuel : nat) (conjugate : bool)
  (pivotType : LDLPivotType) (gamma : R) (st : LDLState) (k : nat)
  : Result LDLState :=
  let n := Height (stA st) in
  if Nat.leb n k then Return st else
  match fuel with
  | O => OutOfFuel
  | S fuel' =>
      let ABR := ViewRange (stA st) k k n n in
      if is_BUNCH_KAUFMAN_C pivotType then
        Throw (LogicError "Have not yet generalized pivot storage")
      else
        pivot <- ChoosePivot ABR pivotType gamma ;;
        match pivot with
        | Pivot1x1 f =>
            let from := (k + f)%nat in
            let A := Unblocked1x1 (stA st) k from in
            UnblockedPivoted_loop fuel' conjugate pivotType gamma
              (mkLDLState A (stdSub st) (<[k := from]> (stp st))) (k + 1)
        | Pivot2x2 f0 f1 =>
            let from0 := (k + f0)%nat in
            let from1 := (k + f1)%nat in
            let '(A, d) := Unblocked2x2 (stA st) k from0 from1 in
            UnblockedPivoted_loop fuel' conjugate pivotType gamma
              (mkLDLState A (MSet (stdSub st) k 0 d)
                 (<[(k+1)%nat := from1]> (<[k := from0]> (stp st)))) (k + 2)
        end
  end.

(** [UnblockedPivoted( A, dSub, p, conjugate, pivotType, gamma )].  The
    entries of [p] after [ResizeTo] are shown as 0 until they are set.  The
    loop advances [k] in every iteration, so [n] iterations are enough. *)
Definition UnblockedPivoted (A : Matrix) (conjugate : bool)
  (pivotType : LDLPivotType) (gamma : R) : Result LDLState :=
  let n := Height A in
  if Nat.eqb n 0 then Return (mkLDLState A (Zeros 0 1) [])
  else
    UnblockedPivoted_loop n conjugate pivotType gamma
      (mkLDLState A (Zeros (n-1) 1) (replicate n 0%nat)) 0.

(** *** PanelPivoted *)

(** The body of the branch [pivot.nb == 1], after the symmetric pivot has
    been applied to [A], [X] and [Y]. *)
Definition Panel1x1 (conjugate : bool) (off k : nat) (A X Y : Matrix)
  : Matrix * Matrix * Matrix :=
  let n := Height A in
  let ABR := ViewRange A off off n n in
  let XB0 := LockedViewRange X k 0 (n-off) k in
  let y10 := LockedViewRange Y k 0 (k+1) k in
  let aB1 := ViewRange ABR k k (n-off) (k+1) in
  let aB1 := Gemv (-1) XB0 y10 1 aB1 in
  let aB1 := if conjugate then MakeReal aB1 0 0 else aB1 in
  let A := Paste A (off+k) (off+k) aB1 in
  let ABR := ViewRange A off off n n in
  let delta11Inv := 1 / Get ABR k k in
  let a21 := ViewRange ABR (k+1) k (n-off) (k+1) in
  let Y := Paste Y (k+1) k (if conjugate then Conjugate a21 else a21) in
  let a21 := Scale delta11Inv a21 in
  let A := Paste A (off+k+1) (off+k) a21 in
  let X := Paste X (k+1) k a21 in
  (A, X, Y).

(** The body of the branch [pivot.nb == 2]: the new [A], [X], [Y] and the
    entry stored in [dSub]. *)
Definition Panel2x2 (conjugate : bool) (off k : nat) (A X Y : Matrix)
  : Matrix * Matrix * Matrix * R :=
  let n := Height A in
  let ABR := ViewRange A off off n n in
  let XB0 := LockedViewRange X k 0 (n-off) k in
  let Y10 := LockedViewRange Y k 0 (k+2) k in
  let AB1 := ViewRange ABR k k (n-off) (k+2) in
  let psi := Get AB1 0 1 in
  let AB1 := Gemm (-1) XB0 Y10 1 AB1 in
  let AB1 := MSet AB1 0 1 psi in
  let AB1 := if conjugate then MakeReal (MakeReal AB1 0 0) 1 1 else AB1 in
  let A := Paste A (off+k) (off+k) AB1 in
  let ABR := ViewRange A off off n n in
  let D11 := ViewRange ABR k k (k+2) (k+2) in
  let A21 := ViewRange ABR (k+2) k (n-off) (k+2) in
  let Y := Paste Y (k+2) k (if conjugate then Conjugate A21 else A21) in
  let A21 := Symmetric2x2Solve D11 A21 in
  let A := Paste A (off+k+2) (off+k) A21 in
  let X := Paste X (k+2) k A21 in
  (MSet A (off+k+1) (off+k) 0, X, Y, Get D11 1 0).

Fixpoint PanelPivoted_loop (fuel : nat) (bsize off : nat) (conjugate : bool)
  (pivotType : LDLPivotType) (gamma : R) (st : PanelState) (k : nat)
  : Result PanelState :=
  let n := Height (pnA st) in
  if Nat.leb bsize k then Return st else
  match fuel with
  | O => OutOfFuel
  | S fuel' =>
      let ABR := ViewRange (pnA st) off off n n in
      if is_BUNCH_KAUFMAN_C pivotType then
        Throw (LogicError "Have not yet generalized pivot storage")
      else
        pivot <- ChoosePanelPivot ABR (pnX st) (pnY st) k pivotType gamma ;;
        let from := (off + fromLast pivot)%nat in
        let to := ((off + k) + (nb pivot - 1))%nat in
        if Nat.ltb bsize (k + nb pivot) then
          Return (mkPanelState (pnA st) (pndSub st) (pnp st)
                    (ResizeTo (pnX st) (n-off) (bsize-1))
                    (ResizeTo (pnY st) (n-off) (bsize-1)))
        else
          let A := SymmetricSwap (pnA st) to from in
          let X := RowSwap (pnX st) (to-off) (from-off) in
          let Y := RowSwap (pnY st) (to-off) (from-off) in
          match pivot with
          | Pivot1x1 _ =>
              let '(A, X, Y) := Panel1x1 conjugate off k A X Y in
              PanelPivoted_loop fuel' bsize off conjugate pivotType gamma
                (mkPanelState A (pndSub st)
                   (<[(off+k)%nat := from]> (pnp st)) X Y) (k + 1)
          | Pivot2x2 _ _ =>
              let '(A, X, Y, d) := Panel2x2 conjugate off k A X Y in
              PanelPivoted_loop fuel' bsize off conjugate pivotType gamma
                (mkPanelState A (MSet (pndSub st) (off+k) 0 d)
                   (<[(off+k+1)%nat := from]>
                      (<[(off+k)%nat := (off+k)%nat]> (pnp st))) X Y) (k + 2)
          end
  end.

(** [PanelPivoted( A, dSub, p, X, Y, bsize, off, conjugate, pivotType,
    gamma )]; [X] and [Y] are outputs.  [k] grows in every iteration, so
    [bsize] iterations are enough. *)
Definition PanelPivoted (A dSub : Matrix) (p : list nat) (X Y : Matrix)
  (bsize off : nat) (conjugate : bool) (pivotType : LDLPivotType) (gamma : R)
  : Result PanelState :=
  let n := Height A in
  if Nat.eqb n 0 then Return (mkPanelState A dSub p X Y)
  else
    PanelPivoted_loop bsize bsize off conjugate pivotType gamma
      (mkPanelState A dSub p (Zeros (n-off) bsize) (Zeros (n-off) bsize)) 0.

(** *** BlockedPivoted *)

(** The update of the bottom-right panel after a panel of width [nb]. *)
Definition TrailingUpdate (A X Y : Matrix) (k nb : nat) : Matrix :=
  let n := Height A in
  let X21B := ViewRange X nb 0 (n-k) nb in
  let Y21B := ViewRange Y nb 0 (n-k) nb in
  let A22BR := ViewRange A (k+nb) (k+nb) n n in
  Paste A (k+nb) (k+nb) (Trrk (-1) X21B Y21B 1 A22BR).

(** The loop of [BlockedPivoted]; [bsize] is the value of [Blocksize()].
    The offset advances by the width of [X], which can be 0, so the number
    of iterations is bounded by [fuel]. *)
Fixpoint BlockedPivoted_loop (fuel : nat) (bsize : nat) (conjugate : bool)
  (pivotType : LDLPivotType) (gamma : R) (st : PanelState) (k : nat)
  : Result PanelState :=
  let n := Height (pnA st) in
  if Nat.leb n k then Return st else
  match fuel with
  | O => OutOfFuel
  | S fuel' =>
      let nbProp := Nat.min bsize (n - k) in
      st <- PanelPivoted (pnA st) (pndSub st) (pnp st) (pnX st) (pnY st)
              nbProp k conjugate pivotType gamma ;;
      let nb := Width (pnX st) in
      let A := TrailingUpdate (pnA st) (pnX st) (pnY st) k nb in
      BlockedPivoted_loop fuel' bsize conjugate pivotType gamma
        (mkPanelState A (pndSub st) (pnp st) (pnX st) (pnY st)) (k + nb)
  end.

(** [BlockedPivoted( A, dSub, p, conjugate, pivotType, gamma )] *)
Definition BlockedPivoted (fuel bsize : nat) (A : Matrix) (conjugate : bool)
  (pivotType : LDLPivotType) (gamma : R) : Result LDLState :=
  let n := Height A in
  if Nat.eqb n 0 then Return (mkLDLState A (Zeros 0 1) [])
  else
    st <- BlockedPivoted_loop fuel bsize conjugate pivotType gamma
            (mkPanelState A (Zeros (n-1) 1) (replicate n 0%nat)
               (Zeros 0 0) (Zeros 0 0)) 0 ;;
    Return (mkLDLState (pnA st) (pndSub st) (pnp st)).

(** [Pivoted( A, dSub, p, conjugate, pivotType, gamma )] *)
Definition Pivoted (fuel bsize : nat) (A : Matrix) (conjugate : bool)
  (pivotType : LDLPivotType) (gamma : R) : Result LDLState :=
  match pivotType with
  | BUNCH_KAUFMAN_A | BUNCH_KAUFMAN_C | BUNCH_KAUFMAN_D =>
      BlockedPivoted fuel bsize A conjugate pivotType gamma
  | _ => UnblockedPivoted A conjugate pivotType gamma
  end.

End ldl.

(** * The distribution dispatch of the C interface *)

(** [Dist]: the distribution kinds named in DistMatrix-C.cpp. *)
Inductive Dist : Type := MC | MD | MR | VC | VR | STAR | CIRC.

Definition Dist_eqb (a b : Dist) : bool :=
  match a, b with
  | MC, MC | MD, MD | MR, MR | VC, VC | VR, VR | STAR, STAR | CIRC, CIRC => true
  | _, _ => false
  end.

(** [ElError]: the codes the [CATCH] macro returns, and success. *)
Inductive ElError : Type :=
| EL_SUCCESS | EL_ALLOC_ERROR | EL_LOGIC_ERROR | EL_RUNTIME_ERROR | EL_ERROR.

(** The suffixes [_s], [_d], [_c], [_z] of the entry points. *)
Inductive ElemType : Type := Float | Double | ComplexFloat | ComplexDouble.

(** What a handle points to: an object [DistMatrix<T,U,V>]. *)
Record DistMatrixClass : Type := mkClass
  { classElem : ElemType;
    classColDist : Dist;
    classRowDist : Dist }.

Module CInterface.

(** [U == a && V == b] *)
Definition isPair (U V a b : Dist) : bool := Dist_eqb U a && Dist_eqb V b.

(** [ElDistMatrixCreateSpecific_s/_d/_c/_z( U_C, V_C, gridHandle, AHandle )]:
    the error code and, on success, the class of the object stored in
    [*AHandle].  [RuntimeError] throws a [std::runtime_error], which
    [CATCH] turns into [EL_RUNTIME_ERROR]. *)
Definition ElDistMatrixCreateSpecific (T : ElemType) (U V : Dist)
  : ElError * option DistMatrixClass :=
  if isPair U V CIRC CIRC then (EL_SUCCESS, Some (mkClass T CIRC CIRC))
  else if isPair U V MC MR then (EL_SUCCESS, Some (mkClass T MC MR))
  else if isPair U V MC STAR then (EL_SUCCESS, Some (mkClass T MC STAR))
  else if isPair U V MD STAR then (EL_SUCCESS, Some (mkClass T MD STAR))
  else if isPair U V MR MC then (EL_SUCCESS, Some (mkClass T MR MC))
  else if isPair U V MR STAR then (EL_SUCCESS, Some (mkClass T MR STAR))
  else if isPair U V STAR MC then (EL_SUCCESS, Some (mkClass T STAR MC))
  else if isPair U V STAR MD then (EL_SUCCESS, Some (mkClass T STAR MD))
  else if isPair U V STAR MR then (EL_SUCCESS, Some (mkClass T STAR MR))
  else if isPair U V STAR STAR then (EL_SUCCESS, Some (mkClass T STAR STAR))
  else if isPair U V STAR VC then (EL_SUCCESS, Some (mkClass T STAR VC))
  else if isPair U V STAR VR then (EL_SUCCESS, Some (mkClass T STAR VR))
  else if isPair U V VC STAR then (EL_SUCCESS, Some (mkClass T VC STAR))
  else if isPair U V VR STAR then (EL_SUCCESS, Some (mkClass T VR STAR))
  else (EL_RUNTIME_ERROR, None).

(** [ElDistMatrixGetDiagonal_s/_d/_c/_z( AHandle, offset, dHandle )]: the
    error code and, on success, the class of the diagonal stored in
    [*dHandle]; [A] is the class of the object behind [AHandle]. *)
Definition ElDistMatrixGetDiagonal (A : DistMatrixClass)
  : ElError * option DistMatrixClass :=
  let T := classElem A in
  let U := classColDist A in
  let V := classRowDist A in
  if isPair U V CIRC CIRC then (EL_SUCCESS, Some (mkClass T CIRC CIRC))
  else if isPair U V MC MR then (EL_SUCCESS, Some (mkClass T MD STAR))
  else if isPair U V MC STAR then (EL_SUCCESS, Some (mkClass T MC STAR))
  else if isPair U V MD STAR then (EL_SUCCESS, Some (mkClass T MD STAR))
  else if isPair U V STAR MC then (EL_SUCCESS, Some (mkClass T MC STAR))
  else if isPair U V STAR MD then (EL_SUCCESS, Some (mkClass T MD STAR))
  else if isPair U V STAR MR then (EL_SUCCESS, Some (mkClass T MR STAR))
  else if isPair U V STAR STAR then (EL_SUCCESS, Some (mkClass T STAR STAR))
  else if isPair U V STAR VC then (EL_SUCCESS, Some (mkClass T VC STAR))
  else if isPair U V STAR VR then (EL_SUCCESS, Some (mkClass T VR STAR))
  else if isPair U V VC STAR then (EL_SUCCESS, Some (mkClass T VC STAR))
  else if isPair U V VR STAR then (EL_SUCCESS, Some (mkClass T VR STAR))
  else (EL_RUNTIME_ERROR, None).

End CInterface.

(** The closed table of [ElDistMatrixGetDiagonal]: source pair and the pair
    of the diagonal. *)
Definition diagonalTable : list ((Dist * Dist) * (Dist * Dist)) :=
  [ ((CIRC, CIRC), (CIRC, CIRC)); ((MC, MR), (MD, STAR));
    ((MC, STAR), (MC, STAR));     ((MD, STAR), (MD, STAR));
    ((STAR, MC), (MC, STAR));     ((STAR, MD), (MD, STAR));
    ((STAR, MR), (MR, STAR));     ((STAR, STAR), (STAR, STAR));
    ((STAR, VC), (VC, STAR));     ((STAR, VR), (VR, STAR));
    ((VC, STAR), (VC, STAR));     ((VR, STAR), (VR, STAR)) ].

Definition tableLookup (U V : Dist) : option (Dist * Dist) :=
  snd <$> List.find (fun e => CInterface.isPair U V (fst (fst e)) (snd (fst e)))
                    diagonalTable.

(** * The distribution proxies *)

Definition ElemType_eqb (a b : ElemType) : bool :=
  match a, b with
  | Float, Float | Double, Double
  | ComplexFloat, ComplexFloat | ComplexDouble, ComplexDouble => true
  | _, _ => false
  end.

(** [A.Wrap()] *)
Inductive DistWrap : Type := ELEMENT | BLOCK.

(** [ElementalProxyCtrl] *)
Record ElementalProxyCtrl : Type := mkCtrl
  { colConstrain : bool;
    rowConstrain : bool;
    rootConstrain : bool;
    colAlign : Z;
    rowAlign : Z;
    root : Z }.

(** What the proxies do to the heap, in order. *)
Inductive Event : Type :=
| EvNew (a : nat)
| EvCopy (src dst : nat)
| EvDelete (a : nat).

Module El.
Section Proxy.

(** The entries of the matrices, the conversion [Copy] applies between
    element types, and the content of storage that has not been written. *)
Context {Scalar : Type}.
Variable convert : ElemType -> ElemType -> Scalar -> Scalar.
Variable blank : Scalar.

(** A distributed matrix object: its class ([S], [ColDist()], [RowDist()],
    [Wrap()]), alignments, root, size and entries. *)
Record DistMatrixObj : Type := mkObj
  { objElem : ElemType;
    objColDist : Dist;
    objRowDist : Dist;
    objWrap : DistWrap;
    objColAlign : Z;
    objRowAlign : Z;
    objRoot : Z;
    objHeight : Z;
    objWidth : Z;
    objEntries : Z -> Z -> Scalar }.

(** The heap of matrix objects, addressed by the value of a pointer or
    reference, and the trace of what has been done to it. *)
Record World : Type := mkWorld
  { store : gmap nat DistMatrixObj;
    trace : list Event }.

(** The members of the three proxy classes.  A read proxy has no
    [needWriteCopy_] and the write proxies have no [locked_]; the absent
    member is shown as [false]. *)
Record DistMatrixProxy : Type := mkProxy
  { locked_ : bool;
    needDelete_ : bool;
    needWriteCopy_ : bool;
    orig_ : nat;
    prox_ : nat }.

(** [new DistMatrix<T,U,V>(A.Grid())]: an empty matrix at a fresh address. *)
Definition newDistMatrix (T : ElemType) (U V : Dist) : DistMatrixObj :=
  mkObj T U V ELEMENT 0 0 0 0 0 (fun _ _ => blank).

Definition SetRoot (r : Z) (P : DistMatrixObj) : DistMatrixObj :=
  mkObj (objElem P) (objColDist P) (objRowDist P) (objWrap P)
        (objColAlign P) (objRowAlign P) r
        (objHeight P) (objWidth P) (objEntries P).

Definition AlignCols (c : Z) (P : DistMatrixObj) : DistMatrixObj :=
  mkObj (objElem P) (objColDist P) (objRowDist P) (objWrap P)
        c (objRowAlign P) (objRoot P)
        (objHeight P) (objWidth P) (objEntries P).

Definition AlignRows (r : Z) (P : DistMatrixObj) : DistMatrixObj :=
  mkObj (objElem P) (objColDist P) (objRowDist P) (objWrap P)
        (objColAlign P) r (objRoot P)
        (objHeight P) (objWidth P) (objEntries P).

(** [prox_->Resize( A.Height(), A.Width() )] on the fresh matrix. *)
Definition Resize (h w : Z) (P : DistMatrixObj) : DistMatrixObj :=
  mkObj (objElem P) (objColDist P) (objRowDist P) (objWrap P)
        (objColAlign P) (objRowAlign P) (objRoot P)
        h w (fun _ _ => blank).

(** Modelled from the spec: [Copy( A, B )], which is not among the
    sources: [B] takes the size of [A] and, for every global index, the
    value of [A] converted to the element type of [B]; the distribution of
    [B] stays. *)
Definition CopyObj (A B : DistMatrixObj) : DistMatrixObj :=
  mkObj (objElem B) (objColDist B) (objRowDist B) (objWrap B)
        (objColAlign B) (objRowAlign B) (objRoot B)
        (objHeight A) (objWidth A)
        (fun i j => convert (objElem A) (objElem B) (objEntries A i j)).

Definition Copy (src dst : nat) (w : World) : World :=
  mkWorld
    match store w !! src, store w !! dst with
    | Some A, Some B => <[dst := CopyObj A B]> (store w)
    | _, _ => store w
    end
    (trace w ++ [EvCopy src dst]).

Definition delete (a : nat) (w : World) : World :=
  mkWorld (base.delete a (store w)) (trace w ++ [EvDelete a]).

(** The test shared by the constructors: the source has the target class
    and violates no active constraint. *)
Definition aliases (T : ElemType) (U V : Dist) (A : DistMatrixObj)
  (ctrl : ElementalProxyCtrl) : bool :=
  if ElemType_eqb (objElem A) T && Dist_eqb (objColDist A) U
     && Dist_eqb (objRowDist A) V
     && match objWrap A with ELEMENT => true | BLOCK => false end
  then
    let colMisalign :=
      colConstrain ctrl && negb (Z.eqb (objColAlign A) (colAlign ctrl)) in
    let rowMisalign :=
      rowConstrain ctrl && negb (Z.eqb (objRowAlign A) (rowAlign ctrl)) in
    let rootMisalign :=
      rootConstrain ctrl && negb (Z.eqb (objRoot A) (root ctrl)) in
    negb colMisalign && negb rowMisalign && negb rootMisalign
  else false.

(** The part of the constructors after the early [return]: the fresh
    matrix with the requested root and alignments. *)
Definition freshProxy (T : ElemType) (U V : Dist)
  (ctrl : ElementalProxyCtrl) : DistMatrixObj :=
  let P := newDistMatrix T U V in
  let P := if rootConstrain ctrl then SetRoot (root ctrl) P else P in
  let P := if colConstrain ctrl then AlignCols (colAlign ctrl) P else P in
  if rowConstrain ctrl then AlignRows (rowAlign ctrl) P else P.

(** [DistMatrixReadProxy<S,T,U,V>( A, ctrl )]; [locked] tells which of the
    two constructors is used.  [a] is the address of [A]. *)
Definition DistMatrixReadProxy (locked : bool) (T : ElemType) (U V : Dist)
  (a : nat) (ctrl : ElementalProxyCtrl) (w : World)
  : option (DistMatrixProxy * World) :=
  A ← store w !! a;
  if aliases T U V A ctrl then
    Some (mkProxy locked false false a a, w)
  else
    let p := fresh (dom (store w)) in
    let w := mkWorld (<[p := freshProxy T U V ctrl]> (store w))
                     (trace w ++ [EvNew p]) in
    Some (mkProxy locked true false a p, Copy a p w).

(** [DistMatrixWriteProxy<S,T,U,V>( A, ctrl )] *)
Definition DistMatrixWriteProxy (T : ElemType) (U V : Dist)
  (a : nat) (ctrl : ElementalProxyCtrl) (w : World)
  : option (DistMatrixProxy * World) :=
  A ← store w !! a;
  if aliases T U V A ctrl then
    Some (mkProxy false false false a a, w)
  else
    let p := fresh (dom (store w)) in
    let P := Resize (objHeight A) (objWidth A) (freshProxy T U V ctrl) in
    Some (mkProxy false true true a p,
          mkWorld (<[p := P]> (store w)) (trace w ++ [EvNew p])).

(** [DistMatrixReadWriteProxy<S,T,U,V>( A, ctrl )] *)
Definition DistMatrixReadWriteProxy (T : ElemType) (U V : Dist)
  (a : nat) (ctrl : ElementalProxyCtrl) (w : World)
  : option (DistMatrixProxy * World) :=
  A ← store w !! a;
  if aliases T U V A ctrl then
    Some (mkProxy false false false a a, w)
  else
    let p := fresh (dom (store w)) in
    let w := mkWorld (<[p := freshProxy T U V ctrl]> (store w))
                     (trace w ++ [EvNew p]) in
    Some (mkProxy false true true a p, Copy a p w).

(** [~DistMatrixReadProxy()] *)
Definition destroyReadProxy (px : DistMatrixProxy) (w : World) : World :=
  if needDelete_ px then delete (prox_ px) w else w.

(** [~DistMatrixWriteProxy()] and [~DistMatrixReadWriteProxy()], which have
    the same body; [uncaught_exception] is the value of
    [uncaught_exception()] when the destructor runs. *)
Definition destroyWriteProxy (px : DistMatrixProxy)
  (uncaught_exception : bool) (w : World) : World :=
  let w :=
    if needWriteCopy_ px && negb uncaught_exception
    then Copy (prox_ px) (orig_ px) w else w in
  if needDelete_ px then delete (prox_ px) w else w.

(** [GetLocked()] and [Get()]: the address of the matrix handed out. *)
Definition GetLocked (px : DistMatrixProxy) : nat := prox_ px.

Definition GetMutable (px : DistMatrixProxy) : Result nat :=
  if locked_ px
  then Throw (LogicError "Attempted to extract mutable from immutable")
  else Return (prox_ px).

(** A mutation made through a reference to the object at address [a]. *)
Definition mutate (a : nat) (f : DistMatrixObj -> DistMatrixObj) (w : World)
  : World :=
  mkWorld (alter f a (store w)) (trace w).

(** The source already has the target element type and distribution pair,
    with element-wise wrapping, and meets every active constraint. *)
Definition Matches (T : ElemType) (U V : Dist) (A : DistMatrixObj)
  (ctrl : ElementalProxyCtrl) : Prop :=
  objElem A = T /\ objColDist A = U /\ objRowDist A = V /\
  objWrap A = ELEMENT /\
  (colConstrain ctrl = true -> objColAlign A = colAlign ctrl) /\
  (rowConstrain ctrl = true -> objRowAlign A = rowAlign ctrl) /\
  (rootConstrain ctrl = true -> objRoot A = root ctrl).

End Proxy.
End El.

(** * Specification vocabulary *)

(** [v] is the largest magnitude among [f lo .. f (hi-1)], and 0 when the
    range is empty. *)
Definition MaxMagnitude (lo hi : nat) (f : nat -> R) (v : R) : Prop :=
  (forall i, (lo <= i < hi)%nat -> Rabs (f i) <= v) /\
  ((hi <= lo)%nat /\ v = 0 \/ exists i, (lo <= i < hi)%nat /\ v = Rabs (f i)).

(** ** The lazily corrected entries of the panel *)

(** Entry [(i,j)] of [A - X Y^T] restricted to the first [k] columns of the
    update factors. *)
Definition corrected (A X Y : Matrix) (k i j : nat) : R :=
  Get A i j - Rsum (fun l => Get X i l * Get Y j l) k.

(** The searches of the pivot rules on an entry function [E] of an active
    block that starts at row/column [k] of an [n] by [n] matrix. *)
Definition colScan (E : nat -> nat -> R) (n k : nat) : ValueInt :=
  VectorMax_scan (fun i => E (k + 1 + i)%nat k) (n - k - 1).

Definition leftScan (E : nat -> nat -> R) (k r : nat) : ValueInt :=
  VectorMax_scan (fun j => E r (k + j)%nat) (r - k).

Definition belowScan (E : nat -> nat -> R) (n r lo : nat) : ValueInt :=
  VectorMax_scan (fun i => E (lo + i)%nat r) (n - lo).

(** The sequence of tests shared by the four Bunch-Kaufman routines;
    [third] tells whether the test on the diagonal entry [(r,r)] is made. *)
Definition bkDecide (third : bool) (g alpha omega rho arr : R) (i0 r : nat)
  : Result LDLPivot :=
  if Reqb omega 0 && Reqb alpha 0 then Throw SingularMatrixException
  else if Rgeb alpha (g * omega) then Return (Pivot1x1 i0)
  else if Rgeb alpha (g * omega * (omega / rho)) then Return (Pivot1x1 i0)
  else if third && Rgeb arr (g * rho) then Return (Pivot1x1 r)
  else Return (Pivot2x2 i0 r).

(** [omega] is the largest magnitude below the diagonal of column [k], and
    [r] is the first row attaining it. *)
Definition ColumnMax (E : nat -> nat -> R) (n k : nat) (omega : R) : Prop :=
  MaxMagnitude (k + 1) n (fun i => E i k) omega.

Definition FirstAttains (E : nat -> nat -> R) (n k r : nat) (omega : R) : Prop :=
  (k + 1 <= r < n)%nat /\ Rabs (E r k) = omega /\
  forall i, (k + 1 <= i < r)%nat -> Rabs (E i k) < omega.

(** [rho] is the largest magnitude in row [r] of the symmetric active
    block, read in the lower triangle: the row segment [(r,k..r-1)] and the
    column segment [(lo..n-1,r)]; [lo] is [r+1] when the diagonal entry is
    left out and [r] when it is part of the window. *)
Definition RowMax (E : nat -> nat -> R) (n k r lo : nat) (rho : R) : Prop :=
  exists v1 v2,
    MaxMagnitude k r (fun j => E r j) v1 /\
    MaxMagnitude lo n (fun i => E i r) v2 /\
    rho = Rmax v1 v2.

(** The outcomes of a Bunch-Kaufman rule, in the order in which the tests
    are made.  [g] is the threshold in force, [alpha] the magnitude of the
    leading diagonal entry of the active block. *)
Inductive BKOutcome (third : bool) (lo : nat -> nat) (g : R)
  (E : nat -> nat -> R) (n k : nat) : Result LDLPivot -> Prop :=
| BK_singular omega :
    ColumnMax E n k omega ->
    Rabs (E k k) = 0 -> omega = 0 ->
    BKOutcome third lo g E n k (Throw SingularMatrixException)
| BK_first omega :
    ColumnMax E n k omega ->
    ~ (Rabs (E k k) = 0 /\ omega = 0) ->
    Rabs (E k k) >= g * omega ->
    BKOutcome third lo g E n k (Return (Pivot1x1 k))
| BK_second omega r rho :
    ColumnMax E n k omega -> FirstAttains E n k r omega ->
    RowMax E n k r (lo r) rho -> 0 < omega <= rho ->
    Rabs (E k k) < g * omega ->
    Rabs (E k k) * rho >= g * omega * omega ->
    BKOutcome third lo g E n k (Return (Pivot1x1 k))
| BK_third omega r rho :
    third = true ->
    ColumnMax E n k omega -> FirstAttains E n k r omega ->
    RowMax E n k r (lo r) rho -> 0 < omega <= rho ->
    Rabs (E k k) < g * omega ->
    Rabs (E k k) * rho < g * omega * omega ->
    Rabs (E r r) >= g * rho ->
    BKOutcome third lo g E n k (Return (Pivot1x1 r))
| BK_2x2 omega r rho :
    ColumnMax E n k omega -> FirstAttains E n k r omega ->
    RowMax E n k r (lo r) rho -> 0 < omega <= rho ->
    Rabs (E k k) < g * omega ->
    Rabs (E k k) * rho < g * omega * omega ->
    (third = true -> Rabs (E r r) < g * rho) ->
    BKOutcome third lo g E n k (Return (Pivot2x2 k r)).

(** A square matrix given by its rows, for the concrete inputs below. *)
Definition fromRows (n : nat) (rows : list (list R)) : Matrix :=
  mkMatrix n n (fun i j => nth j (nth i rows []) 0).


(** Lower triangle 1 / 2 0 / 0 100 0: the column maximum 2 is dominated by
    the entry 100 of row 1. *)
Definition A_dominated : Matrix :=
  fromRows 3 [[1; 0; 0]; [2; 0; 0]; [0; 100; 0]].

(** The routine fails with the singular-matrix exception exactly when the
    leading diagonal entry of the active block and the column maximum
    [omega] are both zero, and returns a pivot record otherwise. *)
Definition SingularIff (E : nat -> nat -> R) (n k : nat)
  (res : Result LDLPivot) : Prop :=
  exists omega,
    ColumnMax E n k omega /\
    (res = Throw SingularMatrixException <-> Rabs (E k k) = 0 /\ omega = 0) /\
    (~ (Rabs (E k k) = 0 /\ omega = 0) -> exists p, res = Return p).


(** The 1 by 1 matrix [[5]]. *)
Definition A_five : Matrix := fromRows 1 [[5]].


(** Lower triangle 0 / 1 0, the matrix [[0,1],[1,0]], and a panel state on
    it with update factors of width 1. *)
Definition A_swap : Matrix := fromRows 2 [[0; 1]; [1; 0]].


(** Lower triangle 0 / 0 1 / 2 0 0: the largest off-diagonal entry is at
    row 2 of column 0. *)
Definition A_corner : Matrix := fromRows 3 [[0; 0; 2]; [0; 1; 0]; [2; 0; 0]].

(** ** The factorization as a matrix identity *)

(** The partially factored matrix: the product [L D L^T] over the first [k]
    columns plus the symmetric matrix [W] on the rows and columns from [k]
    on. *)
Definition Mk (L D W : nat -> nat -> R) (k i j : nat) : R :=
  Rsum (fun a => Rsum (fun b => L i a * D a b * L j b) k) k
  + (if Nat.leb k i && Nat.leb k j then W i j else 0).

(** The unit lower triangular factor stored below the diagonal of [A]. *)
Definition Lfactor (A : Matrix) (i j : nat) : R :=
  if Nat.eqb i j then 1 else if Nat.ltb j i then Get A i j else 0.

(** The block diagonal factor: the diagonal of [A] and the sub-diagonal
    [dSub], mirrored above the diagonal. *)
Definition Dfactor (A dSub : Matrix) (i j : nat) : R :=
  if Nat.eqb i j then Get A i i
  else if Nat.eqb i (j + 1) then Get dSub j 0
  else if Nat.eqb j (i + 1) then Get dSub i 0
  else 0.

(** No sub-diagonal entry has been stored from position [k-1] on. *)
Definition dSubClear (dSub : Matrix) (k : nat) : Prop :=
  forall a, (k <= a + 1)%nat -> Get dSub a 0 = 0.

(** The factorization state as a matrix: [L D L^T] over the first [k]
    columns plus the symmetric matrix stored in the trailing block. *)
Definition Mstate (A dSub : Matrix) (k : nat) : nat -> nat -> R :=
  Mk (Lfactor A) (Dfactor A dSub) (symGet A) k.

(** The two columns [A21 inv(D11)] of a 2x2 step, from the swapped matrix
    [A1] and the pivot block at [(k,k)]. *)
Definition solve1 (A1 : Matrix) (k i : nat) : R :=
  let d11 := Get A1 k k in
  let d21 := Get A1 (k + 1) k in
  let d22 := Get A1 (k + 1) (k + 1) in
  (Get A1 i k * d22 - Get A1 i (k + 1) * d21) / (d11 * d22 - d21 * d21).

Definition solve2 (A1 : Matrix) (k i : nat) : R :=
  let d11 := Get A1 k k in
  let d21 := Get A1 (k + 1) k in
  let d22 := Get A1 (k + 1) (k + 1) in
  (Get A1 i (k + 1) * d11 - Get A1 i k * d21) / (d11 * d22 - d21 * d21).

(** The permutation recorded in [p] from position [k] on, for [m]
    positions: the swap of [k] with [p[k]] is applied first to the matrix,
    so it is the outermost transposition. *)
Fixpoint pivotPerm (p : list nat) (k m : nat) (i : nat) : nat :=
  match m with
  | O => i
  | S m' => transp k (nth k p 0%nat) (pivotPerm p (k + 1) m' i)
  end.

(** The block of [D] at position [k] is invertible: a position without a
    sub-diagonal neighbour holds a nonzero diagonal entry, and a position
    with a nonzero sub-diagonal entry starts a 2x2 block of nonzero
    determinant. *)
Definition NonSingularAt (A dSub : Matrix) (k : nat) : Prop :=
  (Get dSub k 0 = 0 -> (k = 0%nat \/ Get dSub (k - 1) 0 = 0) ->
   Get A k k <> 0) /\
  (Get dSub k 0 <> 0 ->
   Get A k k * Get A (k + 1) (k + 1) - Get dSub k 0 * Get dSub k 0 <> 0).

Definition NonSingularD (A dSub : Matrix) (n : nat) : Prop :=
  forall k, (k < n)%nat -> NonSingularAt A dSub k.

(** What the steps from column [k] on leave as it is. *)
Definition Frame (k : nat) (A dSub : Matrix) (p : list nat)
  (A' dSub' : Matrix) (p' : list nat) : Prop :=
  (forall a, (a < k)%nat -> Get A' a a = Get A a a) /\
  (forall a, (a < k)%nat -> Get dSub' a 0 = Get dSub a 0) /\
  (forall a, (a < k)%nat -> nth a p' 0%nat = nth a p 0%nat).

(** The trailing matrix a panel stands for: the stored entry corrected by
    the first [k] columns of the update factors, read in the lower
    triangle.  [off] is the offset of the panel. *)
Definition Vlow (A X Y : Matrix) (off k i j : nat) : R :=
  Get A i j - Rsum (fun l => Get X (i - off)%nat l * Get Y (j - off)%nat l) k.

Definition Vsym (A X Y : Matrix) (off k i j : nat) : R :=
  if Nat.leb j i then Vlow A X Y off k i j else Vlow A X Y off k j i.

(** The state of a panel as a matrix. *)
Definition Mpanel (A dSub X Y : Matrix) (off k : nat) : nat -> nat -> R :=
  Mk (Lfactor A) (Dfactor A dSub) (Vsym A X Y off k) (off + k).

(** The correction [X Y^T] accumulated over [k] columns is symmetric on the
    rows from [k] on. *)
Definition XYsym (X Y : Matrix) (m k : nat) : Prop :=
  forall a b, (k <= a < m)%nat -> (k <= b < m)%nat ->
    Rsum (fun l => Get X a l * Get Y b l) k =
    Rsum (fun l => Get X b l * Get Y a l) k.

(** The two columns [A21 inv(D11)] of a 2x2 panel step, from the corrected
    columns [w0], [w1] and the corrected block [d11, d21, d22]. *)
Definition psolve1 (w0 w1 : nat -> R) (d11 d21 d22 : R) (i : nat) : R :=
  (w0 i * d22 - w1 i * d21) / (d11 * d22 - d21 * d21).

Definition psolve2 (w0 w1 : nat -> R) (d11 d21 d22 : R) (i : nat) : R :=
  (w1 i * d11 - w0 i * d21) / (d11 * d22 - d21 * d21).

(** The pivot rules the drivers implement. *)
Definition Supported (t : ldl.LDLPivotType) : bool :=
  match t with
  | ldl.BUNCH_KAUFMAN_A | ldl.BUNCH_KAUFMAN_D | ldl.BUNCH_PARLETT => true
  | _ => false
  end.

(** A call that does not run out of iterations and raises nothing but the
    exception for singular matrices. *)
Definition Settles {T : Type} (r : Result T) : Prop :=
  r = Throw SingularMatrixException \/ exists v, r = Return v.

(** The [(i,j)] entry of [L D L^T] for the factors stored in [A] and
    [dSub], of order [n]. *)
Definition LDLt (A dSub : Matrix) (n i j : nat) : R :=
  Rsum (fun a =>
    Rsum (fun b => Lfactor A i a * Dfactor A dSub a b * Lfactor A j b) n) n.

(** The [(i,j)] entry of [P A P^T] for the symmetric matrix stored in the
    lower triangle of [A] and the permutation recorded in [p]. *)
Definition PAPt (A : Matrix) (p : list nat) (n i j : nat) : R :=
  symGet A (pivotPerm p 0 n i) (pivotPerm p 0 n j).

(** What a run of the driver on [A] has to deliver. *)
Definition Factorizes (A : Matrix) (st : ldl.LDLState) : Prop :=
  let n := Height A in
  Height (ldl.stA st) = n /\
  List.length (ldl.stp st) = n /\
  (forall a, (a < n)%nat -> (nth a (ldl.stp st) 0 < n)%nat) /\
  (forall a, Get (ldl.stdSub st) a 0 <> 0 ->
             Get (ldl.stdSub st) (a + 1) 0 = 0) /\
  (NonSingularD (ldl.stA st) (ldl.stdSub st) n ->
   forall i j, (i < n)%nat -> (j < n)%nat ->
     LDLt (ldl.stA st) (ldl.stdSub st) n i j = PAPt A (ldl.stp st) n i j).

(** [B] is the inverse of the matrix [A] of order [n]. *)
Definition Inverse (A B : Matrix) (n : nat) : Prop :=
  forall i j, (i < n)%nat -> (j < n)%nat ->
    Rsum (fun l => Get A i l * Get B l j) n = if Nat.eqb i j then 1 else 0.

(** * The Kravchuk polynomials of the Delsarte driver *)

Module Delsarte.
Section Kravchuk.

(** [El::Choose<Real>] and [El::Pow], which are not among the sources:
    nothing is assumed about them.  [El::Int] is shown as [Z]; signed
    overflow has no defined behaviour, and the properties below are stated
    for operands far from the limits. *)
Variable Choose : Z -> Z -> R.
Variable Pow : R -> Z -> R.

(** The loop [for( i=0; i<=k; ++i )] of [Kravchuk], with [m] iterations
    left, and [eval] the sum so far. *)
Fixpoint Kravchuk_loop (primePower k codeLength x : Z) (m : nat) (i : Z)
  (eval : R) : R :=
  match m with
  | O => eval
  | S m' =>
      let eval :=
        if (x >=? i)%Z && (codeLength - x >=? k - i)%Z
        then eval + Choose x i * Choose (codeLength - x) (k - i)
                    * Pow (-1) i * Pow (IZR (primePower - 1)) (k - i)
        else eval in
      Kravchuk_loop primePower k codeLength x m' (i + 1) eval
  end.

(** [Kravchuk<Real>( primePower, k, codeLength, x )] *)
Definition Kravchuk (primePower k codeLength x : Z) : R :=
  Kravchuk_loop primePower k codeLength x (Z.to_nat (k + 1)) 0 0.

End Kravchuk.
End Delsarte.

(** * Vocabulary of the further properties *)

(** The block a pivot record selects in the symmetric matrix whose lower
    triangle is [E] is invertible; the second index of a 2x2 record of the
    Bunch-Kaufman rules is the larger one. *)
Definition PivotInvertible (E : nat -> nat -> R) (pv : LDLPivot) : Prop :=
  match pv with
  | Pivot1x1 f => E f f <> 0
  | Pivot2x2 f0 f1 =>
      E f1 f0 <> 0 /\ E f0 f0 * E f1 f1 - E f1 f0 * E f1 f0 <> 0
  end.

(** The decision of a Bunch-Kaufman rule on the entry function [E] of an
    active block of order [n], at column [k]; [r + dlo] is the first row
    of the column segment of the row maximum: [dlo] is 1 when the diagonal
    entry [(r,r)] is left out of it and 0 when it is part of it. *)
Definition bkRule (third : bool) (dlo : nat) (g : R) (E : nat -> nat -> R)
  (n k : nat) : Result LDLPivot :=
  let r := (index (colScan E n k) + (k + 1))%nat in
  bkDecide third g (Rabs (E k k)) (value (colScan E n k))
    (Rmax (value (leftScan E k r)) (value (belowScan E n r (r + dlo))))
    (Rabs (E r r)) k r.

(** Two entry functions agree on the lower triangle of the active block. *)
Definition LowerAgree (E E' : nat -> nat -> R) (n k : nat) : Prop :=
  forall i j, (k <= j)%nat -> (j <= i)%nat -> (i < n)%nat -> E i j = E' i j.

(** [A'] is [A] above the diagonal and in the rows before [k]: what the
    steps from position [k] on may change is the lower triangle from row
    [k] on. *)
Definition KeepsAbove (k : nat) (A A' : Matrix) : Prop :=
  forall i j, (i < j)%nat \/ (i < k)%nat -> Get A' i j = Get A i j.

(** The trailing block a panel stands for at column [k], with the
    accumulated update applied to every entry. *)
Definition Trailing (A X Y : Matrix) (k : nat) : Matrix :=
  mkMatrix (Height A - k) (Width A - k)
    (fun i j => corrected A X Y k (k + i) (k + j)).

(** A pivot record with its indices moved by [k]. *)
Definition shiftPivot (k : nat) (pv : LDLPivot) : LDLPivot :=
  match pv with
  | Pivot1x1 f => Pivot1x1 (k + f)
  | Pivot2x2 f0 f1 => Pivot2x2 (k + f0) (k + f1)
  end.

(** The operands of an integer computation are far from the limits of
    [El::Int]: sums and differences of two of them do not overflow. *)
Definition SmallInt (v : Z) : Prop := (- 2 ^ 30 <= v <= 2 ^ 30)%Z.

(** * Properties *)

(** ** Scalars *)

Lemma Rgeb_true (x y : R) : Rgeb x y = true <-> x >= y.
Proof. unfold Rgeb; destruct (Rge_dec x y); split; intros; auto; discriminate. Qed.

Lemma Rgeb_false (x y : R) : Rgeb x y = false <-> x < y.
Proof.
  unfold Rgeb; destruct (Rge_dec x y); split; intros; try discriminate; try lra; auto.
Qed.

Lemma Rgtb_true (x y : R) : Rgtb x y = true <-> x > y.
Proof. unfold Rgtb; destruct (Rgt_dec x y); split; intros; auto; discriminate. Qed.

Lemma Rgtb_false (x y : R) : Rgtb x y = false <-> x <= y.
Proof.
  unfold Rgtb; destruct (Rgt_dec x y); split; intros; try discriminate; try lra; auto.
Qed.

Lemma Reqb_true (x y : R) : Reqb x y = true <-> x = y.
Proof. unfold Reqb; destruct (Req_dec_T x y); split; intros; auto; discriminate. Qed.

Lemma Reqb_false (x y : R) : Reqb x y = false <-> x <> y.
Proof.
  unfold Reqb; destruct (Req_dec_T x y); split; intros; try discriminate; auto.
  contradiction.
Qed.

Lemma Rsum_ext (f g : nat -> R) (k : nat) :
  (forall l, (l < k)%nat -> f l = g l) -> Rsum f k = Rsum g k.
Proof.
  induction k as [|k IH]; intros H; simpl; [reflexivity|].
  rewrite IH by (intros; apply H; lia). rewrite H by lia. reflexivity.
Qed.

(** ** The maximum search *)


Lemma VectorMax_scan_spec (x : nat -> R) (m : nat) :
  let pivot := VectorMax_scan x m in
  0 <= value pivot /\
  (forall i, (i < m)%nat -> Rabs (x i) <= value pivot) /\
  (m = 0%nat -> value pivot = 0 /\ index pivot = 0%nat) /\
  ((0 < m)%nat -> (index pivot < m)%nat /\ value pivot = Rabs (x (index pivot))).
Proof.
  induction m as [|m IH]; simpl.
  - repeat split; try lra; intros; lia.
  - destruct IH as (Hpos & Hub & Hz & Hat).
    destruct (Rgtb (Abs (x m)) (value (VectorMax_scan x m))) eqn:E; simpl.
    + apply Rgtb_true in E. unfold Abs in *.
      split; [lra|]. split; [|split; [intros; lia|intros _; split; [lia|reflexivity]]].
      intros i Hi. destruct (Nat.eq_dec i m) as [->|Hne]; [lra|].
      specialize (Hub i ltac:(lia)). lra.
    + apply Rgtb_false in E. unfold Abs in *.
      split; [lra|]. split; [|split; [intros; lia|intros _]].
      * intros i Hi. destruct (Nat.eq_dec i m) as [->|Hne]; [lra|].
        apply Hub; lia.
      * destruct m as [|m'].
        -- destruct (Hz eq_refl) as [Hv Hi]. rewrite Hi. split; [lia|].
           rewrite Hv in *. pose proof (Rabs_pos (x 0%nat)). lra.
        -- destruct (Hat ltac:(lia)) as [Hi Hv]. split; [lia|exact Hv].
Qed.

Lemma VectorMax_scan_MaxMagnitude (x : nat -> R) (m : nat) :
  MaxMagnitude 0 m x (value (VectorMax_scan x m)).
Proof.
  destruct (VectorMax_scan_spec x m) as (Hpos & Hub & Hz & Hat). split.
  - intros i Hi. apply Hub; lia.
  - destruct m as [|m].
    + left. split; [lia|]. apply Hz; reflexivity.
    + right. destruct (Hat ltac:(lia)) as [Hi Hv].
      exists (index (VectorMax_scan x (S m))). split; [lia|exact Hv].
Qed.

Lemma VectorMax_scan_ext (x y : nat -> R) (m : nat) :
  (forall i, (i < m)%nat -> x i = y i) ->
  VectorMax_scan x m = VectorMax_scan y m.
Proof.
  induction m as [|m IH]; intros H; simpl; [reflexivity|].
  rewrite IH by (intros; apply H; lia). rewrite H by lia. reflexivity.
Qed.

Lemma MaxMagnitude_shift (lo m : nat) (f : nat -> R) (v : R) :
  MaxMagnitude 0 m (fun i => f (lo + i)%nat) v ->
  MaxMagnitude lo (lo + m) f v.
Proof.
  intros [Hub Hat]. split.
  - intros i Hi. replace i with (lo + (i - lo))%nat by lia. apply Hub; lia.
  - destruct Hat as [[Hm Hv]|[i [Hi Hv]]].
    + left. split; [lia|exact Hv].
    + right. exists (lo + i)%nat. split; [lia|exact Hv].
Qed.

Lemma corrected_0 (A X Y : Matrix) (i j : nat) :
  corrected A X Y 0 i j = Get A i j.
Proof. unfold corrected; simpl; lra. Qed.

Lemma vecGet_Gemv (alpha beta : R) (A x y : Matrix) (i : nat) :
  vecGet (Gemv alpha A x beta y) i =
  alpha * Rsum (fun l => Get A i l * vecGet x l) (Width A) + beta * vecGet y i.
Proof.
  unfold vecGet at 1, Gemv; simpl. destruct (Nat.eqb (Width y) 1); reflexivity.
Qed.

Lemma vecLen_Gemv (alpha beta : R) (A x y : Matrix) :
  vecLen (Gemv alpha A x beta y) = vecLen y.
Proof. reflexivity. Qed.

(** A row of [k] entries read as a vector. *)
Lemma vecGet_row (M : Matrix) (i k l : nat) :
  (l < k)%nat ->
  vecGet (LockedViewRange M i 0 (i+1) k) l = Get M i l.
Proof.
  intros Hl. unfold vecGet, LockedViewRange; simpl.
  rewrite Nat.sub_0_r. destruct (Nat.eqb_spec k 1) as [->|_].
  - assert (l = 0)%nat as -> by lia. f_equal; lia.
  - f_equal; lia.
Qed.

Lemma Get_zB1 (A X Y : Matrix) (k i : nat) :
  Get (ldl.pivot.zB1 A X Y k) i 0 = corrected A X Y k (k + i) k.
Proof.
  unfold ldl.pivot.zB1, Gemv, corrected.
  cbn [Get Width Height LockedViewRange].
  replace (k + 1 - k)%nat with 1%nat by lia. cbn [Nat.eqb].
  rewrite Nat.sub_0_r.
  rewrite (Rsum_ext _ (fun l => Get X (k + i) l * Get Y k l)).
  - unfold vecGet. cbn [Get Width Height LockedViewRange].
    replace (k + 1 - k)%nat with 1%nat by lia. cbn [Nat.eqb].
    rewrite Nat.add_0_r. lra.
  - intros l Hl. rewrite vecGet_row by exact Hl. reflexivity.
Qed.

Lemma vecGet_zLeft (A X Y : Matrix) (k r j : nat) :
  (j < r - k)%nat ->
  vecGet (ldl.pivot.zLeft A X Y k r) j = corrected A X Y k r (k + j).
Proof.
  intros Hj. unfold ldl.pivot.zLeft. rewrite vecGet_Gemv.
  cbn [Get Width Height LockedViewRange]. rewrite Nat.sub_0_r.
  rewrite (Rsum_ext _ (fun l => Get Y (k + j) l * Get X r l)).
  - unfold corrected.
    rewrite (Rsum_ext (fun l => Get X r l * Get Y (k + j) l)
                      (fun l => Get Y (k + j) l * Get X r l))
      by (intros; apply Rmult_comm).
    unfold vecGet. cbn [Get Width Height LockedViewRange].
    destruct (Nat.eqb_spec (r - k) 1) as [E|_].
    + assert (j = 0)%nat as -> by lia. rewrite !Nat.add_0_r. lra.
    + rewrite Nat.add_0_r. lra.
  - intros l Hl. rewrite vecGet_row by exact Hl. reflexivity.
Qed.

Lemma vecLen_zLeft (A X Y : Matrix) (k r : nat) :
  vecLen (ldl.pivot.zLeft A X Y k r) = (r - k)%nat.
Proof.
  unfold ldl.pivot.zLeft. rewrite vecLen_Gemv. unfold vecLen.
  cbn [Get Width Height LockedViewRange].
  destruct (Nat.eqb_spec (r - k) 1) as [E|_]; lia.
Qed.

Lemma Get_zBottom (A X Y : Matrix) (k r i : nat) :
  Get (ldl.pivot.zBottom A X Y k r) i 0 = corrected A X Y k (r + i) r.
Proof.
  unfold ldl.pivot.zBottom, Gemv, corrected.
  cbn [Get Width Height LockedViewRange].
  replace (r + 1 - r)%nat with 1%nat by lia. cbn [Nat.eqb].
  rewrite Nat.sub_0_r.
  rewrite (Rsum_ext _ (fun l => Get X (r + i) l * Get Y r l)).
  - unfold vecGet. cbn [Get Width Height LockedViewRange].
    replace (r + 1 - r)%nat with 1%nat by lia. cbn [Nat.eqb].
    rewrite Nat.add_0_r. lra.
  - intros l Hl. rewrite vecGet_row by exact Hl. reflexivity.
Qed.

Lemma VectorMax_scan_first (x : nat -> R) (m i : nat) :
  (i < index (VectorMax_scan x m))%nat ->
  Rabs (x i) < value (VectorMax_scan x m).
Proof.
  induction m as [|m IH]; simpl; [lia|].
  destruct (VectorMax_scan_spec x m) as (Hpos & Hub & Hz & Hat).
  destruct (Rgtb (Abs (x m)) (value (VectorMax_scan x m))) eqn:E; simpl.
  - apply Rgtb_true in E. unfold Abs in *. intros Hi.
    specialize (Hub i Hi). lra.
  - exact IH.
Qed.

(** ** The searches meet their specification *)

Lemma colScan_ColumnMax (E : nat -> nat -> R) (n k : nat) :
  (k < n)%nat -> ColumnMax E n k (value (colScan E n k)).
Proof.
  intros Hk. unfold ColumnMax, colScan.
  replace n with (k + 1 + (n - k - 1))%nat at 1 by lia.
  apply MaxMagnitude_shift, VectorMax_scan_MaxMagnitude.
Qed.

Lemma colScan_FirstAttains (E : nat -> nat -> R) (n k : nat) :
  0 < value (colScan E n k) ->
  FirstAttains E n k (index (colScan E n k) + (k + 1)) (value (colScan E n k)).
Proof.
  intros Hpos. unfold colScan in *.
  set (x := fun i => E (k + 1 + i)%nat k) in *.
  destruct (VectorMax_scan_spec x (n - k - 1)) as (_ & _ & Hz & Hat).
  assert (Hm : (0 < n - k - 1)%nat).
  { destruct (n - k - 1)%nat; [|lia]. destruct (Hz eq_refl) as [Hv _]. lra. }
  destruct (Hat Hm) as [Hi Hv]. repeat split; try lia.
  - rewrite Hv. unfold x. f_equal. f_equal. lia.
  - intros i Hik. replace i with (k + 1 + (i - (k + 1)))%nat by lia.
    apply (VectorMax_scan_first x). lia.
Qed.

Lemma scans_RowMax (E : nat -> nat -> R) (n k r lo : nat) :
  (k <= r)%nat -> (lo <= n)%nat ->
  RowMax E n k r lo
    (Rmax (value (leftScan E k r)) (value (belowScan E n r lo))).
Proof.
  intros Hr Hlo. exists (value (leftScan E k r)), (value (belowScan E n r lo)).
  split; [|split; [|reflexivity]].
  - unfold leftScan. replace r with (k + (r - k))%nat at 1 by lia.
    apply (MaxMagnitude_shift k (r - k) (fun j => E r j)).
    apply VectorMax_scan_MaxMagnitude.
  - unfold belowScan. replace n with (lo + (n - lo))%nat at 1 by lia.
    apply (MaxMagnitude_shift lo (n - lo) (fun i => E i r)).
    apply VectorMax_scan_MaxMagnitude.
Qed.

(** The left segment of row [r] starts with the entry [(r,k)], the one the
    column search stopped at. *)
Lemma leftScan_ge (E : nat -> nat -> R) (k r : nat) :
  (k < r)%nat -> Rabs (E r k) <= value (leftScan E k r).
Proof.
  intros Hr. unfold leftScan.
  destruct (VectorMax_scan_spec (fun j => E r (k + j)%nat) (r - k))
    as (_ & Hub & _).
  specialize (Hub 0%nat ltac:(lia)). simpl in Hub.
  rewrite Nat.add_0_r in Hub. exact Hub.
Qed.

(** The second test divides by [rho]; with [rho] positive it is the
    division-free comparison. *)
Lemma second_test_iff (g alpha omega rho : R) :
  0 < rho ->
  alpha >= g * omega * (omega / rho) <-> alpha * rho >= g * omega * omega.
Proof.
  intros Hrho.
  assert (Heq : g * omega * (omega / rho) * rho = g * omega * omega)
    by (field; lra).
  split; intros H.
  - rewrite <- Heq. apply Rle_ge. apply Rmult_le_compat_r; lra.
  - apply Rle_ge. apply Rmult_le_reg_r with rho; [exact Hrho|]. lra.
Qed.

Lemma bkDecide_outcome (third : bool) (lo : nat -> nat) (g : R)
  (E : nat -> nat -> R) (n k : nat) :
  (k < n)%nat ->
  (forall r, (r < n)%nat -> (lo r <= n)%nat) ->
  let omega := value (colScan E n k) in
  let r := (index (colScan E n k) + (k + 1))%nat in
  let rho := Rmax (value (leftScan E k r)) (value (belowScan E n r (lo r))) in
  BKOutcome third lo g E n k
    (bkDecide third g (Rabs (E k k)) omega rho (Rabs (E r r)) k r).
Proof.
  intros Hk Hlo omega r rho. unfold bkDecide.
  pose proof (colScan_ColumnMax E n k Hk) as Hcol. fold omega in Hcol.
  destruct (Reqb omega 0) eqn:E1; [destruct (Reqb (Rabs (E k k)) 0) eqn:E2|];
    cbn [andb].
  - apply Reqb_true in E1, E2. eapply BK_singular; eauto.
  - apply Reqb_true in E1. apply Reqb_false in E2.
    destruct (Rgeb (Rabs (E k k)) (g * omega)) eqn:E3.
    + apply Rgeb_true in E3. eapply BK_first; eauto. tauto.
    + apply Rgeb_false in E3. rewrite E1 in E3.
      pose proof (Rabs_pos (E k k)). lra.
  - apply Reqb_false in E1.
    destruct (Rgeb (Rabs (E k k)) (g * omega)) eqn:E3.
    + apply Rgeb_true in E3. eapply BK_first; eauto. tauto.
    + apply Rgeb_false in E3.
      assert (Hpos : 0 < omega).
      { destruct (VectorMax_scan_spec (fun i => E (k + 1 + i)%nat k) (n - k - 1))
          as (H0 & _). fold (colScan E n k) in H0. fold omega in H0. lra. }
      pose proof (colScan_FirstAttains E n k Hpos) as Hat. fold omega r in Hat.
      assert (Hkr : (k < r)%nat) by (unfold r; lia).
      assert (Hrho : omega <= rho).
      { destruct Hat as (_ & Hv & _). rewrite <- Hv.
        eapply Rle_trans; [apply (leftScan_ge E k r Hkr)|apply Rmax_l]. }
      assert (Hrn : (r < n)%nat) by (destruct Hat as (? & _); lia).
      pose proof (scans_RowMax E n k r (lo r) ltac:(lia) (Hlo r Hrn)) as Hrow.
      fold rho in Hrow.
      destruct (Rgeb (Rabs (E k k)) (g * omega * (omega / rho))) eqn:E4.
      * apply Rgeb_true in E4. apply second_test_iff in E4; [|lra].
        eapply BK_second; eauto.
      * apply Rgeb_false in E4.
        assert (E4' : Rabs (E k k) * rho < g * omega * omega).
        { apply Rnot_ge_lt. intros Hc. apply second_test_iff in Hc; lra. }
        destruct third; cbn [andb].
        -- destruct (Rgeb (Rabs (E r r)) (g * rho)) eqn:E5.
           ++ apply Rgeb_true in E5. eapply BK_third; eauto.
           ++ apply Rgeb_false in E5. eapply BK_2x2; eauto.
        -- eapply BK_2x2; eauto. discriminate.
Qed.

(** ** The four routines run the shared sequence of tests *)

Lemma VectorMax_column_view (M : Matrix) (ib j ie je : nat) :
  (je - j = 1)%nat ->
  VectorMax (LockedViewRange M ib j ie je) =
  VectorMax_scan (fun i => Get M (ib + i)%nat j) (ie - ib).
Proof.
  intros Hje.
  unfold VectorMax, vecLen, vecGet. cbn [Get Width Height LockedViewRange].
  rewrite Hje. cbn [Nat.eqb].
  apply VectorMax_scan_ext. intros i _. f_equal. lia.
Qed.

Lemma VectorMax_row_view (M : Matrix) (i ie jb je : nat) :
  (ie - i = 1)%nat ->
  VectorMax (LockedViewRange M i jb ie je) =
  VectorMax_scan (fun j => Get M i (jb + j)%nat) (je - jb).
Proof.
  intros Hie.
  unfold VectorMax, vecLen, vecGet. cbn [Get Width Height LockedViewRange].
  rewrite Hie.
  destruct (Nat.eqb_spec (je - jb) 1) as [E|_].
  - rewrite E. apply VectorMax_scan_ext. intros l Hl.
    assert (l = 0)%nat as -> by lia. f_equal; lia.
  - apply VectorMax_scan_ext. intros l _. f_equal. lia.
Qed.

Lemma a21Max_colScan (A : Matrix) :
  ldl.pivot.a21Max A = colScan (Get A) (Height A) 0.
Proof.
  unfold ldl.pivot.a21Max, colScan.
  rewrite (VectorMax_column_view A 1 0 (Height A) 1) by reflexivity.
  rewrite Nat.sub_0_r. reflexivity.
Qed.

Lemma rowMaxValA_scans (A : Matrix) (r : nat) :
  ldl.pivot.rowMaxValA A r =
  Rmax (value (leftScan (Get A) 0 r))
       (value (belowScan (Get A) (Height A) r (r + 1))).
Proof.
  unfold ldl.pivot.rowMaxValA, Max, leftScan, belowScan.
  rewrite VectorMax_row_view, VectorMax_column_view by lia.
  rewrite Nat.sub_0_r. reflexivity.
Qed.

Lemma rowMaxValD_scans (A : Matrix) (r : nat) :
  ldl.pivot.rowMaxValD A r =
  Rmax (value (leftScan (Get A) 0 r))
       (value (belowScan (Get A) (Height A) r r)).
Proof.
  unfold ldl.pivot.rowMaxValD, Max, leftScan, belowScan.
  rewrite VectorMax_row_view, VectorMax_column_view by lia.
  rewrite Nat.sub_0_r. reflexivity.
Qed.

Lemma BunchKaufmanA_bkDecide (A : Matrix) (gamma : R) :
  let E := Get A in
  let n := Height A in
  let r := (index (colScan E n 0) + (0 + 1))%nat in
  ldl.pivot.BunchKaufmanA A gamma =
  bkDecide true (ldl.pivot.defaultGamma ldl.pivot.gammaA gamma)
    (Rabs (E 0 0)%nat) (value (colScan E n 0))
    (Rmax (value (leftScan E 0 r)) (value (belowScan E n r (r + 1))))
    (Rabs (E r r)) 0 r.
Proof.
  intros E n r. unfold ldl.pivot.BunchKaufmanA.
  rewrite a21Max_colScan, rowMaxValA_scans. reflexivity.
Qed.

Lemma BunchKaufmanD_bkDecide (A : Matrix) (gamma : R) :
  let E := Get A in
  let n := Height A in
  let r := (index (colScan E n 0) + (0 + 1))%nat in
  ldl.pivot.BunchKaufmanD A gamma =
  bkDecide false (ldl.pivot.defaultGamma ldl.pivot.gammaD gamma)
    (Rabs (E 0 0)%nat) (value (colScan E n 0))
    (Rmax (value (leftScan E 0 r)) (value (belowScan E n r r)))
    (Rabs (E r r)) 0 r.
Proof.
  intros E n r. unfold ldl.pivot.BunchKaufmanD.
  rewrite a21Max_colScan, rowMaxValD_scans. reflexivity.
Qed.

Lemma panelAlpha11Abs_corrected (A X Y : Matrix) (k : nat) :
  ldl.pivot.panelAlpha11Abs A X Y k = Rabs (corrected A X Y k k k).
Proof.
  unfold ldl.pivot.panelAlpha11Abs, Abs. rewrite Get_zB1.
  rewrite Nat.add_0_r. reflexivity.
Qed.

Lemma panelA21Max_colScan (A X Y : Matrix) (k : nat) :
  ldl.pivot.panelA21Max A X Y k = colScan (corrected A X Y k) (Height A) k.
Proof.
  unfold ldl.pivot.panelA21Max, colScan.
  rewrite (VectorMax_column_view _ 1 0 (Height A - k) 1) by reflexivity.
  apply VectorMax_scan_ext. intros i _. rewrite Get_zB1. f_equal. lia.
Qed.

Lemma VectorMax_zLeft (A X Y : Matrix) (k r : nat) :
  VectorMax (ldl.pivot.zLeft A X Y k r) = leftScan (corrected A X Y k) k r.
Proof.
  unfold VectorMax, leftScan. rewrite vecLen_zLeft.
  apply VectorMax_scan_ext. intros j Hj. apply vecGet_zLeft. exact Hj.
Qed.

Lemma VectorMax_zBottom (A X Y : Matrix) (k r : nat) :
  VectorMax (ldl.pivot.zBottom A X Y k r) =
  belowScan (corrected A X Y k) (Height A) r r.
Proof.
  unfold VectorMax, belowScan, vecLen, vecGet.
  assert (HW : Width (ldl.pivot.zBottom A X Y k r) = 1%nat).
  { unfold ldl.pivot.zBottom, Gemv. cbn [Width LockedViewRange]. lia. }
  rewrite HW. cbn [Nat.eqb].
  assert (HH : Height (ldl.pivot.zBottom A X Y k r) = (Height A - r)%nat)
    by reflexivity.
  rewrite HH. apply VectorMax_scan_ext. intros i _. apply Get_zBottom.
Qed.

Lemma VectorMax_zStrictBottom (A X Y : Matrix) (k r : nat) :
  VectorMax (ViewRange (ldl.pivot.zBottom A X Y k r) 1 0 (Height A - r) 1) =
  belowScan (corrected A X Y k) (Height A) r (r + 1).
Proof.
  unfold ViewRange, belowScan.
  rewrite (VectorMax_column_view _ 1 0 (Height A - r) 1) by reflexivity.
  replace (Height A - r - 1)%nat with (Height A - (r + 1))%nat by lia.
  apply VectorMax_scan_ext. intros i _. rewrite Get_zBottom. f_equal. lia.
Qed.

Lemma PanelBunchKaufmanA_bkDecide (A X Y : Matrix) (k : nat) (gamma : R) :
  let E := corrected A X Y k in
  let n := Height A in
  let r := (index (colScan E n k) + (k + 1))%nat in
  ldl.pivot.PanelBunchKaufmanA A X Y k gamma =
  bkDecide true (ldl.pivot.defaultGamma ldl.pivot.gammaA gamma)
    (Rabs (E k k)) (value (colScan E n k))
    (Rmax (value (leftScan E k r)) (value (belowScan E n r (r + 1))))
    (Rabs (E r r)) k r.
Proof.
  intros E n r. unfold ldl.pivot.PanelBunchKaufmanA, ldl.pivot.panelRowMaxValA.
  rewrite panelAlpha11Abs_corrected, panelA21Max_colScan.
  rewrite VectorMax_zLeft, VectorMax_zStrictBottom, Get_zBottom.
  rewrite Nat.add_0_r. reflexivity.
Qed.

Lemma PanelBunchKaufmanD_bkDecide (A X Y : Matrix) (k : nat) (gamma : R) :
  let E := corrected A X Y k in
  let n := Height A in
  let r := (index (colScan E n k) + (k + 1))%nat in
  ldl.pivot.PanelBunchKaufmanD A X Y k gamma =
  bkDecide false (ldl.pivot.defaultGamma ldl.pivot.gammaD gamma)
    (Rabs (E k k)) (value (colScan E n k))
    (Rmax (value (leftScan E k r)) (value (belowScan E n r r)))
    (Rabs (E r r)) k r.
Proof.
  intros E n r. unfold ldl.pivot.PanelBunchKaufmanD, ldl.pivot.panelRowMaxValD.
  rewrite panelAlpha11Abs_corrected, panelA21Max_colScan.
  rewrite VectorMax_zLeft, VectorMax_zBottom.
  reflexivity.
Qed.

(** ** Outcomes of the four routines *)

Lemma BunchKaufmanA_outcome (A : Matrix) (gamma : R) :
  (1 <= Height A)%nat ->
  BKOutcome true (fun r => (r + 1)%nat)
    (ldl.pivot.defaultGamma ldl.pivot.gammaA gamma)
    (Get A) (Height A) 0 (ldl.pivot.BunchKaufmanA A gamma).
Proof.
  intros Hn. rewrite BunchKaufmanA_bkDecide.
  apply (bkDecide_outcome true (fun r => (r + 1)%nat)); [lia|intros; lia].
Qed.

Lemma BunchKaufmanD_outcome (A : Matrix) (gamma : R) :
  (1 <= Height A)%nat ->
  BKOutcome false (fun r => r)
    (ldl.pivot.defaultGamma ldl.pivot.gammaD gamma)
    (Get A) (Height A) 0 (ldl.pivot.BunchKaufmanD A gamma).
Proof.
  intros Hn. rewrite BunchKaufmanD_bkDecide.
  apply (bkDecide_outcome false (fun r => r)); [lia|intros; lia].
Qed.

Lemma PanelBunchKaufmanA_outcome (A X Y : Matrix) (k : nat) (gamma : R) :
  (k < Height A)%nat ->
  BKOutcome true (fun r => (r + 1)%nat)
    (ldl.pivot.defaultGamma ldl.pivot.gammaA gamma)
    (corrected A X Y k) (Height A) k
    (ldl.pivot.PanelBunchKaufmanA A X Y k gamma).
Proof.
  intros Hn. rewrite PanelBunchKaufmanA_bkDecide.
  apply (bkDecide_outcome true (fun r => (r + 1)%nat)); [lia|intros; lia].
Qed.

Lemma PanelBunchKaufmanD_outcome (A X Y : Matrix) (k : nat) (gamma : R) :
  (k < Height A)%nat ->
  BKOutcome false (fun r => r)
    (ldl.pivot.defaultGamma ldl.pivot.gammaD gamma)
    (corrected A X Y k) (Height A) k
    (ldl.pivot.PanelBunchKaufmanD A X Y k gamma).
Proof.
  intros Hn. rewrite PanelBunchKaufmanD_bkDecide.
  apply (bkDecide_outcome false (fun r => r)); [lia|intros; lia].
Qed.

(** ** Evaluating the routines on concrete matrices *)

Lemma gammaA_bounds : 5 / 8 < ldl.pivot.gammaA < 3 / 4.
Proof.
  unfold ldl.pivot.gammaA.
  assert (H4 : sqrt (4 * 4) = 4) by (apply sqrt_square; lra).
  assert (H5 : sqrt (5 * 5) = 5) by (apply sqrt_square; lra).
  assert (Hlo : sqrt (4 * 4) < sqrt 17) by (apply sqrt_lt_1_alt; lra).
  assert (Hhi : sqrt 17 < sqrt (5 * 5)) by (apply sqrt_lt_1_alt; lra).
  lra.
Qed.

Lemma defaultGamma_0 (dflt : R) : ldl.pivot.defaultGamma dflt 0 = dflt.
Proof.
  unfold ldl.pivot.defaultGamma. rewrite (proj2 (Reqb_true 0 0)); reflexivity.
Qed.

Lemma defaultGamma_nonzero (dflt gamma : R) :
  gamma <> 0 -> ldl.pivot.defaultGamma dflt gamma = gamma.
Proof.
  intros H. unfold ldl.pivot.defaultGamma.
  rewrite (proj2 (Reqb_false gamma 0)); [reflexivity|exact H].
Qed.

(** Settles comparisons between closed real expressions. *)
Ltac rcompare :=
  unfold Abs, Max, Rmax, Rabs;
  repeat match goal with
         | |- context [Rcase_abs ?x] => destruct (Rcase_abs x)
         | |- context [Rle_dec ?x ?y] => destruct (Rle_dec x y)
         end;
  try lra; try (intro; lra).

(** Resolves, innermost first, every test of the goal whose operands are
    closed. *)
Ltac no_test t :=
  lazymatch t with
  | context [Rgtb _ _] => fail
  | context [Rgeb _ _] => fail
  | context [Reqb _ _] => fail
  | _ => idtac
  end.

Ltac settle_test :=
  match goal with
  | |- context [Rgtb ?x ?y] =>
      no_test x; no_test y;
      first [ rewrite (proj2 (Rgtb_true x y)) by rcompare
            | rewrite (proj2 (Rgtb_false x y)) by rcompare ]
  | |- context [Rgeb ?x ?y] =>
      no_test x; no_test y;
      first [ rewrite (proj2 (Rgeb_true x y)) by rcompare
            | rewrite (proj2 (Rgeb_false x y)) by rcompare ]
  | |- context [Reqb ?x ?y] =>
      no_test x; no_test y;
      first [ rewrite (proj2 (Reqb_true x y)) by rcompare
            | rewrite (proj2 (Reqb_false x y)) by rcompare ]
  end.

Ltac evaluate :=
  repeat first
    [ progress cbn [VectorMax_scan value index andb nth Get fromRows Nat.add
                    Nat.sub Height Width Nat.eqb Nat.leb Nat.ltb]
    | settle_test ].



Example BunchKaufmanA_A_five :
  ldl.pivot.BunchKaufmanA A_five 0 = Return (Pivot1x1 0).
Proof.
  rewrite BunchKaufmanA_bkDecide. rewrite defaultGamma_0.
  pose proof gammaA_bounds as Hg.
  unfold bkDecide, colScan, leftScan, belowScan, A_five.
  evaluate. reflexivity.
Qed.

(** ** Uniqueness of the searched quantities *)




Lemma BKOutcome_SingularIff (third : bool) (lo : nat -> nat) (g : R)
  (E : nat -> nat -> R) (n k : nat) (res : Result LDLPivot) :
  BKOutcome third lo g E n k res -> SingularIff E n k res.
Proof.
  intros H.
  destruct H as [o C Ha Ho|o C Hn Ht|o r p C F M Hp Ht1 Ht2
                |o r p Hth C F M Hp Ht1 Ht2 Ht3|o r p C F M Hp Ht1 Ht2 Ht3];
    exists o; (split; [exact C|]); split;
    try (split; [intros Hx; try discriminate Hx; tauto
                |intros [Hx1 Hx2]; try reflexivity; exfalso;
                 first [tauto | lra]]);
    try (intros Hx; first [tauto | eexists; reflexivity]).
Qed.

Lemma second_test_safe (E : nat -> nat -> R) (n k lo : nat) (g : R) :
  let omega := value (colScan E n k) in
  let r := (index (colScan E n k) + (k + 1))%nat in
  let rho := Rmax (value (leftScan E k r)) (value (belowScan E n r lo)) in
  Rabs (E k k) < g * omega ->
  0 < omega /\ Rabs (E r k) = omega /\ omega <= rho /\ 0 < rho.
Proof.
  intros omega r rho Htest.
  assert (H0 : 0 <= omega).
  { destruct (VectorMax_scan_spec (fun i => E (k + 1 + i)%nat k) (n - k - 1))
      as (H0 & _). exact H0. }
  assert (Hpos : 0 < omega).
  { destruct (Req_dec_T omega 0) as [Hz|Hz]; [|lra].
    rewrite Hz in Htest. pose proof (Rabs_pos (E k k)). lra. }
  destruct (colScan_FirstAttains E n k Hpos) as (Hr & Hv & _).
  fold r omega in Hr, Hv.
  assert (Hle : omega <= rho).
  { rewrite <- Hv. eapply Rle_trans; [apply (leftScan_ge E k r); lia|].
    apply Rmax_l. }
  repeat split; try assumption; lra.
Qed.




(** ** The claims on pivot selection *)




(** C3.  Each of [BunchKaufmanA], [BunchKaufmanD], [PanelBunchKaufmanA] and
    [PanelBunchKaufmanD] throws the singular-matrix exception if and only
    if [alpha], the magnitude of the leading (lazily corrected) diagonal
    entry of the active block, and [omega], the largest magnitude below
    the diagonal of its first column, are both zero; otherwise it returns
    a pivot record. *)
Theorem C3_singular_iff_alpha_omega_zero :
  (forall A gamma, (1 <= Height A)%nat ->
     SingularIff (Get A) (Height A) 0 (ldl.pivot.BunchKaufmanA A gamma)) /\
  (forall A gamma, (1 <= Height A)%nat ->
     SingularIff (Get A) (Height A) 0 (ldl.pivot.BunchKaufmanD A gamma)) /\
  (forall A X Y k gamma, (k < Height A)%nat ->
     SingularIff (corrected A X Y k) (Height A) k
       (ldl.pivot.PanelBunchKaufmanA A X Y k gamma)) /\
  (forall A X Y k gamma, (k < Height A)%nat ->
     SingularIff (corrected A X Y k) (Height A) k
       (ldl.pivot.PanelBunchKaufmanD A X Y k gamma)).
Proof.
  repeat split; intros.
  - eapply BKOutcome_SingularIff, BunchKaufmanA_outcome; assumption.
  - eapply BKOutcome_SingularIff, BunchKaufmanD_outcome; assumption.
  - eapply BKOutcome_SingularIff, PanelBunchKaufmanA_outcome; assumption.
  - eapply BKOutcome_SingularIff, PanelBunchKaufmanD_outcome; assumption.
Qed.

Lemma C3_singular_iff_alpha_omega_zero_witness :
  (1 <= Height A_five)%nat /\
  SingularIff (Get A_five) (Height A_five) 0 (ldl.pivot.BunchKaufmanA A_five 0).
Proof.
  assert (Hn : (1 <= Height A_five)%nat) by (simpl; lia).
  split; [exact Hn|].
  exact (proj1 C3_singular_iff_alpha_omega_zero A_five 0 Hn).
Defined.



(** C9.  In [BunchKaufmanA], [BunchKaufmanD] and their panel variants,
    when the first test [alpha >= gamma*omega] has failed, [omega] is
    positive, the left segment of row [r] starts with the (lazily
    corrected) entry of column 0 (column [k] in the panel) whose magnitude
    is [omega], and so the row maximum satisfies [rho >= omega > 0]: the
    quotient [omega/rho] of the second test has a positive divisor. *)
Theorem C9_row_maximum_positive :
  (forall A gamma,
     let omega := value (ldl.pivot.a21Max A) in
     let r := (index (ldl.pivot.a21Max A) + 1)%nat in
     Abs (Get A 0 0) < ldl.pivot.defaultGamma ldl.pivot.gammaA gamma * omega ->
     0 < omega /\ Rabs (Get A r 0) = omega /\
     omega <= ldl.pivot.rowMaxValA A r /\ 0 < ldl.pivot.rowMaxValA A r) /\
  (forall A gamma,
     let omega := value (ldl.pivot.a21Max A) in
     let r := (index (ldl.pivot.a21Max A) + 1)%nat in
     Abs (Get A 0 0) < ldl.pivot.defaultGamma ldl.pivot.gammaD gamma * omega ->
     0 < omega /\ Rabs (Get A r 0) = omega /\
     omega <= ldl.pivot.rowMaxValD A r /\ 0 < ldl.pivot.rowMaxValD A r) /\
  (forall A X Y k gamma,
     let omega := value (ldl.pivot.panelA21Max A X Y k) in
     let r := (index (ldl.pivot.panelA21Max A X Y k) + (k + 1))%nat in
     ldl.pivot.panelAlpha11Abs A X Y k
       < ldl.pivot.defaultGamma ldl.pivot.gammaA gamma * omega ->
     0 < omega /\ Rabs (vecGet (ldl.pivot.zLeft A X Y k r) 0) = omega /\
     omega <= ldl.pivot.panelRowMaxValA A X Y k r /\
     0 < ldl.pivot.panelRowMaxValA A X Y k r) /\
  (forall A X Y k gamma,
     let omega := value (ldl.pivot.panelA21Max A X Y k) in
     let r := (index (ldl.pivot.panelA21Max A X Y k) + (k + 1))%nat in
     ldl.pivot.panelAlpha11Abs A X Y k
       < ldl.pivot.defaultGamma ldl.pivot.gammaD gamma * omega ->
     0 < omega /\ Rabs (vecGet (ldl.pivot.zLeft A X Y k r) 0) = omega /\
     omega <= ldl.pivot.panelRowMaxValD A X Y k r /\
     0 < ldl.pivot.panelRowMaxValD A X Y k r).
Proof.
  split; [|split; [|split]].
  - intros A gamma omega r. unfold omega, r.
    rewrite a21Max_colScan, rowMaxValA_scans. unfold Abs.
    apply (second_test_safe (Get A) (Height A) 0).
  - intros A gamma omega r. unfold omega, r.
    rewrite a21Max_colScan, rowMaxValD_scans. unfold Abs.
    apply (second_test_safe (Get A) (Height A) 0).
  - intros A X Y k gamma omega r. unfold omega, r.
    unfold ldl.pivot.panelRowMaxValA, Max.
    rewrite panelA21Max_colScan, panelAlpha11Abs_corrected.
    rewrite VectorMax_zLeft, VectorMax_zStrictBottom.
    intros Htest. rewrite vecGet_zLeft by lia. rewrite Nat.add_0_r.
    revert Htest. apply (second_test_safe (corrected A X Y k) (Height A) k).
  - intros A X Y k gamma omega r. unfold omega, r.
    unfold ldl.pivot.panelRowMaxValD, Max.
    rewrite panelA21Max_colScan, panelAlpha11Abs_corrected.
    rewrite VectorMax_zLeft, VectorMax_zBottom.
    intros Htest. rewrite vecGet_zLeft by lia. rewrite Nat.add_0_r.
    revert Htest. apply (second_test_safe (corrected A X Y k) (Height A) k).
Qed.

Example a21Max_A_dominated : value (ldl.pivot.a21Max A_dominated) = 2.
Proof.
  rewrite a21Max_colScan. unfold colScan, A_dominated.
  evaluate. rcompare.
Qed.

Lemma C9_row_maximum_positive_witness :
  Abs (Get A_dominated 0 0)
    < ldl.pivot.defaultGamma ldl.pivot.gammaA 0
      * value (ldl.pivot.a21Max A_dominated) /\
  0 < ldl.pivot.rowMaxValA A_dominated
        (index (ldl.pivot.a21Max A_dominated) + 1).
Proof.
  assert (Htest : Abs (Get A_dominated 0 0)
            < ldl.pivot.defaultGamma ldl.pivot.gammaA 0
              * value (ldl.pivot.a21Max A_dominated)).
  { rewrite defaultGamma_0, a21Max_A_dominated.
    pose proof gammaA_bounds as Hg.
    unfold A_dominated. cbn [Get fromRows nth]. rcompare. }
  split; [exact Htest|].
  exact (proj2 (proj2 (proj2
           (proj1 C9_row_maximum_positive A_dominated 0 Htest)))).
Defined.

(** ** The dispatch of getDiagonal *)

(** C8.  [ElDistMatrixGetDiagonal] succeeds exactly on the twelve pairs of
    its closed table and returns the diagonal distribution the table
    fixes, a fully replicated source giving a fully replicated diagonal;
    every other pair yields the runtime error "Invalid distribution pair".
    The pairs (MR,MC) and (MR,STAR), which [ElDistMatrixCreateSpecific]
    accepts, are not in the table: an object created with either of them
    makes [ElDistMatrixGetDiagonal] fail. *)
Theorem C8_GetDiagonal_table :
  (forall T U V,
     CInterface.ElDistMatrixGetDiagonal (mkClass T U V) =
     match tableLookup U V with
     | Some (UDiag, VDiag) => (EL_SUCCESS, Some (mkClass T UDiag VDiag))
     | None => (EL_RUNTIME_ERROR, None)
     end) /\
  (forall T,
     CInterface.ElDistMatrixGetDiagonal (mkClass T STAR STAR) =
     (EL_SUCCESS, Some (mkClass T STAR STAR))) /\
  (forall T,
     CInterface.ElDistMatrixCreateSpecific T MR MC =
       (EL_SUCCESS, Some (mkClass T MR MC)) /\
     CInterface.ElDistMatrixGetDiagonal (mkClass T MR MC) =
       (EL_RUNTIME_ERROR, None) /\
     CInterface.ElDistMatrixCreateSpecific T MR STAR =
       (EL_SUCCESS, Some (mkClass T MR STAR)) /\
     CInterface.ElDistMatrixGetDiagonal (mkClass T MR STAR) =
       (EL_RUNTIME_ERROR, None)) /\
  (forall T U V A,
     CInterface.ElDistMatrixCreateSpecific T U V = (EL_SUCCESS, Some A) ->
     fst (CInterface.ElDistMatrixGetDiagonal A) = EL_SUCCESS \/
     (U = MR /\ (V = MC \/ V = STAR))).
Proof.
  split; [|split; [|split]].
  - intros T U V. destruct U, V; reflexivity.
  - intros T. reflexivity.
  - intros T. repeat split; reflexivity.
  - intros T U V A H.
    destruct U, V; cbn in H; try discriminate H;
      injection H as <-; cbn; auto.
Qed.

Lemma C8_GetDiagonal_table_witness :
  CInterface.ElDistMatrixCreateSpecific Float MC MR
    = (EL_SUCCESS, Some (mkClass Float MC MR)) /\
  (fst (CInterface.ElDistMatrixGetDiagonal (mkClass Float MC MR)) = EL_SUCCESS \/
   (MC = MR /\ (MR = MC \/ MR = STAR))).
Proof.
  split; [reflexivity|].
  exact (proj2 (proj2 (proj2 C8_GetDiagonal_table))
           Float MC MR (mkClass Float MC MR) eq_refl).
Defined.

(** ** The distribution proxies *)

Lemma ElemType_eqb_eq (a b : ElemType) : ElemType_eqb a b = true <-> a = b.
Proof. destruct a, b; simpl; split; intros H; try reflexivity; discriminate. Qed.

Lemma Dist_eqb_eq (a b : Dist) : Dist_eqb a b = true <-> a = b.
Proof. destruct a, b; simpl; split; intros H; try reflexivity; discriminate. Qed.

Lemma misalign_false (c : bool) (x y : Z) :
  negb (c && negb (Z.eqb x y)) = true <-> (c = true -> x = y).
Proof.
  destruct c; simpl.
  - rewrite negb_involutive, Z.eqb_eq. split; intros H; [intros _; exact H|].
    apply H; reflexivity.
  - split; [intros _ H; discriminate H|reflexivity].
Qed.

Lemma aliases_Matches {Scalar : Type} (T : ElemType) (U V : Dist)
  (A : @El.DistMatrixObj Scalar) (ctrl : ElementalProxyCtrl) :
  El.aliases T U V A ctrl = true <-> El.Matches T U V A ctrl.
Proof.
  unfold El.aliases, El.Matches.
  destruct (ElemType_eqb (El.objElem A) T) eqn:E1; cbn [andb].
  2:{ split; [discriminate|]. intros (H & _).
      apply ElemType_eqb_eq in H. congruence. }
  destruct (Dist_eqb (El.objColDist A) U) eqn:E2; cbn [andb].
  2:{ split; [discriminate|]. intros (_ & H & _).
      apply Dist_eqb_eq in H. congruence. }
  destruct (Dist_eqb (El.objRowDist A) V) eqn:E3; cbn [andb].
  2:{ split; [discriminate|]. intros (_ & _ & H & _).
      apply Dist_eqb_eq in H. congruence. }
  apply ElemType_eqb_eq in E1. apply Dist_eqb_eq in E2, E3.
  destruct (El.objWrap A) eqn:E4.
  2:{ split; [discriminate|]. intros (_ & _ & _ & H & _). discriminate. }
  rewrite !andb_true_iff, !misalign_false. tauto.
Qed.

Lemma fresh_not_live {Scalar : Type} (m : gmap nat (@El.DistMatrixObj Scalar))
  (a : nat) :
  is_Some (m !! a) -> fresh (dom m) <> a.
Proof.
  intros Ha Heq. apply (is_fresh (dom m)). rewrite Heq.
  apply elem_of_dom. exact Ha.
Qed.

(** C6.  When the source at address [a] has the target element type and
    distribution pair (element-wise wrapping) and violates no active
    alignment or root constraint, each of the three proxy constructors
    leaves the heap as it is (nothing allocated, nothing copied) and stores
    the address of the source itself; [GetLocked] and [Get] return that
    address, so a mutation made through the proxy is a mutation of the
    source; the destructors leave the heap as it is (no copy, no
    deletion). *)
Theorem C6_matching_source_is_aliased :
  forall (Scalar : Type) (convert : ElemType -> ElemType -> Scalar -> Scalar)
         (blank : Scalar) (w : El.World) (a : nat) (A : El.DistMatrixObj)
         (T : ElemType) (U V : Dist) (ctrl : ElementalProxyCtrl),
    El.store w !! a = Some A ->
    El.Matches T U V A ctrl ->
    (forall locked,
       El.DistMatrixReadProxy convert blank locked T U V a ctrl w =
       Some (El.mkProxy locked false false a a, w)) /\
    El.DistMatrixWriteProxy blank T U V a ctrl w =
      Some (El.mkProxy false false false a a, w) /\
    El.DistMatrixReadWriteProxy convert blank T U V a ctrl w =
      Some (El.mkProxy false false false a a, w) /\
    (forall locked,
       let px := El.mkProxy locked false false a a in
       El.GetLocked px = a /\
       (locked = false -> El.GetMutable px = Return a) /\
       (forall f (w' : @El.World Scalar),
          El.store (El.mutate (El.GetLocked px) f w') !! a =
          f <$> El.store w' !! a) /\
       (forall w' : @El.World Scalar, El.destroyReadProxy px w' = w') /\
       (forall uncaught w', El.destroyWriteProxy convert px uncaught w' = w')).
Proof.
  intros Scalar convert blank w a A T U V ctrl Ha HM.
  apply aliases_Matches in HM.
  unfold El.DistMatrixReadProxy, El.DistMatrixWriteProxy,
    El.DistMatrixReadWriteProxy.
  rewrite Ha. cbn [mbind option_bind]. rewrite HM.
  split; [reflexivity|]. split; [reflexivity|]. split; [reflexivity|].
  intros locked. split; [reflexivity|]. split.
  - intros ->. reflexivity.
  - split; [|split; reflexivity].
    intros f w'. unfold El.mutate, El.GetLocked. cbn.
    apply lookup_alter_eq.
Qed.

Lemma C6_matching_source_is_aliased_witness :
  let A := El.mkObj Double MC MR ELEMENT 0 0 0 2 2 (fun _ _ => 7%Z) in
  let w := El.mkWorld {[ 5%nat := A ]} [] in
  let ctrl := mkCtrl true false false 0 0 0 in
  El.store w !! 5%nat = Some A /\
  El.Matches Double MC MR A ctrl /\
  El.DistMatrixReadWriteProxy (fun _ _ z => z) 0%Z Double MC MR 5 ctrl w =
    Some (El.mkProxy false false false 5 5, w).
Proof.
  intros A w ctrl.
  assert (Ha : El.store w !! 5%nat = Some A) by reflexivity.
  assert (HM : El.Matches Double MC MR A ctrl).
  { unfold El.Matches, A, ctrl; cbn. repeat split; intros H; discriminate H. }
  split; [exact Ha|]. split; [exact HM|].
  exact (proj1 (proj2 (proj2
           (C6_matching_source_is_aliased Z (fun _ _ z => z) 0%Z w 5%nat A
              Double MC MR ctrl Ha HM)))).
Defined.

Lemma write_proxy_shape {Scalar : Type}
  (convert : ElemType -> ElemType -> Scalar -> Scalar) (blank : Scalar)
  (w : El.World) (a : nat) (A : El.DistMatrixObj)
  (T : ElemType) (U V : Dist) (ctrl : ElementalProxyCtrl)
  (px : El.DistMatrixProxy) (w1 : El.World) :
  El.store w !! a = Some A ->
  El.DistMatrixWriteProxy blank T U V a ctrl w = Some (px, w1) \/
  El.DistMatrixReadWriteProxy convert blank T U V a ctrl w = Some (px, w1) ->
  (El.aliases T U V A ctrl = true /\
   px = El.mkProxy false false false a a /\ w1 = w) \/
  (El.aliases T U V A ctrl = false /\
   px = El.mkProxy false true true a (fresh (dom (El.store w))) /\
   El.store w1 !! a = Some A /\
   is_Some (El.store w1 !! fresh (dom (El.store w)))).
Proof.
  intros Ha Hc.
  assert (Hf : fresh (dom (El.store w)) <> a)
    by (apply fresh_not_live; rewrite Ha; eauto).
  unfold El.DistMatrixWriteProxy, El.DistMatrixReadWriteProxy in Hc.
  rewrite Ha in Hc. cbn [mbind option_bind] in Hc.
  destruct (El.aliases T U V A ctrl) eqn:Eal.
  - left. destruct Hc as [Hc|Hc]; injection Hc as <- <-; auto.
  - right. split; [reflexivity|].
    destruct Hc as [Hc|Hc]; injection Hc as <- <-.
    + split; [reflexivity|]. cbn. split.
      * rewrite lookup_insert_ne by exact Hf. exact Ha.
      * rewrite lookup_insert_eq. eauto.
    + split; [reflexivity|]. unfold El.Copy. cbn.
      rewrite lookup_insert_ne by exact Hf. rewrite Ha.
      rewrite lookup_insert_eq. split.
      * rewrite lookup_insert_ne by exact Hf.
        rewrite lookup_insert_ne by exact Hf. exact Ha.
      * rewrite lookup_insert_eq. eauto.
Qed.

(** C5.  For a write or read-write proxy of the source at address [a]:
    [needWriteCopy_] is set exactly when the source did not already match
    the target element type, distribution and active constraints, in which
    case the proxy is a different object; the destructor calls [Copy] from
    the proxy to the source if and only if [needWriteCopy_] is set and no
    exception is propagating, and then the source holds the content of the
    proxy; when an exception is propagating the destructor leaves the
    source as it is, and for a copied proxy the source still is the object
    it was at construction, whatever was written through the proxy. *)
Theorem C5_write_back_unless_unwinding :
  forall (Scalar : Type) (convert : ElemType -> ElemType -> Scalar -> Scalar)
         (blank : Scalar) (w : El.World) (a : nat) (A : El.DistMatrixObj)
         (T : ElemType) (U V : Dist) (ctrl : ElementalProxyCtrl)
         (px : El.DistMatrixProxy) (w1 : El.World),
    El.store w !! a = Some A ->
    El.DistMatrixWriteProxy blank T U V a ctrl w = Some (px, w1) \/
    El.DistMatrixReadWriteProxy convert blank T U V a ctrl w = Some (px, w1) ->
    El.orig_ px = a /\
    (El.needWriteCopy_ px = true <-> ~ El.Matches T U V A ctrl) /\
    (El.needWriteCopy_ px = true -> El.prox_ px <> a) /\
    (forall uncaught (w2 : El.World),
       let w3 := El.destroyWriteProxy convert px uncaught w2 in
       exists evs,
         El.trace w3 = El.trace w2 ++ evs /\
         (In (EvCopy (El.prox_ px) a) evs <->
          El.needWriteCopy_ px = true /\ uncaught = false) /\
         (uncaught = true -> El.store w3 !! a = El.store w2 !! a) /\
         (El.needWriteCopy_ px = true -> uncaught = false ->
          forall P B,
            El.store w2 !! El.prox_ px = Some P ->
            El.store w2 !! a = Some B ->
            El.store w3 !! a = Some (El.CopyObj convert P B))) /\
    (El.needWriteCopy_ px = true ->
     forall f,
       El.store (El.destroyWriteProxy convert px true
                   (El.mutate (El.prox_ px) f w1)) !! a = Some A).
Proof.
  intros Scalar convert blank w a A T U V ctrl px w1 Ha Hc.
  assert (Hf : fresh (dom (El.store w)) <> a)
    by (apply fresh_not_live; rewrite Ha; eauto).
  destruct (write_proxy_shape convert blank w a A T U V ctrl px w1 Ha Hc)
    as [(Hal & -> & ->)|(Hal & -> & Ha1 & Hp1)]; cbn.
  - split; [reflexivity|]. split; [|split; [|split]].
    + apply aliases_Matches in Hal. split; [discriminate|tauto].
    + discriminate.
    + intros uncaught w2. exists []. unfold El.destroyWriteProxy; cbn.
      rewrite app_nil_r. split; [reflexivity|]. split; [|split].
      * split; [intros []|intros [H _]; discriminate H].
      * reflexivity.
      * discriminate.
    + discriminate.
  - split; [reflexivity|]. split; [|split; [|split]].
    + split; [|reflexivity]. intros _ HM. apply aliases_Matches in HM.
      congruence.
    + intros _. exact Hf.
    + intros uncaught w2. unfold El.destroyWriteProxy; cbn.
      destruct uncaught; cbn.
      * exists [EvDelete (fresh (dom (El.store w)))].
        split; [reflexivity|]. split; [|split].
        -- split; [intros [H|[]]; discriminate H|intros [_ H]; discriminate H].
        -- intros _. apply lookup_delete_ne. exact Hf.
        -- discriminate.
      * exists [EvCopy (fresh (dom (El.store w))) a;
                EvDelete (fresh (dom (El.store w)))].
        split; [rewrite <- app_assoc; reflexivity|]. split; [|split].
        -- split; [intros _; split; reflexivity|intros _; left; reflexivity].
        -- discriminate.
        -- intros _ _ P B HP HB. rewrite HP, HB.
           rewrite lookup_delete_ne by exact Hf. apply lookup_insert_eq.
    + intros _ f. unfold El.destroyWriteProxy, El.mutate; cbn.
      rewrite lookup_delete_ne by exact Hf.
      rewrite lookup_alter_ne by exact Hf. exact Ha1.
Qed.

Lemma C5_write_back_unless_unwinding_witness :
  let A := El.mkObj Double MC MR ELEMENT 0 0 0 2 2 (fun _ _ => 7%Z) in
  let w := El.mkWorld {[ 5%nat := A ]} [] in
  let ctrl := mkCtrl false false false 0 0 0 in
  El.store w !! 5%nat = Some A /\
  exists px w1,
    El.DistMatrixWriteProxy 0%Z Double STAR STAR 5 ctrl w = Some (px, w1) /\
    El.orig_ px = 5%nat.
Proof.
  intros A w ctrl.
  assert (Ha : El.store w !! 5%nat = Some A) by reflexivity.
  split; [exact Ha|].
  destruct (El.DistMatrixWriteProxy 0%Z Double STAR STAR 5 ctrl w)
    as [[px w1]|] eqn:Hc.
  - exists px, w1. split; [reflexivity|].
    exact (proj1 (C5_write_back_unless_unwinding Z (fun _ _ z => z) 0%Z w
                    5%nat A Double STAR STAR ctrl px w1 Ha (or_introl Hc))).
  - exfalso. unfold El.DistMatrixWriteProxy in Hc. rewrite Ha in Hc.
    cbn in Hc. discriminate Hc.
Defined.

(** ** Bunch-Parlett on a zero matrix *)










(** ** The width of a panel *)

Lemma Panel1x1_Width (conjugate : bool) (off k : nat) (A X Y : Matrix) :
  let '(_, X', Y') := ldl.Panel1x1 conjugate off k A X Y in
  Width X' = Width X /\ Width Y' = Width Y.
Proof. unfold ldl.Panel1x1. cbn. split; reflexivity. Qed.

Lemma Panel2x2_Width (conjugate : bool) (off k : nat) (A X Y : Matrix) :
  let '(_, X', Y', _) := ldl.Panel2x2 conjugate off k A X Y in
  Width X' = Width X /\ Width Y' = Width Y.
Proof. unfold ldl.Panel2x2. cbn. split; reflexivity. Qed.


Lemma Get_TrailingUpdate (A X Y : Matrix) (k nb i j : nat) :
  Get (ldl.TrailingUpdate A X Y k nb) i j =
  if Nat.leb (k + nb) j && Nat.leb j i && Nat.ltb i (Height A)
     && Nat.ltb j (Height A)
  then Get A i j
       - Rsum (fun l => Get X (i - k)%nat l * Get Y (j - k)%nat l) nb
  else Get A i j.
Proof.
  unfold ldl.TrailingUpdate, Paste, Trrk, ViewRange, LockedViewRange.
  cbn [Get Height Width].
  repeat match goal with
         | |- context [Nat.ltb ?a ?b] =>
             destruct (Nat.ltb_spec a b); cbn [andb]
         | |- context [Nat.leb ?a ?b] =>
             destruct (Nat.leb_spec a b); cbn [andb]
         end; try lia; try reflexivity;
    replace (k + nb + (i - (k + nb)))%nat with i by lia;
    replace (k + nb + (j - (k + nb)))%nat with j by lia;
    try reflexivity.
  rewrite Nat.sub_0_r.
  rewrite (Rsum_ext _ (fun l => Get X (i - k)%nat l * Get Y (j - k)%nat l)).
  - lra.
  - intros l _. f_equal; f_equal; lia.
Qed.

Example ChoosePanelPivot_A_swap :
  ldl.ChoosePanelPivot (ViewRange A_swap 0 0 2 2) (Zeros 2 1) (Zeros 2 1) 0
    ldl.BUNCH_KAUFMAN_A 0 = Return (Pivot2x2 0 1).
Proof.
  cbn [ldl.ChoosePanelPivot]. rewrite PanelBunchKaufmanA_bkDecide.
  rewrite defaultGamma_0. pose proof gammaA_bounds as Hg.
  unfold bkDecide, colScan, leftScan, belowScan, corrected, A_swap,
    ViewRange, LockedViewRange, Zeros.
  cbn [Rsum].
  evaluate. reflexivity.
Qed.



(** ** The factorization [P A P^T = L D L^T] *)

Lemma Rsum_plus (f g : nat -> R) (k : nat) :
  Rsum (fun a => f a + g a) k = Rsum f k + Rsum g k.
Proof. induction k as [|k IH]; simpl; [lra|]. rewrite IH. lra. Qed.

Lemma Rsum_zero (f : nat -> R) (k : nat) :
  (forall a, (a < k)%nat -> f a = 0) -> Rsum f k = 0.
Proof.
  induction k as [|k IH]; intros H; simpl; [reflexivity|].
  rewrite IH by (intros; apply H; lia). rewrite H by lia. lra.
Qed.

Lemma Rsum_scale (c : R) (f : nat -> R) (k : nat) :
  Rsum (fun a => c * f a) k = c * Rsum f k.
Proof. induction k as [|k IH]; simpl; [lra|]. rewrite IH. lra. Qed.

(** The double sum over [k+1] columns, when the new row and column of the
    middle factor vanish off the diagonal. *)
Lemma double_sum_step (T T' : nat -> nat -> R) (k : nat) :
  (forall a b, (a < k)%nat -> (b < k)%nat -> T' a b = T a b) ->
  (forall a, (a < k)%nat -> T' a k = 0) ->
  (forall b, (b < k)%nat -> T' k b = 0) ->
  Rsum (fun a => Rsum (fun b => T' a b) (S k)) (S k) =
  Rsum (fun a => Rsum (fun b => T a b) k) k + T' k k.
Proof.
  intros Hin Hcol Hrow. cbn [Rsum].
  rewrite (Rsum_zero (fun b => T' k b) k) by exact Hrow.
  rewrite (Rsum_ext (fun a => Rsum (fun b => T' a b) k + T' a k)
                    (fun a => Rsum (fun b => T a b) k)).
  - lra.
  - intros a Ha. rewrite (Hcol a Ha).
    rewrite (Rsum_ext (fun b => T' a b) (fun b => T a b))
      by (intros b Hb; apply Hin; assumption).
    lra.
Qed.

Lemma Mk_step1 (n k : nat) (L D W L' D' W' : nat -> nat -> R) (delta : R) :
  (k < n)%nat ->
  (forall i a, (i < n)%nat -> (a < k)%nat -> L' i a = L i a) ->
  (forall a b, (a < k)%nat -> (b < k)%nat -> D' a b = D a b) ->
  (forall a, (a < k)%nat -> D' a k = 0 /\ D' k a = 0) ->
  D' k k = delta -> W k k = delta -> delta <> 0 ->
  L' k k = 1 ->
  (forall i, (i < k)%nat -> L' i k = 0) ->
  (forall i, (k < i < n)%nat -> L' i k = W i k / delta) ->
  (forall i j, W i j = W j i) ->
  (forall i j, W' i j = W' j i) ->
  (forall i j, (k < j)%nat -> (j <= i)%nat -> (i < n)%nat ->
     W' i j = W i j - W i k * W j k / delta) ->
  forall i j, (i < n)%nat -> (j < n)%nat ->
    Mk L' D' W' (k + 1) i j = Mk L D W k i j.
Proof.
  intros Hk HL HD HD0 HDk HSk Hd HLk HL0 HLc Hsym Hsym' HW' i j Hi Hj.
  unfold Mk. replace (k + 1)%nat with (S k) by lia.
  rewrite (double_sum_step (fun a b => L i a * D a b * L j b)
             (fun a b => L' i a * D' a b * L' j b)).
  - rewrite HDk.
    destruct (Nat.lt_trichotomy i k) as [Hik|[->|Hik]];
    destruct (Nat.lt_trichotomy j k) as [Hjk|[->|Hjk]];
    repeat match goal with
           | |- context [Nat.leb ?a ?b] =>
               destruct (Nat.leb_spec a b); try lia; cbn [andb]
           end;
    rewrite ?HLk, ?(HL0 i), ?(HL0 j), ?(HLc i), ?(HLc j) by lia;
    try lra.
    + rewrite (Hsym k j). field. exact Hd.
    + field. exact Hd.
    + destruct (Nat.le_gt_cases j i) as [Hji|Hji].
      * rewrite HW' by lia. field. exact Hd.
      * rewrite (Hsym' i j), (Hsym i j). rewrite HW' by lia. field. exact Hd.
  - intros a b Ha Hb. rewrite !HL, HD by assumption. reflexivity.
  - intros a Ha. rewrite (proj1 (HD0 a Ha)). lra.
  - intros b Hb. rewrite (proj2 (HD0 b Hb)). lra.
Qed.

Lemma double_sum_step2 (T T' : nat -> nat -> R) (k : nat) :
  (forall a b, (a < k)%nat -> (b < k)%nat -> T' a b = T a b) ->
  (forall a, (a < k)%nat -> T' a k = 0 /\ T' a (S k) = 0) ->
  (forall b, (b < k)%nat -> T' k b = 0 /\ T' (S k) b = 0) ->
  Rsum (fun a => Rsum (fun b => T' a b) (S (S k))) (S (S k)) =
  Rsum (fun a => Rsum (fun b => T a b) k) k
  + (T' k k + T' k (S k) + T' (S k) k + T' (S k) (S k)).
Proof.
  intros Hin Hcol Hrow. cbn [Rsum].
  rewrite (Rsum_zero (fun b => T' k b) k) by (intros; apply Hrow; assumption).
  rewrite (Rsum_zero (fun b => T' (S k) b) k)
    by (intros; apply Hrow; assumption).
  rewrite (Rsum_ext (fun a => Rsum (fun b => T' a b) k + T' a k + T' a (S k))
                    (fun a => Rsum (fun b => T a b) k)).
  - lra.
  - intros a Ha. destruct (Hcol a Ha) as [-> ->].
    rewrite (Rsum_ext (fun b => T' a b) (fun b => T a b))
      by (intros b Hb; apply Hin; assumption).
    lra.
Qed.

Lemma Mk_step2 (n k : nat) (L D W L' D' W' : nat -> nat -> R)
  (d11 d21 d22 : R) :
  (k + 1 < n)%nat ->
  (forall i a, (i < n)%nat -> (a < k)%nat -> L' i a = L i a) ->
  (forall a b, (a < k)%nat -> (b < k)%nat -> D' a b = D a b) ->
  (forall a, (a < k)%nat ->
     D' a k = 0 /\ D' k a = 0 /\
     D' a (k + 1)%nat = 0 /\ D' (k + 1)%nat a = 0) ->
  D' k k = d11 -> D' (k + 1)%nat k = d21 -> D' k (k + 1)%nat = d21 ->
  D' (k + 1)%nat (k + 1)%nat = d22 ->
  W k k = d11 -> W (k + 1)%nat k = d21 -> W (k + 1)%nat (k + 1)%nat = d22 ->
  d11 * d22 - d21 * d21 <> 0 ->
  L' k k = 1 -> L' (k + 1)%nat k = 0 -> L' k (k + 1)%nat = 0 ->
  L' (k + 1)%nat (k + 1)%nat = 1 ->
  (forall i, (i < k)%nat -> L' i k = 0 /\ L' i (k + 1)%nat = 0) ->
  (forall i, (k + 1 < i < n)%nat ->
     L' i k = (W i k * d22 - W i (k + 1)%nat * d21)
              / (d11 * d22 - d21 * d21) /\
     L' i (k + 1)%nat = (W i (k + 1)%nat * d11 - W i k * d21)
                        / (d11 * d22 - d21 * d21)) ->
  (forall i j, W i j = W j i) ->
  (forall i j, W' i j = W' j i) ->
  (forall i j, (k + 1 < j)%nat -> (j <= i)%nat -> (i < n)%nat ->
     W' i j = W i j - (L' i k * W j k + L' i (k + 1)%nat * W j (k + 1)%nat)) ->
  forall i j, (i < n)%nat -> (j < n)%nat ->
    Mk L' D' W' (k + 2) i j = Mk L D W k i j.
Proof.
  intros Hk HL HD HD0 HD11 HD21 HD12 HD22 HW11 HW21 HW22 Hdet
         HL11 HL21 HL12 HL22 HL0 HLc Hsym Hsym' HW' i j Hi Hj.
  replace (k + 1)%nat with (S k) in * by lia.
  unfold Mk. replace (k + 2)%nat with (S (S k)) by lia.
  rewrite (double_sum_step2 (fun a b => L i a * D a b * L j b)
             (fun a b => L' i a * D' a b * L' j b)).
  - rewrite HD11, HD21, HD12, HD22.
    assert (HW12 : W k (S k) = d21) by (rewrite Hsym; exact HW21).
    assert (Hcases : forall x, (x < n)%nat ->
              (x < k)%nat \/ x = k \/ x = S k \/ (S k < x)%nat) by (intros; lia).
    destruct (Hcases i Hi) as [Hik|[->|[->|Hik]]];
    destruct (Hcases j Hj) as [Hjk|[->|[->|Hjk]]];
    repeat match goal with
           | |- context [Nat.leb ?a ?b] =>
               destruct (Nat.leb_spec a b); try lia; cbn [andb]
           end;
    rewrite ?HL11, ?HL21, ?HL12, ?HL22;
    try (destruct (HL0 i ltac:(lia)) as [-> ->]);
    try (destruct (HL0 j ltac:(lia)) as [-> ->]);
    try lra.
    + destruct (HLc j ltac:(lia)) as [-> ->].
      rewrite (Hsym k j). field. exact Hdet.
    + destruct (HLc j ltac:(lia)) as [-> ->].
      rewrite (Hsym (S k) j). field. exact Hdet.
    + destruct (HLc i ltac:(lia)) as [-> ->]. field. exact Hdet.
    + destruct (HLc i ltac:(lia)) as [-> ->]. field. exact Hdet.
    + destruct (Nat.le_gt_cases j i) as [Hji|Hji].
      * rewrite HW' by lia.
        destruct (HLc i ltac:(lia)) as [-> ->].
        destruct (HLc j ltac:(lia)) as [-> ->]. field. exact Hdet.
      * rewrite (Hsym' i j), (Hsym i j). rewrite HW' by lia.
        destruct (HLc i ltac:(lia)) as [-> ->].
        destruct (HLc j ltac:(lia)) as [-> ->]. field. exact Hdet.
  - intros a b Ha Hb. rewrite !HL, HD by assumption. reflexivity.
  - intros a Ha. destruct (HD0 a Ha) as (-> & _ & -> & _). split; lra.
  - intros b Hb. destruct (HD0 b Hb) as (_ & -> & _ & ->). split; lra.
Qed.

Lemma transp_fix (a b i : nat) : i <> a -> i <> b -> transp a b i = i.
Proof.
  intros Ha Hb. unfold transp.
  destruct (Nat.eqb_spec i a); [contradiction|].
  destruct (Nat.eqb_spec i b); [contradiction|reflexivity].
Qed.

Lemma transp_range (lo hi a b i : nat) :
  (lo <= a < hi)%nat -> (lo <= b < hi)%nat ->
  ((lo <= transp a b i < hi)%nat <-> (lo <= i < hi)%nat) /\
  ((transp a b i < lo)%nat <-> (i < lo)%nat).
Proof.
  intros Ha Hb. unfold transp.
  destruct (Nat.eqb_spec i a); [lia|].
  destruct (Nat.eqb_spec i b); lia.
Qed.

Lemma transp_invol (a b i : nat) : transp a b (transp a b i) = i.
Proof.
  unfold transp.
  destruct (Nat.eqb_spec i a) as [->|Ha].
  - destruct (Nat.eqb_spec b a) as [->|Hba]; [reflexivity|].
    rewrite Nat.eqb_refl. reflexivity.
  - destruct (Nat.eqb_spec i b) as [->|Hb].
    + rewrite Nat.eqb_refl. reflexivity.
    + destruct (Nat.eqb_spec i a); [contradiction|].
      destruct (Nat.eqb_spec i b); [contradiction|reflexivity].
Qed.

Lemma Mk_swap (n k x y : nat) (L D W L' D' W' : nat -> nat -> R) :
  (k <= x < n)%nat -> (k <= y < n)%nat ->
  (forall i a, (i < n)%nat -> (a < k)%nat -> L' i a = L (transp x y i) a) ->
  (forall a b, (a < k)%nat -> (b < k)%nat -> D' a b = D a b) ->
  (forall i j, (k <= i < n)%nat -> (k <= j < n)%nat ->
     W' i j = W (transp x y i) (transp x y j)) ->
  forall i j, (i < n)%nat -> (j < n)%nat ->
    Mk L' D' W' k i j = Mk L D W k (transp x y i) (transp x y j).
Proof.
  intros Hx Hy HL HD HW i j Hi Hj. unfold Mk. f_equal.
  - apply Rsum_ext. intros a Ha. apply Rsum_ext. intros b Hb.
    rewrite !HL, HD by assumption. reflexivity.
  - destruct (transp_range k n x y i Hx Hy) as [Hi1 Hi2].
    destruct (transp_range k n x y j Hx Hy) as [Hj1 Hj2].
    destruct (Nat.leb_spec k i) as [Hki|Hki];
    destruct (Nat.leb_spec k j) as [Hkj|Hkj];
    destruct (Nat.leb_spec k (transp x y i));
    destruct (Nat.leb_spec k (transp x y j)); cbn [andb];
    try lia; try reflexivity.
    apply HW; lia.
Qed.

Ltac split_tests :=
  repeat match goal with
         | |- context [Nat.eqb ?a ?b] =>
             destruct (Nat.eqb_spec a b); cbn [andb orb negb]
         | |- context [Nat.ltb ?a ?b] =>
             destruct (Nat.ltb_spec a b); cbn [andb orb negb]
         | |- context [Nat.leb ?a ?b] =>
             destruct (Nat.leb_spec a b); cbn [andb orb negb]
         end.

(** Evaluates the index tests that the context settles. *)
Ltac decide_tests :=
  repeat match goal with
         | |- context [Nat.eqb ?a ?b] =>
             first [ replace (Nat.eqb a b) with true
                       by (symmetry; apply Nat.eqb_eq; lia)
                   | replace (Nat.eqb a b) with false
                       by (symmetry; apply Nat.eqb_neq; lia) ]
         | |- context [Nat.ltb ?a ?b] =>
             first [ replace (Nat.ltb a b) with true
                       by (symmetry; apply Nat.ltb_lt; lia)
                   | replace (Nat.ltb a b) with false
                       by (symmetry; apply Nat.ltb_ge; lia) ]
         | |- context [Nat.leb ?a ?b] =>
             first [ replace (Nat.leb a b) with true
                       by (symmetry; apply Nat.leb_le; lia)
                   | replace (Nat.leb a b) with false
                       by (symmetry; apply Nat.leb_gt; lia) ]
         end;
  rewrite ?andb_false_r, ?andb_true_r; cbn [andb orb negb].

Ltac tests := decide_tests; split_tests; try lia.

Lemma symGet_sym (A : Matrix) (i j : nat) : symGet A i j = symGet A j i.
Proof.
  unfold symGet. split_tests; try reflexivity; try lia.
  assert (i = j) by lia. subst. reflexivity.
Qed.

Lemma symGet_SymmetricSwap (A : Matrix) (x y i j : nat) :
  symGet (SymmetricSwap A x y) i j = symGet A (transp x y i) (transp x y j).
Proof.
  unfold symGet at 1. unfold SymmetricSwap. cbn [Get].
  destruct (Nat.leb_spec j i) as [Hji|Hji].
  - destruct (Nat.leb_spec j i); [reflexivity|lia].
  - destruct (Nat.leb_spec i j); [|lia]. apply symGet_sym.
Qed.

Lemma Lfactor_SymmetricSwap (A : Matrix) (k x y i a : nat) :
  (k <= x)%nat -> (k <= y)%nat -> (a < k)%nat ->
  Lfactor (SymmetricSwap A x y) i a = Lfactor A (transp x y i) a.
Proof.
  intros Hx Hy Ha. unfold Lfactor, SymmetricSwap, symGet. cbn [Get].
  rewrite (transp_fix x y a) by lia.
  unfold transp. split_tests; try reflexivity; try lia.
Qed.

Lemma Dfactor_SymmetricSwap (A dSub : Matrix) (k x y a b : nat) :
  (k <= x)%nat -> (k <= y)%nat -> (a < k)%nat -> (b < k)%nat ->
  Dfactor (SymmetricSwap A x y) dSub a b = Dfactor A dSub a b.
Proof.
  intros Hx Hy Ha Hb. unfold Dfactor, SymmetricSwap, symGet. cbn [Get].
  rewrite (transp_fix x y a) by lia.
  split_tests; try reflexivity; try lia.
Qed.

Lemma Get_Paste_in (A B : Matrix) (ib jb i j : nat) :
  (ib <= i < ib + Height B)%nat -> (jb <= j < jb + Width B)%nat ->
  Get (Paste A ib jb B) i j = Get B (i - ib) (j - jb).
Proof.
  intros Hi Hj. unfold Paste. cbn [Get].
  destruct (Nat.leb_spec ib i); [|lia].
  destruct (Nat.ltb_spec i (ib + Height B)); [|lia].
  destruct (Nat.leb_spec jb j); [|lia].
  destruct (Nat.ltb_spec j (jb + Width B)); [|lia].
  reflexivity.
Qed.

Lemma Get_Paste_out (A B : Matrix) (ib jb i j : nat) :
  ~ ((ib <= i < ib + Height B)%nat /\ (jb <= j < jb + Width B)%nat) ->
  Get (Paste A ib jb B) i j = Get A i j.
Proof.
  intros H. unfold Paste. cbn [Get].
  destruct (Nat.leb_spec ib i); cbn [andb]; [|reflexivity].
  destruct (Nat.ltb_spec i (ib + Height B)); cbn [andb]; [|reflexivity].
  destruct (Nat.leb_spec jb j); cbn [andb]; [|reflexivity].
  destruct (Nat.ltb_spec j (jb + Width B)); cbn [andb]; [|reflexivity].
  exfalso. apply H. lia.
Qed.

Lemma Get_view (A : Matrix) (a b c d i j : nat) :
  Get (ViewRange A a b c d) i j = Get A (a + i) (b + j).
Proof. reflexivity. Qed.

(** The entries after the branch [pivot.nb == 1] of the unblocked driver,
    in terms of the matrix [A1] obtained by the symmetric swap. *)
Lemma Get_Unblocked1x1 (A : Matrix) (k from i j : nat) :
  let A1 := SymmetricSwap A k from in
  let n := Height A in
  let delta := Get A1 k k in
  Get (ldl.Unblocked1x1 A k from) i j =
  if Nat.eqb j k && Nat.ltb k i && Nat.ltb i n then
    1 / delta * Get A1 i k
  else if Nat.ltb k j && Nat.leb j i && Nat.ltb i n then
    Get A1 i j - 1 / delta * (Get A1 i k * Get A1 j k)
  else Get A1 i j.
Proof.
  intros A1 n delta.
  unfold ldl.Unblocked1x1, ldl.delta11. fold A1. fold n.
  rewrite Get_view. replace (Get A1 (k + 0) (k + 0))%nat with delta
    by (unfold delta; f_equal; lia).
  set (a21 := ViewRange (ViewRange A1 k k n n) 1 0 (n - k) 1).
  set (A22 := ViewRange (ViewRange A1 k k n n) 1 1 (n - k) (n - k)).
  set (P1 := Paste A1 (k + 1) (k + 1) (Syr (- (1 / delta)) a21 A22)).
  assert (HP1col : forall x, Get P1 x k = Get A1 x k).
  { intros x. unfold P1. apply Get_Paste_out. lia. }
  destruct (Nat.eqb_spec j k) as [->|Hjk]; cbn [andb].
  - (* column k *)
    destruct (Nat.ltb_spec k i) as [Hki|Hki]; cbn [andb].
    + destruct (Nat.ltb_spec i n) as [Hin|Hin].
      * rewrite Get_Paste_in by (cbn; lia). cbn [Scale Get].
        rewrite !Get_view.
        replace (k + (0 + (k - k)))%nat with k by lia.
        rewrite HP1col. do 2 f_equal. lia.
      * rewrite Get_Paste_out by (cbn; lia).
        destruct (Nat.ltb_spec k k); [lia|]. cbn [andb]. apply HP1col.
    + rewrite Get_Paste_out by (cbn; lia).
      destruct (Nat.ltb_spec k k); [lia|]. cbn [andb]. apply HP1col.
  - rewrite Get_Paste_out by (cbn; lia). unfold P1.
    destruct (Nat.ltb_spec k j) as [Hkj|Hkj]; cbn [andb].
    + destruct (Nat.leb_spec j i) as [Hji|Hji]; cbn [andb].
      * destruct (Nat.ltb_spec i n) as [Hin|Hin].
        -- rewrite Get_Paste_in by (cbn; lia). unfold Syr. cbn [Get].
           destruct (Nat.leb_spec (j - (k + 1)) (i - (k + 1))); [|lia].
           unfold vecGet, a21, A22. cbn [Width ViewRange LockedViewRange Get].
           cbn [Nat.sub Nat.eqb].
           replace (k + (1 + (i - (k + 1))))%nat with i by lia.
           replace (k + (1 + (j - (k + 1))))%nat with j by lia.
           replace (k + (0 + 0))%nat with k by lia. unfold Rdiv. ring.
        -- apply Get_Paste_out. cbn. lia.
      * assert (Hgoal : Get (Paste A1 (k + 1) (k + 1)
                                 (Syr (- (1 / delta)) a21 A22)) i j
                          = Get A1 i j).
        { destruct (Nat.lt_ge_cases k i) as [Hki|Hki];
            [destruct (Nat.lt_ge_cases j n) as [Hjn|Hjn]|].
          - rewrite Get_Paste_in by (cbn; lia). unfold Syr. cbn [Get].
            destruct (Nat.leb_spec (j - (k + 1)) (i - (k + 1))); [lia|].
            unfold A22. rewrite !Get_view. f_equal; lia.
          - apply Get_Paste_out. cbn. lia.
          - apply Get_Paste_out. cbn. lia. }
        destruct (Nat.ltb i n); exact Hgoal.
    + apply Get_Paste_out. cbn. lia.
Qed.

Lemma delta11_eq (A : Matrix) (k from : nat) :
  ldl.delta11 A k from = Get (SymmetricSwap A k from) k k.
Proof. unfold ldl.delta11. rewrite Get_view. f_equal; lia. Qed.

Lemma Mstate_SymmetricSwap (A dSub : Matrix) (n k x y : nat) :
  (k <= x < n)%nat -> (k <= y < n)%nat ->
  forall i j, (i < n)%nat -> (j < n)%nat ->
    Mstate (SymmetricSwap A x y) dSub k i j =
    Mstate A dSub k (transp x y i) (transp x y j).
Proof.
  intros Hx Hy i j Hi Hj. unfold Mstate.
  apply (Mk_swap n k x y); try assumption.
  - intros i' a _ Ha. apply (Lfactor_SymmetricSwap A k); lia.
  - intros a b Ha Hb. apply (Dfactor_SymmetricSwap A dSub k); lia.
  - intros i' j' _ _. apply symGet_SymmetricSwap.
Qed.

Lemma Unblocked1x1_Mstate (A dSub : Matrix) (n k from : nat) :
  Height A = n -> (k < n)%nat -> (k <= from < n)%nat ->
  dSubClear dSub k ->
  ldl.delta11 A k from <> 0 ->
  forall i j, (i < n)%nat -> (j < n)%nat ->
    Mstate (ldl.Unblocked1x1 A k from) dSub (k + 1) i j =
    Mstate A dSub k (transp k from i) (transp k from j).
Proof.
  intros Hn Hk Hfrom Hclear Hdelta i j Hi Hj.
  rewrite <- (Mstate_SymmetricSwap A dSub n k k from) by (assumption || lia).
  set (A1 := SymmetricSwap A k from).
  rewrite delta11_eq in Hdelta. fold A1 in Hdelta.
  unfold Mstate.
  apply (Mk_step1 n k _ _ _ _ _ _ (Get A1 k k)); try assumption.
  - intros i' a Hi' Ha. unfold Lfactor.
    rewrite Get_Unblocked1x1. fold A1. rewrite Hn.
    destruct (Nat.eqb_spec a k); [lia|]. cbn [andb].
    destruct (Nat.ltb_spec k a); [lia|]. cbn [andb]. reflexivity.
  - intros a b Ha Hb. unfold Dfactor.
    rewrite Get_Unblocked1x1. fold A1. rewrite Hn.
    destruct (Nat.eqb_spec a k); [lia|]. cbn [andb].
    destruct (Nat.ltb_spec k a); [lia|]. cbn [andb]. reflexivity.
  - intros a Ha. unfold Dfactor.
    destruct (Nat.eqb_spec a k); [lia|].
    destruct (Nat.eqb_spec k a); [lia|].
    destruct (Nat.eqb_spec a (k + 1)); [lia|].
    destruct (Nat.eqb_spec k (a + 1)) as [E|_].
    + rewrite Hclear by lia. split; reflexivity.
    + destruct (Nat.eqb_spec a (k + 1)); [lia|]. split; reflexivity.
  - unfold Dfactor. rewrite Nat.eqb_refl.
    rewrite Get_Unblocked1x1. fold A1. rewrite Hn.
    rewrite Nat.eqb_refl. destruct (Nat.ltb_spec k k); [lia|]. cbn [andb].
    reflexivity.
  - unfold symGet. rewrite Nat.leb_refl. reflexivity.
  - unfold Lfactor. rewrite Nat.eqb_refl. reflexivity.
  - intros i' Hi'. unfold Lfactor.
    destruct (Nat.eqb_spec i' k); [lia|].
    destruct (Nat.ltb_spec k i'); [lia|]. reflexivity.
  - intros i' Hi'. unfold Lfactor.
    destruct (Nat.eqb_spec i' k); [lia|].
    destruct (Nat.ltb_spec k i'); [|lia].
    rewrite Get_Unblocked1x1. fold A1. rewrite Hn.
    rewrite Nat.eqb_refl.
    destruct (Nat.ltb_spec k i'); [|lia].
    destruct (Nat.ltb_spec i' n); [|lia]. cbn [andb].
    unfold symGet. destruct (Nat.leb_spec k i'); [|lia].
    unfold Rdiv. ring.
  - apply symGet_sym.
  - apply symGet_sym.
  - intros i' j' Hkj Hji Hin. unfold symGet.
    destruct (Nat.leb_spec j' i'); [|lia].
    destruct (Nat.leb_spec k i'); [|lia].
    destruct (Nat.leb_spec k j'); [|lia].
    rewrite Get_Unblocked1x1. fold A1. rewrite Hn.
    destruct (Nat.eqb_spec j' k); [lia|]. cbn [andb].
    destruct (Nat.ltb_spec k j'); [|lia].
    destruct (Nat.leb_spec j' i'); [|lia].
    destruct (Nat.ltb_spec i' n); [|lia]. cbn [andb].
    unfold Rdiv. ring.
Qed.

Lemma Get_MSet (A : Matrix) (a b i j : nat) (v : R) :
  Get (MSet A a b v) i j =
  if Nat.eqb i a && Nat.eqb j b then v else Get A i j.
Proof. reflexivity. Qed.

(** The entries after the branch [pivot.nb == 2] of the unblocked driver. *)
Lemma Get_Unblocked2x2 (A : Matrix) (k from0 from1 i j : nat) :
  let A1 := SymmetricSwap (SymmetricSwap A k from0) (k + 1) from1 in
  let n := Height A in
  (k + 1 < n)%nat ->
  Get (fst (ldl.Unblocked2x2 A k from0 from1)) i j =
  if Nat.eqb i (k + 1) && Nat.eqb j k then 0
  else if Nat.leb (k + 2) i && Nat.ltb i n && Nat.eqb j k then
    solve1 A1 k i
  else if Nat.leb (k + 2) i && Nat.ltb i n && Nat.eqb j (k + 1) then
    solve2 A1 k i
  else if Nat.leb (k + 2) j && Nat.leb j i && Nat.ltb i n then
    Get A1 i j
    - (solve1 A1 k i * Get A1 j k + solve2 A1 k i * Get A1 j (k + 1))
  else Get A1 i j.
Proof.
  intros A1 n Hk.
  unfold ldl.Unblocked2x2. cbn [fst]. fold A1. fold n.
  set (ABR := ViewRange A1 k k n n).
  set (D11 := ViewRange ABR 0 0 2 2).
  set (A21 := ViewRange ABR 2 0 (n - k) 2).
  set (A22 := ViewRange ABR 2 2 (n - k) (n - k)).
  set (S21 := Symmetric2x2Solve D11 A21).
  set (P := Paste A1 (k + 2) k S21).
  assert (HS0 : forall x, Get S21 x 0 = solve1 A1 k (k + 2 + x)).
  { intros x. unfold S21, Symmetric2x2Solve, solve1, D11, A21, ABR.
    cbn [Get ViewRange LockedViewRange].
    replace (k + (0 + 0))%nat with k by lia.
    replace (k + (0 + 1))%nat with (k + 1)%nat by lia.
    replace (k + (2 + x))%nat with (k + 2 + x)%nat by lia. reflexivity. }
  assert (HS1 : forall x, Get S21 x 1 = solve2 A1 k (k + 2 + x)).
  { intros x. unfold S21, Symmetric2x2Solve, solve2, D11, A21, ABR.
    cbn [Get ViewRange LockedViewRange].
    replace (k + (0 + 0))%nat with k by lia.
    replace (k + (0 + 1))%nat with (k + 1)%nat by lia.
    replace (k + (2 + x))%nat with (k + 2 + x)%nat by lia. reflexivity. }
  rewrite Get_MSet.
  destruct (Nat.eqb_spec i (k + 1)) as [Hi1|Hi1]; cbn [andb].
  { destruct (Nat.eqb_spec j k) as [Hjk|Hjk]; [reflexivity|].
    destruct (Nat.leb_spec (k + 2) i); [lia|]. cbn [andb].
    rewrite Get_Paste_out by (cbn; lia). unfold P.
    rewrite Get_Paste_out by (cbn; lia).
    destruct (Nat.leb_spec (k + 2) j); cbn [andb]; [|reflexivity].
    destruct (Nat.leb_spec j i); [lia|reflexivity]. }
  destruct (Nat.leb_spec (k + 2) i) as [Hki|Hki]; cbn [andb].
  2:{ rewrite Get_Paste_out by (cbn; lia). unfold P.
      rewrite Get_Paste_out by (cbn; lia).
      destruct (Nat.leb_spec (k + 2) j); cbn [andb]; [|reflexivity].
      destruct (Nat.leb_spec j i); [lia|reflexivity]. }
  destruct (Nat.ltb_spec i n) as [Hin|Hin]; cbn [andb].
  2:{ rewrite Get_Paste_out by (cbn; lia). unfold P.
      rewrite Get_Paste_out by (cbn; lia).
      destruct (Nat.leb (k + 2) j && Nat.leb j i); reflexivity. }
  destruct (Nat.eqb_spec j k) as [Hjk|Hjk].
  { subst j. rewrite Get_Paste_out by (cbn; lia). unfold P.
    rewrite Get_Paste_in by (cbn; lia).
    replace (k - k)%nat with 0%nat by lia. rewrite HS0. f_equal. lia. }
  destruct (Nat.eqb_spec j (k + 1)) as [Hjk1|Hjk1].
  { subst j. rewrite Get_Paste_out by (cbn; lia). unfold P.
    rewrite Get_Paste_in by (cbn; lia).
    replace (k + 1 - k)%nat with 1%nat by lia. rewrite HS1. f_equal. lia. }
  destruct (Nat.leb_spec (k + 2) j) as [Hkj|Hkj]; cbn [andb].
  2:{ rewrite Get_Paste_out by (cbn; lia). unfold P.
      apply Get_Paste_out. cbn. lia. }
  destruct (Nat.leb_spec j i) as [Hji|Hji].
  - rewrite Get_Paste_in by (cbn; lia). unfold Trr2. cbn [Get].
    destruct (Nat.leb_spec (j - (k + 2)) (i - (k + 2))); [|lia].
    rewrite HS0, HS1. unfold A22, A21, ABR.
    cbn [Get ViewRange LockedViewRange].
    replace (k + 2 + (i - (k + 2)))%nat with i by lia.
    replace (k + (2 + (i - (k + 2))))%nat with i by lia.
    replace (k + (2 + (j - (k + 2))))%nat with j by lia.
    replace (k + (0 + 0))%nat with k by lia.
    replace (k + (0 + 1))%nat with (k + 1)%nat by lia. cbn [andb]. ring.
  - destruct (Nat.lt_ge_cases j n) as [Hjn|Hjn].
    + rewrite Get_Paste_in by (cbn; lia). unfold Trr2. cbn [Get].
      destruct (Nat.leb_spec (j - (k + 2)) (i - (k + 2))); [lia|].
      unfold A22, ABR. cbn [Get ViewRange LockedViewRange]. f_equal; lia.
    + rewrite Get_Paste_out by (cbn; lia). unfold P.
      apply Get_Paste_out. cbn. lia.
Qed.

Lemma snd_Unblocked2x2 (A : Matrix) (k from0 from1 : nat) :
  snd (ldl.Unblocked2x2 A k from0 from1) =
  Get (SymmetricSwap (SymmetricSwap A k from0) (k + 1) from1) (k + 1) k.
Proof.
  unfold ldl.Unblocked2x2. cbn [snd Get ViewRange LockedViewRange].
  f_equal; lia.
Qed.

Lemma transp_lt (n a b i : nat) :
  (a < n)%nat -> (b < n)%nat -> (i < n)%nat -> (transp a b i < n)%nat.
Proof.
  intros Ha Hb Hi. unfold transp.
  destruct (Nat.eqb i a); [exact Hb|]. destruct (Nat.eqb i b); assumption.
Qed.

Lemma Unblocked2x2_Mstate (A dSub : Matrix) (n k from0 from1 : nat) :
  Height A = n -> (k + 1 < n)%nat ->
  (k <= from0 < n)%nat -> (k <= from1 < n)%nat ->
  dSubClear dSub k ->
  let A1 := SymmetricSwap (SymmetricSwap A k from0) (k + 1) from1 in
  Get A1 k k * Get A1 (k + 1) (k + 1)
    - Get A1 (k + 1) k * Get A1 (k + 1) k <> 0 ->
  forall i j, (i < n)%nat -> (j < n)%nat ->
    Mstate (fst (ldl.Unblocked2x2 A k from0 from1))
           (MSet dSub k 0 (snd (ldl.Unblocked2x2 A k from0 from1)))
           (k + 2) i j =
    Mstate A dSub k
      (transp k from0 (transp (k + 1) from1 i))
      (transp k from0 (transp (k + 1) from1 j)).
Proof.
  intros Hn Hk Hf0 Hf1 Hclear A1 Hdet i j Hi Hj.
  rewrite <- (Mstate_SymmetricSwap A dSub n k k from0)
    by (try assumption; try lia; apply transp_lt; lia).
  rewrite <- (Mstate_SymmetricSwap _ dSub n k (k + 1) from1)
    by (assumption || lia).
  fold A1. rewrite snd_Unblocked2x2. fold A1.
  set (A2 := fst (ldl.Unblocked2x2 A k from0 from1)).
  assert (HA2 : forall x y,
    Get A2 x y =
    if Nat.eqb x (k + 1) && Nat.eqb y k then 0
    else if Nat.leb (k + 2) x && Nat.ltb x n && Nat.eqb y k then
      solve1 A1 k x
    else if Nat.leb (k + 2) x && Nat.ltb x n && Nat.eqb y (k + 1) then
      solve2 A1 k x
    else if Nat.leb (k + 2) y && Nat.leb y x && Nat.ltb x n then
      Get A1 x y
      - (solve1 A1 k x * Get A1 y k + solve2 A1 k x * Get A1 y (k + 1))
    else Get A1 x y).
  { intros x y. unfold A2. rewrite Get_Unblocked2x2 by lia.
    fold A1. rewrite Hn. reflexivity. }
  unfold Mstate.
  apply (Mk_step2 n k _ _ _ _ _ _
           (Get A1 k k) (Get A1 (k + 1) k) (Get A1 (k + 1) (k + 1)));
    try assumption.
  - intros i' a Hi' Ha. unfold Lfactor. rewrite HA2. tests; reflexivity.
  - intros a b Ha Hb. unfold Dfactor. rewrite HA2, !Get_MSet.
    tests; reflexivity.
  - intros a Ha. unfold Dfactor. rewrite !Get_MSet. tests;
      repeat split; try reflexivity; apply Hclear; lia.
  - unfold Dfactor. rewrite HA2. tests; reflexivity.
  - unfold Dfactor. rewrite !Get_MSet. tests; reflexivity.
  - unfold Dfactor. rewrite !Get_MSet. tests; reflexivity.
  - unfold Dfactor. rewrite HA2. tests; reflexivity.
  - unfold symGet. tests; reflexivity.
  - unfold symGet. tests; reflexivity.
  - unfold symGet. tests; reflexivity.
  - unfold Lfactor. tests; reflexivity.
  - unfold Lfactor. rewrite HA2. tests; reflexivity.
  - unfold Lfactor. tests; reflexivity.
  - unfold Lfactor. tests; reflexivity.
  - intros i' Hi'. unfold Lfactor. tests; split; reflexivity.
  - intros i' Hi'. unfold Lfactor. rewrite !HA2. unfold symGet.
    tests; unfold solve1, solve2; split; reflexivity.
  - apply symGet_sym.
  - apply symGet_sym.
  - intros i' j' Hkj Hji Hin. unfold Lfactor, symGet. rewrite !HA2.
    tests; reflexivity.
Qed.

Lemma nth_insert_ne (l : list nat) (k a v d : nat) :
  a <> k -> nth a (<[k := v]> l) d = nth a l d.
Proof.
  intros Hne. rewrite !nth_lookup.
  rewrite list_lookup_insert_ne by congruence. reflexivity.
Qed.

Lemma nth_insert_eq (l : list nat) (k v d : nat) :
  (k < List.length l)%nat -> nth k (<[k := v]> l) d = v.
Proof.
  intros Hk. rewrite nth_lookup.
  rewrite list_lookup_insert_eq by exact Hk. reflexivity.
Qed.

Lemma pivotPerm_ext (p q : list nat) (k m i : nat) :
  (forall a, (k <= a < k + m)%nat -> nth a p 0%nat = nth a q 0%nat) ->
  pivotPerm p k m i = pivotPerm q k m i.
Proof.
  revert k. induction m as [|m IH]; intros k H; simpl; [reflexivity|].
  rewrite (H k) by lia. f_equal. apply IH. intros a Ha. apply H. lia.
Qed.

Lemma pivotPerm_lt (n : nat) (p : list nat) (k m i : nat) :
  (forall a, (k <= a < k + m)%nat -> (nth a p 0 < n)%nat) ->
  (k + m <= n)%nat -> (i < n)%nat -> (pivotPerm p k m i < n)%nat.
Proof.
  revert k. induction m as [|m IH]; intros k H Hkm Hi; simpl; [exact Hi|].
  apply transp_lt; [lia|apply H; lia|]. apply IH; [|lia|exact Hi].
  intros a Ha. apply H. lia.
Qed.

Lemma SymmetricMax_col_spec (A : Matrix) (j m : nat) (pv : ValueIntPair) :
  let res := SymmetricMax_col A j m pv in
  0 <= pvalue pv ->
  0 <= pvalue res /\
  (res = pv \/
   0 < pvalue res /\ snd (indices res) = j /\
   (j < fst (indices res) <= j + m)%nat).
Proof.
  induction m as [|m IH]; simpl; intros Hpv.
  - split; [exact Hpv|left; reflexivity].
  - destruct (IH Hpv) as [H0 Hcase].
    destruct (Rgtb (Abs (Get A (j + 1 + m) j))
                   (pvalue (SymmetricMax_col A j m pv))) eqn:E.
    + apply Rgtb_true in E. cbn [pvalue indices fst snd].
      split; [lra|]. right. split; [lra|]. split; [reflexivity|lia].
    + split; [exact H0|]. destruct Hcase as [->|(Hp & Hs & Hf)].
      * left. reflexivity.
      * right. split; [exact Hp|]. split; [exact Hs|lia].
Qed.

Lemma SymmetricMax_cols_spec (A : Matrix) (c : nat) :
  (c <= Height A)%nat ->
  let res := SymmetricMax_cols A c in
  0 <= pvalue res /\
  (0 < pvalue res ->
   (snd (indices res) < fst (indices res) < Height A)%nat).
Proof.
  induction c as [|c IH]; simpl; intros Hc.
  - split; [lra|]. intros H. lra.
  - destruct (IH ltac:(lia)) as [H0 Hidx].
    destruct (SymmetricMax_col_spec A c (Height A - (c + 1))
                (SymmetricMax_cols A c) H0) as [H0' [->|(Hp & Hs & Hf)]].
    + split; assumption.
    + split; [exact H0'|]. intros _. rewrite Hs. lia.
Qed.

Lemma BunchParlett_range (A : Matrix) (gamma : R) :
  (1 <= Height A)%nat -> (1 <= Width A)%nat ->
  match ldl.pivot.BunchParlett A gamma with
  | Pivot1x1 f => (f < Height A)%nat
  | Pivot2x2 f0 f1 => (f1 < f0 < Height A)%nat
  end.
Proof.
  intros Hh Hw. unfold ldl.pivot.BunchParlett.
  destruct (Rgeb (value (DiagonalMax A)) _) eqn:E.
  - unfold DiagonalMax.
    destruct (VectorMax_scan_spec (fun j => Get A j j)
                (Nat.min (Height A) (Width A))) as (_ & _ & _ & Hat).
    destruct (Hat ltac:(lia)) as [Hi _]. lia.
  - apply Rgeb_false in E.
    destruct (SymmetricMax_cols_spec A (Height A) (Nat.le_refl _)) as [H0 Hidx].
    fold (SymmetricMax A) in H0, Hidx. apply Hidx.
    unfold DiagonalMax in E.
    destruct (VectorMax_scan_spec (fun j => Get A j j)
                (Nat.min (Height A) (Width A))) as (Hv & _).
    destruct (Rle_lt_or_eq_dec _ _ H0) as [Hpos|Hz]; [exact Hpos|].
    rewrite <- Hz in E. lra.
Qed.

Lemma BKOutcome_shape (third : bool) (lo : nat -> nat) (g : R)
  (E : nat -> nat -> R) (n k : nat) (pv : LDLPivot) :
  BKOutcome third lo g E n k (Return pv) ->
  pv = Pivot1x1 k \/
  exists r, (k + 1 <= r < n)%nat /\ (pv = Pivot1x1 r \/ pv = Pivot2x2 k r).
Proof.
  intros H. inversion H; subst.
  - left. reflexivity.
  - left. reflexivity.
  - right. match goal with F : FirstAttains _ _ _ ?r _ |- _ =>
      exists r; split; [apply F|left; reflexivity] end.
  - right. match goal with F : FirstAttains _ _ _ ?r _ |- _ =>
      exists r; split; [apply F|right; reflexivity] end.
Qed.

Lemma ChoosePivot_range (A : Matrix) (pivotType : ldl.LDLPivotType)
  (gamma : R) (pv : LDLPivot) :
  (1 <= Height A)%nat -> (1 <= Width A)%nat ->
  ldl.ChoosePivot A pivotType gamma = Return pv ->
  match pv with
  | Pivot1x1 f => (f < Height A)%nat
  | Pivot2x2 f0 f1 => (f0 < Height A)%nat /\ (f1 < Height A)%nat /\
                      (2 <= Height A)%nat
  end.
Proof.
  intros Hh Hw Hc.
  assert (HBK : forall third lo g,
            BKOutcome third lo g (Get A) (Height A) 0 (Return pv) ->
            match pv with
            | Pivot1x1 f => (f < Height A)%nat
            | Pivot2x2 f0 f1 => (f0 < Height A)%nat /\ (f1 < Height A)%nat /\
                                (2 <= Height A)%nat
            end).
  { intros third lo g Ho.
    destruct (BKOutcome_shape _ _ _ _ _ _ _ Ho) as [->|(r & Hr & [->| ->])];
      lia. }
  destruct pivotType; cbn [ldl.ChoosePivot] in Hc; try discriminate Hc.
  - eapply HBK. rewrite <- Hc. apply BunchKaufmanA_outcome. exact Hh.
  - eapply HBK. rewrite <- Hc. apply BunchKaufmanA_outcome. exact Hh.
  - eapply HBK. rewrite <- Hc. apply BunchKaufmanD_outcome. exact Hh.
  - injection Hc as <-.
    pose proof (BunchParlett_range A gamma Hh Hw) as Hr.
    destruct (ldl.pivot.BunchParlett A gamma); lia.
Qed.

Lemma Get_SymmetricSwap_diag (A : Matrix) (x y a : nat) :
  a <> x -> a <> y -> Get (SymmetricSwap A x y) a a = Get A a a.
Proof.
  intros Hx Hy. unfold SymmetricSwap, symGet. cbn [Get].
  rewrite transp_fix by assumption. rewrite Nat.leb_refl. reflexivity.
Qed.

Lemma dSubClear_weaken (dSub : Matrix) (k k' : nat) :
  (k <= k')%nat -> dSubClear dSub k -> dSubClear dSub k'.
Proof. intros Hk H a Ha. apply H. lia. Qed.

Lemma dSubClear_MSet (dSub : Matrix) (k : nat) (v : R) :
  dSubClear dSub k -> dSubClear (MSet dSub k 0 v) (k + 2).
Proof.
  intros H a Ha. rewrite Get_MSet.
  destruct (Nat.eqb_spec a k); [lia|]. cbn [andb]. apply H. lia.
Qed.

Lemma Get_Unblocked1x1_low (A : Matrix) (k from a : nat) :
  (a < k)%nat -> (k <= from)%nat ->
  Get (ldl.Unblocked1x1 A k from) a a = Get A a a.
Proof.
  intros Ha Hf. rewrite Get_Unblocked1x1. decide_tests.
  apply Get_SymmetricSwap_diag; lia.
Qed.

Lemma Get_Unblocked1x1_pivot (A : Matrix) (k from : nat) :
  Get (ldl.Unblocked1x1 A k from) k k = ldl.delta11 A k from.
Proof. rewrite Get_Unblocked1x1, delta11_eq. decide_tests. reflexivity. Qed.

Lemma Get_Unblocked2x2_low (A : Matrix) (k from0 from1 a : nat) :
  (k + 1 < Height A)%nat -> (a < k)%nat ->
  (k <= from0)%nat -> (k <= from1)%nat ->
  Get (fst (ldl.Unblocked2x2 A k from0 from1)) a a = Get A a a.
Proof.
  intros Hk Ha Hf0 Hf1. rewrite Get_Unblocked2x2 by exact Hk. decide_tests.
  rewrite !Get_SymmetricSwap_diag by lia. reflexivity.
Qed.

Lemma Get_Unblocked2x2_pivot (A : Matrix) (k from0 from1 : nat) :
  (k + 1 < Height A)%nat ->
  let A1 := SymmetricSwap (SymmetricSwap A k from0) (k + 1) from1 in
  Get (fst (ldl.Unblocked2x2 A k from0 from1)) k k = Get A1 k k /\
  Get (fst (ldl.Unblocked2x2 A k from0 from1)) (k + 1) (k + 1)
    = Get A1 (k + 1) (k + 1).
Proof.
  intros Hk A1. rewrite !Get_Unblocked2x2 by exact Hk. fold A1.
  decide_tests. split; reflexivity.
Qed.

Lemma UnblockedPivoted_loop_correct (conjugate : bool)
  (pivotType : ldl.LDLPivotType) (gamma : R) (n : nat) (fuel : nat) :
  forall (st st' : ldl.LDLState) (k : nat),
    Height (ldl.stA st) = n -> (k <= n)%nat ->
    List.length (ldl.stp st) = n ->
    dSubClear (ldl.stdSub st) k ->
    ldl.UnblockedPivoted_loop fuel conjugate pivotType gamma st k
      = Return st' ->
    Height (ldl.stA st') = n /\
    List.length (ldl.stp st') = n /\
    Frame k (ldl.stA st) (ldl.stdSub st) (ldl.stp st)
      (ldl.stA st') (ldl.stdSub st') (ldl.stp st') /\
    (forall a, (k <= a < n)%nat -> (nth a (ldl.stp st') 0 < n)%nat) /\
    (forall a, (k <= a)%nat -> Get (ldl.stdSub st') a 0 <> 0 ->
               Get (ldl.stdSub st') (a + 1) 0 = 0) /\
    ((forall k', (k <= k' < n)%nat ->
        NonSingularAt (ldl.stA st') (ldl.stdSub st') k') ->
     forall i j, (i < n)%nat -> (j < n)%nat ->
       Mstate (ldl.stA st') (ldl.stdSub st') n i j =
       Mstate (ldl.stA st) (ldl.stdSub st) k
         (pivotPerm (ldl.stp st') k (n - k) i)
         (pivotPerm (ldl.stp st') k (n - k) j)).
Proof.
  assert (Hstop : forall (st : ldl.LDLState),
            Height (ldl.stA st) = n -> List.length (ldl.stp st) = n ->
            dSubClear (ldl.stdSub st) n ->
            Height (ldl.stA st) = n /\
            List.length (ldl.stp st) = n /\
            Frame n (ldl.stA st) (ldl.stdSub st) (ldl.stp st)
              (ldl.stA st) (ldl.stdSub st) (ldl.stp st) /\
            (forall a, (n <= a < n)%nat -> (nth a (ldl.stp st) 0 < n)%nat) /\
            (forall a, (n <= a)%nat -> Get (ldl.stdSub st) a 0 <> 0 ->
                       Get (ldl.stdSub st) (a + 1) 0 = 0) /\
            ((forall k', (n <= k' < n)%nat ->
                NonSingularAt (ldl.stA st) (ldl.stdSub st) k') ->
             forall i j, (i < n)%nat -> (j < n)%nat ->
               Mstate (ldl.stA st) (ldl.stdSub st) n i j =
               Mstate (ldl.stA st) (ldl.stdSub st) n
                 (pivotPerm (ldl.stp st) n (n - n) i)
                 (pivotPerm (ldl.stp st) n (n - n) j))).
  { intros st Hn Hlen Hclear. rewrite Nat.sub_diag. cbn [pivotPerm].
    split; [exact Hn|]. split; [exact Hlen|].
    split; [repeat split; intros; reflexivity|].
    split; [intros; lia|].
    split; [intros a Ha _; apply Hclear; lia|].
    intros; reflexivity. }
  induction fuel as [|fuel IH]; intros st st' k Hn Hk Hlen Hclear Hrun;
    cbn [ldl.UnblockedPivoted_loop] in Hrun; rewrite Hn in Hrun.
  - destruct (Nat.leb_spec n k) as [Hle|Hlt]; [|discriminate Hrun].
    injection Hrun as <-. assert (k = n) by lia. subst k.
    apply Hstop; assumption.
  - destruct (Nat.leb_spec n k) as [Hle|Hlt].
    { injection Hrun as <-. assert (k = n) by lia. subst k.
      apply Hstop; assumption. }
    destruct (ldl.is_BUNCH_KAUFMAN_C pivotType); [discriminate Hrun|].
    destruct (ldl.ChoosePivot _ pivotType gamma) as [pv|e|] eqn:Hpv;
      cbn [bind] in Hrun; try discriminate Hrun.
    apply ChoosePivot_range in Hpv; cbn [Height Width ViewRange LockedViewRange];
      [|lia|lia].
    cbn [Height ViewRange LockedViewRange] in Hpv.
    destruct st as [A dSub p]. cbn [ldl.stA ldl.stdSub ldl.stp] in *.
    destruct pv as [f|f0 f1].
    + (* 1x1 pivot *)
      set (from := (k + f)%nat) in *.
      assert (Hfrom : (k <= from < n)%nat) by (unfold from; lia).
      apply IH in Hrun; cbn [ldl.stA ldl.stdSub ldl.stp];
        [ | exact Hn | lia | rewrite length_insert; exact Hlen
          | apply (dSubClear_weaken dSub k); [lia|exact Hclear] ].
      cbn [ldl.stA ldl.stdSub ldl.stp] in Hrun.
      destruct Hrun as (Hn' & Hlen' & (FA & FD & FP) & Hrange & Hblocks & Heq).
      assert (Hpk : nth k (ldl.stp st') 0%nat = from).
      { rewrite FP by lia. apply nth_insert_eq. lia. }
      split; [exact Hn'|]. split; [exact Hlen'|].
      split; [|split; [|split]].
      * repeat split.
        -- intros a Ha. rewrite FA by lia.
           apply Get_Unblocked1x1_low; lia.
        -- intros a Ha. apply FD. lia.
        -- intros a Ha. rewrite FP by lia. apply nth_insert_ne. lia.
      * intros a Ha. destruct (Nat.eq_dec a k) as [->|Hne].
        -- rewrite Hpk. lia.
        -- apply Hrange. lia.
      * intros a Ha Hnz. destruct (Nat.eq_dec a k) as [->|Hne].
        -- exfalso. apply Hnz. rewrite FD by lia. apply Hclear. lia.
        -- apply Hblocks; [lia|exact Hnz].
      * intros Hns.
        assert (Hdelta : ldl.delta11 A k from <> 0).
        { rewrite <- Get_Unblocked1x1_pivot. rewrite <- FA by lia.
          apply (Hns k ltac:(lia)).
          - rewrite FD by lia. apply Hclear. lia.
          - destruct (Nat.eq_dec k 0) as [->|Hk0]; [left; reflexivity|].
            right. rewrite FD by lia. apply Hclear. lia. }
        intros i j Hi Hj.
        rewrite Heq by (try assumption; intros a Ha; apply Hns; lia).
        replace (n - k)%nat with (S (n - (k + 1))) by lia.
        cbn [pivotPerm]. rewrite Hpk.
        apply (Unblocked1x1_Mstate A dSub n k from); try assumption;
          apply pivotPerm_lt; try lia; intros a Ha; apply Hrange; lia.
    + (* 2x2 pivot *)
      destruct Hpv as (Hf0 & Hf1 & Hn2).
      set (from0 := (k + f0)%nat) in *. set (from1 := (k + f1)%nat) in *.
      assert (Hfrom0 : (k <= from0 < n)%nat) by (unfold from0; lia).
      assert (Hfrom1 : (k <= from1 < n)%nat) by (unfold from1; lia).
      assert (Hk1 : (k + 1 < n)%nat) by lia.
      destruct (ldl.Unblocked2x2 A k from0 from1) as [A2 d] eqn:HU.
      assert (HA2 : A2 = fst (ldl.Unblocked2x2 A k from0 from1))
        by (rewrite HU; reflexivity).
      assert (Hd : d = snd (ldl.Unblocked2x2 A k from0 from1))
        by (rewrite HU; reflexivity).
      apply IH in Hrun; cbn [ldl.stA ldl.stdSub ldl.stp];
        [ | rewrite HA2; exact Hn | lia
          | rewrite !length_insert; exact Hlen
          | apply dSubClear_MSet; exact Hclear ].
      cbn [ldl.stA ldl.stdSub ldl.stp] in Hrun.
      destruct Hrun as (Hn' & Hlen' & (FA & FD & FP) & Hrange & Hblocks & Heq).
      set (A1 := SymmetricSwap (SymmetricSwap A k from0) (k + 1) from1).
      assert (Hpk : nth k (ldl.stp st') 0%nat = from0).
      { rewrite FP by lia. rewrite nth_insert_ne by lia.
        apply nth_insert_eq. lia. }
      assert (Hpk1 : nth (k + 1) (ldl.stp st') 0%nat = from1).
      { rewrite FP by lia. apply nth_insert_eq.
        rewrite length_insert. lia. }
      assert (HdS : Get (ldl.stdSub st') k 0 = Get A1 (k + 1) k).
      { rewrite FD by lia. rewrite Get_MSet, Nat.eqb_refl. cbn [andb].
        rewrite Hd. apply snd_Unblocked2x2. }
      assert (HdS1 : Get (ldl.stdSub st') (k + 1) 0 = 0).
      { rewrite FD by lia. rewrite Get_MSet.
        destruct (Nat.eqb_spec (k + 1) k); [lia|]. cbn [andb].
        apply Hclear. lia. }
      assert (HdS0 : k = 0%nat \/ Get (ldl.stdSub st') (k - 1) 0 = 0).
      { destruct (Nat.eq_dec k 0) as [->|Hk0]; [left; reflexivity|].
        right. rewrite FD by lia. rewrite Get_MSet.
        destruct (Nat.eqb_spec (k - 1) k); [lia|]. cbn [andb].
        apply Hclear. lia. }
      assert (Hd11 : Get (ldl.stA st') k k = Get A1 k k).
      { rewrite FA by lia. rewrite HA2.
        apply (Get_Unblocked2x2_pivot A k from0 from1). lia. }
      assert (Hd22 : Get (ldl.stA st') (k + 1) (k + 1) = Get A1 (k + 1) (k + 1)).
      { rewrite FA by lia. rewrite HA2.
        apply (Get_Unblocked2x2_pivot A k from0 from1). lia. }
      split; [exact Hn'|]. split; [exact Hlen'|].
      split; [|split; [|split]].
      * repeat split.
        -- intros a Ha. rewrite FA by lia. rewrite HA2.
           apply Get_Unblocked2x2_low; lia.
        -- intros a Ha. rewrite FD by lia. rewrite Get_MSet.
           destruct (Nat.eqb_spec a k); [lia|]. reflexivity.
        -- intros a Ha. rewrite FP by lia. rewrite !nth_insert_ne by lia.
           reflexivity.
      * intros a Ha. destruct (Nat.eq_dec a k) as [->|Hne];
          [rewrite Hpk; lia|].
        destruct (Nat.eq_dec a (k + 1)) as [->|Hne1]; [rewrite Hpk1; lia|].
        apply Hrange. lia.
      * intros a Ha Hnz. destruct (Nat.eq_dec a k) as [->|Hne];
          [exact HdS1|].
        destruct (Nat.eq_dec a (k + 1)) as [->|Hne1];
          [exfalso; apply Hnz; exact HdS1|].
        apply Hblocks; [lia|exact Hnz].
      * intros Hns.
        assert (Hdet : Get A1 k k * Get A1 (k + 1) (k + 1)
                       - Get A1 (k + 1) k * Get A1 (k + 1) k <> 0).
        { rewrite <- Hd11, <- Hd22, <- HdS.
          destruct (Req_dec_T (Get (ldl.stdSub st') k 0) 0) as [Hz|Hnz].
          - rewrite Hz.
            pose proof (proj1 (Hns k ltac:(lia)) Hz HdS0) as H1.
            assert (H2 : Get (ldl.stA st') (k + 1) (k + 1) <> 0).
            { apply (Hns (k + 1)%nat ltac:(lia)); [exact HdS1|].
              right. replace (k + 1 - 1)%nat with k by lia. exact Hz. }
            intros Hc.
            apply (Rmult_integral_contrapositive_currified _ _ H1 H2).
            lra.
          - apply (Hns k ltac:(lia)). exact Hnz. }
        intros i j Hi Hj.
        rewrite Heq by (try assumption; intros a Ha; apply Hns; lia).
        replace (n - k)%nat with (S (S (n - (k + 2)))) by lia.
        cbn [pivotPerm]. rewrite Hpk, Hpk1.
        replace (k + 1 + 1)%nat with (k + 2)%nat by lia.
        rewrite HA2, Hd.
        apply (Unblocked2x2_Mstate A dSub n k from0 from1); try assumption;
          apply pivotPerm_lt; try lia; intros a Ha; apply Hrange; lia.
Qed.

Lemma Vsym_sym (A X Y : Matrix) (off k i j : nat) :
  Vsym A X Y off k i j = Vsym A X Y off k j i.
Proof.
  unfold Vsym.
  destruct (Nat.leb_spec j i); destruct (Nat.leb_spec i j);
    try reflexivity; try lia.
  assert (i = j) by lia. subst. reflexivity.
Qed.

Lemma transp_shift (off a b i : nat) :
  (off <= a)%nat -> (off <= b)%nat -> (off <= i)%nat ->
  transp (a - off) (b - off) (i - off) = (transp a b i - off)%nat.
Proof.
  intros Ha Hb Hi. unfold transp.
  destruct (Nat.eqb_spec (i - off) (a - off));
    destruct (Nat.eqb_spec i a); try lia.
  destruct (Nat.eqb_spec (i - off) (b - off));
    destruct (Nat.eqb_spec i b); lia.
Qed.

Lemma Vsym_swap (A X Y : Matrix) (n off k to from i j : nat) :
  XYsym X Y (n - off) k ->
  (off + k <= to < n)%nat -> (off + k <= from < n)%nat ->
  (off + k <= i < n)%nat -> (off + k <= j < n)%nat ->
  Vsym (SymmetricSwap A to from)
       (RowSwap X (to - off) (from - off))
       (RowSwap Y (to - off) (from - off)) off k i j =
  Vsym A X Y off k (transp to from i) (transp to from j).
Proof.
  intros Hsym Hto Hfrom Hi Hj.
  assert (Hrange : forall x, (off + k <= x < n)%nat ->
                     (off + k <= transp to from x < n)%nat).
  { intros x Hx. apply (transp_range (off + k) n to from x); assumption. }
  pose proof (Hrange i Hi) as Hti. pose proof (Hrange j Hj) as Htj.
  assert (Hlow : forall x y, (off + k <= x < n)%nat -> (off + k <= y < n)%nat ->
            (y <= x)%nat ->
            Vlow (SymmetricSwap A to from)
                 (RowSwap X (to - off) (from - off))
                 (RowSwap Y (to - off) (from - off)) off k x y =
            Vsym A X Y off k (transp to from x) (transp to from y)).
  { intros x y Hx Hy Hyx. unfold Vlow, SymmetricSwap, RowSwap. cbn [Get].
    destruct (Nat.leb_spec y x); [|lia].
    rewrite !transp_shift by lia.
    pose proof (Hrange x Hx) as Htx. pose proof (Hrange y Hy) as Hty.
    unfold Vsym, symGet.
    destruct (Nat.leb_spec (transp to from y) (transp to from x)).
    - reflexivity.
    - unfold Vlow. f_equal. apply Hsym; lia. }
  unfold Vsym at 1. destruct (Nat.leb_spec j i).
  - apply Hlow; assumption || lia.
  - rewrite Hlow by (assumption || lia). apply Vsym_sym.
Qed.

Lemma XYsym_RowSwap (X Y : Matrix) (m k a b : nat) :
  XYsym X Y m k -> (k <= a < m)%nat -> (k <= b < m)%nat ->
  XYsym (RowSwap X a b) (RowSwap Y a b) m k.
Proof.
  intros Hsym Ha Hb x y Hx Hy. unfold RowSwap. cbn [Get].
  apply Hsym; apply (transp_range k m a b); assumption.
Qed.

Lemma Mpanel_swap (A dSub X Y : Matrix) (n off k to from : nat) :
  XYsym X Y (n - off) k ->
  (off + k <= to < n)%nat -> (off + k <= from < n)%nat ->
  forall i j, (i < n)%nat -> (j < n)%nat ->
    Mpanel (SymmetricSwap A to from) dSub
           (RowSwap X (to - off) (from - off))
           (RowSwap Y (to - off) (from - off)) off k i j =
    Mpanel A dSub X Y off k (transp to from i) (transp to from j).
Proof.
  intros Hsym Hto Hfrom i j Hi Hj. unfold Mpanel.
  apply (Mk_swap n (off + k) to from); try assumption.
  - intros i' a _ Ha. apply (Lfactor_SymmetricSwap A (off + k)); lia.
  - intros a b Ha Hb. apply (Dfactor_SymmetricSwap A dSub (off + k)); lia.
  - intros i' j' Hi' Hj'. apply (Vsym_swap A X Y n); assumption.
Qed.

Lemma if_same {T : Type} (b : bool) (x : T) : (if b then x else x) = x.
Proof. destruct b; reflexivity. Qed.

(** The column [(off+k.., off+k)] of the panel after its lazy correction. *)
Lemma Get_aB1 (A X Y : Matrix) (off k i' : nat) :
  let n := Height A in
  let ABR := ViewRange A off off n n in
  let XB0 := LockedViewRange X k 0 (n - off) k in
  let y10 := LockedViewRange Y k 0 (k + 1) k in
  let aB1 := ViewRange ABR k k (n - off) (k + 1) in
  Get (Gemv (-1) XB0 y10 1 aB1) i' 0 =
  Vlow A X Y off k (off + k + i') (off + k).
Proof.
  intros n ABR XB0 y10 aB1. unfold Gemv. cbn [Get].
  assert (HW : Width aB1 = 1%nat)
    by (unfold aB1; cbn [Width ViewRange LockedViewRange]; lia).
  rewrite HW. cbn [Nat.eqb].
  assert (HWX : Width XB0 = k)
    by (unfold XB0; cbn [Width LockedViewRange]; lia).
  rewrite HWX. unfold Vlow.
  rewrite (Rsum_ext _ (fun l => Get X (off + k + i' - off)%nat l
                                * Get Y (off + k - off)%nat l)).
  - unfold vecGet. rewrite HW. cbn [Nat.eqb].
    unfold aB1, ABR. cbn [Get ViewRange LockedViewRange].
    replace (off + (k + i'))%nat with (off + k + i')%nat by lia.
    replace (off + (k + 0))%nat with (off + k)%nat by lia. lra.
  - intros l Hl. unfold XB0, y10. rewrite vecGet_row by exact Hl.
    cbn [Get LockedViewRange]. f_equal; f_equal; lia.
Qed.

(** The entries of [A], [X] and [Y] after the branch [pivot.nb == 1] of the
    panel, from the matrices the symmetric pivot has been applied to. *)
Lemma Get_Panel1x1 (conjugate : bool) (A X Y : Matrix) (off k : nat) :
  let n := Height A in
  let w := fun i => Vlow A X Y off k i (off + k) in
  let delta := w (off + k)%nat in
  (off + k < n)%nat ->
  let '(A2, X2, Y2) := ldl.Panel1x1 conjugate off k A X Y in
  (forall i j,
     Get A2 i j =
     if Nat.eqb j (off + k) && Nat.ltb (off + k) i && Nat.ltb i n
     then 1 / delta * w i
     else if Nat.eqb i (off + k) && Nat.eqb j (off + k) then delta
     else Get A i j) /\
  (forall a l,
     Get X2 a l =
     if Nat.eqb l k && Nat.ltb k a && Nat.ltb a (n - off)
     then 1 / delta * w (off + a)%nat
     else Get X a l) /\
  (forall a l,
     Get Y2 a l =
     if Nat.eqb l k && Nat.ltb k a && Nat.ltb a (n - off)
     then w (off + a)%nat
     else Get Y a l) /\
  Height A2 = n.
Proof.
  intros n w delta Hk. unfold ldl.Panel1x1. fold n.
  unfold ldl.MakeReal, ldl.Conjugate. rewrite !if_same.
  set (ABR := ViewRange A off off n n).
  set (XB0 := LockedViewRange X k 0 (n - off) k).
  set (y10 := LockedViewRange Y k 0 (k + 1) k).
  set (aB1 := ViewRange ABR k k (n - off) (k + 1)).
  set (aB1' := Gemv (-1) XB0 y10 1 aB1).
  set (A' := Paste A (off + k) (off + k) aB1').
  assert (HaB1 : forall i', Get aB1' i' 0 = w (off + k + i')%nat).
  { intros i'. apply Get_aB1. }
  assert (HHa : Height aB1' = (n - off - k)%nat) by reflexivity.
  assert (HWa : Width aB1' = 1%nat)
    by (cbn [aB1' Gemv Width aB1 ViewRange LockedViewRange]; lia).
  assert (HA' : forall i j,
            Get A' i j =
            if Nat.eqb j (off + k) && Nat.leb (off + k) i && Nat.ltb i n
            then w i else Get A i j).
  { intros i j. unfold A'.
    destruct (Nat.eqb_spec j (off + k)) as [->|Hj]; cbn [andb].
    - destruct (Nat.leb_spec (off + k) i) as [Hi|Hi]; cbn [andb].
      + destruct (Nat.ltb_spec i n) as [Hin|Hin].
        * rewrite Get_Paste_in by (rewrite ?HHa, ?HWa; lia).
          replace (off + k - (off + k))%nat with 0%nat by lia.
          rewrite HaB1. f_equal. lia.
        * apply Get_Paste_out. rewrite HHa, HWa. lia.
      + apply Get_Paste_out. rewrite HHa, HWa. lia.
    - apply Get_Paste_out. rewrite HHa, HWa. lia. }
  assert (Hdelta : Get (ViewRange A' off off n n) k k = delta).
  { rewrite Get_view, HA'. decide_tests. reflexivity. }
  rewrite Hdelta.
  set (a21 := ViewRange (ViewRange A' off off n n) (k + 1) k (n - off) (k + 1)).
  assert (Ha21 : forall i', Get a21 i' 0 = w (off + (k + 1 + i'))%nat
                            \/ (n <= off + (k + 1 + i'))%nat).
  { intros i'. unfold a21. rewrite !Get_view, HA'.
    destruct (Nat.lt_ge_cases (off + (k + 1 + i')) n) as [Hlt|Hge];
      [left|right; exact Hge].
    decide_tests. reflexivity. }
  assert (HH21 : Height a21 = (n - off - (k + 1))%nat) by reflexivity.
  assert (HW21 : Width a21 = 1%nat)
    by (cbn [a21 Width ViewRange LockedViewRange]; lia).
  cbn [Height Paste]. split; [|split; [|split; [|reflexivity]]].
  - intros i j.
    destruct (Nat.eqb_spec j (off + k)) as [->|Hj]; cbn [andb].
    + destruct (Nat.ltb_spec (off + k) i) as [Hi|Hi]; cbn [andb].
      * destruct (Nat.ltb_spec i n) as [Hin|Hin].
        -- rewrite Get_Paste_in
             by (cbn [Scale Height Width]; rewrite ?HH21, ?HW21; lia).
           cbn [Scale Get].
           replace (off + k - (off + k))%nat with 0%nat by lia.
           destruct (Ha21 (i - (off + k + 1))%nat) as [->|Hge]; [|lia].
           do 2 f_equal. lia.
        -- rewrite Get_Paste_out
             by (cbn [Scale Height Width]; rewrite ?HH21, ?HW21; lia).
           rewrite HA'. decide_tests.
           destruct (Nat.eqb_spec i (off + k)); [lia|reflexivity].
      * rewrite Get_Paste_out
          by (cbn [Scale Height Width]; rewrite ?HH21, ?HW21; lia).
        rewrite HA'. rewrite Nat.eqb_refl. cbn [andb].
        destruct (Nat.eqb_spec i (off + k)) as [->|Hne].
        -- decide_tests. reflexivity.
        -- decide_tests. reflexivity.
    + rewrite Get_Paste_out
        by (cbn [Scale Height Width]; rewrite ?HH21, ?HW21; lia).
      rewrite HA'. decide_tests. reflexivity.
  - intros a l.
    destruct (Nat.eqb_spec l k) as [->|Hl]; cbn [andb].
    + destruct (Nat.ltb_spec k a) as [Ha|Ha]; cbn [andb].
      * destruct (Nat.ltb_spec a (n - off)) as [Han|Han].
        -- rewrite Get_Paste_in
             by (cbn [Scale Height Width]; rewrite ?HH21, ?HW21; lia).
           cbn [Scale Get]. replace (k - k)%nat with 0%nat by lia.
           destruct (Ha21 (a - (k + 1))%nat) as [->|Hge]; [|lia].
           do 2 f_equal. lia.
        -- apply Get_Paste_out. cbn [Scale Height Width].
           rewrite ?HH21, ?HW21. lia.
      * apply Get_Paste_out. cbn [Scale Height Width].
        rewrite ?HH21, ?HW21. lia.
    + apply Get_Paste_out. cbn [Scale Height Width].
      rewrite ?HH21, ?HW21. lia.
  - intros a l.
    destruct (Nat.eqb_spec l k) as [->|Hl]; cbn [andb].
    + destruct (Nat.ltb_spec k a) as [Ha|Ha]; cbn [andb].
      * destruct (Nat.ltb_spec a (n - off)) as [Han|Han].
        -- rewrite Get_Paste_in by (rewrite ?HH21, ?HW21; lia).
           replace (k - k)%nat with 0%nat by lia.
           destruct (Ha21 (a - (k + 1))%nat) as [->|Hge]; [|lia].
           f_equal. lia.
        -- apply Get_Paste_out. rewrite ?HH21, ?HW21. lia.
      * apply Get_Paste_out. rewrite ?HH21, ?HW21. lia.
    + apply Get_Paste_out. rewrite ?HH21, ?HW21. lia.
Qed.

Lemma Dfactor_clear_col (A dSub : Matrix) (K a : nat) :
  dSubClear dSub K -> (a < K)%nat ->
  Dfactor A dSub a K = 0 /\ Dfactor A dSub K a = 0.
Proof.
  intros Hclear Ha. unfold Dfactor.
  destruct (Nat.eqb_spec a K); [lia|].
  destruct (Nat.eqb_spec K a); [lia|].
  destruct (Nat.eqb_spec a (K + 1)); [lia|].
  destruct (Nat.eqb_spec K (a + 1)) as [E|_].
  - rewrite Hclear by lia. split; reflexivity.
  - split; reflexivity.
Qed.

Lemma Panel1x1_step (conjugate : bool) (A dSub X Y : Matrix)
  (n off k : nat) :
  Height A = n -> (off + k < n)%nat ->
  XYsym X Y (n - off) k ->
  dSubClear dSub (off + k) ->
  let '(A2, X2, Y2) := ldl.Panel1x1 conjugate off k A X Y in
  Height A2 = n /\ Width X2 = Width X /\ Width Y2 = Width Y /\
  (forall a, (a < off + k)%nat -> Get A2 a a = Get A a a) /\
  XYsym X2 Y2 (n - off) (k + 1) /\
  (Get A2 (off + k) (off + k) <> 0 ->
   forall i j, (i < n)%nat -> (j < n)%nat ->
     Mpanel A2 dSub X2 Y2 off (k + 1) i j = Mpanel A dSub X Y off k i j).
Proof.
  intros Hn Hk Hsym Hclear.
  pose proof (Get_Panel1x1 conjugate A X Y off k) as HG.
  cbv zeta in HG. rewrite Hn in HG. specialize (HG Hk).
  pose proof (Panel1x1_Width conjugate off k A X Y) as HW.
  destruct (ldl.Panel1x1 conjugate off k A X Y) as [[A2 X2] Y2].
  destruct HG as (HA2 & HX2 & HY2 & HH2). destruct HW as [HWX HWY].
  set (w := fun i => Vlow A X Y off k i (off + k)) in *.
  set (delta := Vlow A X Y off k (off + k) (off + k)) in *.
  assert (HV : forall i j, (off + k < j)%nat -> (j <= i)%nat -> (i < n)%nat ->
            Vlow A2 X2 Y2 off (k + 1) i j =
            Vlow A X Y off k i j - w i * w j / delta).
  { intros i j Hj Hji Hi. unfold Vlow at 1.
    replace (k + 1)%nat with (S k) by lia. cbn [Rsum].
    rewrite HA2, HX2, HY2. decide_tests.
    replace (off + (i - off))%nat with i by lia.
    replace (off + (j - off))%nat with j by lia.
    rewrite (Rsum_ext _ (fun l => Get X (i - off)%nat l * Get Y (j - off)%nat l)).
    - unfold w, Vlow. unfold Rdiv. ring.
    - intros l Hl. rewrite HX2, HY2. decide_tests. reflexivity. }
  assert (HKK : Get A2 (off + k) (off + k) = delta).
  { rewrite HA2. decide_tests. reflexivity. }
  split; [exact HH2|]. split; [exact HWX|]. split; [exact HWY|].
  split; [|split].
  - intros a Ha. rewrite HA2. decide_tests. reflexivity.
  - intros a b Ha Hb. replace (k + 1)%nat with (S k) by lia. cbn [Rsum].
    rewrite !HX2, !HY2. decide_tests.
    rewrite (Rsum_ext (fun l => Get X2 a l * Get Y2 b l)
                      (fun l => Get X a l * Get Y b l))
      by (intros l Hl; rewrite HX2, HY2; decide_tests; reflexivity).
    rewrite (Rsum_ext (fun l => Get X2 b l * Get Y2 a l)
                      (fun l => Get X b l * Get Y a l))
      by (intros l Hl; rewrite HX2, HY2; decide_tests; reflexivity).
    rewrite (Hsym a b) by lia. ring.
  - rewrite HKK. intros Hdelta i j Hi Hj. unfold Mpanel.
    replace (off + (k + 1))%nat with (off + k + 1)%nat by lia.
    apply (Mk_step1 n (off + k) _ _ _ _ _ _ delta); try assumption.
    + intros i' a Hi' Ha. unfold Lfactor. rewrite HA2. decide_tests.
      reflexivity.
    + intros a b Ha Hb. unfold Dfactor. rewrite HA2. decide_tests.
      reflexivity.
    + intros a Ha. apply Dfactor_clear_col; assumption.
    + unfold Dfactor. rewrite HA2. decide_tests. reflexivity.
    + unfold Vsym. decide_tests. reflexivity.
    + unfold Lfactor. decide_tests. reflexivity.
    + intros i' Hi'. unfold Lfactor. decide_tests. reflexivity.
    + intros i' Hi'. unfold Lfactor. rewrite HA2. unfold Vsym.
      decide_tests. fold (w i'). unfold Rdiv. ring.
    + apply Vsym_sym.
    + apply Vsym_sym.
    + intros i' j' Hkj Hji Hin. unfold Vsym. decide_tests.
      rewrite HV by lia. reflexivity.
Qed.

Lemma Get_Paste_if (A B : Matrix) (ib jb i j : nat) :
  Get (Paste A ib jb B) i j =
  if Nat.leb ib i && Nat.ltb i (ib + Height B)
     && Nat.leb jb j && Nat.ltb j (jb + Width B)
  then Get B (i - ib) (j - jb) else Get A i j.
Proof. reflexivity. Qed.

Lemma Get_AB1 (A X Y : Matrix) (off k a c : nat) :
  let n := Height A in
  let ABR := ViewRange A off off n n in
  let XB0 := LockedViewRange X k 0 (n - off) k in
  let Y10 := LockedViewRange Y k 0 (k + 2) k in
  let AB1 := ViewRange ABR k k (n - off) (k + 2) in
  Get (Gemm (-1) XB0 Y10 1 AB1) a c =
  Vlow A X Y off k (off + k + a) (off + k + c).
Proof.
  intros n ABR XB0 Y10 AB1. unfold Gemm. cbn [Get].
  assert (HWX : Width XB0 = k)
    by (unfold XB0; cbn [Width LockedViewRange]; lia).
  rewrite HWX. unfold Vlow.
  rewrite (Rsum_ext _ (fun l => Get X (off + k + a - off)%nat l
                                * Get Y (off + k + c - off)%nat l)).
  - unfold AB1, ABR. cbn [Get ViewRange LockedViewRange].
    replace (off + (k + a))%nat with (off + k + a)%nat by lia.
    replace (off + (k + c))%nat with (off + k + c)%nat by lia. lra.
  - intros l Hl. unfold XB0, Y10.
    cbn [Get LockedViewRange]. f_equal; f_equal; lia.
Qed.

(** The entries of [A], [X], [Y] and the stored sub-diagonal entry after
    the branch [pivot.nb == 2] of the panel. *)
Lemma Get_Panel2x2 (conjugate : bool) (A X Y : Matrix) (off k : nat) :
  let n := Height A in
  let K := (off + k)%nat in
  let w0 := fun i => Vlow A X Y off k i K in
  let w1 := fun i => Vlow A X Y off k i (K + 1) in
  let d11 := w0 K in
  let d21 := w0 (K + 1)%nat in
  let d22 := w1 (K + 1)%nat in
  (K + 1 < n)%nat ->
  let '(A2, X2, Y2, d) := ldl.Panel2x2 conjugate off k A X Y in
  (forall i j,
     Get A2 i j =
     if Nat.eqb i (K + 1) && Nat.eqb j K then 0
     else if Nat.leb (K + 2) i && Nat.ltb i n && Nat.eqb j K
     then psolve1 w0 w1 d11 d21 d22 i
     else if Nat.leb (K + 2) i && Nat.ltb i n && Nat.eqb j (K + 1)
     then psolve2 w0 w1 d11 d21 d22 i
     else if Nat.eqb i K && Nat.eqb j K then d11
     else if Nat.eqb i (K + 1) && Nat.eqb j (K + 1) then d22
     else Get A i j) /\
  (forall a l,
     Get X2 a l =
     if Nat.leb (k + 2) a && Nat.ltb a (n - off) && Nat.eqb l k
     then psolve1 w0 w1 d11 d21 d22 (off + a)
     else if Nat.leb (k + 2) a && Nat.ltb a (n - off) && Nat.eqb l (k + 1)
     then psolve2 w0 w1 d11 d21 d22 (off + a)
     else Get X a l) /\
  (forall a l,
     Get Y2 a l =
     if Nat.leb (k + 2) a && Nat.ltb a (n - off) && Nat.eqb l k
     then w0 (off + a)%nat
     else if Nat.leb (k + 2) a && Nat.ltb a (n - off) && Nat.eqb l (k + 1)
     then w1 (off + a)%nat
     else Get Y a l) /\
  d = d21 /\ Height A2 = n.
Proof.
  intros n K0 w0 w1 d11 d21 d22 Hk. subst K0. unfold ldl.Panel2x2. fold n.
  unfold ldl.MakeReal, ldl.Conjugate. rewrite !if_same.
  set (ABR := ViewRange A off off n n).
  set (XB0 := LockedViewRange X k 0 (n - off) k).
  set (Y10 := LockedViewRange Y k 0 (k + 2) k).
  set (AB1 := ViewRange ABR k k (n - off) (k + 2)).
  set (psi := Get AB1 0 1).
  set (AB1' := MSet (Gemm (-1) XB0 Y10 1 AB1) 0 1 psi).
  set (A' := Paste A (off + k) (off + k) AB1').
  assert (Hpsi : psi = Get A (off + k) (off + k + 1)).
  { unfold psi, AB1, ABR. cbn [Get ViewRange LockedViewRange].
    f_equal; lia. }
  assert (HAB1 : forall a c,
            Get AB1' a c =
            if Nat.eqb a 0 && Nat.eqb c 1 then Get A (off + k) (off + k + 1)
            else Vlow A X Y off k (off + k + a) (off + k + c)).
  { intros a c. unfold AB1'. rewrite Get_MSet, <- Hpsi.
    destruct (Nat.eqb a 0 && Nat.eqb c 1); [reflexivity|]. apply Get_AB1. }
  assert (HHa : Height AB1' = (n - off - k)%nat) by reflexivity.
  assert (HWa : Width AB1' = 2%nat)
    by (cbn [AB1' MSet Gemm Width AB1 ViewRange LockedViewRange]; lia).
  assert (HA' : forall i j,
            Get A' i j =
            if Nat.leb (off + k) i && Nat.ltb i n
               && Nat.leb (off + k) j && Nat.ltb j (off + k + 2)
            then (if Nat.eqb i (off + k) && Nat.eqb j (off + k + 1)
                  then Get A (off + k) (off + k + 1)
                  else Vlow A X Y off k i j)
            else Get A i j).
  { intros i j. unfold A'. rewrite Get_Paste_if, HHa, HWa, HAB1.
    replace (off + k + (n - off - k))%nat with n by lia.
    destruct (Nat.leb_spec (off + k) i); cbn [andb]; [|reflexivity].
    destruct (Nat.ltb_spec i n); cbn [andb]; [|reflexivity].
    destruct (Nat.leb_spec (off + k) j); cbn [andb]; [|reflexivity].
    destruct (Nat.ltb_spec j (off + k + 2)); cbn [andb]; [|reflexivity].
    replace (off + k + (i - (off + k)))%nat with i by lia.
    replace (off + k + (j - (off + k)))%nat with j by lia.
    replace (Nat.eqb (i - (off + k)) 0) with (Nat.eqb i (off + k))
      by (destruct (Nat.eqb_spec i (off + k)),
                   (Nat.eqb_spec (i - (off + k)) 0); lia).
    replace (Nat.eqb (j - (off + k)) 1) with (Nat.eqb j (off + k + 1))
      by (destruct (Nat.eqb_spec j (off + k + 1)),
                   (Nat.eqb_spec (j - (off + k)) 1); lia).
    reflexivity. }
  set (ABR' := ViewRange A' off off n n).
  set (D11 := ViewRange ABR' k k (k + 2) (k + 2)).
  set (A21 := ViewRange ABR' (k + 2) k (n - off) (k + 2)).
  assert (HD11 : Get D11 0 0 = d11 /\ Get D11 1 0 = d21 /\ Get D11 1 1 = d22).
  { unfold D11, ABR'. rewrite !Get_view, !HA'.
    decide_tests. unfold d11, d21, d22, w0, w1.
    repeat split; f_equal; lia. }
  destruct HD11 as (HD00 & HD10 & HD1).
  assert (HA21 : forall a, (off + (k + 2 + a) < n)%nat ->
            Get A21 a 0 = w0 (off + (k + 2 + a))%nat /\
            Get A21 a 1 = w1 (off + (k + 2 + a))%nat).
  { intros a Ha. unfold A21, ABR'. rewrite !Get_view, !HA'.
    decide_tests. unfold w0, w1. split; f_equal; lia. }
  assert (HH21 : Height A21 = (n - off - (k + 2))%nat) by reflexivity.
  assert (HW21 : Width A21 = 2%nat)
    by (cbn [A21 Width ViewRange LockedViewRange]; lia).
  set (S21 := Symmetric2x2Solve D11 A21).
  assert (HS21 : forall a, (off + (k + 2 + a) < n)%nat ->
            Get S21 a 0 = psolve1 w0 w1 d11 d21 d22 (off + (k + 2 + a)) /\
            Get S21 a 1 = psolve2 w0 w1 d11 d21 d22 (off + (k + 2 + a))).
  { intros a Ha. unfold S21, Symmetric2x2Solve. cbn [Get].
    rewrite HD00, HD10, HD1.
    destruct (HA21 a Ha) as [-> ->]. split; reflexivity. }
  assert (HHS : Height S21 = (n - off - (k + 2))%nat) by reflexivity.
  assert (HWS : Width S21 = 2%nat) by exact HW21.
  rewrite HD10.
  split; [|split; [|split; [|split; reflexivity]]].
  - intros i j. rewrite Get_MSet.
    destruct (Nat.eqb_spec i (off + k + 1)) as [Hi1|Hi1]; cbn [andb].
    { destruct (Nat.eqb_spec j (off + k)) as [Hjk|Hjk]; [reflexivity|].
      rewrite Get_Paste_if, HHS, HWS, HA'. subst i.
      decide_tests.
      destruct (Nat.eqb_spec j (off + k + 1)) as [->|Hj1].
      - tests; reflexivity.
      - tests; reflexivity. }
    rewrite Get_Paste_if, HHS, HWS.
    replace (off + k + 2 + (n - off - (k + 2)))%nat with n
      by lia.
    replace (off + k + 2)%nat with (off + k + 2)%nat by lia.
    destruct (Nat.leb_spec (off + k + 2) i) as [Hki|Hki]; cbn [andb].
    2:{ rewrite HA'. decide_tests.
        destruct (Nat.eqb_spec i (off + k)) as [->|Hik]; cbn [andb].
        - destruct (Nat.eqb_spec j (off + k)) as [->|Hjk].
          + tests; reflexivity.
          + destruct (Nat.eqb_spec j (off + k + 1)) as [->|Hjk1];
              tests; reflexivity.
        - tests; reflexivity. }
    destruct (Nat.ltb_spec i n) as [Hin|Hin]; cbn [andb].
    2:{ rewrite HA'. tests; reflexivity. }
    destruct (Nat.eqb_spec j (off + k)) as [->|Hjk].
    { decide_tests. replace ((off + k) - (off + k))%nat with 0%nat by lia.
      destruct (HS21 (i - (off + k + 2))%nat) as [-> _]; [lia|].
      f_equal. lia. }
    destruct (Nat.eqb_spec j (off + k + 1)) as [->|Hjk1].
    { decide_tests. replace (off + k + 1 - (off + k))%nat with 1%nat by lia.
      destruct (HS21 (i - (off + k + 2))%nat) as [_ ->]; [lia|].
      f_equal. lia. }
    rewrite HA'. tests; reflexivity.
  - intros a l. rewrite Get_Paste_if, HHS, HWS.
    replace (k + 2 + (n - off - (k + 2)))%nat with (n - off)%nat
      by lia.
    destruct (Nat.leb_spec (k + 2) a) as [Hka|Hka]; cbn [andb];
      [|reflexivity].
    destruct (Nat.ltb_spec a (n - off)) as [Han|Han]; cbn [andb];
      [|reflexivity].
    destruct (Nat.eqb_spec l k) as [->|Hlk].
    { decide_tests. replace (k - k)%nat with 0%nat by lia.
      destruct (HS21 (a - (k + 2))%nat) as [-> _]; [lia|]. f_equal. lia. }
    destruct (Nat.eqb_spec l (k + 1)) as [->|Hlk1].
    { decide_tests. replace (k + 1 - k)%nat with 1%nat by lia.
      destruct (HS21 (a - (k + 2))%nat) as [_ ->]; [lia|]. f_equal. lia. }
    tests; reflexivity.
  - intros a l. rewrite Get_Paste_if, HH21, HW21.
    replace (k + 2 + (n - off - (k + 2)))%nat with (n - off)%nat
      by lia.
    destruct (Nat.leb_spec (k + 2) a) as [Hka|Hka]; cbn [andb];
      [|reflexivity].
    destruct (Nat.ltb_spec a (n - off)) as [Han|Han]; cbn [andb];
      [|reflexivity].
    destruct (Nat.eqb_spec l k) as [->|Hlk].
    { decide_tests. replace (k - k)%nat with 0%nat by lia.
      destruct (HA21 (a - (k + 2))%nat) as [-> _]; [lia|]. f_equal. lia. }
    destruct (Nat.eqb_spec l (k + 1)) as [->|Hlk1].
    { decide_tests. replace (k + 1 - k)%nat with 1%nat by lia.
      destruct (HA21 (a - (k + 2))%nat) as [_ ->]; [lia|]. f_equal. lia. }
    tests; reflexivity.
Qed.

Lemma Dfactor_MSet_clear (A dSub : Matrix) (K a : nat) (v : R) :
  dSubClear dSub K -> (a < K)%nat ->
  Dfactor A (MSet dSub K 0 v) a K = 0 /\
  Dfactor A (MSet dSub K 0 v) K a = 0 /\
  Dfactor A (MSet dSub K 0 v) a (K + 1) = 0 /\
  Dfactor A (MSet dSub K 0 v) (K + 1) a = 0.
Proof.
  intros Hclear Ha. unfold Dfactor. rewrite !Get_MSet.
  tests; repeat split; try reflexivity; apply Hclear; lia.
Qed.

Lemma Panel2x2_step (conjugate : bool) (A dSub X Y : Matrix)
  (n off k : nat) :
  Height A = n -> (off + k + 1 < n)%nat ->
  XYsym X Y (n - off) k ->
  dSubClear dSub (off + k) ->
  let '(A2, X2, Y2, d) := ldl.Panel2x2 conjugate off k A X Y in
  Height A2 = n /\ Width X2 = Width X /\ Width Y2 = Width Y /\
  (forall a, (a < off + k)%nat -> Get A2 a a = Get A a a) /\
  XYsym X2 Y2 (n - off) (k + 2) /\
  (Get A2 (off + k) (off + k) * Get A2 (off + k + 1) (off + k + 1)
     - d * d <> 0 ->
   forall i j, (i < n)%nat -> (j < n)%nat ->
     Mpanel A2 (MSet dSub (off + k) 0 d) X2 Y2 off (k + 2) i j
     = Mpanel A dSub X Y off k i j).
Proof.
  intros Hn Hk Hsym Hclear.
  pose proof (Get_Panel2x2 conjugate A X Y off k) as HG.
  cbv zeta in HG. rewrite Hn in HG. specialize (HG Hk).
  pose proof (Panel2x2_Width conjugate off k A X Y) as HW.
  destruct (ldl.Panel2x2 conjugate off k A X Y) as [[[A2 X2] Y2] d].
  destruct HG as (HA2 & HX2 & HY2 & Hd & HH2). destruct HW as [HWX HWY].
  set (d11 := Vlow A X Y off k (off + k) (off + k)) in *.
  set (d21 := Vlow A X Y off k (off + k + 1) (off + k)) in *.
  set (d22 := Vlow A X Y off k (off + k + 1) (off + k + 1)) in *.
  set (w0 := fun i => Vlow A X Y off k i (off + k)) in *.
  set (w1 := fun i => Vlow A X Y off k i (off + k + 1)) in *.
  subst d.
  assert (HV : forall i j, (off + k + 1 < j)%nat -> (j <= i)%nat -> (i < n)%nat ->
            Vlow A2 X2 Y2 off (k + 2) i j =
            Vlow A X Y off k i j
            - (psolve1 w0 w1 d11 d21 d22 i * w0 j
               + psolve2 w0 w1 d11 d21 d22 i * w1 j)).
  { intros i j Hj Hji Hi. unfold Vlow at 1.
    replace (k + 2)%nat with (S (S k)) by lia. cbn [Rsum].
    rewrite HA2, !HX2, !HY2. decide_tests.
    replace (off + (i - off))%nat with i by lia.
    replace (off + (j - off))%nat with j by lia.
    rewrite (Rsum_ext _ (fun l => Get X (i - off)%nat l * Get Y (j - off)%nat l)).
    - unfold w0, w1, Vlow. ring.
    - intros l Hl. rewrite HX2, HY2. decide_tests. reflexivity. }
  assert (HKK : Get A2 (off + k) (off + k) = d11).
  { rewrite HA2. tests; reflexivity. }
  assert (HKK1 : Get A2 (off + k + 1) (off + k + 1) = d22).
  { rewrite HA2. tests; reflexivity. }
  split; [exact HH2|]. split; [exact HWX|]. split; [exact HWY|].
  split; [|split].
  - intros a Ha. rewrite HA2. tests; reflexivity.
  - intros a b Ha Hb. replace (k + 2)%nat with (S (S k)) by lia.
    cbn [Rsum]. rewrite !HX2, !HY2. decide_tests.
    rewrite (Rsum_ext (fun l => Get X2 a l * Get Y2 b l)
                      (fun l => Get X a l * Get Y b l))
      by (intros l Hl; rewrite HX2, HY2; decide_tests; reflexivity).
    rewrite (Rsum_ext (fun l => Get X2 b l * Get Y2 a l)
                      (fun l => Get X b l * Get Y a l))
      by (intros l Hl; rewrite HX2, HY2; decide_tests; reflexivity).
    rewrite (Hsym a b) by lia. unfold psolve1, psolve2, Rdiv, w0, w1. ring.
  - rewrite HKK, HKK1. intros Hdet i j Hi Hj. unfold Mpanel.
    replace (off + (k + 2))%nat with (off + k + 2)%nat by lia.
    apply (Mk_step2 n (off + k) _ _ _ _ _ _ d11 d21 d22); try assumption.
    + intros i' a Hi' Ha. unfold Lfactor. rewrite HA2. tests; reflexivity.
    + intros a b Ha Hb. unfold Dfactor. rewrite HA2, !Get_MSet.
      tests; reflexivity.
    + intros a Ha. apply Dfactor_MSet_clear; assumption.
    + unfold Dfactor. rewrite HA2. tests; reflexivity.
    + unfold Dfactor. rewrite !Get_MSet. tests; reflexivity.
    + unfold Dfactor. rewrite !Get_MSet. tests; reflexivity.
    + unfold Dfactor. rewrite HA2. tests; reflexivity.
    + unfold Vsym. tests; reflexivity.
    + unfold Vsym. tests; reflexivity.
    + unfold Vsym. tests; reflexivity.
    + unfold Lfactor. tests; reflexivity.
    + unfold Lfactor. rewrite HA2. tests; reflexivity.
    + unfold Lfactor. tests; reflexivity.
    + unfold Lfactor. tests; reflexivity.
    + intros i' Hi'. unfold Lfactor. tests; split; reflexivity.
    + intros i' Hi'. unfold Lfactor. rewrite !HA2. unfold Vsym.
      tests; split; reflexivity.
    + apply Vsym_sym.
    + apply Vsym_sym.
    + intros i' j' Hkj Hji Hin. unfold Vsym. decide_tests.
      rewrite HV by lia. unfold Lfactor. rewrite !HA2. tests; reflexivity.
Qed.

Lemma transp_same (a i : nat) : transp a a i = i.
Proof.
  unfold transp. destruct (Nat.eqb_spec i a); [symmetry; assumption|reflexivity].
Qed.

Lemma ChoosePanelPivot_range (A X Y : Matrix) (k : nat)
  (pivotType : ldl.LDLPivotType) (gamma : R) (pv : LDLPivot) :
  (k < Height A)%nat ->
  ldl.ChoosePanelPivot A X Y k pivotType gamma = Return pv ->
  match pv with
  | Pivot1x1 f => (k <= f < Height A)%nat
  | Pivot2x2 _ f1 => (k + 1 <= f1 < Height A)%nat
  end.
Proof.
  intros Hk Hc.
  assert (HBK : forall third lo g,
            BKOutcome third lo g (corrected A X Y k) (Height A) k (Return pv) ->
            match pv with
            | Pivot1x1 f => (k <= f < Height A)%nat
            | Pivot2x2 _ f1 => (k + 1 <= f1 < Height A)%nat
            end).
  { intros third lo g Ho.
    destruct (BKOutcome_shape _ _ _ _ _ _ _ Ho) as [->|(r & Hr & [->| ->])];
      lia. }
  destruct pivotType; cbn [ldl.ChoosePanelPivot] in Hc; try discriminate Hc.
  - eapply HBK. rewrite <- Hc. apply PanelBunchKaufmanA_outcome. exact Hk.
  - eapply HBK. rewrite <- Hc. apply PanelBunchKaufmanA_outcome. exact Hk.
  - eapply HBK. rewrite <- Hc. apply PanelBunchKaufmanD_outcome. exact Hk.
Qed.

Lemma Mpanel_ResizeTo (A dSub X Y : Matrix) (off k m w : nat) (i j : nat) :
  Mpanel A dSub (ResizeTo X m w) (ResizeTo Y m w) off k i j
  = Mpanel A dSub X Y off k i j.
Proof. reflexivity. Qed.

Lemma PanelPivoted_loop_correct (conjugate : bool)
  (pivotType : ldl.LDLPivotType) (gamma : R) (n bsize off : nat)
  (fuel : nat) :
  forall (st st' : ldl.PanelState) (k : nat),
    Height (ldl.pnA st) = n -> (off + bsize <= n)%nat -> (k <= bsize)%nat ->
    List.length (ldl.pnp st) = n ->
    Width (ldl.pnX st) = bsize ->
    dSubClear (ldl.pndSub st) (off + k) ->
    XYsym (ldl.pnX st) (ldl.pnY st) (n - off) k ->
    ldl.PanelPivoted_loop fuel bsize off conjugate pivotType gamma st k
      = Return st' ->
    let k' := Width (ldl.pnX st') in
    (k <= k' <= bsize)%nat /\
    (k' = bsize \/ (k' + 1)%nat = bsize /\ (off + bsize < n)%nat) /\
    Height (ldl.pnA st') = n /\
    List.length (ldl.pnp st') = n /\
    Frame (off + k) (ldl.pnA st) (ldl.pndSub st) (ldl.pnp st)
      (ldl.pnA st') (ldl.pndSub st') (ldl.pnp st') /\
    (forall a, (off + k <= a < off + k')%nat ->
       (nth a (ldl.pnp st') 0 < n)%nat) /\
    (forall a, (off + k <= a)%nat -> Get (ldl.pndSub st') a 0 <> 0 ->
               Get (ldl.pndSub st') (a + 1) 0 = 0) /\
    dSubClear (ldl.pndSub st') (off + k') /\
    XYsym (ldl.pnX st') (ldl.pnY st') (n - off) k' /\
    ((forall a, (off + k <= a < off + k')%nat ->
        NonSingularAt (ldl.pnA st') (ldl.pndSub st') a) ->
     forall i j, (i < n)%nat -> (j < n)%nat ->
       Mpanel (ldl.pnA st') (ldl.pndSub st') (ldl.pnX st') (ldl.pnY st')
         off k' i j =
       Mpanel (ldl.pnA st) (ldl.pndSub st) (ldl.pnX st) (ldl.pnY st) off k
         (pivotPerm (ldl.pnp st') (off + k) (k' - k) i)
         (pivotPerm (ldl.pnp st') (off + k) (k' - k) j)).
Proof.
  assert (Hstop : forall (A dSub : Matrix) (p : list nat) (X Y X' Y' : Matrix)
                         (k : nat),
            Height A = n -> (k <= bsize)%nat -> List.length p = n ->
            Width X' = k ->
            (k = bsize \/ (k + 1)%nat = bsize /\ (off + bsize < n)%nat) ->
            (forall a l, Get X' a l = Get X a l) ->
            (forall a l, Get Y' a l = Get Y a l) ->
            dSubClear dSub (off + k) ->
            XYsym X Y (n - off) k ->
            let k' := Width X' in
            (k <= k' <= bsize)%nat /\
            (k' = bsize \/ (k' + 1)%nat = bsize /\ (off + bsize < n)%nat) /\
            Height A = n /\
            List.length p = n /\
            Frame (off + k) A dSub p A dSub p /\
            (forall a, (off + k <= a < off + k')%nat -> (nth a p 0 < n)%nat) /\
            (forall a, (off + k <= a)%nat -> Get dSub a 0 <> 0 ->
                       Get dSub (a + 1) 0 = 0) /\
            dSubClear dSub (off + k') /\
            XYsym X' Y' (n - off) k' /\
            ((forall a, (off + k <= a < off + k')%nat ->
                NonSingularAt A dSub a) ->
             forall i j, (i < n)%nat -> (j < n)%nat ->
               Mpanel A dSub X' Y' off k' i j =
               Mpanel A dSub X Y off k
                 (pivotPerm p (off + k) (k' - k) i)
                 (pivotPerm p (off + k) (k' - k) j))).
  { intros A dSub p X Y X' Y' k Hn Hk Hlen HW Hprog HX HY Hclear Hsym k'.
    subst k'. rewrite HW. rewrite Nat.sub_diag. cbn [pivotPerm].
    split; [lia|]. split; [exact Hprog|]. split; [exact Hn|].
    split; [exact Hlen|].
    split; [repeat split; intros; reflexivity|].
    split; [intros; lia|].
    split; [intros a Ha _; apply Hclear; lia|].
    split; [exact Hclear|].
    split.
    - intros a b Ha Hb.
      rewrite (Rsum_ext (fun l => Get X' a l * Get Y' b l)
                        (fun l => Get X a l * Get Y b l))
        by (intros l _; rewrite HX, HY; reflexivity).
      rewrite (Rsum_ext (fun l => Get X' b l * Get Y' a l)
                        (fun l => Get X b l * Get Y a l))
        by (intros l _; rewrite HX, HY; reflexivity).
      apply Hsym; assumption.
    - intros _ i j Hi Hj. unfold Mpanel, Mk. f_equal.
      destruct (Nat.leb (off + k) i && Nat.leb (off + k) j); [|reflexivity].
      unfold Vsym, Vlow.
      rewrite !(Rsum_ext (fun l => Get X' _ l * Get Y' _ l)
                         (fun l => Get X _ l * Get Y _ l))
        by (intros l _; rewrite HX, HY; reflexivity).
      reflexivity. }
  induction fuel as [|fuel IH];
    intros st st' k Hn Hbs Hk Hlen HW Hclear Hsym Hrun;
    cbn [ldl.PanelPivoted_loop] in Hrun; rewrite ?Hn in Hrun.
  - destruct (Nat.leb_spec bsize k) as [Hle|Hlt]; [|discriminate Hrun].
    injection Hrun as <-. destruct st as [A dSub p X Y].
    cbn [ldl.pnA ldl.pndSub ldl.pnp ldl.pnX ldl.pnY] in *.
    assert (HWk : Width X = k) by lia.
    assert (Hprog : k = bsize
                    \/ (k + 1)%nat = bsize /\ (off + bsize < n)%nat)
      by (left; lia).
    exact (Hstop A dSub p X Y X Y k Hn Hk Hlen HWk Hprog
             (fun _ _ => eq_refl) (fun _ _ => eq_refl) Hclear Hsym).
  - destruct (Nat.leb_spec bsize k) as [Hle|Hlt].
    { injection Hrun as <-. destruct st as [A dSub p X Y].
      cbn [ldl.pnA ldl.pndSub ldl.pnp ldl.pnX ldl.pnY] in *.
      assert (HWk : Width X = k) by lia.
      assert (Hprog : k = bsize
                      \/ (k + 1)%nat = bsize /\ (off + bsize < n)%nat)
        by (left; lia).
      exact (Hstop A dSub p X Y X Y k Hn Hk Hlen HWk Hprog
               (fun _ _ => eq_refl) (fun _ _ => eq_refl) Hclear Hsym). }
    destruct (ldl.is_BUNCH_KAUFMAN_C pivotType); [discriminate Hrun|].
    destruct (ldl.ChoosePanelPivot _ _ _ k pivotType gamma) as [pv|e|] eqn:Hpv;
      cbn [bind] in Hrun; try discriminate Hrun.
    apply ChoosePanelPivot_range in Hpv;
      cbn [Height ViewRange LockedViewRange]; [|lia].
    cbn [Height ViewRange LockedViewRange] in Hpv.
    destruct st as [A dSub p X Y].
    cbn [ldl.pnA ldl.pndSub ldl.pnp ldl.pnX ldl.pnY] in *.
    destruct (Nat.ltb_spec bsize (k + nb pv)) as [Hover|Hfit].
    { (* the pivot does not fit *)
      injection Hrun as <-.
      cbn [ldl.pnA ldl.pndSub ldl.pnp ldl.pnX ldl.pnY].
      assert (Hkb : (bsize - 1)%nat = k) by (destruct pv; cbn in *; lia).
      assert (Hprog : k = bsize
                      \/ (k + 1)%nat = bsize /\ (off + bsize < n)%nat)
        by (right; destruct pv as [f|f0 f1]; cbn [nb] in *; lia).
      exact (Hstop A dSub p X Y (ResizeTo X (n - off) (bsize - 1))
               (ResizeTo Y (n - off) (bsize - 1)) k Hn Hk Hlen Hkb Hprog
               (fun _ _ => eq_refl) (fun _ _ => eq_refl) Hclear Hsym). }
    destruct pv as [f|f0 f1]; cbn [nb fromLast] in *.
    + (* 1x1 pivot *)
      replace (off + k + (1 - 1))%nat with (off + k)%nat in Hrun by lia.
      set (from := (off + f)%nat) in *.
      assert (Hfrom : (off + k <= from < n)%nat) by (unfold from; lia).
      set (A1 := SymmetricSwap A (off + k) from) in *.
      set (X1 := RowSwap X (off + k - off) (from - off)) in *.
      set (Y1 := RowSwap Y (off + k - off) (from - off)) in *.
      assert (Hsym1 : XYsym X1 Y1 (n - off) k)
        by (apply XYsym_RowSwap; [exact Hsym|lia|lia]).
      pose proof (Panel1x1_step conjugate A1 dSub X1 Y1 n off k
                    Hn ltac:(lia) Hsym1 Hclear) as Hstep.
      destruct (ldl.Panel1x1 conjugate off k A1 X1 Y1) as [[A2 X2] Y2].
      destruct Hstep as (HH2 & HWX & _ & Hlow & Hsym2 & Heq2).
      apply IH in Hrun;
        cbn [ldl.pnA ldl.pndSub ldl.pnp ldl.pnX ldl.pnY];
        [ | exact HH2 | exact Hbs | lia
          | rewrite length_insert; exact Hlen
          | rewrite HWX; exact HW
          | apply (dSubClear_weaken dSub (off + k)); [lia|exact Hclear]
          | exact Hsym2 ].
      cbn [ldl.pnA ldl.pndSub ldl.pnp ldl.pnX ldl.pnY] in Hrun.
      cbv zeta in Hrun. cbv zeta.
      set (k' := Width (ldl.pnX st')) in *.
      destruct Hrun as (Hk' & Hprog & Hn' & Hlen' & (FA & FD & FP) & Hrange
                        & Hblocks & Hclear' & Hsym' & Heq).
      assert (Hpk : nth (off + k) (ldl.pnp st') 0%nat = from).
      { rewrite FP by lia. apply nth_insert_eq. lia. }
      split; [lia|]. split; [exact Hprog|].
      split; [exact Hn'|]. split; [exact Hlen'|].
      split; [|split; [|split; [|split; [exact Hclear'|split; [exact Hsym'|]]]]].
      * repeat split.
        -- intros a Ha. rewrite FA by lia. rewrite Hlow by lia.
           apply Get_SymmetricSwap_diag; lia.
        -- intros a Ha. apply FD. lia.
        -- intros a Ha. rewrite FP by lia. apply nth_insert_ne. lia.
      * intros a Ha. destruct (Nat.eq_dec a (off + k)) as [->|Hne].
        -- rewrite Hpk. lia.
        -- apply Hrange. lia.
      * intros a Ha Hnz. destruct (Nat.eq_dec a (off + k)) as [->|Hne].
        -- exfalso. apply Hnz. rewrite FD by lia. apply Hclear. lia.
        -- apply Hblocks; [lia|exact Hnz].
      * intros Hns.
        assert (Hdelta : Get A2 (off + k) (off + k) <> 0).
        { rewrite <- FA by lia.
          apply (Hns (off + k)%nat ltac:(lia)).
          - rewrite FD by lia. apply Hclear. lia.
          - destruct (Nat.eq_dec (off + k) 0) as [->|Hk0];
              [left; reflexivity|].
            right. rewrite FD by lia. apply Hclear. lia. }
        intros i j Hi Hj.
        rewrite Heq by (try assumption; intros a Ha; apply Hns; lia).
        replace (k' - k)%nat with (S (k' - (k + 1))) by lia.
        cbn [pivotPerm]. rewrite Hpk.
        replace (off + k + 1)%nat with (off + (k + 1))%nat by lia.
        set (pi := pivotPerm (ldl.pnp st') (off + (k + 1)) (k' - (k + 1))).
        assert (Hpi : forall x, (x < n)%nat -> (pi x < n)%nat).
        { intros x Hx. apply pivotPerm_lt; try lia.
          intros a Ha. apply Hrange. lia. }
        rewrite Heq2 by (try exact Hdelta; apply Hpi; assumption).
        apply (Mpanel_swap A dSub X Y n off k (off + k) from);
          try assumption; try lia; apply Hpi; assumption.
    + (* 2x2 pivot *)
      replace (off + k + (2 - 1))%nat with (off + k + 1)%nat in Hrun by lia.
      set (from := (off + f1)%nat) in *.
      assert (Hfrom : (off + k + 1 <= from < n)%nat) by (unfold from; lia).
      set (A1 := SymmetricSwap A (off + k + 1) from) in *.
      set (X1 := RowSwap X (off + k + 1 - off) (from - off)) in *.
      set (Y1 := RowSwap Y (off + k + 1 - off) (from - off)) in *.
      assert (Hsym1 : XYsym X1 Y1 (n - off) k)
        by (apply XYsym_RowSwap; [exact Hsym|lia|lia]).
      pose proof (Panel2x2_step conjugate A1 dSub X1 Y1 n off k
                    Hn ltac:(lia) Hsym1 Hclear) as Hstep.
      destruct (ldl.Panel2x2 conjugate off k A1 X1 Y1) as [[[A2 X2] Y2] d].
      destruct Hstep as (HH2 & HWX & _ & Hlow & Hsym2 & Heq2).
      apply IH in Hrun;
        cbn [ldl.pnA ldl.pndSub ldl.pnp ldl.pnX ldl.pnY];
        [ | exact HH2 | exact Hbs | lia
          | rewrite !length_insert; exact Hlen
          | rewrite HWX; exact HW
          | replace (off + (k + 2))%nat with (off + k + 2)%nat by lia;
            apply dSubClear_MSet; exact Hclear
          | exact Hsym2 ].
      cbn [ldl.pnA ldl.pndSub ldl.pnp ldl.pnX ldl.pnY] in Hrun.
      cbv zeta in Hrun. cbv zeta.
      set (k' := Width (ldl.pnX st')) in *.
      destruct Hrun as (Hk' & Hprog & Hn' & Hlen' & (FA & FD & FP) & Hrange
                        & Hblocks & Hclear' & Hsym' & Heq).
      assert (Hpk : nth (off + k) (ldl.pnp st') 0%nat = (off + k)%nat).
      { rewrite FP by lia. rewrite nth_insert_ne by lia.
        apply nth_insert_eq. lia. }
      assert (Hpk1 : nth (off + k + 1) (ldl.pnp st') 0%nat = from).
      { rewrite FP by lia. apply nth_insert_eq.
        rewrite length_insert. lia. }
      assert (HdS : Get (ldl.pndSub st') (off + k) 0 = d).
      { rewrite FD by lia. rewrite Get_MSet, Nat.eqb_refl. reflexivity. }
      assert (HdS1 : Get (ldl.pndSub st') (off + k + 1) 0 = 0).
      { rewrite FD by lia. rewrite Get_MSet.
        destruct (Nat.eqb_spec (off + k + 1) (off + k)); [lia|]. cbn [andb].
        apply Hclear. lia. }
      assert (HdS0 : (off + k)%nat = 0%nat
                     \/ Get (ldl.pndSub st') (off + k - 1) 0 = 0).
      { destruct (Nat.eq_dec (off + k) 0) as [->|Hk0]; [left; reflexivity|].
        right. rewrite FD by lia. rewrite Get_MSet.
        destruct (Nat.eqb_spec (off + k - 1) (off + k)); [lia|]. cbn [andb].
        apply Hclear. lia. }
      split; [lia|]. split; [exact Hprog|].
      split; [exact Hn'|]. split; [exact Hlen'|].
      split; [|split; [|split; [|split; [exact Hclear'|split; [exact Hsym'|]]]]].
      * repeat split.
        -- intros a Ha. rewrite FA by lia. rewrite Hlow by lia.
           apply Get_SymmetricSwap_diag; lia.
        -- intros a Ha. rewrite FD by lia. rewrite Get_MSet.
           destruct (Nat.eqb_spec a (off + k)); [lia|]. reflexivity.
        -- intros a Ha. rewrite FP by lia. rewrite !nth_insert_ne by lia.
           reflexivity.
      * intros a Ha. destruct (Nat.eq_dec a (off + k)) as [->|Hne];
          [rewrite Hpk; lia|].
        destruct (Nat.eq_dec a (off + k + 1)) as [->|Hne1];
          [rewrite Hpk1; lia|].
        apply Hrange. lia.
      * intros a Ha Hnz. destruct (Nat.eq_dec a (off + k)) as [->|Hne];
          [exact HdS1|].
        destruct (Nat.eq_dec a (off + k + 1)) as [->|Hne1];
          [exfalso; apply Hnz; exact HdS1|].
        apply Hblocks; [lia|exact Hnz].
      * intros Hns.
        assert (Hdet : Get A2 (off + k) (off + k)
                       * Get A2 (off + k + 1) (off + k + 1) - d * d <> 0).
        { rewrite <- (FA (off + k)%nat) by lia.
          rewrite <- (FA (off + k + 1)%nat) by lia. rewrite <- HdS.
          destruct (Req_dec_T (Get (ldl.pndSub st') (off + k) 0) 0)
            as [Hz|Hnz].
          - rewrite Hz.
            pose proof (proj1 (Hns (off + k)%nat ltac:(lia)) Hz HdS0) as H1.
            assert (H2 : Get (ldl.pnA st') (off + k + 1) (off + k + 1) <> 0).
            { apply (Hns (off + k + 1)%nat ltac:(lia)); [exact HdS1|].
              right. replace (off + k + 1 - 1)%nat with (off + k)%nat by lia.
              exact Hz. }
            intros Hc.
            apply (Rmult_integral_contrapositive_currified _ _ H1 H2).
            lra.
          - apply (Hns (off + k)%nat ltac:(lia)). exact Hnz. }
        intros i j Hi Hj.
        rewrite Heq by (try assumption; intros a Ha; apply Hns; lia).
        replace (k' - k)%nat with (S (S (k' - (k + 2)))) by lia.
        cbn [pivotPerm]. rewrite Hpk, Hpk1, !transp_same.
        replace (off + k + 1 + 1)%nat with (off + (k + 2))%nat by lia.
        set (pi := pivotPerm (ldl.pnp st') (off + (k + 2)) (k' - (k + 2))).
        assert (Hpi : forall x, (x < n)%nat -> (pi x < n)%nat).
        { intros x Hx. apply pivotPerm_lt; try lia.
          intros a Ha. apply Hrange. lia. }
        rewrite Heq2 by (try exact Hdet; apply Hpi; assumption).
        apply (Mpanel_swap A dSub X Y n off k (off + k + 1) from);
          try assumption; try lia; apply Hpi; assumption.
Qed.

Lemma BKOutcome_Settles (third : bool) (lo : nat -> nat) (g : R)
  (E : nat -> nat -> R) (n k : nat) (res : Result LDLPivot) :
  BKOutcome third lo g E n k res -> Settles res.
Proof.
  intros H. inversion H; subst;
    first [left; reflexivity | right; eexists; reflexivity].
Qed.

Lemma ChoosePivot_Settles (A : Matrix) (pivotType : ldl.LDLPivotType)
  (gamma : R) :
  Supported pivotType = true -> (1 <= Height A)%nat ->
  Settles (ldl.ChoosePivot A pivotType gamma).
Proof.
  intros Hs Hh. destruct pivotType; try discriminate Hs;
    cbn [ldl.ChoosePivot].
  - eapply BKOutcome_Settles. apply BunchKaufmanA_outcome. exact Hh.
  - eapply BKOutcome_Settles. apply BunchKaufmanD_outcome. exact Hh.
  - right. eexists. reflexivity.
Qed.

Lemma ChoosePanelPivot_Settles (A X Y : Matrix) (k : nat)
  (pivotType : ldl.LDLPivotType) (gamma : R) :
  pivotType = ldl.BUNCH_KAUFMAN_A \/ pivotType = ldl.BUNCH_KAUFMAN_D ->
  (k < Height A)%nat ->
  Settles (ldl.ChoosePanelPivot A X Y k pivotType gamma).
Proof.
  intros [-> | ->] Hk; cbn [ldl.ChoosePanelPivot].
  - eapply BKOutcome_Settles. apply PanelBunchKaufmanA_outcome. exact Hk.
  - eapply BKOutcome_Settles. apply PanelBunchKaufmanD_outcome. exact Hk.
Qed.

Lemma UnblockedPivoted_loop_Settles (conjugate : bool)
  (pivotType : ldl.LDLPivotType) (gamma : R) (fuel : nat) :
  Supported pivotType = true ->
  forall (st : ldl.LDLState) (k : nat),
    (Height (ldl.stA st) <= fuel + k)%nat ->
    Settles (ldl.UnblockedPivoted_loop fuel conjugate pivotType gamma st k).
Proof.
  intros Hs. induction fuel as [|fuel IH]; intros st k Hf;
    cbn [ldl.UnblockedPivoted_loop].
  - destruct (Nat.leb_spec (Height (ldl.stA st)) k); [|lia].
    right. eexists. reflexivity.
  - destruct (Nat.leb_spec (Height (ldl.stA st)) k) as [Hle|Hlt].
    { right. eexists. reflexivity. }
    replace (ldl.is_BUNCH_KAUFMAN_C pivotType) with false
      by (destruct pivotType; try discriminate Hs; reflexivity).
    destruct (ChoosePivot_Settles
                (ViewRange (ldl.stA st) k k (Height (ldl.stA st))
                   (Height (ldl.stA st))) pivotType gamma Hs) as [Ht|[pv Hr]].
    { cbn [Height ViewRange LockedViewRange]. lia. }
    + rewrite Ht. left. reflexivity.
    + rewrite Hr. cbn [bind]. destruct pv as [f|f0 f1].
      * apply IH. cbn [ldl.stA]. unfold ldl.Unblocked1x1.
        cbn [Height Paste SymmetricSwap]. lia.
      * destruct (ldl.Unblocked2x2 (ldl.stA st) k (k + f0) (k + f1))
          as [A2 d] eqn:HU.
        apply IH. cbn [ldl.stA].
        assert (HA2 : Height A2 = Height (ldl.stA st)).
        { unfold ldl.Unblocked2x2 in HU. injection HU as <- _.
          reflexivity. }
        rewrite HA2. lia.
Qed.

Lemma PanelPivoted_loop_Settles (conjugate : bool)
  (pivotType : ldl.LDLPivotType) (gamma : R) (bsize off : nat)
  (fuel : nat) :
  pivotType = ldl.BUNCH_KAUFMAN_A \/ pivotType = ldl.BUNCH_KAUFMAN_D ->
  forall (st : ldl.PanelState) (k : nat),
    (off + bsize <= Height (ldl.pnA st))%nat ->
    (bsize <= fuel + k)%nat ->
    Settles (ldl.PanelPivoted_loop fuel bsize off conjugate pivotType gamma
               st k).
Proof.
  intros Hs. induction fuel as [|fuel IH]; intros st k Hb Hf;
    cbn [ldl.PanelPivoted_loop].
  - destruct (Nat.leb_spec bsize k); [|lia].
    right. eexists. reflexivity.
  - destruct (Nat.leb_spec bsize k) as [Hle|Hlt].
    { right. eexists. reflexivity. }
    replace (ldl.is_BUNCH_KAUFMAN_C pivotType) with false
      by (destruct Hs as [-> | ->]; reflexivity).
    destruct (ChoosePanelPivot_Settles
                (ViewRange (ldl.pnA st) off off (Height (ldl.pnA st))
                   (Height (ldl.pnA st))) (ldl.pnX st) (ldl.pnY st) k
                pivotType gamma Hs) as [Ht|[pv Hr]].
    { cbn [Height ViewRange LockedViewRange]. lia. }
    + rewrite Ht. left. reflexivity.
    + rewrite Hr. cbn [bind].
      destruct (Nat.ltb bsize (k + nb pv)).
      { right. eexists. reflexivity. }
      destruct pv as [f|f0 f1].
      * destruct (ldl.Panel1x1 _ _ _ _ _ _) as [[A2 X2] Y2] eqn:HP.
        apply IH; cbn [ldl.pnA]; [|lia].
        assert (HA2 : Height A2 = Height (ldl.pnA st)).
        { unfold ldl.Panel1x1 in HP. injection HP as <- _ _. reflexivity. }
        rewrite HA2. exact Hb.
      * destruct (ldl.Panel2x2 _ _ _ _ _ _) as [[[A2 X2] Y2] d] eqn:HP.
        apply IH; cbn [ldl.pnA]; [|lia].
        assert (HA2 : Height A2 = Height (ldl.pnA st)).
        { unfold ldl.Panel2x2 in HP. injection HP as <- _ _ _. reflexivity. }
        rewrite HA2. exact Hb.
Qed.

Lemma pivotPerm_app (p : list nat) (k m1 m2 i : nat) :
  pivotPerm p k (m1 + m2) i
  = pivotPerm p k m1 (pivotPerm p (k + m1) m2 i).
Proof.
  revert k. induction m1 as [|m1 IH]; intros k; cbn [pivotPerm Nat.add].
  - rewrite Nat.add_0_r. reflexivity.
  - rewrite IH. replace (k + 1 + m1)%nat with (k + S m1)%nat by lia.
    reflexivity.
Qed.

Lemma NonSingularAt_frame (A dSub A' dSub' : Matrix) (m a : nat) :
  (forall x, (x < m)%nat -> Get A' x x = Get A x x) ->
  (forall x, (x < m)%nat -> Get dSub' x 0 = Get dSub x 0) ->
  dSubClear dSub m -> (a < m)%nat ->
  NonSingularAt A' dSub' a -> NonSingularAt A dSub a.
Proof.
  intros HA HD Hclear Ha [H1 H2]. split.
  - intros Hz Hprev. rewrite <- HA by lia. apply H1.
    + rewrite HD by lia. exact Hz.
    + destruct Hprev as [->|Hp]; [left; reflexivity|].
      destruct (Nat.eq_dec a 0) as [->|Ha0]; [left; reflexivity|].
      right. rewrite HD by lia. exact Hp.
  - intros Hnz.
    assert (Ha1 : (a + 1 < m)%nat).
    { destruct (Nat.lt_ge_cases (a + 1) m) as [Hlt|Hge]; [exact Hlt|].
      exfalso. apply Hnz. apply Hclear. lia. }
    rewrite <- (HA a) by lia. rewrite <- (HA (a + 1)%nat) by lia.
    rewrite <- (HD a) by lia. apply H2. rewrite HD by lia. exact Hnz.
Qed.

Lemma Mk_ext (n k : nat) (L D W L' D' W' : nat -> nat -> R) :
  (forall i a, (i < n)%nat -> (a < k)%nat -> L' i a = L i a) ->
  (forall a b, (a < k)%nat -> (b < k)%nat -> D' a b = D a b) ->
  (forall i j, (k <= i < n)%nat -> (k <= j < n)%nat -> W' i j = W i j) ->
  forall i j, (i < n)%nat -> (j < n)%nat ->
    Mk L' D' W' k i j = Mk L D W k i j.
Proof.
  intros HL HD HW i j Hi Hj. unfold Mk. f_equal.
  - apply Rsum_ext. intros a Ha. apply Rsum_ext. intros b Hb.
    rewrite !HL, HD by assumption. reflexivity.
  - destruct (Nat.leb_spec k i); destruct (Nat.leb_spec k j); cbn [andb];
      try reflexivity.
    apply HW; lia.
Qed.

Lemma Mpanel_start (A dSub X Y : Matrix) (off i j : nat) :
  Mpanel A dSub X Y off 0 i j = Mstate A dSub off i j.
Proof.
  unfold Mpanel, Mstate. rewrite Nat.add_0_r. unfold Mk. f_equal.
  destruct (Nat.leb off i && Nat.leb off j); [|reflexivity].
  unfold Vsym, symGet, Vlow. cbn [Rsum].
  destruct (Nat.leb j i); lra.
Qed.

Lemma Mstate_TrailingUpdate (A dSub X Y : Matrix) (n k nb : nat) :
  Height A = n ->
  forall i j, (i < n)%nat -> (j < n)%nat ->
    Mstate (ldl.TrailingUpdate A X Y k nb) dSub (k + nb) i j
    = Mpanel A dSub X Y k nb i j.
Proof.
  intros Hn i j Hi Hj. unfold Mstate, Mpanel.
  apply (Mk_ext n (k + nb)); try assumption.
  - intros i' a Hi' Ha. unfold Lfactor. rewrite Get_TrailingUpdate.
    decide_tests. reflexivity.
  - intros a b Ha Hb. unfold Dfactor. rewrite Get_TrailingUpdate.
    decide_tests. reflexivity.
  - intros i' j' Hi' Hj'. unfold symGet, Vsym.
    destruct (Nat.leb_spec j' i'); rewrite Get_TrailingUpdate, Hn;
      decide_tests; reflexivity.
Qed.

Lemma BlockedPivoted_loop_correct (conjugate : bool)
  (pivotType : ldl.LDLPivotType) (gamma : R) (n bsize : nat) (fuel : nat) :
  pivotType = ldl.BUNCH_KAUFMAN_A \/ pivotType = ldl.BUNCH_KAUFMAN_D ->
  (2 <= bsize)%nat ->
  forall (st : ldl.PanelState) (k : nat),
    Height (ldl.pnA st) = n -> (k <= n)%nat ->
    List.length (ldl.pnp st) = n ->
    dSubClear (ldl.pndSub st) k ->
    (n <= fuel + k)%nat ->
    ldl.BlockedPivoted_loop fuel bsize conjugate pivotType gamma st k
      = Throw SingularMatrixException \/
    exists st',
      ldl.BlockedPivoted_loop fuel bsize conjugate pivotType gamma st k
        = Return st' /\
      Height (ldl.pnA st') = n /\
      List.length (ldl.pnp st') = n /\
      Frame k (ldl.pnA st) (ldl.pndSub st) (ldl.pnp st)
        (ldl.pnA st') (ldl.pndSub st') (ldl.pnp st') /\
      (forall a, (k <= a < n)%nat -> (nth a (ldl.pnp st') 0 < n)%nat) /\
      (forall a, (k <= a)%nat -> Get (ldl.pndSub st') a 0 <> 0 ->
                 Get (ldl.pndSub st') (a + 1) 0 = 0) /\
      ((forall a, (k <= a < n)%nat ->
          NonSingularAt (ldl.pnA st') (ldl.pndSub st') a) ->
       forall i j, (i < n)%nat -> (j < n)%nat ->
         Mstate (ldl.pnA st') (ldl.pndSub st') n i j =
         Mstate (ldl.pnA st) (ldl.pndSub st) k
           (pivotPerm (ldl.pnp st') k (n - k) i)
           (pivotPerm (ldl.pnp st') k (n - k) j)).
Proof.
  intros Hs Hb2.
  assert (Hstop : forall (st : ldl.PanelState) (k : nat),
            Height (ldl.pnA st) = n -> (n <= k)%nat -> (k <= n)%nat ->
            List.length (ldl.pnp st) = n ->
            dSubClear (ldl.pndSub st) k ->
            Height (ldl.pnA st) = n /\
            List.length (ldl.pnp st) = n /\
            Frame k (ldl.pnA st) (ldl.pndSub st) (ldl.pnp st)
              (ldl.pnA st) (ldl.pndSub st) (ldl.pnp st) /\
            (forall a, (k <= a < n)%nat -> (nth a (ldl.pnp st) 0 < n)%nat) /\
            (forall a, (k <= a)%nat -> Get (ldl.pndSub st) a 0 <> 0 ->
                       Get (ldl.pndSub st) (a + 1) 0 = 0) /\
            ((forall a, (k <= a < n)%nat ->
                NonSingularAt (ldl.pnA st) (ldl.pndSub st) a) ->
             forall i j, (i < n)%nat -> (j < n)%nat ->
               Mstate (ldl.pnA st) (ldl.pndSub st) n i j =
               Mstate (ldl.pnA st) (ldl.pndSub st) k
                 (pivotPerm (ldl.pnp st) k (n - k) i)
                 (pivotPerm (ldl.pnp st) k (n - k) j))).
  { intros st k Hn Hle Hk Hlen Hclear. assert (k = n) by lia. subst k.
    rewrite Nat.sub_diag. cbn [pivotPerm].
    split; [exact Hn|]. split; [exact Hlen|].
    split; [repeat split; intros; reflexivity|].
    split; [intros; lia|].
    split; [intros a Ha _; apply Hclear; lia|].
    intros; reflexivity. }
  induction fuel as [|fuel IH]; intros st k Hn Hk Hlen Hclear Hf;
    cbn [ldl.BlockedPivoted_loop]; rewrite Hn.
  - destruct (Nat.leb_spec n k) as [Hle|Hlt]; [|lia].
    right. exists st. split; [reflexivity|]. apply Hstop; assumption.
  - destruct (Nat.leb_spec n k) as [Hle|Hlt].
    { right. exists st. split; [reflexivity|]. apply Hstop; assumption. }
    destruct st as [A dSub p X Y].
    cbn [ldl.pnA ldl.pndSub ldl.pnp ldl.pnX ldl.pnY] in *.
    set (nbProp := Nat.min bsize (n - k)).
    assert (HnbProp : (1 <= nbProp <= n - k)%nat) by (unfold nbProp; lia).
    unfold ldl.PanelPivoted. rewrite Hn.
    destruct (Nat.eqb_spec n 0) as [Hn0|_]; [lia|].
    set (st0 := ldl.mkPanelState A dSub p (Zeros (n - k) nbProp)
                  (Zeros (n - k) nbProp)).
    destruct (PanelPivoted_loop_Settles conjugate pivotType gamma nbProp k
                nbProp Hs st0 0) as [Ht|[st1 Hp]];
      [cbn [st0 ldl.pnA]; lia|lia| |].
    { rewrite Ht. left. reflexivity. }
    rewrite Hp. cbn [bind].
    pose proof (PanelPivoted_loop_correct conjugate pivotType gamma n nbProp
                  k nbProp st0 st1 0) as Hpanel.
    cbn [st0 ldl.pnA ldl.pndSub ldl.pnp ldl.pnX ldl.pnY Width Zeros]
      in Hpanel.
    rewrite Nat.add_0_r in Hpanel.
    specialize (Hpanel Hn ltac:(lia) ltac:(lia) Hlen eq_refl Hclear).
    specialize (Hpanel ltac:(intros a b _ _; reflexivity) Hp).
    cbv zeta in Hpanel.
    destruct st1 as [A1 dSub1 p1 X1 Y1].
    cbn [ldl.pnA ldl.pndSub ldl.pnp ldl.pnX ldl.pnY] in *.
    set (nb1 := Width X1) in *.
    destruct Hpanel as (Hk1 & Hprog & Hn1 & Hlen1 & (FA1 & FD1 & FP1)
                        & Hrange1 & Hblocks1 & Hclear1 & _ & Heq1).
    assert (Hnb1 : (1 <= nb1)%nat).
    { destruct Hprog as [->|[Hp1 Hp2]]; [lia|]. unfold nbProp in *. lia. }
    set (TU := ldl.TrailingUpdate A1 X1 Y1 k nb1).
    assert (HTU : Height TU = n) by exact Hn1.
    assert (HTUd : forall a, (a < k + nb1)%nat -> Get TU a a = Get A1 a a).
    { intros a Ha. unfold TU. rewrite Get_TrailingUpdate. decide_tests.
      reflexivity. }
    destruct (IH (ldl.mkPanelState TU dSub1 p1 X1 Y1) (k + nb1)%nat)
      as [Ht|(st' & Hrun & Hn' & Hlen' & (FA & FD & FP) & Hrange & Hblocks
              & Heq)];
      cbn [ldl.pnA ldl.pndSub ldl.pnp ldl.pnX ldl.pnY];
      [exact HTU|lia|exact Hlen1|exact Hclear1|lia| |].
    { left. exact Ht. }
    cbn [ldl.pnA ldl.pndSub ldl.pnp ldl.pnX ldl.pnY] in *.
    right. exists st'. split; [exact Hrun|].
    split; [exact Hn'|]. split; [exact Hlen'|].
    split; [|split; [|split]].
    + repeat split.
      * intros a Ha. rewrite FA, HTUd by lia. apply FA1. lia.
      * intros a Ha. rewrite FD by lia. apply FD1. lia.
      * intros a Ha. rewrite FP by lia. apply FP1. lia.
    + intros a Ha. destruct (Nat.lt_ge_cases a (k + nb1)) as [Hlt1|Hge1].
      * rewrite FP by lia. apply Hrange1. lia.
      * apply Hrange. lia.
    + intros a Ha Hnz. destruct (Nat.lt_ge_cases a (k + nb1)) as [Hlt1|Hge1].
      * rewrite FD in Hnz by lia.
        destruct (Nat.lt_ge_cases (a + 1) (k + nb1)) as [Hlt2|Hge2].
        -- rewrite FD by lia. apply Hblocks1; [lia|exact Hnz].
        -- exfalso. apply Hnz. apply Hclear1. lia.
      * apply Hblocks; [lia|exact Hnz].
    + intros Hns i j Hi Hj.
      assert (Hns1 : forall a, (k <= a < k + nb1)%nat ->
                NonSingularAt A1 dSub1 a).
      { intros a Ha.
        apply (NonSingularAt_frame A1 dSub1 (ldl.pnA st') (ldl.pndSub st')
                 (k + nb1) a); [|exact FD|exact Hclear1|lia|apply Hns; lia].
        intros x Hx. rewrite FA, HTUd by lia. reflexivity. }
      rewrite Heq by (try assumption; intros a Ha; apply Hns; lia).
      set (pi2 := pivotPerm (ldl.pnp st') (k + nb1) (n - (k + nb1))).
      assert (Hpi2 : forall x, (x < n)%nat -> (pi2 x < n)%nat).
      { intros x Hx. apply pivotPerm_lt; try lia.
        intros a Ha. apply Hrange. lia. }
      unfold TU. rewrite (Mstate_TrailingUpdate A1 dSub1 X1 Y1 n k nb1)
        by (try assumption; apply Hpi2; assumption).
      rewrite Heq1 by (try assumption; apply Hpi2; assumption).
      rewrite Nat.sub_0_r. rewrite Mpanel_start.
      replace (n - k)%nat with (nb1 + (n - (k + nb1)))%nat by lia.
      rewrite !pivotPerm_app. fold pi2.
      rewrite !(pivotPerm_ext (ldl.pnp st') p1 k nb1)
        by (intros a Ha; apply FP; lia).
      reflexivity.
Qed.

Lemma Mstate_full (A dSub : Matrix) (n i j : nat) :
  (i < n)%nat -> Mstate A dSub n i j = LDLt A dSub n i j.
Proof.
  intros Hi. unfold Mstate, Mk, LDLt.
  destruct (Nat.leb_spec n i); [lia|]. cbn [andb]. lra.
Qed.

Lemma Mstate_0 (A dSub : Matrix) (i j : nat) :
  Mstate A dSub 0 i j = symGet A i j.
Proof. unfold Mstate, Mk. cbn [Rsum Nat.leb andb]. lra. Qed.

Lemma Factorizes_empty (A : Matrix) :
  Height A = 0%nat -> Factorizes A (ldl.mkLDLState A (Zeros 0 1) []).
Proof.
  intros Hn. unfold Factorizes. rewrite Hn.
  cbn [ldl.stA ldl.stdSub ldl.stp].
  split; [exact Hn|]. split; [reflexivity|]. split; [intros; lia|].
  split; [intros a Ha; exfalso; apply Ha; reflexivity|].
  intros _ i j Hi. lia.
Qed.

Lemma BlockedPivoted_Factorizes (fuel bsize : nat) (A : Matrix)
  (conjugate : bool) (pivotType : ldl.LDLPivotType) (gamma : R) :
  pivotType = ldl.BUNCH_KAUFMAN_A \/ pivotType = ldl.BUNCH_KAUFMAN_D ->
  (2 <= bsize)%nat -> (Height A <= fuel)%nat ->
  ldl.BlockedPivoted fuel bsize A conjugate pivotType gamma
    = Throw SingularMatrixException \/
  exists st,
    ldl.BlockedPivoted fuel bsize A conjugate pivotType gamma = Return st /\
    Factorizes A st.
Proof.
  intros Hs Hb Hf. unfold ldl.BlockedPivoted.
  destruct (Nat.eqb_spec (Height A) 0) as [Hn0|Hn0].
  { right. eexists. split; [reflexivity|]. apply Factorizes_empty.
    exact Hn0. }
  set (n := Height A) in *.
  set (st0 := ldl.mkPanelState A (Zeros (n - 1) 1) (replicate n 0%nat)
                (Zeros 0 0) (Zeros 0 0)).
  destruct (BlockedPivoted_loop_correct conjugate pivotType gamma n bsize
              fuel Hs Hb st0 0)
    as [Ht|(st' & Hrun & Hn' & Hlen' & _ & Hrange & Hblocks & Heq)];
    cbn [st0 ldl.pnA ldl.pndSub ldl.pnp];
    [reflexivity|lia|apply length_replicate
    |intros a _; reflexivity|lia| |].
  { left. rewrite Ht. reflexivity. }
  right. rewrite Hrun. cbn [bind]. eexists. split; [reflexivity|].
  unfold Factorizes. fold n. cbn [ldl.stA ldl.stdSub ldl.stp].
  cbn [st0 ldl.pnA ldl.pndSub ldl.pnp] in Heq.
  split; [exact Hn'|]. split; [exact Hlen'|].
  split; [intros a Ha; apply Hrange; lia|].
  split; [intros a Ha; apply Hblocks; [lia|exact Ha]|].
  intros Hns i j Hi Hj. rewrite <- Mstate_full by exact Hi.
  rewrite Heq by (try assumption; intros a Ha; apply Hns; lia).
  rewrite Nat.sub_0_r. apply Mstate_0.
Qed.

Lemma UnblockedPivoted_Factorizes (A : Matrix) (conjugate : bool)
  (pivotType : ldl.LDLPivotType) (gamma : R) :
  Supported pivotType = true ->
  ldl.UnblockedPivoted A conjugate pivotType gamma
    = Throw SingularMatrixException \/
  exists st,
    ldl.UnblockedPivoted A conjugate pivotType gamma = Return st /\
    Factorizes A st.
Proof.
  intros Hs. unfold ldl.UnblockedPivoted.
  destruct (Nat.eqb_spec (Height A) 0) as [Hn0|Hn0].
  { right. eexists. split; [reflexivity|]. apply Factorizes_empty.
    exact Hn0. }
  set (n := Height A) in *.
  set (st0 := ldl.mkLDLState A (Zeros (n - 1) 1) (replicate n 0%nat)).
  destruct (UnblockedPivoted_loop_Settles conjugate pivotType gamma n Hs
              st0 0) as [Ht|[st' Hrun]];
    [cbn [st0 ldl.stA]; fold n; lia| |].
  { left. exact Ht. }
  right. exists st'. split; [exact Hrun|].
  destruct (UnblockedPivoted_loop_correct conjugate pivotType gamma n n
              st0 st' 0)
    as (Hn' & Hlen' & _ & Hrange & Hblocks & Heq);
    cbn [st0 ldl.stA ldl.stdSub ldl.stp];
    [reflexivity|lia|apply length_replicate
    |intros a _; reflexivity|exact Hrun|].
  unfold Factorizes. fold n.
  cbn [st0 ldl.stA ldl.stdSub ldl.stp] in Heq.
  split; [exact Hn'|]. split; [exact Hlen'|].
  split; [intros a Ha; apply Hrange; lia|].
  split; [intros a Ha; apply Hblocks; [lia|exact Ha]|].
  intros Hns i j Hi Hj. rewrite <- Mstate_full by exact Hi.
  rewrite Heq by (try assumption; intros a Ha; apply Hns; lia).
  rewrite Nat.sub_0_r. apply Mstate_0.
Qed.

Lemma pivotPerm_inj (p : list nat) (k m i j : nat) :
  pivotPerm p k m i = pivotPerm p k m j -> i = j.
Proof.
  revert k. induction m as [|m IH]; intros k H; cbn [pivotPerm] in H.
  - exact H.
  - apply (IH (k + 1)%nat).
    rewrite <- (transp_invol k (nth k p 0%nat) (pivotPerm p (k + 1) m i)).
    rewrite H. apply transp_invol.
Qed.

Lemma ChoosePanelPivot_A_swap_start (X Y : Matrix) :
  ldl.ChoosePanelPivot (ViewRange A_swap 0 0 2 2) X Y 0
    ldl.BUNCH_KAUFMAN_A 0 = Return (Pivot2x2 0 1).
Proof.
  cbn [ldl.ChoosePanelPivot]. rewrite PanelBunchKaufmanA_bkDecide.
  rewrite defaultGamma_0. pose proof gammaA_bounds as Hg.
  unfold bkDecide, colScan, leftScan, belowScan, corrected, A_swap,
    ViewRange, LockedViewRange.
  cbn [Rsum].
  evaluate. reflexivity.
Qed.

(** A complete run: the matrix [[0,1],[1,0]] is factored with one 2x2
    pivot, and the block of [D] it leaves is invertible. *)
Example Pivoted_A_swap :
  exists st,
    ldl.Pivoted 2 2 A_swap false ldl.BUNCH_KAUFMAN_A 0 = Return st /\
    ldl.stp st = [0%nat; 1%nat] /\
    Get (ldl.stdSub st) 0 0 = 1 /\
    NonSingularD (ldl.stA st) (ldl.stdSub st) 2.
Proof.
  pose proof (Get_Panel2x2 false (SymmetricSwap A_swap 1 1)
                (RowSwap (Zeros 2 2) 1 1) (RowSwap (Zeros 2 2) 1 1) 0 0) as HG.
  cbv zeta in HG.
  change (Height (SymmetricSwap A_swap 1 1)) with 2%nat in HG.
  specialize (HG ltac:(lia)).
  destruct (ldl.Panel2x2 false 0 0 (SymmetricSwap A_swap 1 1)
              (RowSwap (Zeros 2 2) 1 1) (RowSwap (Zeros 2 2) 1 1))
    as [[[A2 X2] Y2] d] eqn:HP.
  destruct HG as (HA2 & _ & _ & Hd & HH2).
  assert (HW2 : Width X2 = 2%nat).
  { unfold ldl.Panel2x2 in HP. injection HP as _ <- _ _. reflexivity. }
  assert (Hd1 : d = 1).
  { rewrite Hd. unfold Vlow, SymmetricSwap, symGet, A_swap, fromRows.
    cbn. lra. }
  assert (H00 : Get A2 0 0 = 0).
  { rewrite HA2. cbn [Nat.add Nat.eqb Nat.leb Nat.ltb andb].
    unfold Vlow, SymmetricSwap, symGet, A_swap, fromRows. cbn. lra. }
  assert (H11 : Get A2 1 1 = 0).
  { rewrite HA2. cbn [Nat.add Nat.eqb Nat.leb Nat.ltb andb].
    unfold Vlow, SymmetricSwap, symGet, A_swap, fromRows. cbn. lra. }
  exists (ldl.mkLDLState (ldl.TrailingUpdate A2 X2 Y2 0 2)
            (MSet (Zeros 1 1) 0 0 d) [0%nat; 1%nat]).
  split; [|split; [reflexivity|split]].
  - assert (Hpanel :
      ldl.PanelPivoted_loop 2 2 0 false ldl.BUNCH_KAUFMAN_A 0
        (ldl.mkPanelState A_swap (Zeros 1 1) (replicate 2 0%nat)
           (Zeros 2 2) (Zeros 2 2)) 0
      = Return (ldl.mkPanelState A2 (MSet (Zeros 1 1) 0 0 d)
                  [0%nat; 1%nat] X2 Y2)).
    { cbn [ldl.PanelPivoted_loop ldl.pnA ldl.pndSub ldl.pnp ldl.pnX ldl.pnY
           Nat.leb ldl.is_BUNCH_KAUFMAN_C].
      change (Height A_swap) with 2%nat.
      rewrite ChoosePanelPivot_A_swap_start.
      cbn [bind nb fromLast Nat.add Nat.ltb Nat.leb Nat.sub].
      rewrite HP. reflexivity. }
    unfold ldl.Pivoted, ldl.BlockedPivoted.
    change (Height A_swap) with 2%nat. cbn [Nat.eqb Nat.sub].
    cbn [ldl.BlockedPivoted_loop ldl.pnA ldl.pndSub ldl.pnp ldl.pnX ldl.pnY].
    change (Height A_swap) with 2%nat. cbn [Nat.leb Nat.sub Nat.min].
    unfold ldl.PanelPivoted.
    change (Height A_swap) with 2%nat. cbn [Nat.eqb Nat.sub].
    rewrite Hpanel.
    cbn [bind ldl.pnA ldl.pndSub ldl.pnp ldl.pnX ldl.pnY].
    rewrite HW2.
    change (Height (ldl.TrailingUpdate A2 X2 Y2 0 2)) with (Height A2).
    rewrite HH2. cbn [Nat.add Nat.leb bind]. reflexivity.
  - cbn [ldl.stdSub]. rewrite Get_MSet. cbn [Nat.eqb andb]. exact Hd1.
  - cbn [ldl.stA ldl.stdSub].
    assert (HT : forall a, Get (ldl.TrailingUpdate A2 X2 Y2 0 2) a a
                           = Get A2 a a).
    { intros a. rewrite Get_TrailingUpdate, HH2.
      destruct (Nat.leb_spec (0 + 2) a); cbn [andb]; [|reflexivity].
      destruct (Nat.ltb_spec a 2); [lia|].
      rewrite !andb_false_r. reflexivity. }
    intros k Hk. unfold NonSingularAt. rewrite !HT, !Get_MSet.
    destruct k as [|[|k]]; [| |lia]; cbn [Nat.eqb Nat.add Nat.sub andb].
    + rewrite H00, H11, Hd1. split; [intros; lra|intros _; lra].
    + rewrite Hd1. cbn [Zeros Get]. split.
      * intros _ [H|H]; [discriminate H|lra].
      * intros H. exfalso. apply H. reflexivity.
Qed.

(** The identity of C1 on that run. *)
Example Pivoted_A_swap_identity :
  exists st,
    ldl.Pivoted 2 2 A_swap false ldl.BUNCH_KAUFMAN_A 0 = Return st /\
    forall i j, (i < 2)%nat -> (j < 2)%nat ->
      LDLt (ldl.stA st) (ldl.stdSub st) 2 i j = PAPt A_swap (ldl.stp st) 2 i j.
Proof.
  destruct Pivoted_A_swap as (st & Hrun & _ & _ & Hns).
  exists st. split; [exact Hrun|].
  destruct (BlockedPivoted_Factorizes 2 2 A_swap false ldl.BUNCH_KAUFMAN_A 0)
    as [Ht|(st' & Hrun' & HF)];
    [left; reflexivity|lia|cbn; lia| |].
  - cbn [ldl.Pivoted] in Hrun. rewrite Hrun in Ht. discriminate Ht.
  - cbn [ldl.Pivoted] in Hrun. rewrite Hrun in Hrun'.
    injection Hrun' as <-. apply HF. exact Hns.
Qed.

(** With a block size of 1 a panel whose first pivot is a 2x2 block
    completes no column: the trailing update changes nothing and the
    blocked driver opens the same panel again. *)
Lemma TrailingUpdate_nothing (A X Y : Matrix) (k : nat) :
  ldl.TrailingUpdate A X Y k 0 = A.
Proof.
  destruct A as [h w g].
  unfold ldl.TrailingUpdate, Paste, Trrk, ViewRange, LockedViewRange.
  cbn [Height Width Get Rsum]. f_equal.
  apply functional_extensionality. intros i.
  apply functional_extensionality. intros j.
  destruct (Nat.leb (k + 0) i && Nat.ltb i (k + 0 + (h - (k + 0)))
            && Nat.leb (k + 0) j && Nat.ltb j (k + 0 + (h - (k + 0))))
    eqn:Hin; [|reflexivity].
  apply andb_prop in Hin. destruct Hin as [Hin Hj2].
  apply andb_prop in Hin. destruct Hin as [Hin Hj1].
  apply andb_prop in Hin. destruct Hin as [Hi1 Hi2].
  apply Nat.leb_le in Hi1, Hj1.
  replace (k + 0 + (i - (k + 0)))%nat with i by lia.
  replace (k + 0 + (j - (k + 0)))%nat with j by lia.
  destruct (Nat.leb (j - (k + 0)) (i - (k + 0)));
    cbn [Nat.sub Rsum]; lra.
Qed.

Lemma BlockedPivoted_loop_Blocksize_1 (fuel : nat) :
  forall st : ldl.PanelState,
    ldl.pnA st = A_swap ->
    ldl.BlockedPivoted_loop fuel 1 false ldl.BUNCH_KAUFMAN_A 0 st 0
    = OutOfFuel.
Proof.
  induction fuel as [|fuel IH]; intros st HA;
    cbn [ldl.BlockedPivoted_loop]; rewrite HA;
    change (Height A_swap) with 2%nat; cbn [Nat.leb]; [reflexivity|].
  cbn [Nat.sub Nat.min]. unfold ldl.PanelPivoted.
  change (Height A_swap) with 2%nat. cbn [Nat.eqb Nat.sub].
  cbn [ldl.PanelPivoted_loop ldl.pnA ldl.pndSub ldl.pnp ldl.pnX ldl.pnY
       Nat.leb ldl.is_BUNCH_KAUFMAN_C].
  change (Height A_swap) with 2%nat.
  rewrite ChoosePanelPivot_A_swap_start.
  cbn [bind nb Nat.add Nat.ltb Nat.leb Nat.sub
       ldl.pnA ldl.pndSub ldl.pnp ldl.pnX ldl.pnY Width ResizeTo].
  apply IH. cbn [ldl.pnA]. apply TrailingUpdate_nothing.
Qed.

Lemma Pivoted_Blocksize_1 (fuel : nat) :
  ldl.Pivoted fuel 1 A_swap false ldl.BUNCH_KAUFMAN_A 0 = OutOfFuel.
Proof.
  unfold ldl.Pivoted, ldl.BlockedPivoted.
  change (Height A_swap) with 2%nat. cbn [Nat.eqb].
  rewrite BlockedPivoted_loop_Blocksize_1 by reflexivity. reflexivity.
Qed.

(** What the drivers do deliver.  For the supported pivot rules
    (Bunch-Kaufman A and D, which run the blocked driver, and
    Bunch-Parlett, which runs the unblocked one),
    a block size of at least 2 and enough iterations for the order [n] of
    [A], [ldl::Pivoted] either raises the exception for singular matrices
    or returns.  When it returns, the overwritten [A] keeps its order, the
    transpositions recorded in [p] make up a permutation of the [n]
    indices, no two consecutive entries of [dSub] are nonzero (so [D],
    the diagonal of the overwritten [A] with [dSub] beside it, consists of
    1x1 and 2x2 blocks), and whenever every block of [D] is invertible,
    [L D L^T = P A P^T] entry by entry, [L] being the strictly lower part
    of the overwritten [A] with a unit diagonal.  Scalars are real, so the
    Hermitian case ([conjugate = true]) reads the same.  With a block
    size of 1 the blocked driver need not return
    ([Pivoted_Blocksize_1]), and under Bunch-Parlett a block of [D] can
    be singular on a matrix that is not ([Pivoted_A_corner]). *)
Lemma Pivoted_factorization_given_invertible_D (fuel bsize : nat)
  (A : Matrix) (conjugate : bool) (pivotType : ldl.LDLPivotType) (gamma : R) :
  Supported pivotType = true ->
  (2 <= bsize)%nat -> (Height A <= fuel)%nat ->
  ldl.Pivoted fuel bsize A conjugate pivotType gamma
    = Throw SingularMatrixException \/
  exists st,
    ldl.Pivoted fuel bsize A conjugate pivotType gamma = Return st /\
    let n := Height A in
    let A' := ldl.stA st in
    let dSub := ldl.stdSub st in
    let p := ldl.stp st in
    Height A' = n /\ List.length p = n /\
    (forall i, (i < n)%nat -> (pivotPerm p 0 n i < n)%nat) /\
    (forall i j, pivotPerm p 0 n i = pivotPerm p 0 n j -> i = j) /\
    (forall a, Get dSub a 0 <> 0 -> Get dSub (a + 1) 0 = 0) /\
    (NonSingularD A' dSub n ->
     forall i j, (i < n)%nat -> (j < n)%nat ->
       LDLt A' dSub n i j = PAPt A p n i j).
Proof.
  intros Hs Hb Hf.
  assert (H : ldl.Pivoted fuel bsize A conjugate pivotType gamma
              = Throw SingularMatrixException \/
              exists st,
                ldl.Pivoted fuel bsize A conjugate pivotType gamma
                  = Return st /\ Factorizes A st).
  { destruct pivotType; try discriminate Hs; cbn [ldl.Pivoted].
    - apply BlockedPivoted_Factorizes;
        [left; reflexivity|exact Hb|exact Hf].
    - apply BlockedPivoted_Factorizes;
        [right; reflexivity|exact Hb|exact Hf].
    - apply UnblockedPivoted_Factorizes. reflexivity. }
  destruct H as [Ht|(st & Hrun & Hn & Hlen & Hrange & Hblocks & Heq)];
    [left; exact Ht|right].
  exists st. split; [exact Hrun|]. cbv zeta.
  split; [exact Hn|]. split; [exact Hlen|].
  split; [|split; [|split; [exact Hblocks|exact Heq]]].
  - intros i Hi. apply pivotPerm_lt; [|lia|exact Hi].
    intros a Ha. apply Hrange. lia.
  - intros i j. apply pivotPerm_inj.
Qed.

Example Pivoted_factorization_given_invertible_D_A_swap :
  Supported ldl.BUNCH_KAUFMAN_A = true /\ (2 <= 2)%nat /\
  (Height A_swap <= 2)%nat /\
  (ldl.Pivoted 2 2 A_swap false ldl.BUNCH_KAUFMAN_A 0
     = Throw SingularMatrixException \/
   exists st,
     ldl.Pivoted 2 2 A_swap false ldl.BUNCH_KAUFMAN_A 0 = Return st /\
     let n := Height A_swap in
     let A' := ldl.stA st in
     let dSub := ldl.stdSub st in
     let p := ldl.stp st in
     Height A' = n /\ List.length p = n /\
     (forall i, (i < n)%nat -> (pivotPerm p 0 n i < n)%nat) /\
     (forall i j, pivotPerm p 0 n i = pivotPerm p 0 n j -> i = j) /\
     (forall a, Get dSub a 0 <> 0 -> Get dSub (a + 1) 0 = 0) /\
     (NonSingularD A' dSub n ->
      forall i j, (i < n)%nat -> (j < n)%nat ->
        LDLt A' dSub n i j = PAPt A_swap p n i j)).
Proof.
  split; [reflexivity|]. split; [lia|]. split; [cbn; lia|].
  apply (Pivoted_factorization_given_invertible_D 2 2 A_swap false
           ldl.BUNCH_KAUFMAN_A 0);
    [reflexivity|lia|cbn; lia].
Qed.

(** ** Two inputs on which the driver does not factor *)

(** One iteration of the loop of [UnblockedPivoted]. *)
Lemma UnblockedPivoted_loop_1x1 (fuel : nat) (conjugate : bool)
  (gamma : R) (st : ldl.LDLState) (k f : nat) :
  (k < Height (ldl.stA st))%nat ->
  ldl.pivot.BunchParlett
    (ViewRange (ldl.stA st) k k (Height (ldl.stA st)) (Height (ldl.stA st)))
    gamma = Pivot1x1 f ->
  ldl.UnblockedPivoted_loop (S fuel) conjugate ldl.BUNCH_PARLETT gamma st k
  = ldl.UnblockedPivoted_loop fuel conjugate ldl.BUNCH_PARLETT gamma
      (ldl.mkLDLState (ldl.Unblocked1x1 (ldl.stA st) k (k + f))
         (ldl.stdSub st) (<[k := (k + f)%nat]> (ldl.stp st))) (k + 1).
Proof.
  intros Hk Hpv. cbn [ldl.UnblockedPivoted_loop].
  destruct (Nat.leb_spec (Height (ldl.stA st)) k) as [Hle|_]; [lia|].
  cbn [ldl.is_BUNCH_KAUFMAN_C ldl.ChoosePivot bind]. rewrite Hpv.
  reflexivity.
Qed.

Lemma UnblockedPivoted_loop_2x2 (fuel : nat) (conjugate : bool)
  (gamma : R) (st : ldl.LDLState) (k f0 f1 : nat) :
  (k < Height (ldl.stA st))%nat ->
  ldl.pivot.BunchParlett
    (ViewRange (ldl.stA st) k k (Height (ldl.stA st)) (Height (ldl.stA st)))
    gamma = Pivot2x2 f0 f1 ->
  ldl.UnblockedPivoted_loop (S fuel) conjugate ldl.BUNCH_PARLETT gamma st k
  = ldl.UnblockedPivoted_loop fuel conjugate ldl.BUNCH_PARLETT gamma
      (ldl.mkLDLState
         (fst (ldl.Unblocked2x2 (ldl.stA st) k (k + f0) (k + f1)))
         (MSet (ldl.stdSub st) k 0
            (snd (ldl.Unblocked2x2 (ldl.stA st) k (k + f0) (k + f1))))
         (<[(k + 1)%nat := (k + f1)%nat]>
            (<[k := (k + f0)%nat]> (ldl.stp st)))) (k + 2).
Proof.
  intros Hk Hpv. cbn [ldl.UnblockedPivoted_loop].
  destruct (Nat.leb_spec (Height (ldl.stA st)) k) as [Hle|_]; [lia|].
  cbn [ldl.is_BUNCH_KAUFMAN_C ldl.ChoosePivot bind]. rewrite Hpv.
  destruct (ldl.Unblocked2x2 (ldl.stA st) k (k + f0) (k + f1)) as [A2 d].
  reflexivity.
Qed.

(** On [A_corner] Bunch-Parlett names the block of the rows 2 and 0, whose
    off-diagonal entry is the largest of the matrix. *)
Lemma BunchParlett_A_corner :
  ldl.pivot.BunchParlett (ViewRange A_corner 0 0 3 3) 0 = Pivot2x2 2 0.
Proof.
  unfold ldl.pivot.BunchParlett, DiagonalMax, SymmetricMax.
  rewrite defaultGamma_0. pose proof gammaA_bounds as Hg.
  cbn [Height Width ViewRange LockedViewRange Nat.min Nat.sub Nat.add
       SymmetricMax_cols SymmetricMax_col VectorMax_scan Get].
  unfold A_corner, fromRows.
  repeat first
    [ progress cbn [VectorMax_scan value index pvalue indices fst snd nth Get
                    Nat.add Nat.sub]
    | settle_test ].
  reflexivity.
Qed.

(** On a block of order 1 Bunch-Parlett takes the only entry. *)
Lemma BunchParlett_order_1 (A : Matrix) (gamma : R) :
  Height A = 1%nat -> Width A = 1%nat ->
  ldl.pivot.BunchParlett A gamma = Pivot1x1 0.
Proof.
  intros Hh Hw. unfold ldl.pivot.BunchParlett, DiagonalMax, SymmetricMax.
  rewrite Hh, Hw.
  cbn [Nat.min Nat.add SymmetricMax_cols VectorMax_scan value]. rewrite Hh.
  cbn [Nat.sub SymmetricMax_col pvalue].
  assert (Hv : 0 <= value (if Rgtb (Abs (Get A 0 0)) 0
                           then mkValueInt (Abs (Get A 0 0)) 0
                           else mkValueInt 0 0)
               /\ index (if Rgtb (Abs (Get A 0 0)) 0
                         then mkValueInt (Abs (Get A 0 0)) 0
                         else mkValueInt 0 0) = 0%nat).
  { destruct (Rgtb (Abs (Get A 0 0)) 0); cbn [value index];
      split; try reflexivity; try lra. apply Rabs_pos. }
  destruct Hv as [Hv Hi]. rewrite Hi.
  rewrite (proj2 (Rgeb_true _ _)); [reflexivity|]. lra.
Qed.

(** The run of the unblocked driver on [A_corner]: a 2x2 step on the pivot
    (2,0), then a 1x1 step.  The two swaps of the 2x2 step bring the rows
    1 and 2 to the front, so the block that is factored is the singular
    block 1 0 / 0 0 and not the block 0 2 / 2 0 of the pivot. *)
Lemma Pivoted_A_corner :
  exists st,
    (forall fuel bsize,
       ldl.Pivoted fuel bsize A_corner false ldl.BUNCH_PARLETT 0
       = Return st) /\
    ldl.stp st = [2%nat; 0%nat; 2%nat] /\
    Get (ldl.stdSub st) 0 0 = 0 /\ Get (ldl.stdSub st) 1 0 = 0 /\
    Get (ldl.stA st) 1 0 = 0 /\ Get (ldl.stA st) 1 1 = 0.
Proof.
  set (U := ldl.Unblocked2x2 A_corner 0 2 0).
  assert (Hk : (0 + 1 < Height A_corner)%nat) by (cbn; lia).
  assert (Hd : snd U = 0).
  { unfold U. rewrite snd_Unblocked2x2.
    unfold SymmetricSwap, symGet, transp, A_corner, fromRows. cbn.
    reflexivity. }
  assert (H10 : Get (fst U) 1 0 = 0).
  { unfold U. rewrite Get_Unblocked2x2 by exact Hk. reflexivity. }
  assert (H11 : Get (fst U) 1 1 = 0).
  { unfold U. rewrite Get_Unblocked2x2 by exact Hk.
    cbn [Nat.add Nat.eqb Nat.leb Nat.ltb andb].
    unfold SymmetricSwap, symGet, transp, A_corner, fromRows. cbn.
    reflexivity. }
  assert (Hlow : forall i j, (j <= i)%nat -> (i < 2)%nat ->
            Get (ldl.Unblocked1x1 (fst U) 2 2) i j = Get (fst U) i j).
  { intros i j Hji Hi. rewrite Get_Unblocked1x1. cbv zeta. decide_tests.
    unfold SymmetricSwap, symGet. cbn [Get]. rewrite !transp_same.
    decide_tests. reflexivity. }
  exists (ldl.mkLDLState (ldl.Unblocked1x1 (fst U) 2 2)
            (MSet (Zeros 2 1) 0 0 (snd U)) [2%nat; 0%nat; 2%nat]).
  cbn [ldl.stA ldl.stdSub ldl.stp].
  split; [|split; [reflexivity|split; [|split; [|split]]]].
  - intros fuel bsize. cbn [ldl.Pivoted]. unfold ldl.UnblockedPivoted.
    change (Height A_corner) with 3%nat. cbn [Nat.eqb Nat.sub].
    rewrite (UnblockedPivoted_loop_2x2 2 false 0 _ 0 2 0);
      cbn [ldl.stA ldl.stdSub ldl.stp];
      [|cbn; lia|exact BunchParlett_A_corner].
    cbn [Nat.add]. fold U.
    rewrite (UnblockedPivoted_loop_1x1 1 false 0 _ 2 0);
      cbn [ldl.stA ldl.stdSub ldl.stp];
      [|cbn; lia|apply BunchParlett_order_1; reflexivity].
    cbn [Nat.add ldl.UnblockedPivoted_loop ldl.stA].
    change (Height (ldl.Unblocked1x1 (fst U) 2 2)) with 3%nat.
    cbn [Nat.leb]. reflexivity.
  - rewrite Get_MSet. cbn [Nat.eqb andb]. exact Hd.
  - rewrite Get_MSet. cbn [Nat.eqb andb]. reflexivity.
  - rewrite Hlow by lia. exact H10.
  - rewrite Hlow by lia. exact H11.
Qed.

(** C1.  [ldl::Pivoted] does not factor every non-singular symmetric
    matrix.  (a) With [Blocksize()] equal to 1, on the matrix 0 1 / 1 0
    under Bunch-Kaufman A, the panel completes no column and the blocked
    driver never advances: it does not return, whatever the number of
    iterations.  (b) Under Bunch-Parlett, on the matrix [A_corner], it
    returns factors whose block diagonal [D] is singular and for which
    [L D L^T] differs from [P A P^T]: entry (2,1) is 0 in the first and 2
    in the second.  Both matrices are symmetric and have an inverse. *)
Theorem C1_Pivoted_not_a_factorization :
  ((forall i j, (i < 2)%nat -> (j < 2)%nat ->
      Get A_swap i j = Get A_swap j i) /\
   Inverse A_swap A_swap 2 /\
   forall fuel,
     ldl.Pivoted fuel 1 A_swap false ldl.BUNCH_KAUFMAN_A 0 = OutOfFuel) /\
  ((forall i j, (i < 3)%nat -> (j < 3)%nat ->
      Get A_corner i j = Get A_corner j i) /\
   Inverse A_corner
     (fromRows 3 [[0; 0; 1 / 2]; [0; 1; 0]; [1 / 2; 0; 0]]) 3 /\
   exists st,
     (forall fuel bsize,
        ldl.Pivoted fuel bsize A_corner false ldl.BUNCH_PARLETT 0
        = Return st) /\
     ~ NonSingularD (ldl.stA st) (ldl.stdSub st) 3 /\
     LDLt (ldl.stA st) (ldl.stdSub st) 3 2 1 = 0 /\
     PAPt A_corner (ldl.stp st) 3 2 1 = 2).
Proof.
  split; [split; [|split]|split; [|split]].
  - intros i j Hi Hj. unfold A_swap, fromRows.
    destruct i as [|[|i]]; [| |lia]; destruct j as [|[|j]]; try lia;
      reflexivity.
  - intros i j Hi Hj. unfold A_swap, fromRows.
    destruct i as [|[|i]]; [| |lia]; destruct j as [|[|j]]; try lia;
      cbn; lra.
  - exact Pivoted_Blocksize_1.
  - intros i j Hi Hj. unfold A_corner, fromRows.
    destruct i as [|[|[|i]]]; [| | |lia];
      destruct j as [|[|[|j]]]; try lia; reflexivity.
  - intros i j Hi Hj. unfold A_corner, fromRows.
    destruct i as [|[|[|i]]]; [| | |lia];
      destruct j as [|[|[|j]]]; try lia; cbn; lra.
  - destruct Pivoted_A_corner as (st & Hrun & Hp & Hd0 & Hd1 & H10 & H11).
    exists st. split; [exact Hrun|]. split; [|split].
    + intros Hns. destruct (Hns 1%nat ltac:(lia)) as [H1 _].
      apply H1; [exact Hd1|right; exact Hd0|exact H11].
    + assert (HL0 : Lfactor (ldl.stA st) 1 0 = 0)
        by (unfold Lfactor; cbn [Nat.eqb Nat.ltb Nat.leb]; exact H10).
      assert (HD0 : Dfactor (ldl.stA st) (ldl.stdSub st) 0 1 = 0)
        by (unfold Dfactor; cbn [Nat.eqb Nat.add]; exact Hd0).
      assert (HD1 : Dfactor (ldl.stA st) (ldl.stdSub st) 1 1 = 0)
        by (unfold Dfactor; cbn [Nat.eqb]; exact H11).
      assert (HD2 : Dfactor (ldl.stA st) (ldl.stdSub st) 2 1 = 0)
        by (unfold Dfactor; cbn [Nat.eqb Nat.add]; exact Hd1).
      unfold LDLt. cbn [Rsum]. rewrite HL0, HD0, HD1, HD2.
      replace (Lfactor (ldl.stA st) 1 2) with 0 by reflexivity.
      ring.
    + unfold PAPt. rewrite Hp.
      unfold symGet, transp, A_corner, fromRows. cbn. reflexivity.
Qed.

(** * Further properties of the code *)

(** ** Invertible pivots *)

Lemma MaxMagnitude_nonneg (lo hi : nat) (f : nat -> R) (v : R) :
  MaxMagnitude lo hi f v -> 0 <= v.
Proof.
  intros [_ [[_ ->]|(i & _ & ->)]]; [lra|apply Rabs_pos].
Qed.

Lemma Rabs_sqr (x : R) : Rabs x * Rabs x = x * x.
Proof.
  unfold Rabs. destruct (Rcase_abs x); ring.
Qed.

Lemma small_product_det (a b c : R) :
  Rabs a * Rabs b < Rabs c * Rabs c -> a * b - c * c <> 0.
Proof.
  intros H Hz. rewrite <- Rabs_mult in H. rewrite Rabs_sqr in H.
  replace (a * b) with (c * c) in H by lra.
  rewrite Rabs_right in H; [lra|]. nra.
Qed.

(** Whatever a Bunch-Kaufman rule returns with a threshold in (0,1) is an
    invertible block. *)
Lemma BKOutcome_invertible (third : bool) (lo : nat -> nat) (g : R)
  (E : nat -> nat -> R) (n k : nat) (pv : LDLPivot) :
  0 < g < 1 ->
  (third = false -> forall r, lo r = r) ->
  BKOutcome third lo g E n k (Return pv) ->
  PivotInvertible E pv.
Proof.
  intros Hg Hlo H. inversion H; subst; cbn [PivotInvertible].
  - (* first test *)
    match goal with HC : ColumnMax _ _ _ ?om |- _ =>
      pose proof (MaxMagnitude_nonneg _ _ _ _ HC) as Hom end.
    intros Hz. rewrite Hz, Rabs_R0 in *.
    match goal with HN : ~ (_ /\ _) |- _ => apply HN end.
    split; [reflexivity|]. nra.
  - (* second test *)
    intros Hz. rewrite Hz, Rabs_R0 in *. nra.
  - (* third test *)
    intros Hz. rewrite Hz, Rabs_R0 in *. nra.
  - (* 2x2 *)
    match goal with HF : FirstAttains _ _ _ ?r ?om |- _ =>
      destruct HF as (Hr & Hrk & _) end.
    match goal with HR : RowMax _ _ _ _ _ ?rho |- _ =>
      rename HR into HRow end.
    assert (Hrr : Rabs (E r r) <= rho).
    { destruct third eqn:Et.
      - match goal with HT : true = true -> _ |- _ =>
          specialize (HT eq_refl) end. nra.
      - rewrite (Hlo eq_refl) in HRow.
        destruct HRow as (v1 & v2 & _ & [Hv2 _] & ->).
        eapply Rle_trans; [apply (Hv2 r); lia|apply Rmax_r]. }
    pose proof (Rabs_pos (E k k)) as Ha. pose proof (Rabs_pos (E r r)) as Hb.
    split.
    + intros Hz. rewrite Hz, Rabs_R0 in Hrk. lra.
    + apply small_product_det. rewrite Hrk. nra.
Qed.

Lemma effective_gamma (dflt gamma : R) :
  0 < dflt < 1 -> gamma = 0 \/ 0 < gamma < 1 ->
  0 < ldl.pivot.defaultGamma dflt gamma < 1.
Proof.
  intros Hd [->|Hg].
  - rewrite defaultGamma_0. exact Hd.
  - rewrite defaultGamma_nonzero by lra. exact Hg.
Qed.

Lemma gammaD_bounds : 0 < ldl.pivot.gammaD < 1.
Proof. unfold ldl.pivot.gammaD. lra. Qed.

Lemma ChoosePivot_PivotInvertible (A : Matrix)
  (pivotType : ldl.LDLPivotType) (gamma : R) (pv : LDLPivot) :
  gamma = 0 \/ 0 < gamma < 1 ->
  (1 <= Height A)%nat -> pivotType <> ldl.BUNCH_PARLETT ->
  ldl.ChoosePivot A pivotType gamma = Return pv ->
  PivotInvertible (Get A) pv.
Proof.
  intros Hg Hn Hp Hc.
  assert (HA : 0 < ldl.pivot.defaultGamma ldl.pivot.gammaA gamma < 1).
  { apply effective_gamma; [|exact Hg]. pose proof gammaA_bounds. lra. }
  assert (HD : 0 < ldl.pivot.defaultGamma ldl.pivot.gammaD gamma < 1).
  { apply effective_gamma; [|exact Hg]. apply gammaD_bounds. }
  destruct pivotType; cbn [ldl.ChoosePivot] in Hc;
    try discriminate Hc; try (exfalso; apply Hp; reflexivity).
  - eapply (BKOutcome_invertible true); [exact HA|discriminate|].
    rewrite <- Hc. apply BunchKaufmanA_outcome. exact Hn.
  - eapply (BKOutcome_invertible true); [exact HA|discriminate|].
    rewrite <- Hc. apply BunchKaufmanA_outcome. exact Hn.
  - eapply (BKOutcome_invertible false); [exact HD|reflexivity|].
    rewrite <- Hc. apply BunchKaufmanD_outcome. exact Hn.
Qed.

Lemma ChoosePanelPivot_PivotInvertible (A X Y : Matrix) (k : nat)
  (pivotType : ldl.LDLPivotType) (gamma : R) (pv : LDLPivot) :
  gamma = 0 \/ 0 < gamma < 1 ->
  (k < Height A)%nat ->
  ldl.ChoosePanelPivot A X Y k pivotType gamma = Return pv ->
  PivotInvertible (corrected A X Y k) pv.
Proof.
  intros Hg Hk Hc.
  assert (HA : 0 < ldl.pivot.defaultGamma ldl.pivot.gammaA gamma < 1).
  { apply effective_gamma; [|exact Hg]. pose proof gammaA_bounds. lra. }
  assert (HD : 0 < ldl.pivot.defaultGamma ldl.pivot.gammaD gamma < 1).
  { apply effective_gamma; [|exact Hg]. apply gammaD_bounds. }
  destruct pivotType; cbn [ldl.ChoosePanelPivot] in Hc;
    try discriminate Hc.
  - eapply (BKOutcome_invertible true); [exact HA|discriminate|].
    rewrite <- Hc. apply PanelBunchKaufmanA_outcome. exact Hk.
  - eapply (BKOutcome_invertible true); [exact HA|discriminate|].
    rewrite <- Hc. apply PanelBunchKaufmanA_outcome. exact Hk.
  - eapply (BKOutcome_invertible false); [exact HD|reflexivity|].
    rewrite <- Hc. apply PanelBunchKaufmanD_outcome. exact Hk.
Qed.

(** A 2x2 pivot of a panel rule has the current column as its first
    index. *)
Lemma ChoosePanelPivot_first (A X Y : Matrix) (k : nat)
  (pivotType : ldl.LDLPivotType) (gamma : R) (f0 f1 : nat) :
  (k < Height A)%nat ->
  ldl.ChoosePanelPivot A X Y k pivotType gamma = Return (Pivot2x2 f0 f1) ->
  f0 = k.
Proof.
  intros Hk Hc.
  destruct pivotType; cbn [ldl.ChoosePanelPivot] in Hc;
    try discriminate Hc.
  - pose proof (PanelBunchKaufmanA_outcome A X Y k gamma Hk) as H.
    rewrite Hc in H. inversion H; reflexivity.
  - pose proof (PanelBunchKaufmanA_outcome A X Y k gamma Hk) as H.
    rewrite Hc in H. inversion H; reflexivity.
  - pose proof (PanelBunchKaufmanD_outcome A X Y k gamma Hk) as H.
    rewrite Hc in H. inversion H; reflexivity.
Qed.

(** X1.  Whenever one of the four Bunch-Kaufman rules returns a pivot, with
    the default threshold ([gamma = 0]) or one in (0,1), the block it
    selects is invertible: a 1x1 pivot is a nonzero diagonal entry, a 2x2
    pivot has a nonzero off-diagonal entry and a nonzero determinant.  The
    panel rules select it in the lazily corrected matrix. *)
Theorem BunchKaufman_pivot_invertible (A X Y : Matrix) (k : nat)
  (pivotType : ldl.LDLPivotType) (gamma : R) (pv : LDLPivot) :
  gamma = 0 \/ 0 < gamma < 1 ->
  ((1 <= Height A)%nat -> pivotType <> ldl.BUNCH_PARLETT ->
   ldl.ChoosePivot A pivotType gamma = Return pv ->
   PivotInvertible (Get A) pv) /\
  ((k < Height A)%nat ->
   ldl.ChoosePanelPivot A X Y k pivotType gamma = Return pv ->
   PivotInvertible (corrected A X Y k) pv).
Proof.
  intros Hg. split.
  - apply ChoosePivot_PivotInvertible. exact Hg.
  - apply ChoosePanelPivot_PivotInvertible. exact Hg.
Qed.

Lemma BunchKaufman_pivot_invertible_witness :
  (0 = 0 \/ 0 < 0 < 1) /\
  PivotInvertible (Get A_five) (Pivot1x1 0) /\
  PivotInvertible (corrected (ViewRange A_swap 0 0 2 2) (Zeros 2 1)
                     (Zeros 2 1) 0) (Pivot2x2 0 1).
Proof.
  assert (Hg : 0 = 0 \/ 0 < 0 < 1) by (left; reflexivity).
  split; [exact Hg|]. split.
  - apply (proj1 (BunchKaufman_pivot_invertible A_five A_five A_five 0
                    ldl.BUNCH_KAUFMAN_A 0 (Pivot1x1 0) Hg)).
    + cbn. lia.
    + discriminate.
    + exact BunchKaufmanA_A_five.
  - apply (proj2 (BunchKaufman_pivot_invertible
                    (ViewRange A_swap 0 0 2 2) (Zeros 2 1) (Zeros 2 1) 0
                    ldl.BUNCH_KAUFMAN_A 0 (Pivot2x2 0 1) Hg)).
    + cbn. lia.
    + exact ChoosePanelPivot_A_swap.
Defined.

(** ** Unsupported pivot types and the empty matrix *)

(** X2.  The pivot types without an implementation, and the empty matrix.  An
    empty matrix is returned at once, with an empty [dSub] and [p],
    whatever the pivot type.  On a matrix that is not empty,
    [BUNCH_KAUFMAN_C] ends in the logic error of the panel (the block size
    being positive), [BUNCH_KAUFMAN_BOUNDED] in the logic error of
    [ChoosePivot], and a panel asked for [BUNCH_PARLETT] or
    [BUNCH_KAUFMAN_BOUNDED] in that of [ChoosePanelPivot]. *)
Theorem Pivoted_unsupported_or_empty :
  (forall fuel bsize A conjugate pivotType gamma,
     Height A = 0%nat ->
     ldl.Pivoted fuel bsize A conjugate pivotType gamma
     = Return (ldl.mkLDLState A (Zeros 0 1) [])) /\
  (forall fuel bsize A conjugate gamma,
     (1 <= Height A)%nat -> (1 <= bsize)%nat ->
     ldl.Pivoted (S fuel) bsize A conjugate ldl.BUNCH_KAUFMAN_C gamma
     = Throw (LogicError "Have not yet generalized pivot storage")) /\
  (forall fuel bsize A conjugate gamma,
     (1 <= Height A)%nat ->
     ldl.Pivoted fuel bsize A conjugate ldl.BUNCH_KAUFMAN_BOUNDED gamma
     = Throw (LogicError "This pivot type not yet supported")) /\
  (forall A dSub p X Y bsize off conjugate pivotType gamma,
     pivotType = ldl.BUNCH_PARLETT \/
     pivotType = ldl.BUNCH_KAUFMAN_BOUNDED ->
     (1 <= Height A)%nat -> (1 <= bsize)%nat ->
     ldl.PanelPivoted A dSub p X Y bsize off conjugate pivotType gamma
     = Throw (LogicError "This pivot type not yet supported")).
Proof.
  split; [|split; [|split]].
  - intros fuel bsize A conjugate pivotType gamma Hn.
    destruct pivotType; cbn [ldl.Pivoted];
      unfold ldl.BlockedPivoted, ldl.UnblockedPivoted;
      rewrite Hn; reflexivity.
  - intros fuel bsize A conjugate gamma Hn Hb.
    cbn [ldl.Pivoted]. unfold ldl.BlockedPivoted.
    destruct (Nat.eqb_spec (Height A) 0) as [Hz|_]; [lia|].
    cbn [ldl.BlockedPivoted_loop ldl.pnA ldl.pndSub ldl.pnp ldl.pnX ldl.pnY].
    destruct (Nat.leb_spec (Height A) 0) as [Hz|_]; [lia|].
    unfold ldl.PanelPivoted.
    destruct (Nat.eqb_spec (Height A) 0) as [Hz|_]; [lia|].
    destruct (Nat.min bsize (Height A - 0)) as [|m] eqn:Em; [lia|].
    cbn [ldl.PanelPivoted_loop Nat.leb ldl.is_BUNCH_KAUFMAN_C bind].
    reflexivity.
  - intros fuel bsize A conjugate gamma Hn.
    cbn [ldl.Pivoted]. unfold ldl.UnblockedPivoted.
    destruct (Nat.eqb_spec (Height A) 0) as [Hz|_]; [lia|].
    destruct (Height A) as [|n] eqn:En; [lia|].
    cbn [ldl.UnblockedPivoted_loop ldl.stA]. rewrite En.
    cbn [Nat.leb ldl.is_BUNCH_KAUFMAN_C ldl.ChoosePivot bind]. reflexivity.
  - intros A dSub p X Y bsize off conjugate pivotType gamma Hp Hn Hb.
    unfold ldl.PanelPivoted.
    destruct (Nat.eqb_spec (Height A) 0) as [Hz|_]; [lia|].
    destruct bsize as [|b]; [lia|].
    cbn [ldl.PanelPivoted_loop Nat.leb].
    destruct Hp as [-> | ->];
      cbn [ldl.is_BUNCH_KAUFMAN_C ldl.ChoosePanelPivot bind]; reflexivity.
Qed.

Lemma Pivoted_unsupported_or_empty_witness :
  ldl.Pivoted 0 1 (Zeros 0 0) false ldl.BUNCH_KAUFMAN_C 0
    = Return (ldl.mkLDLState (Zeros 0 0) (Zeros 0 1) []) /\
  ldl.Pivoted 1 1 A_five false ldl.BUNCH_KAUFMAN_C 0
    = Throw (LogicError "Have not yet generalized pivot storage") /\
  ldl.Pivoted 0 1 A_five false ldl.BUNCH_KAUFMAN_BOUNDED 0
    = Throw (LogicError "This pivot type not yet supported") /\
  ldl.PanelPivoted A_five (Zeros 0 1) [0%nat] (Zeros 0 0) (Zeros 0 0) 1 0
    false ldl.BUNCH_PARLETT 0
    = Throw (LogicError "This pivot type not yet supported").
Proof.
  destruct Pivoted_unsupported_or_empty as (H0 & HC & HB & HP).
  split; [apply H0; reflexivity|].
  split; [apply HC; cbn; lia|].
  split; [apply HB; cbn; lia|].
  apply HP; [left; reflexivity|cbn; lia|lia].
Defined.

(** ** The entries the rules read *)

Lemma bkDecide_omega_0 (third : bool) (g alpha rho arr rho' arr' : R)
  (i0 r r' : nat) :
  0 <= alpha ->
  bkDecide third g alpha 0 rho arr i0 r
  = bkDecide third g alpha 0 rho' arr' i0 r'.
Proof.
  intros Ha. unfold bkDecide.
  rewrite (proj2 (Reqb_true 0 0)) by reflexivity. cbn [andb].
  destruct (Reqb alpha 0); [reflexivity|].
  rewrite (proj2 (Rgeb_true alpha (g * 0))) by lra. reflexivity.
Qed.

Lemma bkRule_ext (third : bool) (dlo : nat) (g : R)
  (E E' : nat -> nat -> R) (n k : nat) :
  (k < n)%nat -> LowerAgree E E' n k ->
  bkRule third dlo g E n k = bkRule third dlo g E' n k.
Proof.
  intros Hk HE. unfold bkRule.
  assert (Hcol : colScan E n k = colScan E' n k).
  { unfold colScan. apply VectorMax_scan_ext. intros i Hi. apply HE; lia. }
  rewrite <- Hcol. rewrite <- (HE k k) by lia.
  destruct (Nat.eq_dec (n - k - 1) 0) as [Hz|Hnz].
  - assert (Hv : value (colScan E n k) = 0).
    { unfold colScan. rewrite Hz. reflexivity. }
    rewrite Hv. apply bkDecide_omega_0. apply Rabs_pos.
  - set (r := (index (colScan E n k) + (k + 1))%nat).
    assert (Hr : (k + 1 <= r < n)%nat).
    { unfold r, colScan.
      destruct (VectorMax_scan_spec (fun i => E (k + 1 + i)%nat k)
                  (n - k - 1)) as (_ & _ & _ & Hat).
      destruct (Hat ltac:(lia)) as [Hi _]. lia. }
    assert (Hleft : leftScan E k r = leftScan E' k r).
    { unfold leftScan. apply VectorMax_scan_ext. intros j Hj.
      apply HE; lia. }
    assert (Hbelow : belowScan E n r (r + dlo) = belowScan E' n r (r + dlo)).
    { unfold belowScan. apply VectorMax_scan_ext. intros i Hi.
      apply HE; lia. }
    rewrite Hleft, Hbelow, (HE r r) by lia. reflexivity.
Qed.

Lemma BunchKaufmanA_bkRule (A : Matrix) (gamma : R) :
  ldl.pivot.BunchKaufmanA A gamma
  = bkRule true 1 (ldl.pivot.defaultGamma ldl.pivot.gammaA gamma)
      (Get A) (Height A) 0.
Proof. rewrite BunchKaufmanA_bkDecide. reflexivity. Qed.

Lemma BunchKaufmanD_bkRule (A : Matrix) (gamma : R) :
  ldl.pivot.BunchKaufmanD A gamma
  = bkRule false 0 (ldl.pivot.defaultGamma ldl.pivot.gammaD gamma)
      (Get A) (Height A) 0.
Proof.
  rewrite BunchKaufmanD_bkDecide. unfold bkRule. cbv zeta.
  rewrite Nat.add_0_r. reflexivity.
Qed.

Lemma PanelBunchKaufmanA_bkRule (A X Y : Matrix) (k : nat) (gamma : R) :
  ldl.pivot.PanelBunchKaufmanA A X Y k gamma
  = bkRule true 1 (ldl.pivot.defaultGamma ldl.pivot.gammaA gamma)
      (corrected A X Y k) (Height A) k.
Proof. rewrite PanelBunchKaufmanA_bkDecide. reflexivity. Qed.

Lemma PanelBunchKaufmanD_bkRule (A X Y : Matrix) (k : nat) (gamma : R) :
  ldl.pivot.PanelBunchKaufmanD A X Y k gamma
  = bkRule false 0 (ldl.pivot.defaultGamma ldl.pivot.gammaD gamma)
      (corrected A X Y k) (Height A) k.
Proof.
  rewrite PanelBunchKaufmanD_bkDecide. unfold bkRule. cbv zeta.
  rewrite Nat.add_0_r. reflexivity.
Qed.

Lemma ChoosePivot_LowerAgree (A A' : Matrix)
  (pivotType : ldl.LDLPivotType) (gamma : R) :
  Height A = Height A' ->
  (1 <= Height A)%nat -> pivotType <> ldl.BUNCH_PARLETT ->
  LowerAgree (Get A) (Get A') (Height A) 0 ->
  ldl.ChoosePivot A pivotType gamma = ldl.ChoosePivot A' pivotType gamma.
Proof.
  intros Hh Hn Hp HE.
  destruct pivotType; cbn [ldl.ChoosePivot]; try reflexivity;
    try (exfalso; apply Hp; reflexivity).
  - rewrite !BunchKaufmanA_bkRule, <- Hh. apply bkRule_ext; [lia|exact HE].
  - rewrite !BunchKaufmanA_bkRule, <- Hh. apply bkRule_ext; [lia|exact HE].
  - rewrite !BunchKaufmanD_bkRule, <- Hh. apply bkRule_ext; [lia|exact HE].
Qed.

Lemma ChoosePanelPivot_LowerAgree (A A' X Y X' Y' : Matrix)
  (k : nat) (pivotType : ldl.LDLPivotType) (gamma : R) :
  Height A = Height A' ->
  (k < Height A)%nat ->
  LowerAgree (corrected A X Y k) (corrected A' X' Y' k) (Height A) k ->
  ldl.ChoosePanelPivot A X Y k pivotType gamma
  = ldl.ChoosePanelPivot A' X' Y' k pivotType gamma.
Proof.
  intros Hh Hk HE.
  destruct pivotType; cbn [ldl.ChoosePanelPivot]; try reflexivity.
  - rewrite !PanelBunchKaufmanA_bkRule, <- Hh.
    apply bkRule_ext; [exact Hk|exact HE].
  - rewrite !PanelBunchKaufmanA_bkRule, <- Hh.
    apply bkRule_ext; [exact Hk|exact HE].
  - rewrite !PanelBunchKaufmanD_bkRule, <- Hh.
    apply bkRule_ext; [exact Hk|exact HE].
Qed.

(** X3.  The Bunch-Kaufman rules read the active block in its lower triangle
    only: on two inputs of the same order whose (lazily corrected) entries
    agree on and below the diagonal from column [k] on, [ChoosePivot] and
    [ChoosePanelPivot] give the same answer, exception included. *)
Theorem BunchKaufman_reads_lower_triangle (A A' X Y X' Y' : Matrix)
  (k : nat) (pivotType : ldl.LDLPivotType) (gamma : R) :
  Height A = Height A' ->
  ((1 <= Height A)%nat -> pivotType <> ldl.BUNCH_PARLETT ->
   LowerAgree (Get A) (Get A') (Height A) 0 ->
   ldl.ChoosePivot A pivotType gamma = ldl.ChoosePivot A' pivotType gamma) /\
  ((k < Height A)%nat ->
   LowerAgree (corrected A X Y k) (corrected A' X' Y' k) (Height A) k ->
   ldl.ChoosePanelPivot A X Y k pivotType gamma
   = ldl.ChoosePanelPivot A' X' Y' k pivotType gamma).
Proof.
  intros Hh. split.
  - apply ChoosePivot_LowerAgree. exact Hh.
  - apply ChoosePanelPivot_LowerAgree. exact Hh.
Qed.

(** At column 0 of a panel nothing has been accumulated: the panel rules
    decide as the plain rules do on the same block, whatever the update
    factors hold. *)
Lemma ChoosePanelPivot_0 (A X Y : Matrix) (pivotType : ldl.LDLPivotType)
  (gamma : R) :
  (1 <= Height A)%nat -> pivotType <> ldl.BUNCH_PARLETT ->
  ldl.ChoosePanelPivot A X Y 0 pivotType gamma
  = ldl.ChoosePivot A pivotType gamma.
Proof.
  intros Hn Hp.
  assert (HE : LowerAgree (corrected A X Y 0) (Get A) (Height A) 0)
    by (intros i j _ _ _; apply corrected_0).
  destruct pivotType; cbn [ldl.ChoosePanelPivot ldl.ChoosePivot];
    try reflexivity; try (exfalso; apply Hp; reflexivity).
  - rewrite PanelBunchKaufmanA_bkRule, BunchKaufmanA_bkRule.
    apply bkRule_ext; [lia|exact HE].
  - rewrite PanelBunchKaufmanA_bkRule, BunchKaufmanA_bkRule.
    apply bkRule_ext; [lia|exact HE].
  - rewrite PanelBunchKaufmanD_bkRule, BunchKaufmanD_bkRule.
    apply bkRule_ext; [lia|exact HE].
Qed.

Lemma LowerAgree_A_swap :
  LowerAgree (Get A_swap) (Get (fromRows 2 [[0; 7]; [1; 0]])) 2 0.
Proof.
  intros i j _ Hji Hi.
  destruct i as [|[|i]]; [| |lia]; destruct j as [|[|j]]; try lia;
    reflexivity.
Qed.

Lemma BunchKaufman_reads_lower_triangle_witness :
  ldl.ChoosePivot A_swap ldl.BUNCH_KAUFMAN_A 0
  = ldl.ChoosePivot (fromRows 2 [[0; 7]; [1; 0]]) ldl.BUNCH_KAUFMAN_A 0 /\
  ldl.ChoosePanelPivot A_swap (Zeros 2 1) (Zeros 2 1) 0
    ldl.BUNCH_KAUFMAN_D 0
  = ldl.ChoosePanelPivot (fromRows 2 [[0; 7]; [1; 0]]) (Zeros 2 2)
      (Zeros 2 2) 0 ldl.BUNCH_KAUFMAN_D 0.
Proof.
  pose proof (BunchKaufman_reads_lower_triangle A_swap
                (fromRows 2 [[0; 7]; [1; 0]]) (Zeros 2 1) (Zeros 2 1)
                (Zeros 2 2) (Zeros 2 2) 0 ldl.BUNCH_KAUFMAN_A 0 eq_refl)
    as [H1 _].
  pose proof (BunchKaufman_reads_lower_triangle A_swap
                (fromRows 2 [[0; 7]; [1; 0]]) (Zeros 2 1) (Zeros 2 1)
                (Zeros 2 2) (Zeros 2 2) 0 ldl.BUNCH_KAUFMAN_D 0 eq_refl)
    as [_ H2].
  split.
  - apply H1; [cbn; lia|discriminate|exact LowerAgree_A_swap].
  - apply H2; [cbn; lia|].
    intros i j Hj Hji Hi. rewrite !corrected_0.
    apply LowerAgree_A_swap; assumption.
Defined.

Lemma TrailingUpdate_0 (A X Y : Matrix) (k : nat) :
  ldl.TrailingUpdate A X Y k 0 = A.
Proof. apply TrailingUpdate_nothing. Qed.

(** X4.  With a block size of 1 the blocked driver makes no progress on a
    matrix whose first pivot is a 2x2 block: the panel returns with no
    column, the trailing update is empty and the same panel is opened
    again, whatever the number of iterations allowed. *)
Theorem BlockedPivoted_Blocksize_1_no_progress (A : Matrix)
  (conjugate : bool) (pivotType : ldl.LDLPivotType) (gamma : R)
  (f0 f1 : nat) :
  pivotType = ldl.BUNCH_KAUFMAN_A \/ pivotType = ldl.BUNCH_KAUFMAN_D ->
  ldl.ChoosePivot A pivotType gamma = Return (Pivot2x2 f0 f1) ->
  (1 <= Height A)%nat ->
  forall fuel,
    ldl.Pivoted fuel 1 A conjugate pivotType gamma = OutOfFuel.
Proof.
  intros Hp Hpv Hn fuel.
  assert (Hloop : forall st : ldl.PanelState,
            ldl.pnA st = A ->
            ldl.BlockedPivoted_loop fuel 1 conjugate pivotType gamma st 0
            = OutOfFuel).
  { induction fuel as [|fuel IH]; intros st HA;
      cbn [ldl.BlockedPivoted_loop]; rewrite HA;
      destruct (Nat.leb_spec (Height A) 0) as [Hz|_]; try lia;
      [reflexivity|].
    assert (Hmin : Nat.min 1 (Height A - 0) = 1%nat) by lia.
    rewrite Hmin. unfold ldl.PanelPivoted.
    destruct (Nat.eqb_spec (Height A) 0) as [Hz|_]; [lia|].
    cbn [ldl.PanelPivoted_loop ldl.pnA ldl.pndSub ldl.pnp ldl.pnX ldl.pnY
         Nat.leb].
    replace (ldl.is_BUNCH_KAUFMAN_C pivotType) with false
      by (destruct Hp as [-> | ->]; reflexivity).
    assert (Hpanel :
      ldl.ChoosePanelPivot (ViewRange A 0 0 (Height A) (Height A))
        (Zeros (Height A - 0) 1) (Zeros (Height A - 0) 1) 0 pivotType gamma
      = Return (Pivot2x2 f0 f1)).
    { rewrite ChoosePanelPivot_0;
        [|cbn [Height ViewRange LockedViewRange]; lia
         |destruct Hp as [-> | ->]; discriminate].
      rewrite <- Hpv.
      apply ChoosePivot_LowerAgree.
      - cbn [Height ViewRange LockedViewRange]. lia.
      - cbn [Height ViewRange LockedViewRange]. lia.
      - destruct Hp as [-> | ->]; discriminate.
      - intros i j _ _ _. reflexivity. }
    rewrite Hpanel.
    cbn [bind nb Nat.add Nat.ltb Nat.leb
         ldl.pnA ldl.pndSub ldl.pnp ldl.pnX ldl.pnY Width ResizeTo Nat.sub].
    apply IH. cbn [ldl.pnA]. apply TrailingUpdate_0. }
  destruct Hp as [-> | ->]; cbn [ldl.Pivoted]; unfold ldl.BlockedPivoted;
    (destruct (Nat.eqb_spec (Height A) 0) as [Hz|_]; [lia|]);
    rewrite Hloop by reflexivity; reflexivity.
Qed.

Lemma ChoosePivot_A_swap :
  ldl.ChoosePivot A_swap ldl.BUNCH_KAUFMAN_A 0 = Return (Pivot2x2 0 1).
Proof.
  rewrite <- (ChoosePanelPivot_0 A_swap (Zeros 2 1) (Zeros 2 1))
    by (cbn; try lia; discriminate).
  rewrite <- ChoosePanelPivot_A_swap.
  apply ChoosePanelPivot_LowerAgree.
  - reflexivity.
  - cbn. lia.
  - intros i j _ _ _. reflexivity.
Qed.

Lemma BlockedPivoted_Blocksize_1_no_progress_witness :
  (ldl.BUNCH_KAUFMAN_A = ldl.BUNCH_KAUFMAN_A \/
   ldl.BUNCH_KAUFMAN_A = ldl.BUNCH_KAUFMAN_D) /\
  (1 <= Height A_swap)%nat /\
  ldl.Pivoted 5 1 A_swap true ldl.BUNCH_KAUFMAN_A 0 = OutOfFuel.
Proof.
  split; [left; reflexivity|]. split; [cbn; lia|].
  apply (BlockedPivoted_Blocksize_1_no_progress A_swap true
           ldl.BUNCH_KAUFMAN_A 0 0 1);
    [left; reflexivity|exact ChoosePivot_A_swap|cbn; lia].
Defined.

(** ** What the drivers leave untouched *)

Lemma KeepsAbove_refl (k : nat) (A : Matrix) : KeepsAbove k A A.
Proof. intros i j _. reflexivity. Qed.

Lemma KeepsAbove_trans (k k' : nat) (A B C : Matrix) :
  (k <= k')%nat -> KeepsAbove k A B -> KeepsAbove k' B C -> KeepsAbove k A C.
Proof.
  intros Hk HAB HBC i j Hij. rewrite HBC by lia. apply HAB. exact Hij.
Qed.

Lemma Get_SymmetricSwap_above (k x y : nat) (A : Matrix) (i j : nat) :
  (k <= x)%nat -> (k <= y)%nat -> (i < j)%nat \/ (i < k)%nat ->
  Get (SymmetricSwap A x y) i j = Get A i j.
Proof.
  intros Hx Hy Hij. unfold SymmetricSwap. cbn [Get].
  destruct (Nat.leb_spec j i) as [Hji|Hji]; [|reflexivity].
  rewrite !transp_fix by lia. unfold symGet.
  destruct (Nat.leb_spec j i); [reflexivity|lia].
Qed.

Lemma KeepsAbove_Unblocked1x1 (k from : nat) (A : Matrix) :
  (k <= from)%nat -> KeepsAbove k A (ldl.Unblocked1x1 A k from).
Proof.
  intros Hf i j Hij. rewrite Get_Unblocked1x1. cbv zeta.
  destruct (Nat.eqb_spec j k) as [->|Hjk]; cbn [andb].
  - destruct (Nat.ltb_spec k i); [lia|]. cbn [andb].
    destruct (Nat.ltb_spec k k); [lia|]. cbn [andb].
    apply (Get_SymmetricSwap_above k); [lia|exact Hf|exact Hij].
  - destruct (Nat.ltb_spec k j); cbn [andb];
      [destruct (Nat.leb_spec j i); [lia|]; cbn [andb]|];
      apply (Get_SymmetricSwap_above k); (lia || exact Hij).
Qed.

Lemma KeepsAbove_Unblocked2x2 (k from0 from1 : nat) (A : Matrix) :
  (k + 1 < Height A)%nat -> (k <= from0)%nat -> (k <= from1)%nat ->
  KeepsAbove k A (fst (ldl.Unblocked2x2 A k from0 from1)).
Proof.
  intros Hk Hf0 Hf1 i j Hij. rewrite Get_Unblocked2x2 by exact Hk.
  cbv zeta.
  assert (Hsw : Get (SymmetricSwap (SymmetricSwap A k from0) (k + 1) from1)
                  i j = Get A i j).
  { rewrite (Get_SymmetricSwap_above k (k + 1) from1)
      by (lia || exact Hij).
    apply (Get_SymmetricSwap_above k); (lia || exact Hij). }
  destruct (Nat.eqb_spec i (k + 1)); destruct (Nat.eqb_spec j k);
    cbn [andb]; try lia;
    destruct (Nat.leb_spec (k + 2) i); destruct (Nat.ltb_spec i (Height A));
    cbn [andb]; try lia;
    destruct (Nat.eqb_spec j (k + 1)); cbn [andb]; try lia;
    destruct (Nat.leb_spec (k + 2) j); destruct (Nat.leb_spec j i);
    cbn [andb]; try lia; exact Hsw.
Qed.

Lemma KeepsAbove_Panel1x1 (conjugate : bool) (off k : nat) (A X Y : Matrix) :
  (off + k < Height A)%nat ->
  KeepsAbove (off + k) A (fst (fst (ldl.Panel1x1 conjugate off k A X Y))).
Proof.
  intros Hk i j Hij.
  pose proof (Get_Panel1x1 conjugate A X Y off k) as HG. cbv zeta in HG.
  specialize (HG Hk).
  destruct (ldl.Panel1x1 conjugate off k A X Y) as [[A2 X2] Y2].
  destruct HG as (HA2 & _). cbn [fst]. rewrite HA2.
  destruct (Nat.eqb_spec j (off + k)); destruct (Nat.ltb_spec (off + k) i);
    cbn [andb]; try lia;
    destruct (Nat.eqb_spec i (off + k)); cbn [andb]; try lia; reflexivity.
Qed.

Lemma KeepsAbove_Panel2x2 (conjugate : bool) (off k : nat) (A X Y : Matrix) :
  (off + k + 1 < Height A)%nat ->
  KeepsAbove (off + k) A
    (fst (fst (fst (ldl.Panel2x2 conjugate off k A X Y)))).
Proof.
  intros Hk i j Hij.
  pose proof (Get_Panel2x2 conjugate A X Y off k) as HG. cbv zeta in HG.
  specialize (HG Hk).
  destruct (ldl.Panel2x2 conjugate off k A X Y) as [[[A2 X2] Y2] d].
  destruct HG as (HA2 & _). cbn [fst]. rewrite HA2.
  destruct (Nat.eqb_spec i (off + k + 1)); destruct (Nat.eqb_spec j (off + k));
    cbn [andb]; try lia;
    destruct (Nat.leb_spec (off + k + 2) i); cbn [andb]; try lia;
    destruct (Nat.eqb_spec i (off + k)); cbn [andb]; try lia;
    destruct (Nat.eqb_spec j (off + k + 1)); cbn [andb]; try lia;
    rewrite ?andb_false_r; try reflexivity.
Qed.

Lemma KeepsAbove_TrailingUpdate (A X Y : Matrix) (k nb : nat) :
  KeepsAbove (k + nb) A (ldl.TrailingUpdate A X Y k nb).
Proof.
  intros i j Hij. rewrite Get_TrailingUpdate.
  destruct (Nat.leb_spec (k + nb) j); destruct (Nat.leb_spec j i);
    cbn [andb]; try lia; reflexivity.
Qed.

(** The unblocked loop from position [k]: the upper triangle and the rows
    before [k] stay, and the entry under the diagonal of a 2x2 block,
    which went to [dSub], is left as zero. *)
Lemma UnblockedPivoted_loop_shape (conjugate : bool)
  (pivotType : ldl.LDLPivotType) (gamma : R) (n : nat) (fuel : nat) :
  forall (st st' : ldl.LDLState) (k : nat),
    Height (ldl.stA st) = n -> (k <= n)%nat ->
    List.length (ldl.stp st) = n ->
    dSubClear (ldl.stdSub st) k ->
    ldl.UnblockedPivoted_loop fuel conjugate pivotType gamma st k
      = Return st' ->
    KeepsAbove k (ldl.stA st) (ldl.stA st') /\
    (forall a, (k <= a)%nat -> Get (ldl.stdSub st') a 0 <> 0 ->
               Get (ldl.stA st') (a + 1) a = 0).
Proof.
  induction fuel as [|fuel IH]; intros st st' k Hn Hk Hlen Hclear Hrun;
    cbn [ldl.UnblockedPivoted_loop] in Hrun; rewrite Hn in Hrun.
  - destruct (Nat.leb_spec n k) as [Hle|Hlt]; [|discriminate Hrun].
    injection Hrun as <-. split; [apply KeepsAbove_refl|].
    intros a Ha Hnz. exfalso. apply Hnz. apply Hclear. lia.
  - destruct (Nat.leb_spec n k) as [Hle|Hlt].
    { injection Hrun as <-. split; [apply KeepsAbove_refl|].
      intros a Ha Hnz. exfalso. apply Hnz. apply Hclear. lia. }
    destruct (ldl.is_BUNCH_KAUFMAN_C pivotType); [discriminate Hrun|].
    destruct (ldl.ChoosePivot _ pivotType gamma) as [pv|e|] eqn:Hpv;
      cbn [bind] in Hrun; try discriminate Hrun.
    apply ChoosePivot_range in Hpv;
      cbn [Height Width ViewRange LockedViewRange]; [|lia|lia].
    cbn [Height ViewRange LockedViewRange] in Hpv.
    destruct st as [A dSub p]. cbn [ldl.stA ldl.stdSub ldl.stp] in *.
    destruct pv as [f|f0 f1].
    + (* 1x1 pivot *)
      set (from := (k + f)%nat) in *.
      assert (Hfrom : (k <= from < n)%nat) by (unfold from; lia).
      assert (Hclear1 : dSubClear dSub (k + 1))
        by (apply (dSubClear_weaken dSub k); [lia|exact Hclear]).
      assert (Hlen1 : List.length (<[k := from]> p) = n)
        by (rewrite length_insert; exact Hlen).
      pose proof Hrun as Hframe.
      apply (UnblockedPivoted_loop_correct conjugate pivotType gamma n)
        in Hframe; cbn [ldl.stA ldl.stdSub ldl.stp];
        [ | exact Hn | lia | exact Hlen1 | exact Hclear1 ].
      destruct Hframe as (_ & _ & (_ & FD & _) & _).
      apply IH in Hrun; cbn [ldl.stA ldl.stdSub ldl.stp];
        [ | exact Hn | lia | exact Hlen1 | exact Hclear1 ].
      cbn [ldl.stA ldl.stdSub ldl.stp] in *.
      destruct Hrun as (HK & HZ). split.
      * apply (KeepsAbove_trans k (k + 1) A (ldl.Unblocked1x1 A k from));
          [lia| |exact HK].
        apply KeepsAbove_Unblocked1x1. lia.
      * intros a Ha Hnz. destruct (Nat.eq_dec a k) as [->|Hne].
        -- exfalso. apply Hnz. rewrite FD by lia. apply Hclear. lia.
        -- apply HZ; [lia|exact Hnz].
    + (* 2x2 pivot *)
      set (from0 := (k + f0)%nat) in *. set (from1 := (k + f1)%nat) in *.
      assert (Hk2 : (k + 1 < n)%nat) by lia.
      assert (HG : Get (fst (ldl.Unblocked2x2 A k from0 from1)) (k + 1) k
                   = 0).
      { rewrite Get_Unblocked2x2 by (rewrite Hn; exact Hk2).
        rewrite !Nat.eqb_refl. reflexivity. }
      pose proof (KeepsAbove_Unblocked2x2 k from0 from1 A) as HK2.
      rewrite Hn in HK2.
      specialize (HK2 Hk2 ltac:(unfold from0; lia) ltac:(unfold from1; lia)).
      assert (HH2 : Height (fst (ldl.Unblocked2x2 A k from0 from1)) = n)
        by exact Hn.
      destruct (ldl.Unblocked2x2 A k from0 from1) as [A2 d]. cbn [fst] in *.
      assert (Hclear2 : dSubClear (MSet dSub k 0 d) (k + 2))
        by (apply dSubClear_MSet; exact Hclear).
      assert (Hlen2 : List.length (<[(k + 1)%nat := from1]> (<[k := from0]> p))
                      = n) by (rewrite !length_insert; exact Hlen).
      pose proof Hrun as Hframe.
      apply (UnblockedPivoted_loop_correct conjugate pivotType gamma n)
        in Hframe; cbn [ldl.stA ldl.stdSub ldl.stp];
        [ | exact HH2 | lia | exact Hlen2 | exact Hclear2 ].
      destruct Hframe as (_ & _ & (_ & FD & _) & _).
      apply IH in Hrun; cbn [ldl.stA ldl.stdSub ldl.stp];
        [ | exact HH2 | lia | exact Hlen2 | exact Hclear2 ].
      cbn [ldl.stA ldl.stdSub ldl.stp] in *.
      destruct Hrun as (HK & HZ). split.
      * apply (KeepsAbove_trans k (k + 2) A A2); [lia|exact HK2|exact HK].
      * intros a Ha Hnz. destruct (Nat.eq_dec a k) as [->|Hne].
        { rewrite HK by lia. exact HG. }
        destruct (Nat.eq_dec a (k + 1)) as [->|Hne1].
        { exfalso. apply Hnz. rewrite FD by lia. rewrite Get_MSet.
          destruct (Nat.eqb_spec (k + 1) k); [lia|]. cbn [andb].
          apply Hclear. lia. }
        apply HZ; [lia|exact Hnz].
Qed.

(** The panel loop from column [k] of the panel at offset [off]. *)
Lemma PanelPivoted_loop_shape (conjugate : bool)
  (pivotType : ldl.LDLPivotType) (gamma : R) (n bsize off : nat)
  (fuel : nat) :
  forall (st st' : ldl.PanelState) (k : nat),
    Height (ldl.pnA st) = n -> (off + bsize <= n)%nat -> (k <= bsize)%nat ->
    List.length (ldl.pnp st) = n ->
    Width (ldl.pnX st) = bsize ->
    dSubClear (ldl.pndSub st) (off + k) ->
    ldl.PanelPivoted_loop fuel bsize off conjugate pivotType gamma st k
      = Return st' ->
    KeepsAbove (off + k) (ldl.pnA st) (ldl.pnA st') /\
    (forall a, (a < off + k)%nat ->
       Get (ldl.pndSub st') a 0 = Get (ldl.pndSub st) a 0) /\
    (forall a, (a < off + k)%nat ->
       nth a (ldl.pnp st') 0%nat = nth a (ldl.pnp st) 0%nat) /\
    (forall a, (off + k <= a)%nat -> Get (ldl.pndSub st') a 0 <> 0 ->
               Get (ldl.pnA st') (a + 1) a = 0) /\
    (forall a, (off + k <= a < off + Width (ldl.pnX st'))%nat ->
       (a <= nth a (ldl.pnp st') 0)%nat).
Proof.
  assert (Hstop : forall (A dSub : Matrix) (p : list nat) (X' : Matrix)
                         (k : nat),
            (Width X' <= k)%nat -> dSubClear dSub (off + k) ->
            KeepsAbove (off + k) A A /\
            (forall a, (a < off + k)%nat -> Get dSub a 0 = Get dSub a 0) /\
            (forall a, (a < off + k)%nat -> nth a p 0%nat = nth a p 0%nat) /\
            (forall a, (off + k <= a)%nat -> Get dSub a 0 <> 0 ->
                       Get A (a + 1) a = 0) /\
            (forall a, (off + k <= a < off + Width X')%nat ->
               (a <= nth a p 0)%nat)).
  { intros A dSub p X' k HW Hclear.
    split; [apply KeepsAbove_refl|]. split; [reflexivity|].
    split; [reflexivity|]. split; [|intros; lia].
    intros a Ha Hnz. exfalso. apply Hnz. apply Hclear. lia. }
  induction fuel as [|fuel IH];
    intros st st' k Hn Hbs Hk Hlen HW Hclear Hrun;
    cbn [ldl.PanelPivoted_loop] in Hrun; rewrite ?Hn in Hrun.
  - destruct (Nat.leb_spec bsize k) as [Hle|Hlt]; [|discriminate Hrun].
    injection Hrun as <-. apply Hstop; [lia|exact Hclear].
  - destruct (Nat.leb_spec bsize k) as [Hle|Hlt].
    { injection Hrun as <-. apply Hstop; [lia|exact Hclear]. }
    destruct (ldl.is_BUNCH_KAUFMAN_C pivotType); [discriminate Hrun|].
    destruct (ldl.ChoosePanelPivot _ _ _ k pivotType gamma) as [pv|e|] eqn:Hpv;
      cbn [bind] in Hrun; try discriminate Hrun.
    apply ChoosePanelPivot_range in Hpv;
      cbn [Height ViewRange LockedViewRange]; [|lia].
    cbn [Height ViewRange LockedViewRange] in Hpv.
    destruct st as [A dSub p X Y].
    cbn [ldl.pnA ldl.pndSub ldl.pnp ldl.pnX ldl.pnY] in *.
    destruct (Nat.ltb_spec bsize (k + nb pv)) as [Hover|Hfit].
    { injection Hrun as <-.
      cbn [ldl.pnA ldl.pndSub ldl.pnp ldl.pnX ldl.pnY].
      apply Hstop; [|exact Hclear].
      cbn [Width ResizeTo]. destruct pv; cbn [nb] in *; lia. }
    destruct pv as [f|f0 f1]; cbn [nb fromLast] in *.
    + (* 1x1 pivot *)
      replace (off + k + (1 - 1))%nat with (off + k)%nat in Hrun by lia.
      set (from := (off + f)%nat) in *.
      assert (Hfrom : (off + k <= from < n)%nat) by (unfold from; lia).
      set (A1 := SymmetricSwap A (off + k) from) in *.
      set (X1 := RowSwap X (off + k - off) (from - off)) in *.
      set (Y1 := RowSwap Y (off + k - off) (from - off)) in *.
      pose proof (Get_Panel1x1 conjugate A1 X1 Y1 off k) as HG.
      cbv zeta in HG.
      specialize (HG ltac:(change (Height A1) with (Height A); lia)).
      pose proof (Panel1x1_Width conjugate off k A1 X1 Y1) as HWs.
      pose proof (KeepsAbove_Panel1x1 conjugate off k A1 X1 Y1
                    ltac:(change (Height A1) with (Height A); lia)) as HK1.
      destruct (ldl.Panel1x1 conjugate off k A1 X1 Y1) as [[A2 X2] Y2].
      destruct HG as (_ & _ & _ & HH2). destruct HWs as [HWX _].
      cbn [fst] in HK1.
      apply IH in Hrun;
        cbn [ldl.pnA ldl.pndSub ldl.pnp ldl.pnX ldl.pnY];
        [ | rewrite HH2; exact Hn | exact Hbs | lia
          | rewrite length_insert; exact Hlen
          | rewrite HWX; exact HW
          | apply (dSubClear_weaken dSub (off + k)); [lia|exact Hclear] ].
      cbn [ldl.pnA ldl.pndSub ldl.pnp ldl.pnX ldl.pnY] in Hrun.
      destruct Hrun as (HK & FD & FP & HZ & HP).
      assert (Hpk : nth (off + k) (ldl.pnp st') 0%nat = from).
      { rewrite FP by lia. apply nth_insert_eq. lia. }
      split; [|split; [|split; [|split]]].
      * apply (KeepsAbove_trans (off + k) (off + k) A A1); [lia| |].
        -- intros i j Hij. apply (Get_SymmetricSwap_above (off + k));
             (lia || exact Hij).
        -- apply (KeepsAbove_trans (off + k) (off + (k + 1)) A1 A2);
             [lia|exact HK1|exact HK].
      * intros a Ha. apply FD. lia.
      * intros a Ha. rewrite FP by lia. apply nth_insert_ne. lia.
      * intros a Ha Hnz. destruct (Nat.eq_dec a (off + k)) as [->|Hne].
        -- exfalso. apply Hnz. rewrite FD by lia. apply Hclear. lia.
        -- apply HZ; [lia|exact Hnz].
      * intros a Ha. destruct (Nat.eq_dec a (off + k)) as [->|Hne].
        -- rewrite Hpk. lia.
        -- apply HP. lia.
    + (* 2x2 pivot *)
      replace (off + k + (2 - 1))%nat with (off + k + 1)%nat in Hrun by lia.
      set (from := (off + f1)%nat) in *.
      assert (Hfrom : (off + k + 1 <= from < n)%nat) by (unfold from; lia).
      set (A1 := SymmetricSwap A (off + k + 1) from) in *.
      set (X1 := RowSwap X (off + k + 1 - off) (from - off)) in *.
      set (Y1 := RowSwap Y (off + k + 1 - off) (from - off)) in *.
      pose proof (Get_Panel2x2 conjugate A1 X1 Y1 off k) as HG.
      cbv zeta in HG.
      specialize (HG ltac:(change (Height A1) with (Height A); lia)).
      pose proof (Panel2x2_Width conjugate off k A1 X1 Y1) as HWs.
      pose proof (KeepsAbove_Panel2x2 conjugate off k A1 X1 Y1
                    ltac:(change (Height A1) with (Height A); lia)) as HK1.
      destruct (ldl.Panel2x2 conjugate off k A1 X1 Y1) as [[[A2 X2] Y2] d].
      destruct HG as (HA2 & _ & _ & _ & HH2). destruct HWs as [HWX _].
      cbn [fst] in HK1.
      apply IH in Hrun;
        cbn [ldl.pnA ldl.pndSub ldl.pnp ldl.pnX ldl.pnY];
        [ | rewrite HH2; exact Hn | exact Hbs | lia
          | rewrite !length_insert; exact Hlen
          | rewrite HWX; exact HW
          | replace (off + (k + 2))%nat with (off + k + 2)%nat by lia;
            apply dSubClear_MSet; exact Hclear ].
      cbn [ldl.pnA ldl.pndSub ldl.pnp ldl.pnX ldl.pnY] in Hrun.
      destruct Hrun as (HK & FD & FP & HZ & HP).
      assert (Hpk : nth (off + k) (ldl.pnp st') 0%nat = (off + k)%nat).
      { rewrite FP by lia. rewrite nth_insert_ne by lia.
        apply nth_insert_eq. lia. }
      assert (Hpk1 : nth (off + k + 1) (ldl.pnp st') 0%nat = from).
      { rewrite FP by lia. apply nth_insert_eq.
        rewrite length_insert. lia. }
      split; [|split; [|split; [|split]]].
      * apply (KeepsAbove_trans (off + k) (off + k) A A1); [lia| |].
        -- intros i j Hij. apply (Get_SymmetricSwap_above (off + k));
             (lia || exact Hij).
        -- apply (KeepsAbove_trans (off + k) (off + (k + 2)) A1 A2);
             [lia|exact HK1|exact HK].
      * intros a Ha. rewrite FD by lia. rewrite Get_MSet.
        destruct (Nat.eqb_spec a (off + k)); [lia|]. reflexivity.
      * intros a Ha. rewrite FP by lia. rewrite !nth_insert_ne by lia.
        reflexivity.
      * intros a Ha Hnz. destruct (Nat.eq_dec a (off + k)) as [->|Hne].
        { rewrite HK by lia. rewrite HA2. rewrite !Nat.eqb_refl.
          reflexivity. }
        destruct (Nat.eq_dec a (off + k + 1)) as [->|Hne1].
        { exfalso. apply Hnz. rewrite FD by lia. rewrite Get_MSet.
          destruct (Nat.eqb_spec (off + k + 1) (off + k)); [lia|].
          cbn [andb]. apply Hclear. lia. }
        apply HZ; [lia|exact Hnz].
      * intros a Ha. destruct (Nat.eq_dec a (off + k)) as [->|Hne];
          [rewrite Hpk; lia|].
        destruct (Nat.eq_dec a (off + k + 1)) as [->|Hne1];
          [rewrite Hpk1; lia|].
        apply HP. lia.
Qed.

(** The blocked loop from position [k]; the pivot rows it records lie at
    or after their own position. *)
Lemma BlockedPivoted_loop_shape (conjugate : bool)
  (pivotType : ldl.LDLPivotType) (gamma : R) (n bsize : nat) (fuel : nat) :
  forall (st st' : ldl.PanelState) (k : nat),
    Height (ldl.pnA st) = n -> (k <= n)%nat ->
    List.length (ldl.pnp st) = n ->
    dSubClear (ldl.pndSub st) k ->
    ldl.BlockedPivoted_loop fuel bsize conjugate pivotType gamma st k
      = Return st' ->
    KeepsAbove k (ldl.pnA st) (ldl.pnA st') /\
    (forall a, (a < k)%nat ->
       Get (ldl.pndSub st') a 0 = Get (ldl.pndSub st) a 0) /\
    (forall a, (a < k)%nat ->
       nth a (ldl.pnp st') 0%nat = nth a (ldl.pnp st) 0%nat) /\
    (forall a, (k <= a)%nat -> Get (ldl.pndSub st') a 0 <> 0 ->
               Get (ldl.pnA st') (a + 1) a = 0) /\
    (forall a, (k <= a < n)%nat -> (a <= nth a (ldl.pnp st') 0 < n)%nat).
Proof.
  assert (Hstop : forall (st : ldl.PanelState) (k : nat),
            (n <= k)%nat -> dSubClear (ldl.pndSub st) k ->
            KeepsAbove k (ldl.pnA st) (ldl.pnA st) /\
            (forall a, (a < k)%nat ->
               Get (ldl.pndSub st) a 0 = Get (ldl.pndSub st) a 0) /\
            (forall a, (a < k)%nat ->
               nth a (ldl.pnp st) 0%nat = nth a (ldl.pnp st) 0%nat) /\
            (forall a, (k <= a)%nat -> Get (ldl.pndSub st) a 0 <> 0 ->
                       Get (ldl.pnA st) (a + 1) a = 0) /\
            (forall a, (k <= a < n)%nat ->
               (a <= nth a (ldl.pnp st) 0 < n)%nat)).
  { intros st k Hle Hclear.
    split; [apply KeepsAbove_refl|]. split; [reflexivity|].
    split; [reflexivity|]. split; [|intros; lia].
    intros a Ha Hnz. exfalso. apply Hnz. apply Hclear. lia. }
  induction fuel as [|fuel IH]; intros st st' k Hn Hk Hlen Hclear Hrun;
    cbn [ldl.BlockedPivoted_loop] in Hrun; rewrite Hn in Hrun.
  - destruct (Nat.leb_spec n k) as [Hle|Hlt]; [|discriminate Hrun].
    injection Hrun as <-. apply Hstop; assumption.
  - destruct (Nat.leb_spec n k) as [Hle|Hlt].
    { injection Hrun as <-. apply Hstop; assumption. }
    destruct st as [A dSub p X Y].
    cbn [ldl.pnA ldl.pndSub ldl.pnp ldl.pnX ldl.pnY] in *.
    set (nbProp := Nat.min bsize (n - k)) in *.
    assert (HnbProp : (nbProp <= n - k)%nat) by (unfold nbProp; lia).
    unfold ldl.PanelPivoted in Hrun. rewrite Hn in Hrun.
    destruct (Nat.eqb_spec n 0) as [Hn0|_]; [lia|].
    set (st0 := ldl.mkPanelState A dSub p (Zeros (n - k) nbProp)
                  (Zeros (n - k) nbProp)) in *.
    destruct (ldl.PanelPivoted_loop nbProp nbProp k conjugate pivotType
                gamma st0 0) as [st1|e|] eqn:Hp;
      cbn [bind] in Hrun; try discriminate Hrun.
    pose proof (PanelPivoted_loop_correct conjugate pivotType gamma n nbProp
                  k nbProp st0 st1 0) as Hpanel.
    pose proof (PanelPivoted_loop_shape conjugate pivotType gamma n nbProp
                  k nbProp st0 st1 0) as Hshape.
    cbn [st0 ldl.pnA ldl.pndSub ldl.pnp ldl.pnX ldl.pnY Width Zeros]
      in Hpanel, Hshape.
    rewrite Nat.add_0_r in Hpanel, Hshape.
    specialize (Hpanel Hn ltac:(lia) ltac:(lia) Hlen eq_refl Hclear).
    specialize (Hpanel ltac:(intros a b _ _; reflexivity) Hp).
    specialize (Hshape Hn ltac:(lia) ltac:(lia) Hlen eq_refl Hclear Hp).
    cbv zeta in Hpanel.
    destruct st1 as [A1 dSub1 p1 X1 Y1].
    cbn [ldl.pnA ldl.pndSub ldl.pnp ldl.pnX ldl.pnY] in *.
    set (nb1 := Width X1) in *.
    destruct Hpanel as (Hk1 & _ & Hn1 & Hlen1 & _ & Hrange1 & _ & Hclear1
                        & _).
    destruct Hshape as (HK1 & FD1 & FP1 & HZ1 & HP1).
    set (TU := ldl.TrailingUpdate A1 X1 Y1 k nb1) in *.
    assert (HTU : Height TU = n) by exact Hn1.
    assert (HKT : KeepsAbove (k + nb1) A1 TU)
      by apply KeepsAbove_TrailingUpdate.
    apply IH in Hrun; cbn [ldl.pnA ldl.pndSub ldl.pnp ldl.pnX ldl.pnY];
      [ | exact HTU | lia | exact Hlen1 | exact Hclear1 ].
    cbn [ldl.pnA ldl.pndSub ldl.pnp ldl.pnX ldl.pnY] in Hrun.
    destruct Hrun as (HK & FD & FP & HZ & HP).
    split; [|split; [|split; [|split]]].
    + apply (KeepsAbove_trans k (k + nb1) A A1); [lia|exact HK1|].
      apply (KeepsAbove_trans (k + nb1) (k + nb1) A1 TU);
        [lia|exact HKT|exact HK].
    + intros a Ha. rewrite FD by lia. apply FD1. lia.
    + intros a Ha. rewrite FP by lia. apply FP1. lia.
    + intros a Ha Hnz.
      destruct (Nat.lt_ge_cases a (k + nb1)) as [Hlt1|Hge1].
      * rewrite FD in Hnz by lia.
        destruct (Nat.lt_ge_cases (a + 1) (k + nb1)) as [Hlt2|Hge2].
        -- rewrite HK by lia. rewrite HKT by lia.
           apply HZ1; [lia|exact Hnz].
        -- exfalso. apply Hnz. apply Hclear1. lia.
      * apply HZ; [lia|exact Hnz].
    + intros a Ha. destruct (Nat.lt_ge_cases a (k + nb1)) as [Hlt1|Hge1].
      * rewrite FP by lia. split; [apply HP1; lia|apply Hrange1; lia].
      * apply HP. lia.
Qed.

(** X5.  A run of [Pivoted] that returns has not changed any entry above the
    diagonal of [A]; the factors are written to the lower triangle only. *)
Theorem Pivoted_keeps_upper_triangle (fuel bsize : nat) (A : Matrix)
  (conjugate : bool) (pivotType : ldl.LDLPivotType) (gamma : R)
  (st : ldl.LDLState) :
  ldl.Pivoted fuel bsize A conjugate pivotType gamma = Return st ->
  forall i j, (i < j)%nat -> Get (ldl.stA st) i j = Get A i j.
Proof.
  intros Hrun i j Hij.
  assert (Hz : dSubClear (Zeros (Height A - 1) 1) 0)
    by (intros a _; reflexivity).
  assert (Hl : List.length (replicate (Height A) 0%nat) = Height A)
    by apply length_replicate.
  assert (HU : ldl.UnblockedPivoted A conjugate pivotType gamma = Return st
               -> Get (ldl.stA st) i j = Get A i j).
  { unfold ldl.UnblockedPivoted. intros HrunU.
    destruct (Nat.eqb (Height A) 0);
      [injection HrunU as <-; reflexivity|].
    apply (UnblockedPivoted_loop_shape conjugate pivotType gamma (Height A))
      in HrunU; cbn [ldl.stA ldl.stdSub ldl.stp];
      [|reflexivity|lia|exact Hl|exact Hz].
    apply (proj1 HrunU). left. exact Hij. }
  assert (HB : ldl.BlockedPivoted fuel bsize A conjugate pivotType gamma
               = Return st -> Get (ldl.stA st) i j = Get A i j).
  { unfold ldl.BlockedPivoted. intros HrunB.
    destruct (Nat.eqb (Height A) 0);
      [injection HrunB as <-; reflexivity|].
    destruct (ldl.BlockedPivoted_loop _ _ _ _ _ _ _) as [st1|e|] eqn:Hloop;
      cbn [bind] in HrunB; try discriminate HrunB.
    injection HrunB as <-. cbn [ldl.stA].
    apply (BlockedPivoted_loop_shape conjugate pivotType gamma (Height A))
      in Hloop; cbn [ldl.pnA ldl.pndSub ldl.pnp];
      [|reflexivity|lia|exact Hl|exact Hz].
    apply (proj1 Hloop). left. exact Hij. }
  destruct pivotType; cbn [ldl.Pivoted] in Hrun; auto.
Qed.

Lemma Pivoted_keeps_upper_triangle_witness :
  exists st,
    ldl.Pivoted 2 2 A_swap false ldl.BUNCH_KAUFMAN_A 0 = Return st /\
    forall i j, (i < j)%nat -> Get (ldl.stA st) i j = Get A_swap i j.
Proof.
  destruct Pivoted_A_swap as (st & Hrun & _). exists st.
  split; [exact Hrun|].
  exact (Pivoted_keeps_upper_triangle 2 2 A_swap false ldl.BUNCH_KAUFMAN_A 0
           st Hrun).
Defined.

(** X6.  In what [Pivoted] returns, a nonzero entry of [dSub] at [a] marks a
    2x2 block at [a], [a+1]; the entry of [A] under the diagonal of that
    block has been set to zero, its value being the one in [dSub]. *)
Theorem Pivoted_block_subdiagonal_zero (fuel bsize : nat) (A : Matrix)
  (conjugate : bool) (pivotType : ldl.LDLPivotType) (gamma : R)
  (st : ldl.LDLState) :
  ldl.Pivoted fuel bsize A conjugate pivotType gamma = Return st ->
  forall a, Get (ldl.stdSub st) a 0 <> 0 -> Get (ldl.stA st) (a + 1) a = 0.
Proof.
  intros Hrun a Hnz.
  assert (Hz : dSubClear (Zeros (Height A - 1) 1) 0)
    by (intros x _; reflexivity).
  assert (Hl : List.length (replicate (Height A) 0%nat) = Height A)
    by apply length_replicate.
  assert (HU : ldl.UnblockedPivoted A conjugate pivotType gamma = Return st
               -> Get (ldl.stA st) (a + 1) a = 0).
  { unfold ldl.UnblockedPivoted. intros HrunU.
    destruct (Nat.eqb (Height A) 0).
    { injection HrunU as <-. exfalso. apply Hnz. reflexivity. }
    apply (UnblockedPivoted_loop_shape conjugate pivotType gamma (Height A))
      in HrunU; cbn [ldl.stA ldl.stdSub ldl.stp];
      [|reflexivity|lia|exact Hl|exact Hz].
    apply (proj2 HrunU); [lia|exact Hnz]. }
  assert (HB : ldl.BlockedPivoted fuel bsize A conjugate pivotType gamma
               = Return st -> Get (ldl.stA st) (a + 1) a = 0).
  { unfold ldl.BlockedPivoted. intros HrunB.
    destruct (Nat.eqb (Height A) 0).
    { injection HrunB as <-. exfalso. apply Hnz. reflexivity. }
    destruct (ldl.BlockedPivoted_loop _ _ _ _ _ _ _) as [st1|e|] eqn:Hloop;
      cbn [bind] in HrunB; try discriminate HrunB.
    injection HrunB as <-. cbn [ldl.stA ldl.stdSub] in *.
    apply (BlockedPivoted_loop_shape conjugate pivotType gamma (Height A))
      in Hloop; cbn [ldl.pnA ldl.pndSub ldl.pnp];
      [|reflexivity|lia|exact Hl|exact Hz].
    destruct Hloop as (_ & _ & _ & HZ & _). apply HZ; [lia|exact Hnz]. }
  destruct pivotType; cbn [ldl.Pivoted] in Hrun; auto.
Qed.

Lemma Pivoted_block_subdiagonal_zero_witness :
  exists st,
    ldl.Pivoted 2 2 A_swap false ldl.BUNCH_KAUFMAN_A 0 = Return st /\
    Get (ldl.stdSub st) 0 0 <> 0 /\ Get (ldl.stA st) (0 + 1) 0 = 0.
Proof.
  destruct Pivoted_A_swap as (st & Hrun & _ & Hd & _). exists st.
  split; [exact Hrun|]. split; [rewrite Hd; lra|].
  apply (Pivoted_block_subdiagonal_zero 2 2 A_swap false
           ldl.BUNCH_KAUFMAN_A 0 st Hrun 0).
  rewrite Hd. lra.
Defined.

(** X7.  The pivot vector of the blocked driver names, for every position,
    a row at or after that position and inside the matrix: a pivot never
    reaches back into the part already factored. *)
Theorem BlockedPivoted_pivots_forward (fuel bsize : nat) (A : Matrix)
  (conjugate : bool) (pivotType : ldl.LDLPivotType) (gamma : R)
  (st : ldl.LDLState) :
  ldl.BlockedPivoted fuel bsize A conjugate pivotType gamma = Return st ->
  forall a, (a < Height A)%nat ->
    (a <= nth a (ldl.stp st) 0 < Height A)%nat.
Proof.
  unfold ldl.BlockedPivoted. intros Hrun a Ha.
  destruct (Nat.eqb_spec (Height A) 0) as [H0|_]; [lia|].
  destruct (ldl.BlockedPivoted_loop _ _ _ _ _ _ _) as [st1|e|] eqn:Hloop;
    cbn [bind] in Hrun; try discriminate Hrun.
  injection Hrun as <-. cbn [ldl.stp].
  apply (BlockedPivoted_loop_shape conjugate pivotType gamma (Height A))
    in Hloop; cbn [ldl.pnA ldl.pndSub ldl.pnp];
    [|reflexivity|lia|apply length_replicate|intros x _; reflexivity].
  destruct Hloop as (_ & _ & _ & _ & HP). apply HP. lia.
Qed.

Lemma BlockedPivoted_pivots_forward_witness :
  exists st,
    ldl.BlockedPivoted 2 2 A_swap false ldl.BUNCH_KAUFMAN_A 0 = Return st /\
    forall a, (a < Height A_swap)%nat ->
      (a <= nth a (ldl.stp st) 0 < Height A_swap)%nat.
Proof.
  destruct Pivoted_A_swap as (st & Hrun & _). exists st.
  split; [exact Hrun|].
  exact (BlockedPivoted_pivots_forward 2 2 A_swap false ldl.BUNCH_KAUFMAN_A
           0 st Hrun).
Defined.

(** ** Invertible factors under Bunch-Kaufman *)

Lemma transp_add (off a b i : nat) :
  transp (off + a) (off + b) (off + i) = (off + transp a b i)%nat.
Proof.
  unfold transp.
  destruct (Nat.eqb_spec (off + i) (off + a)); destruct (Nat.eqb_spec i a);
    try lia.
  destruct (Nat.eqb_spec (off + i) (off + b)); destruct (Nat.eqb_spec i b);
    lia.
Qed.

(** The corrected entries a panel step reads after its symmetric pivot are
    the entries of the corrected active block the pivot rule has seen. *)
Lemma Vlow_swapped (A X Y : Matrix) (n off k to f i j : nat) :
  (j <= i)%nat -> (transp to f j <= transp to f i)%nat ->
  Vlow (SymmetricSwap A (off + to) (off + f)) (RowSwap X to f)
    (RowSwap Y to f) off k (off + i) (off + j) =
  corrected (ViewRange A off off n n) X Y k (transp to f i) (transp to f j).
Proof.
  intros Hji Ht. unfold Vlow, corrected, SymmetricSwap, RowSwap, symGet.
  cbn [Get ViewRange LockedViewRange].
  destruct (Nat.leb_spec (off + j) (off + i)); [|lia].
  rewrite !transp_add.
  destruct (Nat.leb_spec (off + transp to f j) (off + transp to f i));
    [|lia].
  replace (off + i - off)%nat with i by lia.
  replace (off + j - off)%nat with j by lia. reflexivity.
Qed.

(** Every block the panel loop factors under a Bunch-Kaufman rule is
    invertible. *)
Lemma PanelPivoted_loop_NonSingular (conjugate : bool)
  (pivotType : ldl.LDLPivotType) (gamma : R) (n bsize off : nat)
  (fuel : nat) :
  gamma = 0 \/ 0 < gamma < 1 ->
  forall (st st' : ldl.PanelState) (k : nat),
    Height (ldl.pnA st) = n -> (off + bsize <= n)%nat -> (k <= bsize)%nat ->
    List.length (ldl.pnp st) = n ->
    Width (ldl.pnX st) = bsize ->
    dSubClear (ldl.pndSub st) (off + k) ->
    XYsym (ldl.pnX st) (ldl.pnY st) (n - off) k ->
    ldl.PanelPivoted_loop fuel bsize off conjugate pivotType gamma st k
      = Return st' ->
    forall a, (off + k <= a < off + Width (ldl.pnX st'))%nat ->
      NonSingularAt (ldl.pnA st') (ldl.pndSub st') a.
Proof.
  intros Hg.
  induction fuel as [|fuel IH];
    intros st st' k Hn Hbs Hk Hlen HW Hclear Hsym Hrun;
    cbn [ldl.PanelPivoted_loop] in Hrun; rewrite ?Hn in Hrun.
  - destruct (Nat.leb_spec bsize k) as [Hle|Hlt]; [|discriminate Hrun].
    injection Hrun as <-. intros a Ha. lia.
  - destruct (Nat.leb_spec bsize k) as [Hle|Hlt].
    { injection Hrun as <-. intros a Ha. lia. }
    destruct (ldl.is_BUNCH_KAUFMAN_C pivotType); [discriminate Hrun|].
    destruct (ldl.ChoosePanelPivot _ _ _ k pivotType gamma) as [pv|e|] eqn:Hpv;
      cbn [bind] in Hrun; try discriminate Hrun.
    destruct st as [A dSub p X Y].
    cbn [ldl.pnA ldl.pndSub ldl.pnp ldl.pnX ldl.pnY] in *.
    assert (HkA : (k < Height (ViewRange A off off n n))%nat)
      by (cbn [Height ViewRange LockedViewRange]; lia).
    pose proof (ChoosePanelPivot_PivotInvertible _ _ _ _ _ _ _ Hg HkA Hpv)
      as Hinv.
    pose proof (ChoosePanelPivot_range _ _ _ _ _ _ _ HkA Hpv) as Hrg.
    cbn [Height ViewRange LockedViewRange] in Hrg.
    destruct (Nat.ltb_spec bsize (k + nb pv)) as [Hover|Hfit].
    { injection Hrun as <-.
      cbn [ldl.pnA ldl.pndSub ldl.pnp ldl.pnX ldl.pnY Width ResizeTo].
      intros a Ha. destruct pv; cbn [nb] in *; lia. }
    destruct pv as [f|f0 f1]; cbn [nb fromLast PivotInvertible] in *.
    + (* 1x1 pivot *)
      replace (off + k + (1 - 1))%nat with (off + k)%nat in Hrun by lia.
      replace (off + k - off)%nat with k in Hrun by lia.
      replace (off + f - off)%nat with f in Hrun by lia.
      assert (Hfrom : (off + k <= off + f < n)%nat) by lia.
      pose proof (Vlow_swapped A X Y n off k k f k k
                    ltac:(lia) ltac:(lia)) as Hdelta.
      replace (transp k f k) with f in Hdelta
        by (unfold transp; rewrite Nat.eqb_refl; reflexivity).
      set (A1 := SymmetricSwap A (off + k) (off + f)) in *.
      set (X1 := RowSwap X k f) in *. set (Y1 := RowSwap Y k f) in *.
      assert (Hsym1 : XYsym X1 Y1 (n - off) k)
        by (apply XYsym_RowSwap; [exact Hsym|lia|lia]).
      pose proof (Panel1x1_step conjugate A1 dSub X1 Y1 n off k
                    Hn ltac:(lia) Hsym1 Hclear) as Hstep.
      pose proof (Get_Panel1x1 conjugate A1 X1 Y1 off k) as HG.
      cbv zeta in HG.
      specialize (HG ltac:(change (Height A1) with (Height A); lia)).
      destruct (ldl.Panel1x1 conjugate off k A1 X1 Y1) as [[A2 X2] Y2].
      destruct Hstep as (HH2 & HWX & _ & _ & Hsym2 & _).
      destruct HG as (HA2 & _).
      assert (Hlen1 : List.length (<[(off + k)%nat := (off + f)%nat]> p) = n)
        by (rewrite length_insert; exact Hlen).
      assert (Hclear1 : dSubClear dSub (off + (k + 1)))
        by (apply (dSubClear_weaken dSub (off + k)); [lia|exact Hclear]).
      assert (HWX1 : Width X2 = bsize) by (rewrite HWX; exact HW).
      pose proof Hrun as Hframe.
      apply (PanelPivoted_loop_correct conjugate pivotType gamma n) in Hframe;
        cbn [ldl.pnA ldl.pndSub ldl.pnp ldl.pnX ldl.pnY];
        [ | exact HH2 | exact Hbs | lia | exact Hlen1 | exact HWX1
          | exact Hclear1 | exact Hsym2 ].
      cbv zeta in Hframe.
      destruct Hframe as (_ & _ & _ & _ & (FA & FD & _) & _).
      cbn [ldl.pnA ldl.pndSub ldl.pnp ldl.pnX ldl.pnY] in FA, FD.
      pose proof (IH (ldl.mkPanelState A2 dSub
                        (<[(off + k)%nat := (off + f)%nat]> p) X2 Y2)
                    st' (k + 1)%nat HH2 Hbs ltac:(lia) Hlen1 HWX1 Hclear1
                    Hsym2 Hrun) as Hrest.
      intros a Ha. destruct (Nat.eq_dec a (off + k)) as [->|Hne];
        [|apply Hrest; lia].
      split.
      * intros _ _. rewrite FA by lia. rewrite HA2.
        destruct (Nat.ltb_spec (off + k) (off + k)); [lia|].
        rewrite !Nat.eqb_refl. cbn [andb]. rewrite Hdelta. exact Hinv.
      * intros Hnz. exfalso. apply Hnz. rewrite FD by lia.
        apply Hclear. lia.
    + (* 2x2 pivot *)
      assert (Hf0 : f0 = k)
        by exact (ChoosePanelPivot_first _ _ _ _ _ _ _ _ HkA Hpv).
      subst f0. destruct Hinv as [Hoff Hdet].
      replace (off + k + (2 - 1))%nat with (off + (k + 1))%nat in Hrun
        by lia.
      replace (off + (k + 1) - off)%nat with (k + 1)%nat in Hrun by lia.
      replace (off + f1 - off)%nat with f1 in Hrun by lia.
      assert (Hfrom : (off + k + 1 <= off + f1 < n)%nat) by lia.
      assert (Ht0 : transp (k + 1) f1 k = k)
        by (apply transp_fix; lia).
      assert (Ht1 : transp (k + 1) f1 (k + 1) = f1)
        by (unfold transp; rewrite Nat.eqb_refl; reflexivity).
      pose proof (Vlow_swapped A X Y n off k (k + 1) f1 k k
                    ltac:(lia) ltac:(lia)) as Hd11.
      pose proof (Vlow_swapped A X Y n off k (k + 1) f1 (k + 1) k
                    ltac:(lia) ltac:(rewrite Ht0, Ht1; lia)) as Hd21.
      pose proof (Vlow_swapped A X Y n off k (k + 1) f1 (k + 1) (k + 1)
                    ltac:(lia) ltac:(lia)) as Hd22.
      rewrite Ht0 in Hd11. rewrite Ht0, Ht1 in Hd21. rewrite Ht1 in Hd22.
      replace (off + (k + 1))%nat with (off + k + 1)%nat in * by lia.
      set (A1 := SymmetricSwap A (off + k + 1) (off + f1)) in *.
      set (X1 := RowSwap X (k + 1) f1) in *.
      set (Y1 := RowSwap Y (k + 1) f1) in *.
      assert (Hsym1 : XYsym X1 Y1 (n - off) k)
        by (apply XYsym_RowSwap; [exact Hsym|lia|lia]).
      pose proof (Panel2x2_step conjugate A1 dSub X1 Y1 n off k
                    Hn ltac:(lia) Hsym1 Hclear) as Hstep.
      pose proof (Get_Panel2x2 conjugate A1 X1 Y1 off k) as HG.
      cbv zeta in HG.
      specialize (HG ltac:(change (Height A1) with (Height A); lia)).
      destruct (ldl.Panel2x2 conjugate off k A1 X1 Y1) as [[[A2 X2] Y2] d].
      destruct Hstep as (HH2 & HWX & _ & _ & Hsym2 & _).
      destruct HG as (HA2 & _ & _ & Hd & _).
      assert (Hlen2 : List.length
                (<[(off + k + 1)%nat := (off + f1)%nat]>
                   (<[(off + k)%nat := (off + k)%nat]> p)) = n)
        by (rewrite !length_insert; exact Hlen).
      assert (Hclear2 : dSubClear (MSet dSub (off + k) 0 d) (off + (k + 2))).
      { replace (off + (k + 2))%nat with (off + k + 2)%nat by lia.
        apply dSubClear_MSet. exact Hclear. }
      assert (HWX2 : Width X2 = bsize) by (rewrite HWX; exact HW).
      pose proof Hrun as Hframe.
      apply (PanelPivoted_loop_correct conjugate pivotType gamma n) in Hframe;
        cbn [ldl.pnA ldl.pndSub ldl.pnp ldl.pnX ldl.pnY];
        [ | exact HH2 | exact Hbs | lia | exact Hlen2 | exact HWX2
          | exact Hclear2 | exact Hsym2 ].
      cbv zeta in Hframe.
      destruct Hframe as (_ & _ & _ & _ & (FA & FD & _) & _).
      cbn [ldl.pnA ldl.pndSub ldl.pnp ldl.pnX ldl.pnY] in FA, FD.
      pose proof (IH (ldl.mkPanelState A2 (MSet dSub (off + k) 0 d)
                        (<[(off + k + 1)%nat := (off + f1)%nat]>
                           (<[(off + k)%nat := (off + k)%nat]> p)) X2 Y2)
                    st' (k + 2)%nat HH2 Hbs ltac:(lia) Hlen2 HWX2 Hclear2
                    Hsym2 Hrun) as Hrest.
      assert (HdS : Get (ldl.pndSub st') (off + k) 0 = d).
      { rewrite FD by lia. rewrite Get_MSet, Nat.eqb_refl. reflexivity. }
      assert (Hdnz : d <> 0) by (rewrite Hd, Hd21; exact Hoff).
      intros a Ha. destruct (Nat.eq_dec a (off + k)) as [->|Hne].
      { split.
        - intros Hz. exfalso. apply Hdnz. rewrite <- HdS. exact Hz.
        - intros _. rewrite !FA by lia. rewrite HdS, !HA2.
          repeat match goal with
          | |- context [Nat.eqb ?x ?y] =>
              destruct (Nat.eqb_spec x y); try lia
          | |- context [Nat.leb ?x ?y] =>
              destruct (Nat.leb_spec x y); try lia
          end; cbn [andb].
          rewrite Hd, Hd11, Hd21, Hd22. exact Hdet. }
      destruct (Nat.eq_dec a (off + k + 1)) as [->|Hne1];
        [|apply Hrest; lia].
      split.
      * intros _ [H0|Hprev]; [lia|]. exfalso. apply Hdnz.
        rewrite <- HdS. rewrite <- Hprev. f_equal. lia.
      * intros Hnz. exfalso. apply Hnz. rewrite FD by lia. rewrite Get_MSet.
        destruct (Nat.eqb_spec (off + k + 1) (off + k)); [lia|].
        cbn [andb]. apply Hclear. lia.
Qed.

Lemma NonSingularAt_later (A dSub A' dSub' : Matrix) (m a : nat) :
  (forall x, (x < m)%nat -> Get A' x x = Get A x x) ->
  (forall x, (x < m)%nat -> Get dSub' x 0 = Get dSub x 0) ->
  dSubClear dSub m -> (a < m)%nat ->
  NonSingularAt A dSub a -> NonSingularAt A' dSub' a.
Proof.
  intros HA HD Hclear Ha [H1 H2]. split.
  - intros Hz Hprev. rewrite HA by lia. apply H1.
    + rewrite <- HD by lia. exact Hz.
    + destruct Hprev as [->|Hp]; [left; reflexivity|].
      destruct (Nat.eq_dec a 0) as [->|Ha0]; [left; reflexivity|].
      right. rewrite <- HD by lia. exact Hp.
  - intros Hnz. rewrite HD in Hnz by lia.
    assert (Ha1 : (a + 1 < m)%nat).
    { destruct (Nat.lt_ge_cases (a + 1) m) as [Hlt|Hge]; [exact Hlt|].
      exfalso. apply Hnz. apply Hclear. lia. }
    rewrite !HA by lia. rewrite HD by lia. apply H2. exact Hnz.
Qed.

(** Every block the blocked loop factors under a Bunch-Kaufman rule is
    invertible. *)
Lemma BlockedPivoted_loop_NonSingular (conjugate : bool)
  (pivotType : ldl.LDLPivotType) (gamma : R) (n bsize : nat) (fuel : nat) :
  gamma = 0 \/ 0 < gamma < 1 ->
  forall (st st' : ldl.PanelState) (k : nat),
    Height (ldl.pnA st) = n -> (k <= n)%nat ->
    List.length (ldl.pnp st) = n ->
    dSubClear (ldl.pndSub st) k ->
    ldl.BlockedPivoted_loop fuel bsize conjugate pivotType gamma st k
      = Return st' ->
    forall a, (k <= a < n)%nat ->
      NonSingularAt (ldl.pnA st') (ldl.pndSub st') a.
Proof.
  intros Hg.
  induction fuel as [|fuel IH]; intros st st' k Hn Hk Hlen Hclear Hrun;
    cbn [ldl.BlockedPivoted_loop] in Hrun; rewrite Hn in Hrun.
  - destruct (Nat.leb_spec n k) as [Hle|Hlt]; [|discriminate Hrun].
    intros a Ha. lia.
  - destruct (Nat.leb_spec n k) as [Hle|Hlt]; [intros a Ha; lia|].
    destruct st as [A dSub p X Y].
    cbn [ldl.pnA ldl.pndSub ldl.pnp ldl.pnX ldl.pnY] in *.
    set (nbProp := Nat.min bsize (n - k)) in *.
    assert (HnbProp : (nbProp <= n - k)%nat) by (unfold nbProp; lia).
    unfold ldl.PanelPivoted in Hrun. rewrite Hn in Hrun.
    destruct (Nat.eqb_spec n 0) as [Hn0|_]; [lia|].
    set (st0 := ldl.mkPanelState A dSub p (Zeros (n - k) nbProp)
                  (Zeros (n - k) nbProp)) in *.
    destruct (ldl.PanelPivoted_loop nbProp nbProp k conjugate pivotType
                gamma st0 0) as [st1|e|] eqn:Hp;
      cbn [bind] in Hrun; try discriminate Hrun.
    pose proof (PanelPivoted_loop_correct conjugate pivotType gamma n nbProp
                  k nbProp st0 st1 0) as Hpanel.
    pose proof (PanelPivoted_loop_NonSingular conjugate pivotType gamma n
                  nbProp k nbProp Hg st0 st1 0) as Hns.
    cbn [st0 ldl.pnA ldl.pndSub ldl.pnp ldl.pnX ldl.pnY Width Zeros]
      in Hpanel, Hns.
    rewrite Nat.add_0_r in Hpanel, Hns.
    specialize (Hpanel Hn ltac:(lia) ltac:(lia) Hlen eq_refl Hclear).
    specialize (Hpanel ltac:(intros a b _ _; reflexivity) Hp).
    specialize (Hns Hn ltac:(lia) ltac:(lia) Hlen eq_refl Hclear).
    specialize (Hns ltac:(intros a b _ _; reflexivity) Hp).
    cbv zeta in Hpanel.
    destruct st1 as [A1 dSub1 p1 X1 Y1].
    cbn [ldl.pnA ldl.pndSub ldl.pnp ldl.pnX ldl.pnY] in *.
    set (nb1 := Width X1) in *.
    destruct Hpanel as (Hk1 & _ & Hn1 & Hlen1 & _ & _ & _ & Hclear1 & _).
    set (TU := ldl.TrailingUpdate A1 X1 Y1 k nb1) in *.
    assert (HTU : Height TU = n) by exact Hn1.
    pose proof (BlockedPivoted_loop_shape conjugate pivotType gamma n bsize
                  fuel (ldl.mkPanelState TU dSub1 p1 X1 Y1) st' (k + nb1)
                  HTU ltac:(lia) Hlen1 Hclear1 Hrun) as (HK & FD & _).
    cbn [ldl.pnA ldl.pndSub ldl.pnp ldl.pnX ldl.pnY] in HK, FD.
    pose proof (IH (ldl.mkPanelState TU dSub1 p1 X1 Y1) st' (k + nb1)%nat
                  HTU ltac:(lia) Hlen1 Hclear1 Hrun) as Hrest.
    intros a Ha. destruct (Nat.lt_ge_cases a (k + nb1)) as [Hlt1|Hge1];
      [|apply Hrest; lia].
    apply (NonSingularAt_later A1 dSub1 (ldl.pnA st') (ldl.pndSub st')
             (k + nb1) a); [|exact FD|exact Hclear1|exact Hlt1|apply Hns; lia].
    intros x Hx. rewrite HK by lia.
    apply (KeepsAbove_TrailingUpdate A1 X1 Y1 k nb1). lia.
Qed.

(** X8.  Under the rules Bunch-Kaufman A and D, with the default threshold
    or one in (0,1), a block size of at least 2 and enough iterations,
    [Pivoted] either raises the exception for singular matrices or returns
    factors whose block diagonal [D] is invertible and for which
    [P A P^T = L D L^T] holds. *)
Theorem BunchKaufman_factors_invertible (fuel bsize : nat) (A : Matrix)
  (conjugate : bool) (pivotType : ldl.LDLPivotType) (gamma : R) :
  pivotType = ldl.BUNCH_KAUFMAN_A \/ pivotType = ldl.BUNCH_KAUFMAN_D ->
  gamma = 0 \/ 0 < gamma < 1 ->
  (2 <= bsize)%nat -> (Height A <= fuel)%nat ->
  ldl.Pivoted fuel bsize A conjugate pivotType gamma
    = Throw SingularMatrixException \/
  exists st,
    ldl.Pivoted fuel bsize A conjugate pivotType gamma = Return st /\
    let n := Height A in
    NonSingularD (ldl.stA st) (ldl.stdSub st) n /\
    forall i j, (i < n)%nat -> (j < n)%nat ->
      LDLt (ldl.stA st) (ldl.stdSub st) n i j = PAPt A (ldl.stp st) n i j.
Proof.
  intros Hs Hg Hb Hf.
  assert (HP : ldl.Pivoted fuel bsize A conjugate pivotType gamma
               = ldl.BlockedPivoted fuel bsize A conjugate pivotType gamma)
    by (destruct Hs as [->| ->]; reflexivity).
  rewrite HP.
  destruct (BlockedPivoted_Factorizes fuel bsize A conjugate pivotType gamma
              Hs Hb Hf) as [Ht|(st & Hrun & HF)]; [left; exact Ht|].
  right. exists st. split; [exact Hrun|]. cbv zeta.
  assert (Hns : NonSingularD (ldl.stA st) (ldl.stdSub st) (Height A)).
  { unfold ldl.BlockedPivoted in Hrun.
    destruct (Nat.eqb_spec (Height A) 0) as [H0|_].
    { intros a Ha. lia. }
    destruct (ldl.BlockedPivoted_loop _ _ _ _ _ _ _) as [st1|e|] eqn:Hloop;
      cbn [bind] in Hrun; try discriminate Hrun.
    injection Hrun as <-. cbn [ldl.stA ldl.stdSub].
    intros a Ha.
    apply (BlockedPivoted_loop_NonSingular conjugate pivotType gamma
             (Height A) bsize fuel Hg) with (a := a) in Hloop;
      cbn [ldl.pnA ldl.pndSub ldl.pnp];
      [exact Hloop|reflexivity|lia|apply length_replicate
      |intros x _; reflexivity|lia]. }
  split; [exact Hns|].
  destruct HF as (_ & _ & _ & _ & Heq). apply Heq. exact Hns.
Qed.

Lemma BunchKaufman_factors_invertible_witness :
  (ldl.BUNCH_KAUFMAN_A = ldl.BUNCH_KAUFMAN_A
   \/ ldl.BUNCH_KAUFMAN_A = ldl.BUNCH_KAUFMAN_D) /\
  (0 = 0 \/ 0 < 0 < 1) /\ (2 <= 2)%nat /\ (Height A_swap <= 2)%nat /\
  (ldl.Pivoted 2 2 A_swap false ldl.BUNCH_KAUFMAN_A 0
     = Throw SingularMatrixException \/
   exists st,
     ldl.Pivoted 2 2 A_swap false ldl.BUNCH_KAUFMAN_A 0 = Return st /\
     let n := Height A_swap in
     NonSingularD (ldl.stA st) (ldl.stdSub st) n /\
     forall i j, (i < n)%nat -> (j < n)%nat ->
       LDLt (ldl.stA st) (ldl.stdSub st) n i j
       = PAPt A_swap (ldl.stp st) n i j).
Proof.
  assert (Hs : ldl.BUNCH_KAUFMAN_A = ldl.BUNCH_KAUFMAN_A
               \/ ldl.BUNCH_KAUFMAN_A = ldl.BUNCH_KAUFMAN_D)
    by (left; reflexivity).
  assert (Hg : 0 = 0 \/ 0 < 0 < 1) by (left; reflexivity).
  assert (Hf : (Height A_swap <= 2)%nat) by (cbn; lia).
  split; [exact Hs|]. split; [exact Hg|]. split; [lia|]. split; [exact Hf|].
  apply (BunchKaufman_factors_invertible 2 2 A_swap false
           ldl.BUNCH_KAUFMAN_A 0 Hs Hg ltac:(lia) Hf).
Defined.

(** ** The block of an unblocked 2x2 step *)

Lemma transp_first (a b : nat) : transp a b a = b.
Proof. unfold transp. rewrite Nat.eqb_refl. reflexivity. Qed.

(** X9.  The two symmetric swaps of a 2x2 step of [UnblockedPivoted] are
    applied one after the other, so the block that is factored holds the
    rows [r0], [r1] the composite permutation brings to [k] and [k+1].
    These are the rows [from0], [from1] of the pivot when [from1] is
    neither [k] nor [from0]; when [from1 = k] and [from0 > k+1], the first
    swap has moved row [k] away and the block holds rows [k+1] and
    [from0] instead. *)
Theorem Unblocked2x2_block_rows (A : Matrix) (k from0 from1 : nat) :
  (k + 1 < Height A)%nat ->
  let U := ldl.Unblocked2x2 A k from0 from1 in
  let r0 := transp k from0 (transp (k + 1) from1 k) in
  let r1 := transp k from0 (transp (k + 1) from1 (k + 1)) in
  (Get (fst U) k k = symGet A r0 r0 /\
   snd U = symGet A r1 r0 /\
   Get (fst U) (k + 1) (k + 1) = symGet A r1 r1) /\
  (from1 <> k -> from1 <> from0 -> r0 = from0 /\ r1 = from1) /\
  (from1 = k -> (k + 1 < from0)%nat -> r0 = (k + 1)%nat /\ r1 = from0).
Proof.
  intros Hk U r0 r1.
  set (A1 := SymmetricSwap (SymmetricSwap A k from0) (k + 1) from1).
  assert (Hlow : forall i j, (j <= i)%nat ->
            Get A1 i j =
            symGet A (transp k from0 (transp (k + 1) from1 i))
                     (transp k from0 (transp (k + 1) from1 j))).
  { intros i j Hji. unfold A1.
    rewrite <- !symGet_SymmetricSwap. unfold symGet at 1.
    destruct (Nat.leb_spec j i); [reflexivity|lia]. }
  split; [split; [|split]|split].
  - unfold U. rewrite Get_Unblocked2x2 by exact Hk. fold A1.
    destruct (Nat.eqb_spec k (k + 1)); [lia|].
    destruct (Nat.leb_spec (k + 2) k); [lia|]. cbn [andb].
    apply Hlow. lia.
  - unfold U. rewrite snd_Unblocked2x2. fold A1. apply Hlow. lia.
  - unfold U. rewrite Get_Unblocked2x2 by exact Hk. fold A1.
    rewrite Nat.eqb_refl.
    destruct (Nat.eqb_spec (k + 1) k); [lia|].
    destruct (Nat.leb_spec (k + 2) (k + 1)); [lia|]. cbn [andb].
    apply Hlow. lia.
  - intros H1 H2. unfold r0, r1.
    rewrite (transp_fix (k + 1) from1 k) by lia.
    rewrite (transp_first (k + 1) from1), (transp_first k from0).
    split; [reflexivity|]. apply transp_fix; lia.
  - intros -> H2. unfold r0, r1.
    rewrite (transp_first (k + 1) k), (transp_first k from0).
    split; [|reflexivity].
    replace (transp (k + 1) k k) with (k + 1)%nat.
    + apply transp_fix; lia.
    + unfold transp. rewrite Nat.eqb_refl.
      destruct (Nat.eqb_spec k (k + 1)); [lia|reflexivity].
Qed.

Lemma Unblocked2x2_block_rows_witness :
  (0 + 1 < Height A_corner)%nat /\
  let U := ldl.Unblocked2x2 A_corner 0 2 0 in
  Get (fst U) 0 0 = 1 /\ snd U = 0 /\ Get (fst U) (0 + 1) (0 + 1) = 0.
Proof.
  assert (Hk : (0 + 1 < Height A_corner)%nat) by (cbn; lia).
  split; [exact Hk|].
  destruct (Unblocked2x2_block_rows A_corner 0 2 0 Hk)
    as ((H00 & Hd & H11) & _ & _).
  cbv zeta. rewrite H00, Hd, H11.
  unfold A_corner, fromRows, symGet, transp. cbn.
  repeat split; reflexivity.
Defined.

(** ** The life of a proxy *)

Lemma Matches_freshProxy {Scalar : Type} (blank : Scalar)
  (T : ElemType) (U V : Dist) (ctrl : ElementalProxyCtrl) :
  El.Matches T U V (El.freshProxy blank T U V ctrl) ctrl.
Proof.
  unfold El.Matches, El.freshProxy, El.newDistMatrix.
  destruct (rootConstrain ctrl), (colConstrain ctrl), (rowConstrain ctrl);
    cbn; repeat split; try reflexivity; intros H; discriminate H.
Qed.

(** The three constructors, for a source that does not match: the proxy is
    a new object at the fresh address, with the requested class, and the
    source is still there. *)
Lemma proxy_copy_shape {Scalar : Type}
  (convert : ElemType -> ElemType -> Scalar -> Scalar) (blank : Scalar)
  (w : El.World) (a : nat) (A : El.DistMatrixObj)
  (T : ElemType) (U V : Dist) (ctrl : ElementalProxyCtrl) :
  El.store w !! a = Some A ->
  El.aliases T U V A ctrl = false ->
  let p := fresh (dom (El.store w)) in
  let Pc := El.CopyObj convert A (El.freshProxy blank T U V ctrl) in
  let Pw := El.Resize blank (El.objHeight A) (El.objWidth A)
              (El.freshProxy blank T U V ctrl) in
  p <> a /\ El.store w !! p = None /\
  (forall locked,
     exists w1,
       El.DistMatrixReadProxy convert blank locked T U V a ctrl w
         = Some (El.mkProxy locked true false a p, w1) /\
       El.store w1 = <[p := Pc]> (El.store w)) /\
  (exists w1,
     El.DistMatrixWriteProxy blank T U V a ctrl w
       = Some (El.mkProxy false true true a p, w1) /\
     El.store w1 = <[p := Pw]> (El.store w)) /\
  (exists w1,
     El.DistMatrixReadWriteProxy convert blank T U V a ctrl w
       = Some (El.mkProxy false true true a p, w1) /\
     El.store w1 = <[p := Pc]> (El.store w)).
Proof.
  intros Ha Hal p Pc Pw.
  assert (Hf : p <> a) by (apply fresh_not_live; rewrite Ha; eauto).
  assert (Hp : El.store w !! p = None).
  { apply not_elem_of_dom. apply is_fresh. }
  split; [exact Hf|]. split; [exact Hp|].
  unfold El.DistMatrixReadProxy, El.DistMatrixWriteProxy,
    El.DistMatrixReadWriteProxy.
  rewrite Ha. cbn [mbind option_bind]. rewrite Hal. fold p.
  assert (HC : El.store (El.Copy convert a p
                 (El.mkWorld (<[p := El.freshProxy blank T U V ctrl]>
                                (El.store w)) (El.trace w ++ [EvNew p])))
               = <[p := Pc]> (El.store w)).
  { unfold El.Copy. cbn [El.store].
    rewrite lookup_insert_ne by exact Hf. rewrite Ha.
    rewrite lookup_insert_eq. apply insert_insert_eq. }
  split; [|split].
  - intros locked. eexists. split; [reflexivity|exact HC].
  - eexists. split; [reflexivity|reflexivity].
  - eexists. split; [reflexivity|exact HC].
Qed.

(** X10.  Whatever the source is, the matrix a proxy hands out has the
    requested element type and distribution, element-wise wrapping, every
    constrained alignment and root, and the size of the source; the
    source itself is left in place.  The matrix of a read or read-write
    proxy holds the entries of the source (converted when it is a copy);
    a copied write proxy holds unwritten storage: nothing is copied
    in. *)
Theorem proxy_hands_out_requested_class :
  forall (Scalar : Type) (convert : ElemType -> ElemType -> Scalar -> Scalar)
         (blank : Scalar) (w : El.World) (a : nat) (A : El.DistMatrixObj)
         (T : ElemType) (U V : Dist) (ctrl : ElementalProxyCtrl)
         (px : El.DistMatrixProxy) (w1 : El.World),
    El.store w !! a = Some A ->
    ((exists locked,
        El.DistMatrixReadProxy convert blank locked T U V a ctrl w
          = Some (px, w1)) \/
     El.DistMatrixReadWriteProxy convert blank T U V a ctrl w
       = Some (px, w1) ->
     exists P,
       El.store w1 !! El.GetLocked px = Some P /\
       El.Matches T U V P ctrl /\
       El.objHeight P = El.objHeight A /\ El.objWidth P = El.objWidth A /\
       (forall i j,
          El.objEntries P i j =
          if El.needDelete_ px
          then convert (El.objElem A) T (El.objEntries A i j)
          else El.objEntries A i j) /\
       El.store w1 !! a = Some A) /\
    (El.DistMatrixWriteProxy blank T U V a ctrl w = Some (px, w1) ->
     exists P,
       El.store w1 !! El.GetLocked px = Some P /\
       El.Matches T U V P ctrl /\
       El.objHeight P = El.objHeight A /\ El.objWidth P = El.objWidth A /\
       (El.needDelete_ px = true ->
        forall i j, El.objEntries P i j = blank) /\
       El.store w1 !! a = Some A).
Proof.
  intros Scalar convert blank w a A T U V ctrl px w1 Ha.
  destruct (El.aliases T U V A ctrl) eqn:Hal.
  - (* the source is handed out *)
    pose proof (proj1 (aliases_Matches T U V A ctrl) Hal) as HM.
    split.
    + intros Hc.
      unfold El.DistMatrixReadProxy, El.DistMatrixReadWriteProxy in Hc.
      rewrite Ha in Hc. cbn [mbind option_bind] in Hc. rewrite Hal in Hc.
      exists A.
      destruct Hc as [[locked Hc]|Hc]; injection Hc as <- <-; cbn;
        repeat split; try assumption; apply HM.
    + intros Hc.
      unfold El.DistMatrixWriteProxy in Hc. rewrite Ha in Hc.
      cbn [mbind option_bind] in Hc. rewrite Hal in Hc.
      injection Hc as <- <-. exists A. cbn.
      repeat split; try assumption; try apply HM. discriminate.
  - (* the proxy is a new object *)
    destruct (proxy_copy_shape convert blank w a A T U V ctrl Ha Hal)
      as (Hf & Hp & HR & (ww & HW & HWs) & (wrw & HRW & HRWs)).
    pose proof (Matches_freshProxy blank T U V ctrl) as HM.
    split.
    + intros Hc.
      assert (Hr : El.GetLocked px = fresh (dom (El.store w)) /\
                   El.needDelete_ px = true /\
                   El.store w1 =
                   <[fresh (dom (El.store w)) :=
                       El.CopyObj convert A (El.freshProxy blank T U V ctrl)]>
                     (El.store w)).
      { destruct Hc as [[locked Hc]|Hc].
        - destruct (HR locked) as (wr & HRe & HRs). rewrite HRe in Hc.
          injection Hc as <- <-. auto.
        - rewrite HRW in Hc. injection Hc as <- <-. auto. }
      destruct Hr as (-> & -> & ->).
      exists (El.CopyObj convert A (El.freshProxy blank T U V ctrl)).
      split; [apply lookup_insert_eq|].
      split; [exact HM|]. split; [reflexivity|]. split; [reflexivity|].
      split.
      * intros i j. cbn [El.CopyObj El.objEntries El.objElem].
        destruct HM as (-> & _). reflexivity.
      * rewrite lookup_insert_ne by exact Hf. exact Ha.
    + intros Hc. rewrite HW in Hc. injection Hc as <- <-.
      exists (El.Resize blank (El.objHeight A) (El.objWidth A)
                (El.freshProxy blank T U V ctrl)).
      rewrite HWs. cbn [El.GetLocked El.prox_ El.needDelete_].
      split; [apply lookup_insert_eq|].
      split; [exact HM|]. split; [reflexivity|]. split; [reflexivity|].
      split; [intros _ i j; reflexivity|].
      rewrite lookup_insert_ne by exact Hf. exact Ha.
Qed.

Lemma proxy_hands_out_requested_class_witness :
  let A := El.mkObj Double MC MR ELEMENT 0 0 0 2 2 (fun _ _ => 7%Z) in
  let w := El.mkWorld {[ 5%nat := A ]} [] in
  let ctrl := mkCtrl true false false 3 0 0 in
  El.store w !! 5%nat = Some A /\
  exists px w1 P,
    El.DistMatrixWriteProxy 0%Z Double STAR STAR 5 ctrl w = Some (px, w1) /\
    El.store w1 !! El.GetLocked px = Some P /\
    El.Matches Double STAR STAR P ctrl.
Proof.
  intros A w ctrl.
  assert (Ha : El.store w !! 5%nat = Some A) by reflexivity.
  split; [exact Ha|].
  destruct (El.DistMatrixWriteProxy 0%Z Double STAR STAR 5 ctrl w)
    as [[px w1]|] eqn:Hc.
  - destruct (proj2 (proxy_hands_out_requested_class Z (fun _ _ z => z) 0%Z
                       w 5%nat A Double STAR STAR ctrl px w1 Ha) Hc)
      as (P & HP & HM & _).
    exists px, w1, P. split; [reflexivity|]. split; [exact HP|exact HM].
  - exfalso. unfold El.DistMatrixWriteProxy in Hc. rewrite Ha in Hc.
    cbn in Hc. discriminate Hc.
Defined.

(** X11.  The lifetime of a proxy leaves the heap as it found it, apart from
    the source: every other address holds what it held before the
    constructor ran, so the temporary is always freed, also when an
    exception is propagating.  A read proxy never writes back: what is
    changed through a copied read proxy is discarded, and what is changed
    through an aliased one is changed in the source. *)
Theorem proxy_lifetime_restores_heap :
  forall (Scalar : Type) (convert : ElemType -> ElemType -> Scalar -> Scalar)
         (blank : Scalar) (w : El.World) (a : nat) (A : El.DistMatrixObj)
         (T : ElemType) (U V : Dist) (ctrl : ElementalProxyCtrl)
         (px : El.DistMatrixProxy) (w1 : El.World)
         (f : El.DistMatrixObj -> El.DistMatrixObj),
    El.store w !! a = Some A ->
    (forall locked,
       El.DistMatrixReadProxy convert blank locked T U V a ctrl w
         = Some (px, w1) ->
       let w3 := El.destroyReadProxy px (El.mutate (El.prox_ px) f w1) in
       (forall b, b <> a -> El.store w3 !! b = El.store w !! b) /\
       El.store w3 !! a = Some (if El.needDelete_ px then A else f A)) /\
    (forall uncaught,
       El.DistMatrixWriteProxy blank T U V a ctrl w = Some (px, w1) \/
       El.DistMatrixReadWriteProxy convert blank T U V a ctrl w
         = Some (px, w1) ->
       let w3 := El.destroyWriteProxy convert px uncaught
                   (El.mutate (El.prox_ px) f w1) in
       forall b, b <> a -> El.store w3 !! b = El.store w !! b).
Proof.
  intros Scalar convert blank w a A T U V ctrl px w1 f Ha.
  destruct (El.aliases T U V A ctrl) eqn:Hal.
  - (* the source is handed out *)
    split.
    + intros locked Hc. unfold El.DistMatrixReadProxy in Hc.
      rewrite Ha in Hc. cbn [mbind option_bind] in Hc. rewrite Hal in Hc.
      injection Hc as <- <-. cbn. split.
      * intros b Hb. apply lookup_alter_ne. congruence.
      * rewrite lookup_alter_eq, Ha. reflexivity.
    + intros uncaught Hc.
      unfold El.DistMatrixWriteProxy, El.DistMatrixReadWriteProxy in Hc.
      rewrite Ha in Hc. cbn [mbind option_bind] in Hc. rewrite Hal in Hc.
      assert (Hpx : px = El.mkProxy false false false a a /\ w1 = w)
        by (destruct Hc as [Hc|Hc]; injection Hc as <- <-; auto).
      destruct Hpx as [-> ->]. cbn. intros b Hb.
      apply lookup_alter_ne. congruence.
  - (* the proxy is a new object *)
    destruct (proxy_copy_shape convert blank w a A T U V ctrl Ha Hal)
      as (Hf & Hp & HR & (ww & HW & HWs) & (wrw & HRW & HRWs)).
    set (p := fresh (dom (El.store w))) in *.
    assert (Hdel : forall (P : @El.DistMatrixObj Scalar) b,
              b <> a ->
              base.delete p (alter f p (<[p := P]> (El.store w))) !! b
              = El.store w !! b).
    { intros P b Hb. destruct (Nat.eq_dec b p) as [->|Hbp].
      - rewrite lookup_delete_eq, Hp. reflexivity.
      - rewrite lookup_delete_ne by congruence.
        rewrite lookup_alter_ne by congruence.
        apply lookup_insert_ne. congruence. }
    split.
    + intros locked Hc. destruct (HR locked) as (wr & HRe & HRs).
      rewrite HRe in Hc. injection Hc as <- <-.
      unfold El.destroyReadProxy, El.mutate, El.delete. cbn. rewrite HRs.
      split.
      * intros b Hb. apply Hdel. exact Hb.
      * rewrite lookup_delete_ne by exact Hf.
        rewrite lookup_alter_ne by exact Hf.
        rewrite lookup_insert_ne by exact Hf. exact Ha.
    + intros uncaught Hc.
      assert (Hs : px = El.mkProxy false true true a p /\
                   exists P, El.store w1 = <[p := P]> (El.store w)).
      { destruct Hc as [Hc|Hc].
        - rewrite HW in Hc. injection Hc as <- <-. eauto.
        - rewrite HRW in Hc. injection Hc as <- <-. eauto. }
      destruct Hs as (-> & P & Hs).
      unfold El.destroyWriteProxy, El.mutate, El.delete, El.Copy. cbn.
      rewrite Hs. intros b Hb. destruct uncaught; cbn.
      * apply Hdel. exact Hb.
      * destruct (alter f p (<[p := P]> (El.store w)) !! p) as [P'|];
          [destruct (alter f p (<[p := P]> (El.store w)) !! a) as [B|]|];
          try (apply Hdel; exact Hb).
        destruct (Nat.eq_dec b p) as [->|Hbp].
        -- rewrite lookup_delete_eq, Hp. reflexivity.
        -- rewrite lookup_delete_ne by congruence.
           rewrite lookup_insert_ne by congruence.
           rewrite lookup_alter_ne by congruence.
           apply lookup_insert_ne. congruence.
Qed.

Lemma proxy_lifetime_restores_heap_witness :
  let A := El.mkObj Double MC MR ELEMENT 0 0 0 2 2 (fun _ _ => 7%Z) in
  let w := El.mkWorld {[ 5%nat := A ]} [] in
  let ctrl := mkCtrl false false false 0 0 0 in
  El.store w !! 5%nat = Some A /\
  exists px w1,
    El.DistMatrixReadProxy (fun _ _ z => z) 0%Z false Double STAR STAR 5
      ctrl w = Some (px, w1) /\
    let w3 := El.destroyReadProxy px
                (El.mutate (El.prox_ px) (El.SetRoot 1) w1) in
    (forall b, b <> 5%nat -> El.store w3 !! b = El.store w !! b) /\
    El.store w3 !! 5%nat = Some (if El.needDelete_ px then A
                                 else El.SetRoot 1 A).
Proof.
  intros A w ctrl.
  assert (Ha : El.store w !! 5%nat = Some A) by reflexivity.
  split; [exact Ha|].
  destruct (El.DistMatrixReadProxy (fun _ _ z => z) 0%Z false Double STAR
              STAR 5 ctrl w) as [[px w1]|] eqn:Hc.
  - exists px, w1. split; [reflexivity|].
    exact (proj1 (proxy_lifetime_restores_heap Z (fun _ _ z => z) 0%Z w
                    5%nat A Double STAR STAR ctrl px w1 (El.SetRoot 1) Ha)
             false Hc).
  - exfalso. unfold El.DistMatrixReadProxy in Hc. rewrite Ha in Hc.
    cbn in Hc. discriminate Hc.
Defined.

(** ** The diagonal of a diagonal *)

(** X12.  The diagonal [ElDistMatrixGetDiagonal] returns keeps the element
    type of the matrix and has a class [ElDistMatrixCreateSpecific]
    accepts, a column vector distribution unless the source is
    [CIRC,CIRC].  Taking the diagonal of that diagonal gives its own class
    again, with one exception: the diagonal of a [STAR,MR] matrix is
    [MR,STAR], which [ElDistMatrixGetDiagonal] rejects. *)
Theorem GetDiagonal_of_diagonal (A D : DistMatrixClass) :
  CInterface.ElDistMatrixGetDiagonal A = (EL_SUCCESS, Some D) ->
  classElem D = classElem A /\
  CInterface.ElDistMatrixCreateSpecific
    (classElem D) (classColDist D) (classRowDist D) = (EL_SUCCESS, Some D) /\
  (classRowDist D = STAR \/ classColDist A = CIRC /\ classRowDist A = CIRC) /\
  (CInterface.ElDistMatrixGetDiagonal D = (EL_SUCCESS, Some D) \/
   classColDist A = STAR /\ classRowDist A = MR /\
   CInterface.ElDistMatrixGetDiagonal D = (EL_RUNTIME_ERROR, None)).
Proof.
  destruct A as [T U V]. unfold CInterface.ElDistMatrixGetDiagonal.
  cbn [classElem classColDist classRowDist].
  destruct U, V; cbn; intros H; try discriminate H;
    injection H as <-; cbn; repeat split; auto.
Qed.

Lemma GetDiagonal_of_diagonal_witness :
  CInterface.ElDistMatrixGetDiagonal (mkClass Float STAR MR)
    = (EL_SUCCESS, Some (mkClass Float MR STAR)) /\
  CInterface.ElDistMatrixGetDiagonal (mkClass Float MR STAR)
    = (EL_RUNTIME_ERROR, None).
Proof.
  assert (H : CInterface.ElDistMatrixGetDiagonal (mkClass Float STAR MR)
              = (EL_SUCCESS, Some (mkClass Float MR STAR))) by reflexivity.
  split; [exact H|].
  destruct (GetDiagonal_of_diagonal _ _ H) as (_ & _ & _ & [Hd|(_ & _ & Hd)]).
  - discriminate Hd.
  - exact Hd.
Defined.

(** ** Lazy and eager pivot selection *)

Lemma bkDecide_shift (third : bool) (g alpha omega rho arr : R)
  (k i0 r : nat) :
  bkDecide third g alpha omega rho arr (k + i0) (k + r)
  = (pv <- bkDecide third g alpha omega rho arr i0 r ;;
     Return (shiftPivot k pv)).
Proof.
  unfold bkDecide.
  repeat match goal with
  | |- context [if ?c then _ else _] => destruct c
  end; reflexivity.
Qed.

(** A rule at column [k] of the entry function [E] decides as the rule at
    column 0 of the block that starts at [(k,k)]. *)
Lemma bkRule_shift (third : bool) (dlo : nat) (g : R)
  (E : nat -> nat -> R) (n k : nat) :
  bkRule third dlo g E n k
  = (pv <- bkRule third dlo g (fun i j => E (k + i)%nat (k + j)%nat)
             (n - k) 0 ;;
     Return (shiftPivot k pv)).
Proof.
  unfold bkRule. cbv zeta.
  set (E' := fun i j => E (k + i)%nat (k + j)%nat).
  assert (Hcol : colScan E' (n - k) 0 = colScan E n k).
  { unfold colScan, E'. replace (n - k - 0 - 1)%nat with (n - k - 1)%nat
      by lia.
    apply VectorMax_scan_ext. intros i _. f_equal; lia. }
  rewrite Hcol.
  set (r' := (index (colScan E n k) + (0 + 1))%nat).
  replace (index (colScan E n k) + (k + 1))%nat with (k + r')%nat
    by (unfold r'; lia).
  assert (Hleft : leftScan E' 0 r' = leftScan E k (k + r')).
  { unfold leftScan, E'. replace (k + r' - k)%nat with (r' - 0)%nat by lia.
    apply VectorMax_scan_ext. intros j _. f_equal; lia. }
  assert (Hbelow : belowScan E' (n - k) r' (r' + dlo)
                   = belowScan E n (k + r') (k + r' + dlo)).
  { unfold belowScan, E'.
    replace (n - (k + r' + dlo))%nat with (n - k - (r' + dlo))%nat by lia.
    apply VectorMax_scan_ext. intros i _. f_equal; lia. }
  rewrite Hleft, Hbelow.
  replace (E' 0%nat 0%nat) with (E k k)
    by (unfold E'; f_equal; lia).
  replace (E' r' r') with (E (k + r')%nat (k + r')%nat) by reflexivity.
  rewrite <- bkDecide_shift. rewrite Nat.add_0_r. reflexivity.
Qed.

(** X13.  The lazy rules of the panel choose what the plain rules choose on
    the trailing block with the accumulated update applied: the same
    exception, or the same pivot with its indices counted from the start
    of the panel. *)
Theorem ChoosePanelPivot_as_ChoosePivot (A X Y : Matrix) (k : nat)
  (pivotType : ldl.LDLPivotType) (gamma : R) :
  pivotType <> ldl.BUNCH_PARLETT ->
  ldl.ChoosePanelPivot A X Y k pivotType gamma
  = (pv <- ldl.ChoosePivot (Trailing A X Y k) pivotType gamma ;;
     Return (shiftPivot k pv)).
Proof.
  intros Hp.
  destruct pivotType; cbn [ldl.ChoosePanelPivot ldl.ChoosePivot];
    try reflexivity; try (exfalso; apply Hp; reflexivity).
  - rewrite PanelBunchKaufmanA_bkRule, BunchKaufmanA_bkRule.
    apply bkRule_shift.
  - rewrite PanelBunchKaufmanA_bkRule, BunchKaufmanA_bkRule.
    apply bkRule_shift.
  - rewrite PanelBunchKaufmanD_bkRule, BunchKaufmanD_bkRule.
    apply bkRule_shift.
Qed.

Lemma ChoosePanelPivot_as_ChoosePivot_witness :
  ldl.BUNCH_KAUFMAN_A <> ldl.BUNCH_PARLETT /\
  ldl.ChoosePivot (Trailing (ViewRange A_swap 0 0 2 2) (Zeros 2 1)
                     (Zeros 2 1) 0) ldl.BUNCH_KAUFMAN_A 0
  = Return (Pivot2x2 0 1).
Proof.
  assert (Hp : ldl.BUNCH_KAUFMAN_A <> ldl.BUNCH_PARLETT) by discriminate.
  split; [exact Hp|].
  pose proof (ChoosePanelPivot_as_ChoosePivot (ViewRange A_swap 0 0 2 2)
                (Zeros 2 1) (Zeros 2 1) 0 ldl.BUNCH_KAUFMAN_A 0 Hp) as H.
  rewrite ChoosePanelPivot_A_swap in H.
  destruct (ldl.ChoosePivot _ ldl.BUNCH_KAUFMAN_A 0) as [[f|f0 f1]| |];
    cbn [bind shiftPivot] in H; try discriminate H.
  injection H as <- <-. reflexivity.
Defined.

(** ** The guard of the Kravchuk sum *)

(** When none of the remaining indices passes the guard, the loop leaves
    the sum as it is. *)
Lemma Kravchuk_loop_skips (Choose : Z -> Z -> R) (Pow : R -> Z -> R)
  (primePower k codeLength x : Z) (m : nat) :
  forall (i : Z) (eval : R),
    (forall j, (i <= j < i + Z.of_nat m)%Z ->
       (x < j \/ codeLength - x < k - j)%Z) ->
    Delsarte.Kravchuk_loop Choose Pow primePower k codeLength x m i eval
    = eval.
Proof.
  induction m as [|m IH]; intros i eval Hg; cbn [Delsarte.Kravchuk_loop];
    [reflexivity|].
  assert (Hi : (x >=? i)%Z && (codeLength - x >=? k - i)%Z = false).
  { destruct (Hg i ltac:(lia)) as [H|H].
    - replace (x >=? i)%Z with false by lia. reflexivity.
    - replace (codeLength - x >=? k - i)%Z with false by lia.
      apply andb_false_r. }
  rewrite Hi. apply IH. intros j Hj. apply Hg. lia.
Qed.

(** X14.  [Kravchuk] returns exactly 0 when the degree [k] is negative or
    larger than the code length, or when [x] is not between 0 and the code
    length: the guard of its loop lets no term into the sum, whatever
    [Choose] and [Pow] compute. *)
Theorem Kravchuk_zero_outside_range (Choose : Z -> Z -> R)
  (Pow : R -> Z -> R) (primePower k codeLength x : Z) :
  SmallInt k -> SmallInt codeLength -> SmallInt x ->
  (k < 0 \/ codeLength < k \/ x < 0 \/ codeLength < x)%Z ->
  Delsarte.Kravchuk Choose Pow primePower k codeLength x = 0.
Proof.
  intros _ _ _ Hout. unfold Delsarte.Kravchuk.
  apply Kravchuk_loop_skips. intros j Hj. lia.
Qed.

Lemma Kravchuk_zero_outside_range_witness :
  SmallInt 3 /\ SmallInt 2 /\ SmallInt 1 /\
  Delsarte.Kravchuk (fun _ _ => 1) (fun _ _ => 1) 2 3 2 1 = 0.
Proof.
  assert (H3 : SmallInt 3) by (unfold SmallInt; lia).
  assert (H2 : SmallInt 2) by (unfold SmallInt; lia).
  assert (H1 : SmallInt 1) by (unfold SmallInt; lia).
  split; [exact H3|]. split; [exact H2|]. split; [exact H1|].
  apply (Kravchuk_zero_outside_range (fun _ _ => 1) (fun _ _ => 1) 2 3 2 1
           H3 H2 H1).
  lia.
Defined.
